(** * YASK stencil kernel: region shifting, temporal-block geometry, rank setup,
    halo bookkeeping and element access.

    A shallow embedding of the parts of the YASK runtime (context.cpp,
    setup.cpp, yk_var_apis.cpp) and of the YASK compiler's [Var] class
    (Var.cpp) that the properties below are about.

    Integer model.  [idx_t] is a signed 64-bit integer and [int] a signed
    32-bit one.  Signed overflow is undefined behaviour in C++, so every
    defined execution of the arithmetic below agrees with arithmetic in [Z];
    the only narrowing conversions that the code performs on purpose
    ([int(...)] and [mandist += ...] in [setupRank]) are written out with
    [to_int].  Integer division is C++ division (truncation), i.e. [Z.quot]. *)

From Stdlib Require Import ZArith Lia List Bool.
From stdpp Require Import base functions gmap strings list fin_maps sorting.

Local Open Scope Z_scope.

(** ** Common macros and index tuples *)

Abbreviation idx_t := Z (only parsing).

(** [#define CEIL_DIV(numer, denom) (((numer) + (denom) - 1) / (denom))] *)
Definition CEIL_DIV (numer denom : Z) : Z := Z.quot (numer + denom - 1) denom.

(** [#define ROUND_UP(n, mult) (CEIL_DIV(n, mult) * (mult))] *)
Definition ROUND_UP (n mult : Z) : Z := CEIL_DIV n mult * mult.

(** Narrowing conversion to a 32-bit [int] (two's complement wrap). *)
Definition to_int (z : Z) : Z := (z + 2^31) mod 2^32 - 2^31.

(** [Indices]: one value per stencil dim (step dim and domain dims).
    Tuples over the domain dims only are lists indexed by [j]. *)
Abbreviation Indices := (list Z) (only parsing).

(** [v[i]] on an [Indices] or a tuple; an index past the end is undefined
    behaviour in the source and reads 0 here. *)
Definition at_ (v : list Z) (i : nat) : Z := v !!! i.

(** [v[i] = x]. *)
Definition set_at (v : list Z) (i : nat) (x : Z) : list Z := <[i := x]> v.

(** Mathematical ceiling and round-up on non-negative numbers, as the
    specification words them; used to state results. *)
Definition ceil_div_spec (n d : Z) : Z := (n + d - 1) / d.
Definition round_up_spec (n m : Z) : Z := ceil_div_spec n m * m.

(** ** Loops over the domain dims *)

(** [DOMAIN_VAR_LOOP(i, j)]: [j] runs over the domain dims in order and [i]
    is the position of that dim among the stencil dims, which skips the
    step dim at [step_posn]. *)
Definition stencil_posn (step_posn j : nat) : nat :=
  if (j <? step_posn)%nat then j else S j.

(** The loop itself: run [body j] for [j = 0 .. n-1] on a state. *)
Definition domain_var_loop {S : Type} (n : nat) (body : nat -> S -> S) (s : S) : S :=
  foldl (fun st j => body j st) s (seq 0 n).

(** ** The stencil context: tiling geometry (context.cpp, setup.cpp)

    The fields of [StencilContext], its settings [_opts] and its dims that
    region shifting and the temporal-block set-up read or write. *)

Record BoundingBox := {
  bb_begin : list Z;
  bb_end : list Z
}.

(** A bundle pack as far as shifting reads it: [bp->getBB()]. *)
Record BundlePack := {
  getBB : BoundingBox
}.

Record KernelSettings := {
  _region_sizes : Indices;
  _block_sizes : Indices;
  _mini_block_sizes : Indices
}.

Record StencilContext := {
  step_posn : nat;            (* position of the step dim in the stencil dims *)
  num_domain_dims : nat;      (* NUM_DOMAIN_DIMS, the bound of DOMAIN_VAR_LOOP *)
  fold_pts : list Z;          (* _dims->_fold_pts *)
  _opts : KernelSettings;
  num_packs : Z;              (* stPacks.size() *)
  max_halos : list Z;
  rank_bb : BoundingBox;
  wf_steps : Z;
  wf_angles : list Z;
  left_wf_exts : list Z;
  right_wf_exts : list Z;
  tb_steps : Z;
  num_tb_shifts : Z;
  tb_angles : list Z;
  tb_widths : list Z;
  tb_tops : list Z;
  mb_angles : list Z
}.

(** [ScanIndices]: the [begin] and [end] index vectors that shifting writes. *)
Record ScanIndices := {
  si_begin : Indices;
  si_end : Indices
}.

(** Body of the loop of [StencilContext::shift_region] for domain dim [j]. *)
Definition shift_region_dim (ctx : StencilContext)
    (base_start base_stop : Indices) (shift_num : Z) (bp : option BundlePack)
    (j : nat) (st : bool * ScanIndices) : bool * ScanIndices :=
  let '(ok, idxs) := st in
  let i := stencil_posn (step_posn ctx) j in
  let angle := at_ (wf_angles ctx) j in
  let rstart := at_ base_start i - angle * shift_num in
  let rstop := at_ base_stop i - angle * shift_num in
  let rstart :=
    match bp with
    | Some p => Z.max rstart (at_ (bb_begin (getBB p)) j)
    | None => rstart
    end in
  let rstop :=
    match bp with
    | Some p => Z.min rstop (at_ (bb_end (getBB p)) j)
    | None => rstop
    end in
  let dbegin := at_ (bb_begin (rank_bb ctx)) j in
  let dend := at_ (bb_end (rank_bb ctx)) j in
  let rstart :=
    if (rstart <? dbegin) && negb (at_ (left_wf_exts ctx) j =? 0)
    then Z.max rstart (dbegin - at_ (left_wf_exts ctx) j + shift_num * angle)
    else rstart in
  let rstop :=
    if (dend <? rstop) && negb (at_ (right_wf_exts ctx) j =? 0)
    then Z.min rstop (dend + at_ (right_wf_exts ctx) j - shift_num * angle)
    else rstop in
  let idxs := {| si_begin := set_at (si_begin idxs) i rstart;
                 si_end := set_at (si_end idxs) i rstop |} in
  (if rstop <=? rstart then false else ok, idxs).

(** [StencilContext::shift_region]: returns [ok] and the updated [idxs]. *)
Definition shift_region (ctx : StencilContext)
    (base_start base_stop : Indices) (shift_num : Z) (bp : option BundlePack)
    (idxs : ScanIndices) : bool * ScanIndices :=
  domain_var_loop (num_domain_dims ctx)
    (shift_region_dim ctx base_start base_stop shift_num bp) (true, idxs).

(** The start and stop that the specification gives for dim [j] at shift
    count [s]: shift left, clamp to the pack's box, then raise the start
    inside the left extension and lower the stop inside the right one. *)
Definition region_start_spec (ctx : StencilContext) (base_start : Indices)
    (s : Z) (bp : option BundlePack) (j : nat) : Z :=
  let angle := at_ (wf_angles ctx) j in
  let shifted := at_ base_start (stencil_posn (step_posn ctx) j) - s * angle in
  let clamped :=
    match bp with
    | Some p => Z.max shifted (at_ (bb_begin (getBB p)) j)
    | None => shifted
    end in
  let domain_begin := at_ (bb_begin (rank_bb ctx)) j in
  let left_wf_ext := at_ (left_wf_exts ctx) j in
  if decide (clamped < domain_begin /\ left_wf_ext <> 0)
  then Z.max clamped (domain_begin - left_wf_ext + s * angle)
  else clamped.

Definition region_stop_spec (ctx : StencilContext) (base_stop : Indices)
    (s : Z) (bp : option BundlePack) (j : nat) : Z :=
  let angle := at_ (wf_angles ctx) j in
  let shifted := at_ base_stop (stencil_posn (step_posn ctx) j) - s * angle in
  let clamped :=
    match bp with
    | Some p => Z.min shifted (at_ (bb_end (getBB p)) j)
    | None => shifted
    end in
  let domain_end := at_ (bb_end (rank_bb ctx)) j in
  let right_wf_ext := at_ (right_wf_exts ctx) j in
  if decide (domain_end < clamped /\ right_wf_ext <> 0)
  then Z.min clamped (domain_end + right_wf_ext - s * angle)
  else clamped.

(** Invariant of the loop of [shift_region]: after [m] dims, the first [m]
    dims hold the specified bounds and [ok] is false exactly when one of
    them is empty. *)
Definition shift_region_inv (ctx : StencilContext) (base_start base_stop : Indices)
    (shift_num : Z) (bp : option BundlePack) (idxs0 : ScanIndices)
    (m : nat) (st : bool * ScanIndices) : Prop :=
  length (si_begin (snd st)) = length (si_begin idxs0) /\
  length (si_end (snd st)) = length (si_end idxs0) /\
  (forall j, (j < m)%nat ->
     at_ (si_begin (snd st)) (stencil_posn (step_posn ctx) j)
     = region_start_spec ctx base_start shift_num bp j /\
     at_ (si_end (snd st)) (stencil_posn (step_posn ctx) j)
     = region_stop_spec ctx base_stop shift_num bp j) /\
  (fst st = false <->
     exists j, (j < m)%nat /\
       region_stop_spec ctx base_stop shift_num bp j
       <= region_start_spec ctx base_start shift_num bp j).

(** A two-dim context used to exercise the shifting code: step dim first,
    wave-front angles 2 and 4, a left extension in the first dim and a right
    extension in the second. *)
Definition ctx_wf_example : StencilContext := {|
  step_posn := 0;
  num_domain_dims := 2;
  fold_pts := [2; 4];
  _opts := {| _region_sizes := [2; 32; 32];
              _block_sizes := [0; 16; 16];
              _mini_block_sizes := [0; 16; 16] |};
  num_packs := 1;
  max_halos := [2; 4];
  rank_bb := {| bb_begin := [0; 0]; bb_end := [64; 64] |};
  wf_steps := 2;
  wf_angles := [2; 4];
  left_wf_exts := [2; 0];
  right_wf_exts := [0; 4];
  tb_steps := 0;
  num_tb_shifts := 0;
  tb_angles := [0; 0];
  tb_widths := [16; 16];
  tb_tops := [16; 16];
  mb_angles := [0; 0]
|}.

(** ** Temporal-block set-up: [StencilContext::update_tb_info] (setup.cpp) *)

(** [t.setValsSame(v)]. *)
Definition setValsSame (t : list Z) (v : Z) : list Z := replicate (length t) v.

(** Body of the first loop of [update_tb_info] for domain dim [j]; the state
    is [(mb_angles, tb_angles, max_steps)]. *)
Definition tb_angles_dim (ctx : StencilContext) (j : nat)
    (st : list Z * list Z * Z) : list Z * list Z * Z :=
  let '(mb_angles, tb_angles, max_steps) := st in
  let i := stencil_posn (step_posn ctx) j in
  let rnsize := at_ (_region_sizes (_opts ctx)) i in
  let blksize := at_ (_block_sizes (_opts ctx)) i in
  let mblksize := at_ (_mini_block_sizes (_opts ctx)) i in
  let fpts := at_ (fold_pts ctx) j in
  let angle := ROUND_UP (at_ (max_halos ctx) j) fpts in
  let mb_angle := if mblksize <? blksize then angle else 0 in
  let mb_angles := set_at mb_angles j mb_angle in
  let tb_angle := if blksize <? rnsize then angle else 0 in
  let tb_angles := set_at tb_angles j tb_angle in
  let max_steps :=
    if 0 <? tb_angle then
      let top_sz := fpts in
      let sh_pts := tb_angle * 2 * num_packs ctx in
      let nsteps := Z.quot (blksize - top_sz + tb_angle * 2) sh_pts in
      Z.min max_steps nsteps
    else max_steps in
  (mb_angles, tb_angles, max_steps).

(** Body of the last loop of [update_tb_info] for domain dim [j]; the state
    is [(tb_widths, tb_tops)], and [num_tb_shifts] and [tb_angles] are the
    values computed before the loop. *)
Definition tb_widths_dim (ctx : StencilContext) (num_tb_shifts : Z)
    (tb_angles : list Z) (j : nat) (st : list Z * list Z) : list Z * list Z :=
  let '(tb_widths, tb_tops) := st in
  let i := stencil_posn (step_posn ctx) j in
  let blk_sz := at_ (_block_sizes (_opts ctx)) i in
  let tb_angle := at_ tb_angles j in
  let tb_widths := set_at tb_widths j blk_sz in
  let tb_tops := set_at tb_tops j blk_sz in
  if (0 <? num_tb_shifts) && (0 <? tb_angle) then
    let fpts := at_ (fold_pts ctx) j in
    let min_top_sz := fpts in
    let sa := num_tb_shifts * tb_angle in
    let min_blk_width := min_top_sz + 2 * sa in
    let blk_width := ROUND_UP (CEIL_DIV blk_sz 2 + sa) fpts in
    let blk_width := Z.max blk_width min_blk_width in
    let top_sz := Z.max (blk_width - 2 * sa) 0 in
    (set_at tb_widths j blk_width, set_at tb_tops j top_sz)
  else (tb_widths, tb_tops).

(** [StencilContext::update_tb_info]. *)
Definition update_tb_info (ctx : StencilContext) : StencilContext :=
  let n := num_domain_dims ctx in
  (* Get requested size. *)
  let tb_steps := at_ (_block_sizes (_opts ctx)) (step_posn ctx) in
  (* Reset all TB and MB vars. *)
  let tb_angles0 := setValsSame (tb_angles ctx) 0 in
  let tb_widths0 := setValsSame (tb_widths ctx) 0 in
  let tb_tops0 := setValsSame (tb_tops ctx) 0 in
  let mb_angles0 := setValsSame (mb_angles ctx) 0 in
  (* Set angles. *)
  let '(mb_angles1, tb_angles1, tb_steps) :=
    if 0 <? tb_steps then
      let max_steps := Z.min tb_steps (wf_steps ctx) in
      let '(mb, tb, max_steps) :=
        domain_var_loop n (tb_angles_dim ctx) (mb_angles0, tb_angles0, max_steps) in
      (mb, tb, Z.min tb_steps max_steps)
    else (mb_angles0, tb_angles0, tb_steps) in
  (* Calc number of shifts based on steps. *)
  let num_tb_shifts :=
    if 0 <? tb_steps then
      let num_tb_shifts := num_packs ctx * tb_steps in
      if 0 <? num_tb_shifts then num_tb_shifts - 1 else num_tb_shifts
    else 0 in
  (* Calc size of base of phase 0 trapezoid. *)
  let '(tb_widths1, tb_tops1) :=
    domain_var_loop n (tb_widths_dim ctx num_tb_shifts tb_angles1)
      (tb_widths0, tb_tops0) in
  {| step_posn := step_posn ctx;
     num_domain_dims := num_domain_dims ctx;
     fold_pts := fold_pts ctx;
     _opts := _opts ctx;
     num_packs := num_packs ctx;
     max_halos := max_halos ctx;
     rank_bb := rank_bb ctx;
     wf_steps := wf_steps ctx;
     wf_angles := wf_angles ctx;
     left_wf_exts := left_wf_exts ctx;
     right_wf_exts := right_wf_exts ctx;
     tb_steps := tb_steps;
     num_tb_shifts := num_tb_shifts;
     tb_angles := tb_angles1;
     tb_widths := tb_widths1;
     tb_tops := tb_tops1;
     mb_angles := mb_angles1 |}.

(** ** Mini-block shifting: [StencilContext::shift_mini_block] (context.cpp) *)

(** The width of the phase-0 block that [shift_mini_block] computes for a
    block spanning [blk_start, blk_stop) in domain dim [j]
    ([sa] and [blk_width] in the source). *)
Definition smb_blk_width (ctx : StencilContext) (j : nat) (blk_start blk_stop : Z) : Z :=
  let tb_angle := at_ (tb_angles ctx) j in
  let sa := (num_tb_shifts ctx + 1) * tb_angle in
  let blk_width :=
    ROUND_UP (CEIL_DIV (blk_stop - blk_start) 2 + sa) (at_ (fold_pts ctx) j) in
  Z.max blk_width (2 * sa + at_ (fold_pts ctx) j).

(** The stop of the phase-0 block before any shift is applied
    ([blk_stop] after the [if (nphases > 1 && !is_one_blk)] statement). *)
Definition smb_phase0_stop (ctx : StencilContext) (j : nat) (nphases : Z)
    (is_one_blk : bool) (block_base_start_i block_base_stop_i : Z) : Z :=
  let blk_start := block_base_start_i in
  let blk_stop := block_base_stop_i in
  if (1 <? nphases) && negb is_one_blk then
    let blk_width := smb_blk_width ctx j blk_start blk_stop in
    Z.min (blk_start + blk_width) block_base_stop_i
  else blk_stop.

(** The arguments of [shift_mini_block] other than [bp] and [idxs]. *)
Record MiniBlockArgs := {
  mb_base_start : Indices;
  mb_base_stop : Indices;
  mb_shift_num : Z;
  adj_block_base_start : Indices;
  adj_block_base_stop : Indices;
  block_base_start : Indices;
  block_base_stop : Indices;
  block_shift_num : Z;
  nphases : Z;
  phase : Z;
  dims_to_bridge : list Z;
  region_base_start : Indices;
  region_base_stop : Indices;
  region_shift_num : Z
}.

(** Body of the loop of [shift_mini_block] for domain dim [j]. *)
Definition shift_mini_block_dim (ctx : StencilContext) (a : MiniBlockArgs)
    (j : nat) (st : bool * ScanIndices) : bool * ScanIndices :=
  let '(ok, idxs) := st in
  let i := stencil_posn (step_posn ctx) j in
  let is_first_blk := at_ (block_base_start a) i <=? at_ (region_base_start a) i in
  let is_last_blk := at_ (region_base_stop a) i <=? at_ (block_base_stop a) i in
  let is_one_blk := is_first_blk && is_last_blk in
  let blk_start := at_ (block_base_start a) i in
  let tb_angle := at_ (tb_angles ctx) j in
  let blk_stop :=
    smb_phase0_stop ctx j (nphases a) is_one_blk blk_start (at_ (block_base_stop a) i) in
  let next_blk_start := at_ (block_base_stop a) i in
  let blk_start := blk_start + tb_angle * block_shift_num a in
  let blk_start := if is_first_blk then at_ (si_begin idxs) i else blk_start in
  let blk_stop := blk_stop - tb_angle * block_shift_num a in
  let blk_stop :=
    if ((nphases a =? 1) || is_one_blk) && is_last_blk
    then at_ (si_end idxs) i else blk_stop in
  let next_blk_start := next_blk_start + tb_angle * block_shift_num a in
  let next_blk_start := if is_last_blk then at_ (si_end idxs) i else next_blk_start in
  let bridged :=
    (0 <? phase a) &&
    existsb (fun k => at_ (dims_to_bridge a) k - 1 =? Z.of_nat j)
            (seq 0 (Z.to_nat (phase a))) in
  let shape_start := if bridged then Z.max blk_stop blk_start else blk_start in
  let shape_stop := if bridged then next_blk_start else blk_stop in
  let ok := if shape_stop <=? shape_start then false else ok in
  if ok then
    let is_first_mb := at_ (mb_base_start a) i <=? at_ (adj_block_base_start a) i in
    let is_last_mb := at_ (adj_block_base_stop a) i <=? at_ (mb_base_stop a) i in
    let is_one_mb := is_first_mb && is_last_mb in
    let mb_start := at_ (mb_base_start a) i in
    let mb_stop := at_ (mb_base_stop a) i in
    let mb_angle := at_ (mb_angles ctx) j in
    let mb_start := if is_one_mb then mb_start else mb_start - mb_angle * mb_shift_num a in
    let mb_stop := if is_one_mb then mb_stop else mb_stop - mb_angle * mb_shift_num a in
    let mb_start := if is_first_mb then shape_start else mb_start in
    let mb_stop := if is_last_mb then shape_stop else mb_stop in
    let mb_start := Z.max mb_start (at_ (si_begin idxs) i) in
    let mb_stop := Z.min mb_stop (at_ (si_end idxs) i) in
    let mb_start := Z.max mb_start shape_start in
    let mb_stop := Z.min mb_stop shape_stop in
    let idxs := {| si_begin := set_at (si_begin idxs) i mb_start;
                   si_end := set_at (si_end idxs) i mb_stop |} in
    (if mb_stop <=? mb_start then false else ok, idxs)
  else (ok, idxs).

(** [StencilContext::shift_mini_block]. *)
Definition shift_mini_block (ctx : StencilContext) (a : MiniBlockArgs)
    (bp : option BundlePack) (idxs : ScanIndices) : bool * ScanIndices :=
  let st := shift_region ctx (region_base_start a) (region_base_stop a)
              (region_shift_num a) bp idxs in
  domain_var_loop (num_domain_dims ctx) (shift_mini_block_dim ctx a) st.

(** A one-dim context with temporal blocking requested: blocks of 16 points
    in regions of 64, folds of 4, a halo of 4, one pack and two steps. *)
Definition ctx_tb_example : StencilContext := {|
  step_posn := 0;
  num_domain_dims := 1;
  fold_pts := [4];
  _opts := {| _region_sizes := [2; 64];
              _block_sizes := [2; 16];
              _mini_block_sizes := [2; 16] |};
  num_packs := 1;
  max_halos := [4];
  rank_bb := {| bb_begin := [0]; bb_end := [64] |};
  wf_steps := 2;
  wf_angles := [0];
  left_wf_exts := [0];
  right_wf_exts := [0];
  tb_steps := 0;
  num_tb_shifts := 0;
  tb_angles := [0];
  tb_widths := [0];
  tb_tops := [0];
  mb_angles := [0]
|}.

(** A call of [shift_mini_block] for the second block, [16, 32), of the
    region [0, 64): phase 0 of two phases, no shift yet, one mini-block
    covering the block. *)
Definition mb_args_example : MiniBlockArgs := {|
  mb_base_start := [0; 16];
  mb_base_stop := [1; 32];
  mb_shift_num := 0;
  adj_block_base_start := [0; 16];
  adj_block_base_stop := [1; 32];
  block_base_start := [0; 16];
  block_base_stop := [1; 32];
  block_shift_num := 0;
  nphases := 2;
  phase := 0;
  dims_to_bridge := [0];
  region_base_start := [0; 0];
  region_base_stop := [1; 64];
  region_shift_num := 0
|}.

(** ** The compiler's [Var]: halo tracking and step-dim allocation (Var.cpp) *)

(** [IntTuple]: dims in insertion order, each with a value; the names of a
    tuple are distinct. *)
Abbreviation IntTuple := (list (string * Z)) (only parsing).

(** [t.lookup(dname)]: the value of dim [dname], if present. *)
Fixpoint tuple_lookup (t : IntTuple) (dname : string) : option Z :=
  match t with
  | [] => None
  | (n, v) :: t' => if decide (n = dname) then Some v else tuple_lookup t' dname
  end.

(** [t.add_dim_back(dname, val)], called when [dname] is not in [t]. *)
Definition add_dim_back (t : IntTuple) (dname : string) (val : Z) : IntTuple :=
  t ++ [(dname, val)].

(** [*p = val] for the pointer [p] returned by [t.lookup(dname)]. *)
Fixpoint tuple_store (t : IntTuple) (dname : string) (val : Z) : IntTuple :=
  match t with
  | [] => []
  | (n, v) :: t' =>
      if decide (n = dname) then (n, val) :: t' else (n, v) :: tuple_store t' dname val
  end.

(** [t.max()]: the largest value of a non-empty tuple (0 for an empty one). *)
Definition tuple_max (t : IntTuple) : Z :=
  match t with
  | [] => 0
  | (_, v) :: t' => foldl (fun m p => Z.max m (snd p)) v t'
  end.

(** [_halos]: stage name -> left side? -> step offset -> halo per dim. *)
Abbreviation halo_map := (gmap string (gmap bool (gmap Z (list (string * Z))))) (only parsing).

Record Var := {
  var_step_dim : option string;   (* get_step_dim(): the step dim, if the var uses it *)
  _halos : halo_map;
  _l1_dist : Z;
  _write_points : gmap string Z;  (* stage name -> step offset written *)
  _step_alloc : Z;                (* allocation requested by API *)
  settings_step_alloc : Z         (* _soln->get_settings()._step_alloc *)
}.

(** The tuple that [_halos[stage_name][left][step_val]] refers to; missing
    entries are created empty by [operator[]]. *)
Definition halos_ref (h : halo_map) (stage_name : string) (left : bool) (step_val : Z)
    : list (string * Z) :=
  default [] (default ∅ (default ∅ (h !! stage_name) !! left) !! step_val).

(** [_halos[stage_name][left][step_val] = t] (the map after the reference has
    been taken and the tuple behind it set to [t]). *)
Definition halos_assign (h : halo_map) (stage_name : string) (left : bool) (step_val : Z)
    (t : list (string * Z)) : halo_map :=
  let h2 := default ∅ (h !! stage_name) in
  let h3 := default ∅ (h2 !! left) in
  <[stage_name := <[left := <[step_val := t]> h3]> h2]> h.

(** The halo value stored for [(stage, side, step offset, dim)], if any. *)
Definition halo_value (h : halo_map) (stage_name : string) (left : bool) (step_val : Z)
    (dname : string) : option Z :=
  h2 ← h !! stage_name; h3 ← h2 !! left; t ← h3 !! step_val; tuple_lookup t dname.

(** Body of the loop of [Var::update_halo(stage_name, offsets)] for one dim
    of [offsets]; the state is [(_halos, l1_dist, changed)]. *)
Definition update_halo_dim (step_dim : option string) (stage_name : string)
    (step_val : Z) (st : halo_map * Z * bool) (dim : string * Z)
    : halo_map * Z * bool :=
  let '(h, l1_dist, changed) := st in
  let '(dname, val) := dim in
  let left := val <=? 0 in
  let halos := halos_ref h stage_name left step_val in
  let h := halos_assign h stage_name left step_val halos in
  if decide (step_dim = Some dname) then (h, l1_dist, changed)
  else
    let val := Z.abs val in
    let l1_dist := if 0 <? val then l1_dist + 1 else l1_dist in
    match tuple_lookup halos dname with
    | None =>
        (halos_assign h stage_name left step_val (add_dim_back halos dname val),
         l1_dist, true)
    | Some p =>
        if p <? val
        then (halos_assign h stage_name left step_val (tuple_store halos dname val),
              l1_dist, true)
        else (h, l1_dist, changed)
    end.

(** Modelled from the spec: [update_l1_dist(l1_dist)], whose definition
    (Var.hpp) is not part of the sources at hand.  The comment of its caller
    says "This var's halos and L1 dist can only be increased", so it keeps
    the larger value. *)
Definition update_l1_dist (v : Var) (l1_dist : Z) : Z := Z.max (_l1_dist v) l1_dist.

(** [Var::update_halo(stage_name, offsets)]: the updated var and the
    returned [changed] flag. *)
Definition update_halo (v : Var) (stage_name : string) (offsets : list (string * Z))
    : Var * bool :=
  let step_val :=
    match var_step_dim v with
    | Some sd => default 0 (tuple_lookup offsets sd)
    | None => 0
    end in
  let '(h, l1_dist, changed) :=
    foldl (update_halo_dim (var_step_dim v) stage_name step_val)
          (_halos v, 0, false) offsets in
  ({| var_step_dim := var_step_dim v;
      _halos := h;
      _l1_dist := update_l1_dist v l1_dist;
      _write_points := _write_points v;
      _step_alloc := _step_alloc v;
      settings_step_alloc := settings_step_alloc v |},
   changed).

(** [Var::update_write_points(stage_name, offsets)]; [sdims_step_dim] is the
    solution's step dim. *)
Definition update_write_points (sdims_step_dim : string) (v : Var)
    (stage_name : string) (offsets : list (string * Z)) : Var :=
  match tuple_lookup offsets sdims_step_dim with
  | Some sofs =>
      {| var_step_dim := var_step_dim v;
         _halos := _halos v;
         _l1_dist := _l1_dist v;
         _write_points := <[stage_name := sofs]> (_write_points v);
         _step_alloc := _step_alloc v;
         settings_step_alloc := settings_step_alloc v |}
  | None => v
  end.

(** [Var::StepDimInfo]. *)
Record StepDimInfo := {
  step_dim_size : Z;
  writeback_ofs : gmap string Z
}.

(** Modelled from the spec: the default-constructed [StepDimInfo], whose
    declaration (member initialisers in Var.hpp) is not part of the sources
    at hand; a var without step dim or without halos is allocated one step
    and has no write-back offsets. *)
Definition sdi_default : StepDimInfo :=
  {| step_dim_size := 1; writeback_ofs := ∅ |}.

(** [const int unset = -9999]. *)
Definition unset : Z := -9999.

(** The order of the keys of a [std::map<int, IntTuple>]. *)
Definition ofs_le (a b : Z * list (string * Z)) : Prop := a.1 <= b.1.

#[global] Instance ofs_le_dec : RelDecision ofs_le :=
  fun a b => decide (a.1 <= b.1).

(** The entries of a [std::map<int, IntTuple>] in iteration (key) order. *)
Definition ofs_items (h3 : gmap Z (list (string * Z))) : list (Z * list (string * Z)) :=
  merge_sort ofs_le (map_to_list h3).

(** The values of a [std::map<bool, ...>] in iteration order: [false]
    (right side) before [true] (left side). *)
Definition side_maps (h2 : gmap bool (gmap Z (list (string * Z))))
    : list (gmap Z (list (string * Z))) :=
  omap (fun left => h2 !! left) [false; true].

(** Body of the innermost loop of [get_step_dim_info] at step offset [ofs]
    with halo tuple [halo]; the state is [(is_written, first_ofs, last_ofs)].
    [write_pt] is [_write_points] at the stage, if it has an entry. *)
Definition scan_ofs (write_pt : option Z) (st : bool * Z * Z)
    (j : Z * list (string * Z)) : bool * Z * Z :=
  let '(is_written, first_ofs, last_ofs) := st in
  let '(ofs, halo) := j in
  let is_written := if decide (write_pt = Some ofs) then true else is_written in
  if (0 <? length halo)%nat then
    if first_ofs =? unset then (is_written, ofs, ofs)
    else (is_written, Z.min first_ofs ofs, Z.max last_ofs ofs)
  else (is_written, first_ofs, last_ofs).

(** The loops over the sides and step offsets of one stage. *)
Definition scan_stage (write_pt : option Z) (h2 : gmap bool (gmap Z (list (string * Z))))
    : bool * Z * Z :=
  foldl (fun st h3 => foldl (scan_ofs write_pt) st (ofs_items h3))
        (false, unset, unset) (side_maps h2).

(** [first_max_halo] / [last_max_halo]: the largest halo stored at step
    offset [ofs] on either side. *)
Definition max_halo_at (h2 : gmap bool (gmap Z (list (string * Z)))) (ofs : Z) : Z :=
  foldl (fun m h3 =>
           match h3 !! ofs with
           | Some t => if (0 <? length t)%nat then Z.max m (tuple_max t) else m
           | None => m
           end)
        0 (side_maps h2).

(** Body of the loop over stages; the state is [(max_sz, sdi.writeback_ofs)]. *)
Definition step_info_stage (v : Var) (st : Z * gmap string Z)
    (hi : string * gmap bool (gmap Z (list (string * Z)))) : Z * gmap string Z :=
  let '(max_sz, wb) := st in
  let '(stage_name, h2) := hi in
  let write_pt := _write_points v !! stage_name in
  let '(is_written, first_ofs, last_ofs) := scan_stage write_pt h2 in
  if negb (last_ofs =? unset) && negb (first_ofs =? unset) && negb (last_ofs =? first_ofs)
  then
    let sz := last_ofs - first_ofs + 1 in
    let '(sz, wb) :=
      if is_written then
        let first_max_halo := max_halo_at h2 first_ofs in
        let last_max_halo := max_halo_at h2 last_ofs in
        if (1 <? sz) && (first_max_halo =? 0) && (last_max_halo =? 0) then
          let write_ofs := default 0 write_pt in
          (sz - 1,
           if last_ofs =? write_ofs then <[stage_name := first_ofs]> wb
           else if first_ofs =? write_ofs then <[stage_name := last_ofs]> wb
           else wb (* assert("write ofs is neither first or last") never fails *))
        else (sz, wb)
      else (sz, wb) in
    (Z.max max_sz sz, wb)
  else (max_sz, wb).

(** The loop over the stages of [_halos].  The stages are visited in the
    order of [map_to_list]; the body computes a maximum and inserts under
    the stage's own key, so the order of the visits does not matter. *)
Definition step_info_stages (v : Var) : Z * gmap string Z :=
  foldl (step_info_stage v) (1, ∅) (map_to_list (_halos v)).

(** [Var::get_step_dim_info]. *)
Definition get_step_dim_info (v : Var) : StepDimInfo :=
  match var_step_dim v with
  | None => sdi_default
  | Some _ =>
      if decide (size (_halos v) = 0%nat) then sdi_default
      else
        let '(max_sz, wb) := step_info_stages v in
        let sz := step_dim_size sdi_default in
        (* Override by API. *)
        let sz := if 0 <? _step_alloc v then _step_alloc v else sz in
        (* Specified on cmd line. *)
        let sz := if 0 <? settings_step_alloc v then settings_step_alloc v else sz in
        let sz := max_sz in
        {| step_dim_size := sz; writeback_ofs := wb |}
  end.

(** A var read at [t-1], [t] and [t+1] in one stage with zero halos in [x],
    and written at [t]. *)
Definition var_mid_write : Var := {|
  var_step_dim := Some "t"%string;
  _halos := {[ "stage0"%string :=
               {[ true := {[ -1 := [("x"%string, 0)];
                             0 := [("x"%string, 0)];
                             1 := [("x"%string, 0)] ]} ]} ]};
  _l1_dist := 0;
  _write_points := {[ "stage0"%string := 0 ]};
  _step_alloc := 0;
  settings_step_alloc := 0
|}.

(** A var read at [t] and written at [t+1] in one stage, with zero halos
    in [x]: the forward step that the write-back optimisation is for. *)
Definition var_fwd_write : Var := {|
  var_step_dim := Some "t"%string;
  _halos := {[ "stage0"%string :=
               {[ true := {[ 0 := [("x"%string, 0)];
                             1 := [("x"%string, 0)] ]} ]} ]};
  _l1_dist := 0;
  _write_points := {[ "stage0"%string := 1 ]};
  _step_alloc := 0;
  settings_step_alloc := 0
|}.

(** The value that the specification asks to be stored after an offset
    [val] has been seen: its absolute value, or the old value if larger. *)
Definition halo_after (old : option Z) (val : Z) : Z :=
  match old with
  | Some o => Z.max o (Z.abs val)
  | None => Z.abs val
  end.

(** A halo entry was added or increased. *)
Definition halo_grew (old new : option Z) : Prop :=
  match old, new with
  | None, Some _ => True
  | Some o, Some o' => o < o'
  | _, None => False
  end.

(** A halo entry is still there and has not decreased. *)
Definition halo_kept (old new : option Z) : Prop :=
  match old with
  | Some o => exists o', new = Some o' /\ o <= o'
  | None => True
  end.

(** The step offset under which [update_halo] files the halos of [offsets]. *)
Definition offsets_step_val (v : Var) (offsets : list (string * Z)) : Z :=
  match var_step_dim v with
  | Some sd => default 0 (tuple_lookup offsets sd)
  | None => 0
  end.

(** The var with the step allocation requested by API set to [api_alloc]
    and the one given on the command line set to [cmd_alloc]. *)
Definition with_step_alloc (v : Var) (api_alloc cmd_alloc : Z) : Var :=
  {| var_step_dim := var_step_dim v;
     _halos := _halos v;
     _l1_dist := _l1_dist v;
     _write_points := _write_points v;
     _step_alloc := api_alloc;
     settings_step_alloc := cmd_alloc |}.

(** *** The allocation as the specification words it *)

(** The offset of an entry of a side map, if its halo tuple is not empty. *)
Definition halo_ofs (e : Z * list (string * Z)) : option Z :=
  if (0 <? length e.2)%nat then Some e.1 else None.

(** The step offsets of a stage that have a halo entry, on either side. *)
Definition stage_offsets (h2 : gmap bool (gmap Z (list (string * Z)))) : list Z :=
  flat_map (fun h3 => omap halo_ofs (ofs_items h3)) (side_maps h2).

(** Lowest and highest of the offsets seen so far. *)
Definition range_add (r : option (Z * Z)) (o : Z) : option (Z * Z) :=
  match r with
  | None => Some (o, o)
  | Some (lo, hi) => Some (Z.min lo o, Z.max hi o)
  end.

(** The lowest and the highest step offset with a halo entry, if any. *)
Definition stage_range (h2 : gmap bool (gmap Z (list (string * Z)))) : option (Z * Z) :=
  foldl range_add None (stage_offsets h2).

(** The write-back condition: more than one offset, zero halos at both
    extreme offsets, and the stage writes at one of the two. *)
Definition writeback_spec (write_pt : option Z)
    (h2 : gmap bool (gmap Z (list (string * Z)))) (lo hi : Z) : bool :=
  bool_decide (lo <> hi) && (max_halo_at h2 lo =? 0) && (max_halo_at h2 hi =? 0) &&
  bool_decide (write_pt = Some lo \/ write_pt = Some hi).

(** The number of steps one stage needs: highest minus lowest offset plus
    one, less one under the write-back condition. *)
Definition stage_size_spec (write_pt : option Z)
    (h2 : gmap bool (gmap Z (list (string * Z)))) : option Z :=
  match stage_range h2 with
  | None => None
  | Some (lo, hi) =>
      Some (hi - lo + 1 - (if writeback_spec write_pt h2 lo hi then 1 else 0))
  end.

(** The maximum over the stages, and 1 if no stage has a halo entry. *)
Definition step_dim_size_spec (v : Var) : Z :=
  foldl (fun m (hi : string * gmap bool (gmap Z (list (string * Z)))) =>
           match stage_size_spec (_write_points v !! hi.1) hi.2 with
           | Some sz => Z.max m sz
           | None => m
           end)
        1 (map_to_list (_halos v)).

(** The state [(first_ofs, last_ofs)] of the scan stands for the range [r]
    of the offsets seen so far. *)
Definition scan_rel (fl : Z * Z) (r : option (Z * Z)) : Prop :=
  match r with
  | None => fl = (unset, unset)
  | Some (lo, hi) => fl = (lo, hi) /\ lo <> unset /\ hi <> unset /\ lo <= hi
  end.

(** The vars on which the allocation is the one of the specification: no
    step offset is the sentinel [unset], and a stage that writes at a step
    offset present in its halo map writes at its lowest or highest offset
    with a halo entry. *)
Definition step_offsets_regular (v : Var) : Prop :=
  forall name h2, _halos v !! name = Some h2 ->
    (forall h3 ofs, h3 ∈ side_maps h2 -> is_Some (h3 !! ofs) -> ofs <> unset) /\
    (forall w lo hi, _write_points v !! name = Some w ->
       (exists h3, h3 ∈ side_maps h2 /\ is_Some (h3 !! w)) ->
       stage_range h2 = Some (lo, hi) -> w = lo \/ w = hi).

(** ** Rank set-up: [StencilContext::setupRank] (setup.cpp) *)

(** Results of code that may throw. *)
Inductive result (E A : Type) : Type :=
| Ok (a : A)
| Err (e : E).
Arguments Ok {E A} a.
Arguments Err {E A} e.

Definition bind {E A B : Type} (c : result E A) (k : A -> result E B) : result E B :=
  match c with
  | Ok a => k a
  | Err e => Err e
  end.

#[global] Instance result_bind {E : Type} : MBind (result E) :=
  fun A B k c => bind c k.

(** A [for] loop over the items of [l] whose body may throw. *)
Fixpoint for_each {E S A : Type} (l : list A) (body : A -> S -> result E S) (s : S)
    : result E S :=
  match l with
  | [] => Ok s
  | i :: l' => s' ← body i s; for_each l' body s'
  end.

(** The settings of one rank that [setupRank] reads: the requested number
    of ranks per domain dim, and the rank's indices (given by the user or
    found from its rank number before the exchange) and its domain sizes,
    both per domain dim. *)
Record RankSettings := {
  _num_ranks : list Z;
  _rank_indices : list Z;
  _rank_sizes : list Z
}.

#[global] Instance RankSettings_inhabited : Inhabited RankSettings :=
  populate {| _num_ranks := []; _rank_indices := []; _rank_sizes := [] |}.

(** The exceptions of [setupRank]. *)
Inductive setup_error : Type :=
| BadRankCount (req_ranks num_ranks : Z)   (* "... rank(s) requested, but ... active" *)
| OwnDistance (mandist : Z)                (* "Internal error: distance to own rank" *)
| SameCoords (me rn : nat)                 (* "ranks ... and ... at same coordinates" *)
| Unaligned (rn me di dj : nat).           (* "... making them unaligned" *)

(** An entry of the MPI info: the rank at a relative offset, its Manhattan
    distance and whether all its sizes are multiples of the fold lengths. *)
Record Neighbor := {
  nb_rank : nat;
  nb_man_dist : Z;
  nb_has_all_vlen_mults : bool
}.

(** The part of the context that [setupRank] writes.  The neighbor table is
    keyed by the offsets [roffsets] (each in 0..2) that the source turns
    into a linear index with [getNeighborIndex]. *)
Record RankState := {
  rank_domain_offsets : list Z;
  overall_domain_sizes : list Z;
  my_neighbors : gmap (list Z) Neighbor;
  num_neighbors : Z
}.

(** [t.product()]. *)
Definition product (t : list Z) : Z := foldl Z.mul 1 t.

(** The tables [coords] and [rsizes] once every rank has broadcast its row:
    row [rn] holds the indices and the sizes of rank [rn]. *)
Definition coords_table (w : list RankSettings) : list (list Z) := _rank_indices <$> w.
Definition rsizes_table (w : list RankSettings) : list (list Z) := _rank_sizes <$> w.

(** [tbl[rn][di]]. *)
Definition at2 (tbl : list (list Z)) (rn di : nat) : Z := at_ (tbl !!! rn) di.

(** [rdeltas]: coordinates of rank [rn] relative to mine. *)
Definition rank_deltas (coords : list (list Z)) (my_indices : list Z) (rn : nat)
    (num_ddims : nat) : list Z :=
  (fun di => at2 coords rn di - at_ my_indices di) <$> seq 0 num_ddims.

(** [int mandist]: the running sum [mandist += abs(rdeltas[di])]. *)
Definition man_dist (rdeltas : list Z) : Z :=
  foldl (fun mandist d => to_int (mandist + Z.abs d)) 0 rdeltas.

(** [int maxdist]: [maxdist = max(maxdist, abs(int(rdeltas[di])))]. *)
Definition max_dist (rdeltas : list Z) : Z :=
  foldl (fun maxdist d => Z.max maxdist (Z.abs (to_int d))) 0 rdeltas.

(** [is_inline]: the deltas in all dims other than [di] are zero. *)
Definition is_inline (rdeltas : list Z) (di : nat) : bool :=
  forallb (fun dj => negb (negb (di =? dj)%nat && negb (at_ rdeltas dj =? 0)))
          (seq 0 (length rdeltas)).

(** The check that the sizes of rank [rn] match mine in every dim but [di]. *)
Definition check_aligned (rsizes : list (list Z)) (me rn di num_ddims : nat)
    : result setup_error unit :=
  for_each (seq 0 num_ddims)
    (fun dj _ =>
       if negb (di =? dj)%nat && negb (at2 rsizes me dj =? at2 rsizes rn dj)
       then Err (Unaligned rn me di dj) else Ok tt)
    tt.

(** Body of the loop through the domain dims for rank [rn]; the state is
    [(overall_domain_sizes, rank_domain_offsets)]. *)
Definition setup_rank_dim (rsizes : list (list Z)) (rdeltas : list Z)
    (me rn num_ddims : nat) (di : nat) (st : list Z * list Z)
    : result setup_error (list Z * list Z) :=
  let '(overall, offsets) := st in
  if is_inline rdeltas di then
    let overall :=
      if negb (rn =? me)%nat
      then set_at overall di (at_ overall di + at2 rsizes rn di) else overall in
    let offsets :=
      if at_ rdeltas di <? 0
      then set_at offsets di (at_ offsets di + at2 rsizes rn di) else offsets in
    check_aligned rsizes me rn di num_ddims;;
    Ok (overall, offsets)
  else Ok (overall, offsets).

(** [has_all_vlen_mults] of rank [rn]. *)
Definition vlen_mults (rsizes : list (list Z)) (fold_pts : list Z) (rn num_ddims : nat)
    : bool :=
  forallb (fun j => Z.rem (at2 rsizes rn j) (at_ fold_pts j) =? 0) (seq 0 num_ddims).

(** Body of the loop over all ranks for rank [rn]. *)
Definition setup_rank_rn (coords rsizes : list (list Z)) (my_indices fold_pts : list Z)
    (me num_ddims : nat) (rn : nat) (st : RankState) : result setup_error RankState :=
  let rdeltas := rank_deltas coords my_indices rn num_ddims in
  let mandist := man_dist rdeltas in
  let maxdist := max_dist rdeltas in
  (if (rn =? me)%nat
   then (if negb (mandist =? 0) then Err (OwnDistance mandist) else Ok tt)
   else (if mandist =? 0 then Err (SameCoords me rn) else Ok tt));;
  sizes ← for_each (seq 0 num_ddims)
            (setup_rank_dim rsizes rdeltas me rn num_ddims)
            (overall_domain_sizes st, rank_domain_offsets st);
  let '(overall, offsets) := sizes in
  if maxdist <=? 1 then
    let roffsets := (fun d => d + 1) <$> rdeltas in
    Ok {| rank_domain_offsets := offsets;
          overall_domain_sizes := overall;
          my_neighbors :=
            <[roffsets := {| nb_rank := rn; nb_man_dist := mandist;
                             nb_has_all_vlen_mults :=
                               vlen_mults rsizes fold_pts rn num_ddims |}]>
              (my_neighbors st);
          num_neighbors :=
            if negb (rn =? me)%nat then num_neighbors st + 1 else num_neighbors st |}
  else
    Ok {| rank_domain_offsets := offsets;
          overall_domain_sizes := overall;
          my_neighbors := my_neighbors st;
          num_neighbors := num_neighbors st |}.

(** [StencilContext::setupRank] on rank [me] of the ranks [w], up to the end
    of the loop over the ranks.  (The calls that follow, [update_grid_info]
    and [find_bounding_boxes], read [rank_domain_offsets] and do not write
    it or [overall_domain_sizes].)  [st] is the state on entry.  The call
    [assertEqualityOverRanks] on the number of steps, between the check of
    the ranks and the loop, is left out: its definition is not part of the
    sources at hand. *)
Definition setupRank (w : list RankSettings) (fold_pts : list Z) (me : nat)
    (st : RankState) : result setup_error RankState :=
  let opts := w !!! me in
  let env_num_ranks := Z.of_nat (length w) in
  (* Check ranks. *)
  let req_ranks := product (_num_ranks opts) in
  if negb (req_ranks =? env_num_ranks) then Err (BadRankCount req_ranks env_num_ranks)
  else
    let num_ddims := length (_rank_indices opts) in
    let coords := coords_table w in
    let rsizes := rsizes_table w in
    (* Init offsets and total sizes; init sizes for this rank. *)
    let st0 :=
      {| rank_domain_offsets := setValsSame (rank_domain_offsets st) 0;
         overall_domain_sizes :=
           foldl (fun o di => set_at o di (at_ (_rank_sizes opts) di))
                 (setValsSame (overall_domain_sizes st) 0) (seq 0 num_ddims);
         my_neighbors := my_neighbors st;
         num_neighbors := 0 |} in
    (* Loop over all ranks, including myself. *)
    for_each (seq 0 (length w))
      (setup_rank_rn coords rsizes (_rank_indices opts) fold_pts me num_ddims) st0.

(** *** The sums that the specification asks for *)

(** Rank [rn] is in line with rank [me] in dim [d]: their coordinates agree
    in every other dim. *)
Definition in_line (w : list RankSettings) (me rn d : nat) : bool :=
  forallb (fun dj => (d =? dj)%nat
                     || (at2 (coords_table w) rn dj =? at2 (coords_table w) me dj))
          (seq 0 (length (_rank_indices (w !!! me)))).

(** The sum of [f rn] over the ranks in [l]. *)
Definition sum_ranks (l : list nat) (f : nat -> Z) : Z :=
  foldr (fun rn acc => f rn + acc) 0 l.

(** Sum of the sizes in dim [d] of all ranks in line with [me], itself
    included. *)
Definition overall_domain_spec (w : list RankSettings) (me d : nat) : Z :=
  sum_ranks (seq 0 (length w))
    (fun rn => if in_line w me rn d then at2 (rsizes_table w) rn d else 0).

(** Sum of the sizes in dim [d] of the in-line ranks whose coordinate in
    [d] is strictly smaller than mine. *)
Definition rank_offset_spec (w : list RankSettings) (me d : nat) : Z :=
  sum_ranks (seq 0 (length w))
    (fun rn => if in_line w me rn d
                  && (at2 (coords_table w) rn d <? at2 (coords_table w) me d)
               then at2 (rsizes_table w) rn d else 0).

(** The context before [setupRank] has run: offsets of -1 in every dim. *)
Definition rank_state_init (num_ddims : nat) : RankState :=
  {| rank_domain_offsets := replicate num_ddims (-1);
     overall_domain_sizes := replicate num_ddims 0;
     my_neighbors := ∅;
     num_neighbors := 0 |}.

(** Four ranks in a 2 x 2 grid with domains that line up. *)
Definition ranks_2x2 : list RankSettings :=
  [ {| _num_ranks := [2; 2]; _rank_indices := [0; 0]; _rank_sizes := [64; 32] |};
    {| _num_ranks := [2; 2]; _rank_indices := [0; 1]; _rank_sizes := [64; 48] |};
    {| _num_ranks := [2; 2]; _rank_indices := [1; 0]; _rank_sizes := [16; 32] |};
    {| _num_ranks := [2; 2]; _rank_indices := [1; 1]; _rank_sizes := [16; 48] |} ].

(** What rank [rn] adds to [overall_domain_sizes[di]] and to
    [rank_domain_offsets[di]] on rank [me]. *)
Definition overall_contrib (w : list RankSettings) (me rn di : nat) : Z :=
  if in_line w me rn di && negb (rn =? me)%nat
  then at2 (rsizes_table w) rn di else 0.

Definition offset_contrib (w : list RankSettings) (me rn di : nat) : Z :=
  if in_line w me rn di
     && (at2 (coords_table w) rn di <? at2 (coords_table w) me di)
  then at2 (rsizes_table w) rn di else 0.

(** The Manhattan distance between the coordinates of ranks [r1] and [r2]
    (over the domain dims of [r2]), as a mathematical integer. *)
Definition coord_dist (w : list RankSettings) (r1 r2 : nat) : Z :=
  foldr (fun di acc =>
           Z.abs (at2 (coords_table w) r1 di - at2 (coords_table w) r2 di) + acc)
        0 (seq 0 (length (_rank_indices (w !!! r2)))).

(** Two ranks that both claim the coordinates (0, 0), and a third one. *)
Definition ranks_collide : list RankSettings :=
  [ {| _num_ranks := [3; 1]; _rank_indices := [0; 0]; _rank_sizes := [64; 32] |};
    {| _num_ranks := [3; 1]; _rank_indices := [1; 0]; _rank_sizes := [64; 32] |};
    {| _num_ranks := [3; 1]; _rank_indices := [0; 0]; _rank_sizes := [64; 32] |} ].

(** Two ranks in one dim whose coordinates are [2^32] apart. *)
Definition ranks_wrap : list RankSettings :=
  [ {| _num_ranks := [2]; _rank_indices := [0]; _rank_sizes := [64] |};
    {| _num_ranks := [2]; _rank_indices := [4294967296]; _rank_sizes := [64] |} ].

(** Four active ranks of which each asks for a 3 x 2 grid. *)
Definition ranks_bad_count : list RankSettings :=
  (fun r => {| _num_ranks := [3; 2]; _rank_indices := _rank_indices r;
               _rank_sizes := _rank_sizes r |}) <$> ranks_2x2.

(** ** Kernel vars: element access and slices (yk_var_apis.cpp)

    A kernel var ([YkVarImpl] and the [YkVarBase] behind it; the same object
    is called a grid in context.cpp).  Elements have the type [real_t]; the
    API passes values of the type [double].  Nothing below computes with
    elements except [add_to_element], so both types and the two operations
    on them are parameters. *)

Section KernelVar.
Context {real_t double : Type}.
Context (to_real_t : double -> real_t).        (* the conversion [real_t(val)] *)
Context (real_add : real_t -> real_t -> real_t).  (* [elem += val] *)

Record YkVarBase := {
  get_name : string;
  is_scratch : bool;
  _has_step_dim : bool;            (* the var uses the step dim *)
  var_step_posn : nat;             (* position of the step dim among the var's dims *)
  step_alloc_size : Z;             (* number of step slots allocated *)
  first_alloc_step : Z;            (* _get_first_alloc_index(step_dim) *)
  last_alloc_step : Z;             (* _get_last_alloc_index(step_dim) *)
  storage : option (list Z -> real_t);
    (* [get_raw_storage_buffer()]: [None] when no storage is allocated, else
       the element stored for each point; the step index of the point is
       the slot index *)
  _dirty_steps : Z -> bool         (* one flag per step slot *)
}.

(** The exceptions of the element APIs: no storage, and whatever
    [check_indices] throws for an index that is out of range. *)
Inductive var_exception : Type :=
| NoStorage (api : string)
| BadIndices (api : string).

(** [check_indices(indices, fn, strict_indices, check_step, normalize)] is
    not part of the sources at hand and is a parameter: it returns whether
    all indices are in range, or throws. *)
Context (check_indices :
           YkVarBase -> Indices -> string -> bool -> bool -> bool ->
           result var_exception bool).

(** Modelled from the spec: [_wrap_step], which is not part of the sources
    at hand; "index t maps to storage slot t mod alloc_step". *)
Definition _wrap_step (v : YkVarBase) (t : Z) : Z := t mod step_alloc_size v.

(** Modelled from the spec: [get_alloc_step_index(indices)], the slot of
    the step index of a point, 0 for a var without step dim. *)
Definition get_alloc_step_index (v : YkVarBase) (indices : Indices) : Z :=
  if _has_step_dim v then _wrap_step v (at_ indices (var_step_posn v)) else 0.

(** The place of the element of point [pt] at slot [asi]. *)
Definition elem_key (v : YkVarBase) (pt : Indices) (asi : Z) : list Z :=
  if _has_step_dim v then set_at pt (var_step_posn v) asi else pt.

Definition with_storage (v : YkVarBase) (s : option (list Z -> real_t)) : YkVarBase :=
  {| get_name := get_name v; is_scratch := is_scratch v;
     _has_step_dim := _has_step_dim v; var_step_posn := var_step_posn v;
     step_alloc_size := step_alloc_size v;
     first_alloc_step := first_alloc_step v; last_alloc_step := last_alloc_step v;
     storage := s; _dirty_steps := _dirty_steps v |}.

Definition with_dirty_steps (v : YkVarBase) (d : Z -> bool) : YkVarBase :=
  {| get_name := get_name v; is_scratch := is_scratch v;
     _has_step_dim := _has_step_dim v; var_step_posn := var_step_posn v;
     step_alloc_size := step_alloc_size v;
     first_alloc_step := first_alloc_step v; last_alloc_step := last_alloc_step v;
     storage := storage v; _dirty_steps := d |}.

(** Modelled from the spec: [read_elem], [write_elem] and [add_to_elem] of
    [YkVarBase] (not part of the sources at hand): one read, one write, or
    one read-modify-write of the element of [pt] at slot [asi].  They are
    called with storage allocated. *)
Definition read_elem (v : YkVarBase) (pt : Indices) (asi : Z) : option real_t :=
  s ← storage v; Some (s (elem_key v pt asi)).

Definition write_elem (v : YkVarBase) (val : real_t) (pt : Indices) (asi : Z) : YkVarBase :=
  with_storage v ((fun s => <[elem_key v pt asi := val]> s) <$> storage v).

Definition add_to_elem (v : YkVarBase) (val : real_t) (pt : Indices) (asi : Z) : YkVarBase :=
  with_storage v
    ((fun s => <[elem_key v pt asi := real_add (s (elem_key v pt asi)) val]> s)
       <$> storage v).

(** Modelled from the spec: the dirty-flag accessors of [YkVarBase] (not
    part of the sources at hand); "one bit per cyclic step slot". *)
Definition set_dirty_using_alloc_index (v : YkVarBase) (dirty : bool) (asi : Z) : YkVarBase :=
  with_dirty_steps v (<[asi := dirty]> (_dirty_steps v)).

Definition is_dirty (v : YkVarBase) (t : Z) : bool :=
  _dirty_steps v (if _has_step_dim v then _wrap_step v t else 0).

Definition set_dirty (v : YkVarBase) (dirty : bool) (t : Z) : YkVarBase :=
  set_dirty_using_alloc_index v dirty (if _has_step_dim v then _wrap_step v t else 0).

(** [YkVarImpl::set_element]: the updated var and the number of elements
    updated, or an exception. *)
Definition set_element (v : YkVarBase) (val : double) (indices : Indices)
    (strict_indices : bool) : result var_exception (YkVarBase * Z) :=
  let nup := 0 in
  if negb (bool_decide (is_Some (storage v))) && strict_indices
  then Err (NoStorage "set_element")
  else if bool_decide (is_Some (storage v)) then
    (* Don't check step index because this is a write-only API. *)
    ok ← check_indices v indices "set_element" strict_indices false false;
    if ok : bool then
      let asi := get_alloc_step_index v indices in
      let v := write_elem v (to_real_t val) indices asi in
      let nup := nup + 1 in
      (* Set appropriate dirty flag. *)
      let v := set_dirty_using_alloc_index v true asi in
      Ok (v, nup)
    else Ok (v, nup)
  else Ok (v, nup).

(** [YkVarImpl::add_to_element]. *)
Definition add_to_element (v : YkVarBase) (val : double) (indices : Indices)
    (strict_indices : bool) : result var_exception (YkVarBase * Z) :=
  let nup := 0 in
  if negb (bool_decide (is_Some (storage v))) && strict_indices
  then Err (NoStorage "add_to_element")
  else if bool_decide (is_Some (storage v)) then
    (* Check step index because this API must read before writing. *)
    ok ← check_indices v indices "add_to_element" strict_indices true false;
    if ok : bool then
      let asi := get_alloc_step_index v indices in
      let v := add_to_elem v (to_real_t val) indices asi in
      let nup := nup + 1 in
      let v := set_dirty_using_alloc_index v true asi in
      Ok (v, nup)
    else Ok (v, nup)
  else Ok (v, nup).

End KernelVar.

Arguments YkVarBase : clear implicits.

(** A var over [t], [x] with two step slots, elements in [Z], used to
    exercise the element APIs; its storage holds 0 everywhere. *)
Definition var_example (with_storage : bool) : YkVarBase Z := {|
  get_name := "u";
  is_scratch := false;
  _has_step_dim := true;
  var_step_posn := 0;
  step_alloc_size := 2;
  first_alloc_step := 0;
  last_alloc_step := 1;
  storage := if with_storage then Some (fun _ => 0) else None;
  _dirty_steps := fun _ => false
|}.

(** An index check for [var_example]: [x] must lie in [0, 8); out of range
    it throws when strict and returns [false] otherwise. *)
Definition check_indices_example (v : YkVarBase Z) (indices : Indices) (fn : string)
    (strict_indices check_step normalize : bool) : result var_exception bool :=
  if (0 <=? at_ indices 1) && (at_ indices 1 <? 8) then Ok true
  else if strict_indices then Err (BadIndices fn) else Ok false.

(** *** Slices *)

Section Slices.
Context {real_t : Type}.

(** The indices [first, first+1, ..., last]. *)
Definition idx_range (first last : Z) : list Z := seqZ first (last - first + 1).

(** The points of the slice [first .. last] in row-major order: the last
    dim varies fastest. *)
Fixpoint slice_points (first last : Indices) : list Indices :=
  match first, last with
  | f :: fs, l :: ls =>
      x ← idx_range f l; (fun pt => x :: pt) <$> slice_points fs ls
  | _, _ => [[]]
  end.

(** [GetElem::visit]: copy from the var to the buffer at [pofs]. *)
Definition GetElem_visit (v : YkVarBase real_t) (p : list real_t) (pofs : nat)
    (pt : Indices) (ti : Z) : YkVarBase real_t * list real_t :=
  match read_elem v pt ti with
  | Some val => (v, <[pofs := val]> p)
  | None => (v, p)
  end.

(** [SetElem::visit]: copy from the buffer at [pofs] to the var. *)
Definition SetElem_visit (v : YkVarBase real_t) (p : list real_t) (pofs : nat)
    (pt : Indices) (ti : Z) : YkVarBase real_t * list real_t :=
  match p !! pofs with
  | Some val => (write_elem v val pt ti, p)
  | None => (v, p)
  end.

(** Visit the points [pts] in order; the buffer offset of the first is
    [pofs] and grows by one per point. *)
Fixpoint visit_points
    (visit : YkVarBase real_t -> list real_t -> nat -> Indices -> Z ->
             YkVarBase real_t * list real_t)
    (v : YkVarBase real_t) (p : list real_t) (pofs : nat) (pts : list Indices)
    : YkVarBase real_t * list real_t :=
  match pts with
  | [] => (v, p)
  | pt :: pts' =>
      let '(v', p') := visit v p pofs pt (get_alloc_step_index v pt) in
      visit_points visit v' p' (S pofs) pts'
  end.

(** Modelled from the spec: [YkVarBase::_visit_elements_in_slice], which is
    not part of the sources at hand.  It copies "an axis-aligned range
    to/from a flat buffer in deterministic row-major order", calling the
    visitor once per point with the buffer offset of the point and the slot
    of its step index, and returns the number of points; without storage it
    throws if strict and does nothing otherwise. *)
Definition _visit_elements_in_slice
    (fname : string)
    (visit : YkVarBase real_t -> list real_t -> nat -> Indices -> Z ->
             YkVarBase real_t * list real_t)
    (strict_indices : bool) (v : YkVarBase real_t) (buffer : list real_t)
    (first_indices last_indices : Indices)
    : result var_exception (YkVarBase real_t * list real_t * Z) :=
  match storage v with
  | None => if strict_indices then Err (NoStorage fname) else Ok (v, buffer, 0)
  | Some _ =>
      let pts := slice_points first_indices last_indices in
      let '(v', buffer') := visit_points visit v buffer 0 pts in
      Ok (v', buffer', Z.of_nat (length pts))
  end.

(** Modelled from the spec: [set_dirty_in_slice] (not part of the sources at
    hand) marks the step slots of the slice dirty. *)
Definition set_dirty_in_slice (v : YkVarBase real_t) (first_indices last_indices : Indices)
    : YkVarBase real_t :=
  if _has_step_dim v then
    foldl (fun v t => set_dirty v true t) v
          (idx_range (at_ first_indices (var_step_posn v))
                     (at_ last_indices (var_step_posn v)))
  else set_dirty v true 0.

(** [YkVarBase::get_elements_in_slice]: the filled buffer and the number of
    elements read. *)
Definition get_elements_in_slice (v : YkVarBase real_t) (buffer : list real_t)
    (first_indices last_indices : Indices)
    : result var_exception (list real_t * Z) :=
  r ← _visit_elements_in_slice "get_elements_in_slice" GetElem_visit true
        v buffer first_indices last_indices;
  let '(_, buffer', n) := r in Ok (buffer', n).

(** [YkVarBase::set_elements_in_slice]: the updated var and the number of
    elements written. *)
Definition set_elements_in_slice (v : YkVarBase real_t) (buffer : list real_t)
    (first_indices last_indices : Indices)
    : result var_exception (YkVarBase real_t * Z) :=
  r ← _visit_elements_in_slice "set_elements_in_slice" SetElem_visit true
        v buffer first_indices last_indices;
  let '(v', _, n) := r in
  (* Set appropriate dirty flag(s). *)
  Ok (set_dirty_in_slice v' first_indices last_indices, n).

(** Writing the pairs of [kvs] into a store, in order. *)
Definition store_all (s : list Z -> real_t) (kvs : list (list Z * real_t))
    : list Z -> real_t :=
  foldl (fun s kv => <[kv.1 := kv.2]> s) s kvs.

(** The metadata of two vars agree (all but storage and dirty flags). *)
Definition same_meta (v v' : YkVarBase real_t) : Prop :=
  get_name v' = get_name v /\ is_scratch v' = is_scratch v /\
  _has_step_dim v' = _has_step_dim v /\ var_step_posn v' = var_step_posn v /\
  step_alloc_size v' = step_alloc_size v /\
  first_alloc_step v' = first_alloc_step v /\ last_alloc_step v' = last_alloc_step v.

(** A slice is in range for the round trip: [first] and [last] have one
    index per dim, and for a var with step dim the step indices of the
    slice fit the step slots (so no two of them share a slot). *)
Definition slice_in_range (v : YkVarBase real_t) (first last : Indices) : Prop :=
  length first = length last /\
  (_has_step_dim v = true ->
     (var_step_posn v < length first)%nat /\
     0 < step_alloc_size v /\
     at_ last (var_step_posn v) - at_ first (var_step_posn v) < step_alloc_size v).

End Slices.

(** ** Halo exchange: [StencilContext::exchange_halos] (context.cpp)

    Grids are the kernel vars above.  The context refers to them by
    pointer; here a pointer is an address into the store [gridPtrs], so
    that a grid reached through several bundles is one object.  The MPI
    calls are modelled by their effect on the request handles and on the
    receive buffers: [network gname ni] is what a completed receive from
    neighbor [ni] delivers for grid [gname]. *)

Section HaloExchange.
Context {real_t : Type}.
Context (network : string -> nat -> list real_t).

(** One MPI buffer ([MPIBuf]): the range it covers, its size in bytes and
    its elements. *)
Record MPIBuf := {
  begin_pt : Indices;
  last_pt : Indices;
  get_bytes : Z;
  vec_copy_ok : bool;
  _elems : list real_t
}.

(** The buffers and requests of one neighbor ([MPIBufs], [recv_reqs[ni]],
    [send_reqs[ni]]); a request is [true] while it is not
    [MPI_REQUEST_NULL]. *)
Record MPIBufs := {
  neighbor_rank : Z;
  bufSend : MPIBuf;
  bufRecv : MPIBuf;
  recv_req : bool;
  send_req : bool
}.

(** A bundle: the grids it reads and writes. *)
Record StencilBundle := {
  inputGridPtrs : list nat;
  outputGridPtrs : list nat
}.

(** A bundle of a pack with the bundles it needs ([get_reqd_bundles()]:
    its prerequisite scratch-grid bundles and itself). *)
Record PackBundle := {
  get_reqd_bundles : list StencilBundle
}.

Record HaloContext := {
  enable_halo_exchange : bool;
  env_num_ranks : Z;
  do_mpi_exterior : bool;
  do_mpi_interior : bool;
  allow_vec_exchange : bool;
  stPacks : list (list PackBundle);
  gridPtrs : gmap nat (YkVarBase real_t);
  mpiData : gmap string (list MPIBufs)    (* per grid name: the neighbors visited *)
}.

(** [vector_set::insert]: append unless present. *)
Definition vector_set_insert (items : list Z) (val : Z) : list Z :=
  if bool_decide (val ∈ items) then items else items ++ [val].

(** The grids and steps chosen for exchange. *)
Record SwapSel := {
  gridsToSwap : gmap string nat;
  stepsToSwap : gmap string (list Z);
  num_swaps : Z;
  max_steps : nat
}.

(** Body of the loop over the allocated step indices [t] of grid [gp]. *)
Definition select_step (gp : nat) (g : YkVarBase real_t) (sel : SwapSel) (t : Z)
    : SwapSel :=
  (* Only need to swap grids whose halos are not up-to-date for this step. *)
  if negb (is_dirty g t) then sel
  else
    let gname := get_name g in
    let steps := vector_set_insert (default [] (stepsToSwap sel !! gname)) t in
    {| gridsToSwap := <[gname := gp]> (gridsToSwap sel);
       stepsToSwap := <[gname := steps]> (stepsToSwap sel);
       num_swaps := num_swaps sel + 1;
       max_steps := max (max_steps sel) (length steps) |}.

(** The step indices checked for a grid: all allocated ones. *)
Definition steps_checked (g : YkVarBase real_t) : list Z :=
  let start := if _has_step_dim g then Z.min 0 (first_alloc_step g) else 0 in
  let stop := if _has_step_dim g then Z.max 1 (last_alloc_step g + 1) else 1 in
  seqZ start (stop - start).

(** Body of the loop over the input grids of a needed bundle. *)
Definition select_grid (ctx : HaloContext) (sel : SwapSel) (gp : nat) : SwapSel :=
  match gridPtrs ctx !! gp with
  | None => sel
  | Some g =>
      (* Don't swap scratch grids. *)
      if is_scratch g then sel
      (* Only need to swap grids that have any MPI buffers. *)
      else if bool_decide (mpiData ctx !! get_name g = None) then sel
      else foldl (select_step gp g) sel (steps_checked g)
  end.

(** The loops over packs, bundles, needed bundles and input grids. *)
Definition select_swaps (ctx : HaloContext) : SwapSel :=
  foldl (fun sel bp =>
           foldl (fun sel sg =>
                    foldl (fun sel csg => foldl (select_grid ctx) sel (inputGridPtrs csg))
                          sel (get_reqd_bundles sg))
                 sel bp)
        {| gridsToSwap := ∅; stepsToSwap := ∅; num_swaps := 0; max_steps := 0 |}
        (stPacks ctx).

Inductive halo_steps := halo_irecv | halo_pack_isend | halo_unpack | halo_final.

(** [steps_to_do]. *)
Definition steps_to_do (ctx : HaloContext) : list halo_steps :=
  (if do_mpi_exterior ctx then [halo_irecv; halo_pack_isend] else [])
  ++ (if do_mpi_interior ctx then [halo_unpack; halo_final] else []).

Definition with_elems (b : MPIBuf) (e : list real_t) : MPIBuf :=
  {| begin_pt := begin_pt b; last_pt := last_pt b; get_bytes := get_bytes b;
     vec_copy_ok := vec_copy_ok b; _elems := e |}.

(** The first and last point of a buffer with the step index set to [si]. *)
Definition buf_range (g : YkVarBase real_t) (b : MPIBuf) (si : Z) : Indices * Indices :=
  if _has_step_dim g
  then (set_at (begin_pt b) (var_step_posn g) si, set_at (last_pt b) (var_step_posn g) si)
  else (begin_pt b, last_pt b).

(** Modelled from the spec: [get_vecs_in_slice] and [set_vecs_in_slice] (not
    part of the sources at hand); "vector-copy mode transmits
    vector-of-lanes tuples directly; element mode transmits
    element-by-element in the same logical order". *)
Definition get_vecs_in_slice := @get_elements_in_slice real_t.
Definition set_vecs_in_slice := @set_elements_in_slice real_t.

(** The visitor passed to [visitNeighbors] for grid [gname] at step index
    [si], on the grid [g] and the buffers [bufs] of neighbor [ni]. *)
Definition halo_visit (ctx : HaloContext) (halo_step : halo_steps) (gname : string)
    (si : Z) (ni : nat) (st : YkVarBase real_t * MPIBufs)
    : result var_exception (YkVarBase real_t * MPIBufs) :=
  let '(g, bufs) := st in
  let sendBuf := bufSend bufs in
  let recvBuf := bufRecv bufs in
  match halo_step with
  | halo_irecv =>
      (* Submit async request to receive data from neighbor. *)
      if negb (get_bytes recvBuf =? 0)
      then Ok (g, {| neighbor_rank := neighbor_rank bufs; bufSend := sendBuf;
                     bufRecv := recvBuf; recv_req := true;
                     send_req := send_req bufs |})
      else Ok (g, bufs)
  | halo_pack_isend =>
      (* Pack data into send buffer, then send to neighbor. *)
      if negb (get_bytes sendBuf =? 0) then
        let send_vec_ok := allow_vec_exchange ctx && vec_copy_ok sendBuf in
        let '(first, last) := buf_range g sendBuf si in
        packed ← (if send_vec_ok then get_vecs_in_slice g (_elems sendBuf) first last
                  else get_elements_in_slice g (_elems sendBuf) first last);
        Ok (g, {| neighbor_rank := neighbor_rank bufs;
                  bufSend := with_elems sendBuf packed.1;
                  bufRecv := recvBuf; recv_req := recv_req bufs;
                  send_req := true |})
      else Ok (g, bufs)
  | halo_unpack =>
      (* Wait for data from neighbor, then unpack it. *)
      if negb (get_bytes recvBuf =? 0) then
        let recvBuf :=
          if recv_req bufs then with_elems recvBuf (network gname ni) else recvBuf in
        let recv_vec_ok := allow_vec_exchange ctx && vec_copy_ok recvBuf in
        let '(first, last) := buf_range g recvBuf si in
        unpacked ← (if recv_vec_ok then set_vecs_in_slice g (_elems recvBuf) first last
                    else set_elements_in_slice g (_elems recvBuf) first last);
        Ok (unpacked.1,
            {| neighbor_rank := neighbor_rank bufs; bufSend := sendBuf;
               bufRecv := recvBuf; recv_req := false; send_req := send_req bufs |})
      else Ok (g, bufs)
  | halo_final =>
      (* Wait for send to finish. *)
      let bufs :=
        if negb (get_bytes sendBuf =? 0) && send_req bufs
        then {| neighbor_rank := neighbor_rank bufs; bufSend := sendBuf;
                bufRecv := recvBuf; recv_req := recv_req bufs; send_req := false |}
        else bufs in
      (* Mark grids as up-to-date when done. *)
      let g := if is_dirty g si then set_dirty g false si else g in
      Ok (g, bufs)
  end.

(** Modelled from the spec: [visitNeighbors] (not part of the sources at
    hand) calls the visitor for each neighbor of the rank in turn, [ni]
    being the index of the neighbor. *)
Fixpoint visitNeighbors
    (visitor : nat -> YkVarBase real_t * MPIBufs ->
               result var_exception (YkVarBase real_t * MPIBufs))
    (ni : nat) (g : YkVarBase real_t) (nbs : list MPIBufs)
    : result var_exception (YkVarBase real_t * list MPIBufs) :=
  match nbs with
  | [] => Ok (g, [])
  | bufs :: nbs' =>
      r ← visitor ni (g, bufs);
      r' ← visitNeighbors visitor (S ni) r.1 nbs';
      Ok (r'.1, r.2 :: r'.2)
  end.

(** Body of the loop over the grids to swap, for the grid [gtsi] at the
    step-vector index [svi]; the state is the store of grids and the MPI
    data. *)
Definition exchange_grid (ctx : HaloContext) (sel : SwapSel) (svi : nat)
    (halo_step : halo_steps) (gtsi : string * nat)
    (st : gmap nat (YkVarBase real_t) * gmap string (list MPIBufs))
    : result var_exception (gmap nat (YkVarBase real_t) * gmap string (list MPIBufs)) :=
  let '(grids, mpi) := st in
  let '(gname, gp) := gtsi in
  (* Get needed step in this grid. *)
  let steps := default [] (stepsToSwap sel !! gname) in
  match steps !! svi with
  | None => Ok st        (* no step at this index *)
  | Some si =>
      match grids !! gp with
      | None => Ok st
      | Some g =>
          let grid_mpi_data := default [] (mpi !! gname) in
          r ← visitNeighbors (halo_visit ctx halo_step gname si) 0 g grid_mpi_data;
          Ok (<[gp := r.1]> grids, <[gname := r.2]> mpi)
      end
  end.

(** [StencilContext::exchange_halos(test_only)]: the grids and the MPI data
    after the call.  Grids to swap are visited in the order of
    [map_to_list]; the visits of different grids touch different grids and
    different MPI data. *)
Definition exchange_halos (ctx : HaloContext) (test_only : bool)
    : result var_exception (gmap nat (YkVarBase real_t) * gmap string (list MPIBufs)) :=
  if negb (enable_halo_exchange ctx) || (env_num_ranks ctx <? 2)
  then Ok (gridPtrs ctx, mpiData ctx)
  else if test_only then
    (* MPI_Test() on all unfinished requests: no request or grid changes
       that the later phases depend on. *)
    Ok (gridPtrs ctx, mpiData ctx)
  else
    let sel := select_swaps ctx in
    for_each (seq 0 (max_steps sel))
      (fun svi st =>
         for_each (steps_to_do ctx)
           (fun halo_step st =>
              for_each (map_to_list (gridsToSwap sel))
                (exchange_grid ctx sel svi halo_step) st)
           st)
      (gridPtrs ctx, mpiData ctx).

End HaloExchange.

(** *** Notions used to state the dirty-flag discipline *)

Section HaloNotions.
Context {real_t : Type}.

(** The slot of step index [t] in grid [g]. *)
Definition slot_of (g : YkVarBase real_t) (t : Z) : Z :=
  if _has_step_dim g then _wrap_step g t else 0.

(** The grids that the selection loops look at: the input grids of every
    bundle needed by some bundle of some pack, in the order of the loops. *)
Definition swap_candidates (ctx : @HaloContext real_t) : list nat :=
  bp ← stPacks ctx; sg ← bp; csg ← get_reqd_bundles sg; inputGridPtrs csg.

(** Grid [gp] is looked at, is not a scratch grid and has MPI buffers. *)
Definition exchangeable (ctx : @HaloContext real_t) (gp : nat) (g : YkVarBase real_t)
    : Prop :=
  gp ∈ swap_candidates ctx /\ gridPtrs ctx !! gp = Some g /\
  is_scratch g = false /\ is_Some (mpiData ctx !! get_name g).

(** The steps selected for the grid named [gname]. *)
Definition steps_of (sel : SwapSel) (gname : string) : list Z :=
  default [] (stepsToSwap sel !! gname).

(** Every name with selected steps has a grid to swap, and no list of
    steps is longer than [max_steps]. *)
Definition sel_closed (sel : SwapSel) : Prop :=
  (forall gname, steps_of sel gname <> [] -> is_Some (gridsToSwap sel !! gname)) /\
  (forall gname, (length (steps_of sel gname) <= max_steps sel)%nat).

(** Two dirty-flag vectors agree on all slots but [slot]. *)
Definition flags_agree_off (slot : Z) (d d' : Z -> bool) : Prop :=
  forall k, k <> slot -> d' k = d k.

(** The receive buffers of a neighbor cover one index per dim of [g]. *)
Definition recv_buf_wf (g : YkVarBase real_t) (bufs : @MPIBufs real_t) : Prop :=
  _has_step_dim g = true ->
  (var_step_posn g < length (begin_pt (bufRecv bufs)))%nat /\
  (var_step_posn g < length (last_pt (bufRecv bufs)))%nat.

(** The context is ready for an exchange: grid names are unique, and every
    grid with MPI buffers has storage, at least one neighbor (the rank
    itself is always registered), and well-formed receive buffers. *)
Definition exchange_ready (ctx : @HaloContext real_t) : Prop :=
  (forall a b ga gb, gridPtrs ctx !! a = Some ga -> gridPtrs ctx !! b = Some gb ->
     get_name ga = get_name gb -> a = b) /\
  (forall gp g nbs, gridPtrs ctx !! gp = Some g -> mpiData ctx !! get_name g = Some nbs ->
     is_Some (storage g) /\ nbs <> [] /\ Forall (recv_buf_wf g) nbs).

End HaloNotions.

Section HaloRelations.
Context {real_t : Type}.

(** What one phase may do to the dirty flags of a grid exchanged at the
    slot [slot]. *)
Definition step_rel (halo_step : halo_steps) (slot : Z) (d d' : Z -> bool) : Prop :=
  match halo_step with
  | halo_irecv | halo_pack_isend => d' = d
  | halo_unpack => flags_agree_off slot d d'
  | halo_final => flags_agree_off slot d d' /\ d' slot = false
  end.

(** The state of an exchange in progress is sound for the selection [sel]:
    every grid to swap is the grid of that name in the context, with its
    metadata, has storage, and has neighbors with well-formed buffers. *)
Definition exchange_inv (ctx : @HaloContext real_t) (sel : SwapSel)
    (st : gmap nat (YkVarBase real_t) * gmap string (list (@MPIBufs real_t))) : Prop :=
  forall gname gp, gridsToSwap sel !! gname = Some gp ->
    exists g0 g nbs,
      gridPtrs ctx !! gp = Some g0 /\ get_name g0 = gname /\
      st.1 !! gp = Some g /\ same_meta g0 g /\ is_Some (storage g) /\
      st.2 !! gname = Some nbs /\ nbs <> [] /\ Forall (recv_buf_wf g0) nbs.

End HaloRelations.

Section HaloLoopRelations.
Context {real_t : Type}.

(** What the visits of all neighbors in one phase may do to the dirty
    flags: nothing in the first two phases, at most the flag of [slot]
    in the last two, and after the final phase that flag is clear if a
    neighbor was visited or it was clear before. *)
Definition visit_rel (halo_step : halo_steps) (slot : Z) (visited : Prop)
    (d d' : Z -> bool) : Prop :=
  (halo_step = halo_irecv \/ halo_step = halo_pack_isend -> d' = d) /\
  flags_agree_off slot d d' /\
  (halo_step = halo_final -> visited \/ d slot = false -> d' slot = false).

(** The same for a grid to swap at the step-vector index [svi]: nothing
    happens to a grid without a step at that index. *)
Definition grid_rel (sel : SwapSel) (halo_step : halo_steps) (svi : nat)
    (gname : string) (g : YkVarBase real_t) (d d' : Z -> bool) : Prop :=
  match steps_of sel gname !! svi with
  | Some si => visit_rel halo_step (slot_of g si) True d d'
  | None => d' = d
  end.

(** The net effect of all phases of one round when the interior phases
    run: the flag of the slot exchanged is clear, the others are as before. *)
Definition round_rel (sel : SwapSel) (svi : nat) (gname : string)
    (g : YkVarBase real_t) (d d' : Z -> bool) : Prop :=
  match steps_of sel gname !! svi with
  | Some si => flags_agree_off (slot_of g si) d d' /\ d' (slot_of g si) = false
  | None => d' = d
  end.

End HaloLoopRelations.

(** A context on one of two ranks, with elements in [Z]: grid 0 is "u",
    an input of the only bundle, with MPI buffers and a dirty flag at slot
    1; grid 1 is "out", the output of the bundle, also with MPI buffers and
    dirty at slot 0, but read by no bundle. *)
Definition grid_u : YkVarBase Z := {|
  get_name := "u"; is_scratch := false;
  _has_step_dim := true; var_step_posn := 0; step_alloc_size := 2;
  first_alloc_step := 0; last_alloc_step := 1;
  storage := Some (fun _ => 0);
  _dirty_steps := fun slot => bool_decide (slot = 1)
|}.

Definition grid_out : YkVarBase Z := {|
  get_name := "out"; is_scratch := false;
  _has_step_dim := true; var_step_posn := 0; step_alloc_size := 2;
  first_alloc_step := 0; last_alloc_step := 1;
  storage := Some (fun _ => 0);
  _dirty_steps := fun slot => bool_decide (slot = 0)
|}.

Definition bufs_example : @MPIBufs Z := {|
  neighbor_rank := 1;
  bufSend := {| begin_pt := [0; 6]; last_pt := [0; 7]; get_bytes := 16;
                vec_copy_ok := false; _elems := [0; 0] |};
  bufRecv := {| begin_pt := [0; 8]; last_pt := [0; 9]; get_bytes := 16;
                vec_copy_ok := false; _elems := [0; 0] |};
  recv_req := false;
  send_req := false
|}.

Definition ctx_halo_example : @HaloContext Z := {|
  enable_halo_exchange := true;
  env_num_ranks := 2;
  do_mpi_exterior := true;
  do_mpi_interior := true;
  allow_vec_exchange := false;
  stPacks := [[ {| get_reqd_bundles :=
                     [ {| inputGridPtrs := [0%nat]; outputGridPtrs := [1%nat] |} ] |} ]];
  gridPtrs := {[ 0%nat := grid_u; 1%nat := grid_out ]};
  mpiData := {[ "u"%string := [bufs_example]; "out"%string := [bufs_example] ]}
|}.

(** What the neighbor sends in the example: the values 7 and 8. *)
Definition network_example (gname : string) (ni : nat) : list Z := [7; 8].

(** ** Common utilities (yask_common_utils.hpp) *)

(** [#define ROUND_DOWN(n, mult) (((n) / (mult)) * (mult))] *)
Definition ROUND_DOWN (n mult : Z) : Z := Z.quot n mult * mult.

(** [div_equally_size_n(num, nparts, n)]: the size of part [n] when [num]
    is divided into [nparts] parts. *)
Definition div_equally_size_n (num nparts n : Z) : Z :=
  let p := Z.quot num nparts in
  let rem := Z.rem num nparts in
  p + (if n <? rem then 1 else 0).

(** [div_equally_cumu_size_n(num, nparts, n)]: the cumulative size of parts
    0 to [n], and 0 if [n < 0]. *)
Definition div_equally_cumu_size_n (num nparts n : Z) : Z :=
  if n <? 0 then 0
  else
    let p := Z.quot num nparts * (n + 1) in
    let rem := Z.rem num nparts in
    p + (if n <? rem then n + 1 else rem).

(** [div_equally_all_sizes(num, nparts)]: a vector of [nparts] entries
    [num / nparts], of which the first [num % nparts] are incremented. *)
Definition div_equally_all_sizes (num nparts : Z) : list Z :=
  let p := replicate (Z.to_nat nparts) (Z.quot num nparts) in
  foldl (fun p i => set_at p (Z.to_nat i) (at_ p (Z.to_nat i) + 1))
        p (seqZ 0 (Z.rem num nparts)).

(** The sum of the entries of a vector. *)
Definition sum_list (l : list Z) : Z := foldr Z.add 0 l.

(** *** Loops over strided ranges *)

(** The loop [for (idx_t i = begin; i < end; i += stride)] of [yask_for],
    run on a state; [visitor start stop thread_num] is the body's call.
    The loop does not end for a stride that is not positive, so the
    recursion is bounded by [fuel], and [None] is "fuel ran out". *)
Fixpoint yask_for_loop {S : Type} (fuel : nat) (i end_ stride tn : Z)
    (visitor : Z -> Z -> Z -> S -> S) (s : S) : option S :=
  if i <? end_ then
    match fuel with
    | O => None
    | Datatypes.S fuel' =>
        let stop := Z.min (i + stride) end_ in
        yask_for_loop fuel' (i + stride) end_ stride tn visitor (visitor i stop tn s)
    end
  else Some s.

(** [yask_for(begin, end, stride, visitor)]; [tn] is what
    [omp_get_thread_num()] returns. *)
Definition yask_for {S : Type} (fuel : nat) (begin end_ stride tn : Z)
    (visitor : Z -> Z -> Z -> S -> S) (s : S) : option S :=
  if end_ <=? begin then Some s
  else yask_for_loop fuel begin end_ stride tn visitor s.

(** [yask_parallel_for(begin, end, stride, visitor)] as built without
    OpenMP, where [omp_get_thread_num()] is the stub that returns 0. *)
Definition yask_parallel_for {S : Type} (fuel : nat) (begin end_ stride : Z)
    (visitor : Z -> Z -> Z -> S -> S) (s : S) : option S :=
  if end_ <=? begin then Some s
  else
    (* Number of iterations in canonical loop. *)
    let niter := CEIL_DIV (end_ - begin) stride in
    (* Only 1 value. *)
    if niter =? 1 then Some (visitor begin end_ 0 s)
    else yask_for_loop fuel begin end_ stride 0 visitor s.

(** The calls that a strided loop over [begin, end) is expected to make:
    chunk [k] starts at [begin + k * stride] and stops [stride] later or at
    [end]. *)
Definition stride_chunks (begin end_ stride : Z) : list (Z * Z) :=
  (fun k => (begin + k * stride, Z.min (begin + (k + 1) * stride) end_))
    <$> seqZ 0 (CEIL_DIV (end_ - begin) stride).

(** *** [vector_set]: a set that retains the order of insertion *)

Section VectorSet.
Context {T : Type} `{Countable T}.

(** [class vector_set]: [_items] without duplicates and
    [_posn[_items[i]] = i]. *)
Record vector_set := {
  vs_items : list T;
  vs_posn : gmap T nat
}.

(** [vector_set()]. *)
Definition vs_empty : vector_set := {| vs_items := []; vs_posn := ∅ |}.

(** [size()]. *)
Definition vs_size (s : vector_set) : nat := length (vs_items s).

(** [count(val)]: [_posn.count(val)]. *)
Definition vs_count (s : vector_set) (val : T) : nat :=
  if decide (is_Some (vs_posn s !! val)) then 1%nat else 0%nat.

(** [at(i)]; [None] is the exception of [std::vector::at]. *)
Definition vs_at (s : vector_set) (i : nat) : option T := vs_items s !! i.

(** [insert(val)] (and [push_back(val)], which calls it). *)
Definition vs_insert (s : vector_set) (val : T) : vector_set :=
  if decide (vs_count s val = 0%nat) then
    let items := vs_items s ++ [val] in
    {| vs_items := items;
       vs_posn := <[val := (length items - 1)%nat]> (vs_posn s) |}
  else s.

(** [erase(val)].  [_items.erase(_items.begin() + op)] is undefined when
    [op] is not the index of an element, which is [None] here.  The loop
    that is meant to repair the positions iterates over copies of the
    entries ([for (auto pi : _posn)]), so its decrement never reaches
    [_posn]. *)
Definition vs_erase (s : vector_set) (val : T) : option vector_set :=
  match vs_posn s !! val with
  | Some op =>
      if decide (op < length (vs_items s))%nat then
        let items := delete op (vs_items s) in
        (* Repair positions of items after 'val'. *)
        let posn :=
          foldl (fun posn (pi : T * nat) =>
                   let p := pi.2 in
                   let p := if (op <? p)%nat then (p - 1)%nat else p in
                   let pi := (pi.1, p) in   (* the copy is updated and dropped *)
                   posn)
                (vs_posn s) (map_to_list (vs_posn s)) in
        Some {| vs_items := items; vs_posn := delete val posn |}
      else None
  | None => Some s
  end.

(** [swap(i, j)].  An index past the end is undefined ([None]). *)
Definition vs_swap (s : vector_set) (i j : nat) : option vector_set :=
  tmp ← vs_items s !! i;
  xj ← vs_items s !! j;
  if decide (i = j) then Some s
  else
    let items := <[i := xj]> (vs_items s) in
    let items := <[j := tmp]> items in
    xi' ← items !! i;
    let posn := <[xi' := i]> (vs_posn s) in
    xj' ← items !! j;
    let posn := <[xj' := j]> posn in
    Some {| vs_items := items; vs_posn := posn |}.

(** The relationship that the class maintains: [_posn[_items[i]] = i], and
    [_posn] has no other keys. *)
Definition vs_wf (s : vector_set) : Prop :=
  forall i x, vs_items s !! i = Some x <-> vs_posn s !! x = Some i.

End VectorSet.

Arguments vector_set T {_ _}.

(** The set obtained by inserting 1, 2, 3 and 4. *)
Definition vs_example : vector_set Z :=
  vs_insert (vs_insert (vs_insert (vs_insert vs_empty 1) 2) 3) 4.

(** ** Running the solution: the loops over steps (context.cpp) *)

(** The loop over step chunks that [run_solution], [calc_region] and
    [calc_mini_block] share: [num_t] iterations, iteration [index_t]
    covering the steps from [start_t] up (or down) to, but not including,
    [stop_t].  The entries are [(index_t, start_t, stop_t)]. *)
Definition step_chunks (begin_t end_t step_t : Z) : list (Z * Z * Z) :=
  let num_t := CEIL_DIV (Z.abs (end_t - begin_t)) (Z.abs step_t) in
  (fun index_t =>
     let start_t := begin_t + index_t * step_t in
     let stop_t :=
       if 0 <? step_t then Z.min (start_t + step_t) end_t
       else Z.max (start_t + step_t) end_t in
     (index_t, start_t, stop_t))
    <$> seqZ 0 num_t.

(** The values of [t] in [for (idx_t t = start; t != stop; t += step_dir)]
    where [step_dir] points from [start] to [stop]. *)
Definition step_range (start stop : Z) : list Z :=
  if start <=? stop then seqZ start (stop - start)
  else (fun k => start - k) <$> seqZ 0 (start - stop).

(** The exception of [run_solution]. *)
Inductive run_error : Type :=
| NotPrepared.   (* "run_solution() called without calling prepare_solution() first" *)

(** [StencilContext::run_solution(first_step_index, last_step_index)] as
    far as the steps go.  [prologue] stands for the calls before the step
    loop (threads, initial halo exchange) and [body index_t start_t stop_t]
    for the work of one iteration (the generated rank loops over the
    regions, the halo exchanges and the per-pack step counts); the state
    carries [steps_done] beside whatever they change. *)
Definition run_solution {S : Type} (rank_bb_valid : bool) (ext_bb_size wf_steps : Z)
    (first_step_index last_step_index : Z)
    (prologue : S -> S) (body : Z -> Z -> Z -> S -> S)
    (steps_done : Z) (s : S) : result run_error (S * Z) :=
  (* Determine step dir from order of first/last. *)
  let step_dir := if first_step_index <=? last_step_index then 1 else -1 in
  let begin_t := first_step_index in
  let step_t := Z.max wf_steps 1 * step_dir in
  let end_t := last_step_index + step_dir in   (* end is beyond last *)
  if negb rank_bb_valid then Err NotPrepared
  else if ext_bb_size <? 1 then Ok (s, steps_done)   (* nothing to do in solution *)
  else
    let s := prologue s in
    Ok (foldl (fun (st : S * Z) (c : Z * Z * Z) =>
                 let '(index_t, start_t, stop_t) := c in
                 let this_num_t := Z.abs (stop_t - start_t) in
                 (body index_t start_t stop_t st.1, st.2 + this_num_t))
              (s, steps_done) (step_chunks begin_t end_t step_t)).

(** The step loop of [StencilContext::run_ref]: the
    [(index_t, start_t, stop_t)] of its iterations. *)
Definition run_ref_steps (first_step_index last_step_index : Z) : list (Z * Z * Z) :=
  let step_dir := if first_step_index <=? last_step_index then 1 else -1 in
  let begin_t := first_step_index in
  let step_t := step_dir in      (* always +/- 1 for ref run *)
  let end_t := last_step_index + step_dir in
  (* backward? *)
  let '(begin_t, end_t) :=
    if step_t <? 0 then (end_t + step_t, step_t) else (begin_t, end_t) in
  let num_t := Z.abs (end_t - begin_t) in
  (fun index_t =>
     let start_t := begin_t + index_t * step_t in
     let stop_t :=
       if 0 <? step_t then Z.min (start_t + step_t) end_t
       else Z.max (start_t + step_t) end_t in
     (index_t, start_t, stop_t))
    <$> seqZ 0 num_t.

(** The time loop of [calc_region]: the region's step range
    [begin_t, end_t) in chunks of [max(tb_steps, 1)] steps. *)
Definition calc_region_steps (tb_steps begin_t end_t : Z) : list (Z * Z * Z) :=
  let step_dir := if begin_t <=? end_t then 1 else -1 in
  let step_t := Z.max tb_steps 1 * step_dir in
  step_chunks begin_t end_t step_t.

(** [num_t] of [calc_block] for a block whose step range is
    [begin_t, end_t). *)
Definition calc_block_num_t (tb_steps begin_t end_t : Z) : Z :=
  let step_dir := if begin_t <=? end_t then 1 else -1 in
  let step_t := Z.max tb_steps 1 * step_dir in
  CEIL_DIV (Z.abs (end_t - begin_t)) (Z.abs step_t).

(** The time loop of [calc_mini_block]: single steps. *)
Definition calc_mini_block_steps (begin_t end_t : Z) : list (Z * Z * Z) :=
  let step_dir := if begin_t <=? end_t then 1 else -1 in
  let step_t := 1 * step_dir in
  step_chunks begin_t end_t step_t.

(** *** Blocks inside and outside the MPI interior: [calc_block] *)

(** The loop of [calc_block] that sets [inside]: it leaves at the first
    domain dim in which the block starts before or stops after the
    interior. *)
Fixpoint block_inside_loop (step_posn : nat) (mpi_interior : BoundingBox)
    (start stop : Indices) (js : list nat) : bool :=
  match js with
  | [] => true
  | j :: js' =>
      let i := stencil_posn step_posn j in
      if at_ start i <? at_ (bb_begin mpi_interior) j then false
      else if at_ (bb_end mpi_interior) j <? at_ stop i then false
      else block_inside_loop step_posn mpi_interior start stop js'
  end.

(** Whether [calc_block] goes on to calculate the block
    [region_idxs.start, region_idxs.stop) (it returns early otherwise). *)
Definition calc_block_proceeds (step_posn num_domain_dims : nat)
    (do_mpi_interior do_mpi_exterior : bool) (mpi_interior : BoundingBox)
    (start stop : Indices) : bool :=
  if negb do_mpi_interior || negb do_mpi_exterior then
    let inside :=
      block_inside_loop step_posn mpi_interior start stop (seq 0 num_domain_dims) in
    if do_mpi_interior && negb inside then false
    else if do_mpi_exterior && inside then false
    else true
  else true.

(** *** Registering grids: [StencilContext::addGrid] *)

Section AddGrid.
Context {G : Type} (grid_name : G -> string).

(** The containers of the context that [addGrid] fills. *)
Record GridContainers := {
  gc_gridPtrs : list G;
  gc_gridMap : gmap string G;
  gc_outputGridPtrs : list G;
  gc_outputGridMap : gmap string G
}.

Inductive grid_error : Type :=
| GridExists (gname : string).   (* "grid '...' already exists" *)

(** [StencilContext::addGrid(gp, is_output)]. *)
Definition addGrid (c : GridContainers) (gp : G) (is_output : bool)
    : result grid_error GridContainers :=
  let gname := grid_name gp in
  if decide (is_Some (gc_gridMap c !! gname)) then Err (GridExists gname)
  else
    (* Add to list and map. *)
    let gridPtrs := gc_gridPtrs c ++ [gp] in
    let gridMap := <[gname := gp]> (gc_gridMap c) in
    (* Add to output list and map if 'is_output'. *)
    if is_output then
      Ok {| gc_gridPtrs := gridPtrs; gc_gridMap := gridMap;
            gc_outputGridPtrs := gc_outputGridPtrs c ++ [gp];
            gc_outputGridMap := <[gname := gp]> (gc_outputGridMap c) |}
    else
      Ok {| gc_gridPtrs := gridPtrs; gc_gridMap := gridMap;
            gc_outputGridPtrs := gc_outputGridPtrs c;
            gc_outputGridMap := gc_outputGridMap c |}.

(** A map holds exactly the grids of a list, under their names. *)
Definition map_of_grids (m : gmap string G) (l : list G) : Prop :=
  forall gname g, m !! gname = Some g <-> g ∈ l /\ grid_name g = gname.

(** The containers are consistent: the names of the grids are distinct,
    both maps hold the grids of their lists, and the output grids are among
    the grids, in the same order. *)
Definition containers_wf (c : GridContainers) : Prop :=
  NoDup (grid_name <$> gc_gridPtrs c) /\
  map_of_grids (gc_gridMap c) (gc_gridPtrs c) /\
  map_of_grids (gc_outputGridMap c) (gc_outputGridPtrs c) /\
  sublist (gc_outputGridPtrs c) (gc_gridPtrs c).

Definition containers_empty : GridContainers :=
  {| gc_gridPtrs := []; gc_gridMap := ∅; gc_outputGridPtrs := []; gc_outputGridMap := ∅ |}.

End AddGrid.

Arguments GridContainers : clear implicits.

(** *** Marking written grids: [StencilContext::mark_grids_dirty] *)

Section MarkGridsDirty.
Context {G : Type} `{Countable G}.

(** A bundle as [mark_grids_dirty] reads it: [get_output_step_index(t, t_out)]
    gives the output step of input step [t], if any, and [outputGridPtrs]
    the grids that the bundle writes. *)
Record DirtyBundle := {
  get_output_step_index : Z -> option Z;
  db_outputGridPtrs : list G
}.

(** Body of the loop over the output grids of a bundle; the state is
    [grids_done] and the calls [gp->set_dirty(true, t_out)] made so far. *)
Definition mark_grid (t_out : Z) (st : gset (G * Z) * list (G * Z)) (gp : G)
    : gset (G * Z) * list (G * Z) :=
  let '(grids_done, calls) := st in
  (* Mark output step as dirty if not already done. *)
  if decide ((gp, t_out) ∈ grids_done) then (grids_done, calls)
  else ({[ (gp, t_out) ]} ∪ grids_done, calls ++ [(gp, t_out)]).

(** Body of the loop over the bundles of a pack at input step [t]. *)
Definition mark_bundle (t : Z) (st : gset (G * Z) * list (G * Z)) (sb : DirtyBundle)
    : gset (G * Z) * list (G * Z) :=
  match get_output_step_index sb t with
  | None => st
  | Some t_out => foldl (mark_grid t_out) st (db_outputGridPtrs sb)
  end.

(** [StencilContext::mark_grids_dirty(sel_bp, start, stop)]: the calls
    [gp->set_dirty(true, t_out)] that it makes, in order.  [stPacks] are
    the packs, each the list of its bundles; [sel_bp] is the position of
    the selected pack, or [None] for the null pointer. *)
Definition mark_grids_dirty (stPacks : list (list DirtyBundle)) (sel_bp : option nat)
    (start stop : Z) : list (G * Z) :=
  let st :=
    foldl (fun st (ibp : nat * list DirtyBundle) =>
             let '(i, bp) := ibp in
             (* Not a selected bundle pack? *)
             if bool_decide (is_Some sel_bp /\ sel_bp <> Some i) then st
             else
               foldl (fun st t => foldl (mark_bundle t) st bp) st (step_range start stop))
          (∅, []) (imap pair stPacks) in
  st.2.

(** Marking one (grid, output step) pair. *)
Definition mark_pair (st : gset (G * Z) * list (G * Z)) (c : G * Z)
    : gset (G * Z) * list (G * Z) :=
  mark_grid c.2 st c.1.

(** The pairs that a bundle gives at input step [t], in the order of the
    loop over its output grids. *)
Definition bundle_pairs (t : Z) (sb : DirtyBundle) : list (G * Z) :=
  match get_output_step_index sb t with
  | Some t_out => (fun gp => (gp, t_out)) <$> db_outputGridPtrs sb
  | None => []
  end.

(** The pairs that the loops of [mark_grids_dirty] come across, in order. *)
Definition dirty_pairs (stPacks : list (list DirtyBundle)) (sel_bp : option nat)
    (start stop : Z) : list (G * Z) :=
  ibp ← imap pair stPacks;
  if bool_decide (is_Some sel_bp /\ sel_bp <> Some ibp.1) then []
  else t ← step_range start stop; sb ← ibp.2; bundle_pairs t sb.

(** The calls that are due: one per selected pack, input step, bundle with
    an output step and output grid of that bundle. *)
Definition dirty_due (stPacks : list (list DirtyBundle)) (sel_bp : option nat)
    (start stop : Z) (c : G * Z) : Prop :=
  exists i bp t sb,
    stPacks !! i = Some bp /\ (sel_bp = None \/ sel_bp = Some i) /\
    t ∈ step_range start stop /\ sb ∈ bp /\
    get_output_step_index sb t = Some c.2 /\ c.1 ∈ db_outputGridPtrs sb.

End MarkGridsDirty.

Arguments DirtyBundle : clear implicits.

(** ** Allocating the grids' storage: [StencilContext::allocGridData] (setup.cpp) *)

Section AllocGridData.
(** [CACHELINE_BYTES] and [_data_buf_pad], which are defined outside the
    sources at hand. *)
Context (CACHELINE_BYTES _data_buf_pad : Z).

(** A grid as the allocation reads and writes it.  [ga_storage] is what
    [set_storage(p, offset)] records: the buffer, named by the NUMA key it
    was allocated for, and the offset of the grid in it. *)
Record GridAlloc := {
  ga_name : string;
  is_storage_allocated : bool;
  get_numa_preferred : Z;
  get_num_storage_bytes : Z;
  ga_storage : option (Z * Z)
}.

(** [gp->set_storage(p, offset)], with [p] the buffer of NUMA key [numa]. *)
Definition set_storage (gp : GridAlloc) (numa offset : Z) : GridAlloc :=
  {| ga_name := ga_name gp;
     is_storage_allocated := true;
     get_numa_preferred := get_numa_preferred gp;
     get_num_storage_bytes := get_num_storage_bytes gp;
     ga_storage := Some (numa, offset) |}.

(** [m[k]] of a [std::map<int, size_t>]: 0 for a key that is not there. *)
Definition map_at (m : gmap Z Z) (k : Z) : Z := default 0 (m !! k).

(** Body of the loop over [gridPtrs] in pass [pass]; the state is
    [(npbytes, ngrids)] and the grids visited so far.  A null pointer is
    [None]. *)
Definition alloc_grid_step (pass : Z) (st : gmap Z Z * gmap Z Z * list (option GridAlloc))
    (ogp : option GridAlloc) : gmap Z Z * gmap Z Z * list (option GridAlloc) :=
  let '(npbytes, ngrids, visited) := st in
  match ogp with
  | None => (npbytes, ngrids, visited ++ [None])
  | Some gp =>
      (* Don't alloc if already done. *)
      if negb (is_storage_allocated gp) then
        let numa_pref := get_numa_preferred gp in
        (* Set storage if buffer has been allocated in pass 1. *)
        let gp' := if pass =? 2 then set_storage gp numa_pref (map_at npbytes numa_pref)
                   else gp in
        (* Determine padded size (also offset to next location). *)
        let nbytes := get_num_storage_bytes gp' in
        let npbytes :=
          <[numa_pref := map_at npbytes numa_pref
                         + ROUND_UP (nbytes + _data_buf_pad) CACHELINE_BYTES]> npbytes in
        let ngrids := <[numa_pref := map_at ngrids numa_pref + 1]> ngrids in
        (npbytes, ngrids, visited ++ [Some gp'])
      else (npbytes, ngrids, visited ++ [Some gp])
  end.

(** [_alloc_data(nbytes, ngrids, data_buf, type)]: one buffer per NUMA key,
    of the bytes counted less the pad after the last grid.  The result
    maps each key to the size of its buffer; [None] is the exception of
    [ngrids.at]. *)
Definition _alloc_data (nbytes ngrids : gmap Z Z) : option (gmap Z Z) :=
  if bool_decide (dom nbytes ⊆ dom ngrids) then
    Some ((fun nb => if _data_buf_pad <=? nb then nb - _data_buf_pad else nb) <$> nbytes)
  else None.

(** [StencilContext::allocGridData] (without [USE_PMEM]): the grids with
    their storage set, and the buffers allocated. *)
Definition allocGridData (gridPtrs : list (option GridAlloc))
    : option (list (option GridAlloc) * gmap Z Z) :=
  (* Pass 0: only with USE_PMEM; the counters are reset. *)
  let '(_, _, grids0) := foldl (alloc_grid_step 0) (∅, ∅, []) gridPtrs in
  (* Pass 1: count required size for each NUMA node, allocate at end. *)
  let '(npbytes, ngrids, grids1) := foldl (alloc_grid_step 1) (∅, ∅, []) grids0 in
  _grid_data_buf ← _alloc_data npbytes ngrids;
  (* Pass 2: distribute parts of already-allocated memory chunk. *)
  let '(_, _, grids2) := foldl (alloc_grid_step 2) (∅, ∅, []) grids1 in
  Some (grids2, _grid_data_buf).

(** The bytes that a grid takes in its buffer, pad included. *)
Definition padded_bytes (gp : GridAlloc) : Z :=
  ROUND_UP (get_num_storage_bytes gp + _data_buf_pad) CACHELINE_BYTES.

(** The padded bytes of the grids of [l] that need storage on NUMA key
    [numa]. *)
Definition numa_bytes (numa : Z) (l : list (option GridAlloc)) : Z :=
  sum_list ((fun ogp : option GridAlloc =>
               match ogp with
               | Some gp =>
                   if negb (is_storage_allocated gp)
                      && (get_numa_preferred gp =? numa)
                   then padded_bytes gp else 0
               | None => 0
               end) <$> l).

End AllocGridData.

(** Three grids on the local NUMA key -1, of which the second has its
    storage already. *)
Definition grids_alloc_example : list (option GridAlloc) :=
  [ Some {| ga_name := "u"; is_storage_allocated := false; get_numa_preferred := -1;
            get_num_storage_bytes := 1000; ga_storage := None |};
    Some {| ga_name := "v"; is_storage_allocated := true; get_numa_preferred := -1;
            get_num_storage_bytes := 500; ga_storage := Some (7, 0) |};
    Some {| ga_name := "w"; is_storage_allocated := false; get_numa_preferred := -1;
            get_num_storage_bytes := 100; ga_storage := None |} ].

(** ** Bounding boxes: [BoundingBox::update_bb], [find_bounding_boxes] and the
    merge of sub-boxes in [find_bounding_box] (setup.cpp) *)

(** Element-wise operations of [IdxTuple] on two tuples over the same dims. *)
Definition addElements (a b : list Z) : list Z := zip_with Z.add a b.
Definition subElements (a b : list Z) : list Z := zip_with Z.sub a b.
Definition minElements (a b : list Z) : list Z := zip_with Z.min a b.
Definition maxElements (a b : list Z) : list Z := zip_with Z.max a b.

(** All the fields of the class [BoundingBox]: the corners [bb_begin] and
    [bb_end] and the values that [update_bb] derives from them. *)
Record BBInfo := {
  bb_box : BoundingBox;
  bb_num_points : Z;
  bb_len : list Z;
  bb_size : Z;
  bb_is_full : bool;
  bb_is_aligned : bool;
  bb_is_cluster_mult : bool;
  bb_valid : bool
}.

(** What [update_bb] and [find_bounding_boxes] read of the context and its
    dims, each over the domain dims: [rank_domain_offsets],
    [_opts->_rank_sizes], [left_wf_exts], [right_wf_exts],
    [_dims->_fold_pts], [_dims->_cluster_pts] and the values of the tuple
    [_dims->_domain_dims]. *)
Record BBContext := {
  bbc_rank_domain_offsets : list Z;
  bbc_rank_sizes : list Z;
  bbc_left_wf_exts : list Z;
  bbc_right_wf_exts : list Z;
  bbc_fold_pts : list Z;
  bbc_cluster_pts : list Z;
  bbc_domain_dims : list Z
}.

(** A box with the corners [b] and [e] whose other fields are those of [o]. *)
Definition with_corners (o : BBInfo) (b e : list Z) : BBInfo :=
  {| bb_box := {| bb_begin := b; bb_end := e |};
     bb_num_points := bb_num_points o; bb_len := bb_len o; bb_size := bb_size o;
     bb_is_full := bb_is_full o; bb_is_aligned := bb_is_aligned o;
     bb_is_cluster_mult := bb_is_cluster_mult o; bb_valid := bb_valid o |}.

(** [BoundingBox::update_bb(name, context, force_full)].  The two loops over
    the domain dims stop at the first dim that fails the test; [%] is the
    remainder of C++. *)
Definition update_bb (c : BBContext) (force_full : bool) (b : BBInfo) : BBInfo :=
  let ndims := length (bbc_domain_dims c) in
  let len := subElements (bb_end (bb_box b)) (bb_begin (bb_box b)) in
  let size := product len in
  let num_points := if force_full then size else bb_num_points b in
  (* Solid rectangle? *)
  let is_full := num_points =? size in
  (* Does everything start on a vector-length boundary? *)
  let is_aligned :=
    forallb (fun j => Z.rem (at_ (bb_begin (bb_box b)) j
                             - at_ (bbc_rank_domain_offsets c) j)
                            (at_ (bbc_fold_pts c) j) =? 0)
            (seq 0 ndims) in
  (* Lengths are cluster-length multiples? *)
  let is_cluster_mult :=
    forallb (fun j => Z.rem (at_ len j) (at_ (bbc_cluster_pts c) j) =? 0)
            (seq 0 ndims) in
  {| bb_box := bb_box b;
     bb_num_points := num_points; bb_len := len; bb_size := size;
     bb_is_full := is_full; bb_is_aligned := is_aligned;
     bb_is_cluster_mult := is_cluster_mult; bb_valid := true |}.

(** A bundle as [find_bounding_boxes] sees it: [sb->find_bounding_box()]
    sets the box of a bundle without sub-domain expression to [ext_bb]; the
    box of a bundle with one is found by a scan with generated loops, and is
    given here. *)
Inductive BundleBB : Type :=
| NoSubDomain
| SubDomain (scanned : BBInfo).

(** [sb->getBB()] after [sb->find_bounding_box()]. *)
Definition bundle_bb (ext_bb : BBInfo) (sb : BundleBB) : BBInfo :=
  match sb with
  | NoSubDomain => ext_bb
  | SubDomain scanned => scanned
  end.

(** The loop of [find_bounding_boxes] over the bundles of one pack: expand
    the pack's box to encompass each bundle's box. *)
Definition expand_pack_bb (ext_bb : BBInfo) (spbb : BBInfo) (sb : BundleBB) : BBInfo :=
  let sbbb := bundle_bb ext_bb sb in
  with_corners spbb
    (minElements (bb_begin (bb_box spbb)) (bb_begin (bb_box sbbb)))
    (maxElements (bb_end (bb_box spbb)) (bb_end (bb_box sbbb))).

(** What [find_bounding_boxes] leaves in the context. *)
Record BBResult := {
  res_rank_bb : BBInfo;
  res_ext_bb : BBInfo;
  res_pack_bbs : list BBInfo;
  res_mpi_interior : BBInfo
}.

(** [StencilContext::find_bounding_boxes()]; [rank_bb0] and [ext_bb0] are the
    boxes of the context on entry and each pack comes with its box on entry
    and its bundles. *)
Definition find_bounding_boxes (c : BBContext) (rank_bb0 ext_bb0 : BBInfo)
    (stPacks : list (BBInfo * list BundleBB)) : BBResult :=
  (* Rank BB is based only on rank offsets and rank domain sizes. *)
  let rank_bb :=
    update_bb c true
      (with_corners rank_bb0 (bbc_rank_domain_offsets c)
         (addElements (bbc_rank_domain_offsets c) (bbc_rank_sizes c))) in
  (* BB may be extended for wave-fronts. *)
  let ext_bb :=
    update_bb c true
      (with_corners ext_bb0
         (subElements (bb_begin (bb_box rank_bb)) (bbc_left_wf_exts c))
         (addElements (bb_end (bb_box rank_bb)) (bbc_right_wf_exts c))) in
  (* Find BB for each pack. *)
  let pack_bbs :=
    (fun sp : BBInfo * list BundleBB =>
       let spbb := with_corners (fst sp) (bbc_domain_dims c) (bbc_domain_dims c) in
       update_bb c false (foldl (expand_pack_bb ext_bb) spbb (snd sp)))
      <$> stPacks in
  {| res_rank_bb := rank_bb; res_ext_bb := ext_bb; res_pack_bbs := pack_bbs;
     (* Init MPI interior to extended BB. *)
     res_mpi_interior := ext_bb |}.

(** *** Merging the sub-boxes found per thread *)

(** [const int odim = 0]: the outer dim, across which the slices are cut. *)
Definition odim : nat := 0.

(** "Can 'bbn' be merged with 'bb'?": adjacent in the outer dim and aligned
    in the other dims. *)
Definition can_merge (nddims : nat) (b bbn : BBInfo) : bool :=
  forallb (fun i =>
             if (i =? odim)%nat
             then at_ (bb_end (bb_box b)) i =? at_ (bb_begin (bb_box bbn)) i
             else negb (negb (at_ (bb_begin (bb_box b)) i =? at_ (bb_begin (bb_box bbn)) i)
                        || negb (at_ (bb_end (bb_box b)) i =? at_ (bb_end (bb_box bbn)) i)))
          (seq 0 nddims).

(** The scan of [_bb_list] for a box to merge [bbn] with: the first box that
    can be merged is grown in the outer dim and updated, and the scan stops.
    Returns the list and [do_merge]. *)
Fixpoint merge_scan (c : BBContext) (nddims : nat) (_bb_list : list BBInfo) (bbn : BBInfo)
    : list BBInfo * bool :=
  match _bb_list with
  | [] => ([], false)
  | b :: rest =>
      if can_merge nddims b bbn then
        (update_bb c true
           (with_corners b (bb_begin (bb_box b))
              (set_at (bb_end (bb_box b)) odim (at_ (bb_end (bb_box bbn)) odim)))
           :: rest, true)
      else
        let '(rest', do_merge) := merge_scan c nddims rest bbn in
        (b :: rest', do_merge)
  end.

(** Body of the loop over the boxes of one slice. *)
Definition merge_bbn (c : BBContext) (nddims : nat) (_bb_list : list BBInfo) (bbn : BBInfo)
    : list BBInfo :=
  (* Don't bother with empty BB. *)
  if bb_size bbn =? 0 then _bb_list
  else
    let '(l, do_merge) := merge_scan c nddims _bb_list bbn in
    (* If not merged, add 'bbn' as new. *)
    if do_merge then l else l ++ [bbn].

(** "Collect BBs in all slices": the loop over the threads and, in it, over
    the boxes of the thread's slice. *)
Definition merge_sub_bbs (c : BBContext) (nddims : nat) (_bb_list : list BBInfo)
    (bb_lists : list (list BBInfo)) : list BBInfo :=
  foldl (fun acc cur_bb_list => foldl (merge_bbn c nddims) acc cur_bb_list)
        _bb_list bb_lists.

(** Point [p] lies in the box: at or after [bb_begin] and before [bb_end] in
    each of the [nddims] dims. *)
Definition in_box (nddims : nat) (p : list Z) (b : BBInfo) : Prop :=
  forall i, (i < nddims)%nat ->
    at_ (bb_begin (bb_box b)) i <= at_ p i < at_ (bb_end (bb_box b)) i.

(** A box over [nddims] dims whose end is not before its begin and whose
    size is up to date. *)
Definition box_ok (nddims : nat) (b : BBInfo) : Prop :=
  length (bb_begin (bb_box b)) = nddims /\
  length (bb_end (bb_box b)) = nddims /\
  (forall i, (i < nddims)%nat ->
     at_ (bb_begin (bb_box b)) i <= at_ (bb_end (bb_box b)) i) /\
  bb_size b = product (subElements (bb_end (bb_box b)) (bb_begin (bb_box b))).

(** A box given by its corners, updated. *)
Definition box_of (c : BBContext) (b e : list Z) : BBInfo :=
  update_bb c true
    {| bb_box := {| bb_begin := b; bb_end := e |};
       bb_num_points := 0; bb_len := []; bb_size := 0;
       bb_is_full := false; bb_is_aligned := false;
       bb_is_cluster_mult := false; bb_valid := false |}.

(** A context over two domain dims: rank at offset (64, 0) of size 32 x 16,
    a wave-front extension of 8 on the left of the first dim. *)
Definition bbc_example : BBContext := {|
  bbc_rank_domain_offsets := [64; 0];
  bbc_rank_sizes := [32; 16];
  bbc_left_wf_exts := [8; 0];
  bbc_right_wf_exts := [0; 0];
  bbc_fold_pts := [4; 1];
  bbc_cluster_pts := [4; 1];
  bbc_domain_dims := [0; 0]
|}.

(** ** The compiler's [Var]: dim counts and constant indices (Var.cpp) *)

(** The type of a dim of a var.  [set_dim_counts] and [get_misc_space_size]
    tell the three types below apart; any further type takes the last
    branch of [set_dim_counts], whose assertion is on a string literal and
    never fails. *)
Inductive index_type : Type :=
| STEP_INDEX
| DOMAIN_INDEX
| MISC_INDEX
| OTHER_INDEX.

#[global] Instance index_type_eq_dec : EqDecision index_type.
Proof. solve_decision. Defined.

(** The counters that [set_dim_counts] writes. *)
Record DimCounts := {
  _num_step_dims : Z;
  _num_domain_dims : Z;
  _num_misc_dims : Z;
  _num_foldable_dims : Z;
  _is_foldable : bool
}.

(** Body of the loop of [Var::set_dim_counts] for the dim [gdim] of
    [_vdims]; the state is the four counters, and [fold_gt1] is
    [dims._fold_gt1]. *)
Definition count_dim (fold_gt1 : list (string * Z)) (st : Z * Z * Z * Z)
    (gdim : string * index_type) : Z * Z * Z * Z :=
  let '(nstep, ndomain, nmisc, nfoldable) := st in
  let '(dname, dtype) := gdim in
  match dtype with
  | STEP_INDEX => (nstep + 1, ndomain, nmisc, nfoldable)
  | DOMAIN_INDEX =>
      (nstep, ndomain + 1, nmisc,
       match tuple_lookup fold_gt1 dname with
       | Some _ => nfoldable + 1
       | None => nfoldable
       end)
  | MISC_INDEX => (nstep, ndomain, nmisc + 1, nfoldable)
  | OTHER_INDEX => (nstep, ndomain, nmisc, nfoldable)
  end.

(** [Var::set_dim_counts(dims)] on a var with the dims [_vdims]. *)
Definition set_dim_counts (_vdims : list (string * index_type))
    (fold_gt1 : list (string * Z)) : DimCounts :=
  (* Find num of dim types in this var. *)
  let '(nstep, ndomain, nmisc, nfoldable) :=
    foldl (count_dim fold_gt1) (0, 0, 0, 0) _vdims in
  {| _num_step_dims := nstep;
     _num_domain_dims := ndomain;
     _num_misc_dims := nmisc;
     _num_foldable_dims := nfoldable;
     _is_foldable :=
       (* Never fold vars without domain dims. *)
       if ndomain =? 0 then false
       (* Otherwise, can fold if ALL vec dims are used in this var. *)
       else nfoldable =? Z.of_nat (length fold_gt1) |}.

(** Body of the loop of [Var::update_const_indices] for one dim of
    [indices]; the state is [(_min_indices, _max_indices)]. *)
Definition update_const_index (st : list (string * Z) * list (string * Z))
    (dim : string * Z) : list (string * Z) * list (string * Z) :=
  let '(min_indices, max_indices) := st in
  let '(dname, val) := dim in
  (* Update min. *)
  let min_indices :=
    match tuple_lookup min_indices dname with
    | None => add_dim_back min_indices dname val
    | Some minp =>
        if val <? minp then tuple_store min_indices dname val else min_indices
    end in
  (* Update max. *)
  let max_indices :=
    match tuple_lookup max_indices dname with
    | None => add_dim_back max_indices dname val
    | Some maxp =>
        if maxp <? val then tuple_store max_indices dname val else max_indices
    end in
  (min_indices, max_indices).

(** [Var::update_const_indices(indices)]. *)
Definition update_const_indices (st : list (string * Z) * list (string * Z))
    (indices : list (string * Z)) : list (string * Z) * list (string * Z) :=
  foldl update_const_index st indices.

(** [Var::get_misc_space_size()]: the product of the observed ranges of the
    misc dims.  Both [sz] and [msz] are [int]: the range and the product are
    narrowed to 32 bits, wrapping around.  (The [assert] is compiled out
    with [NDEBUG]; [update_const_indices_range] shows that it holds.) *)
Definition get_misc_space_size (_vdims : list (string * index_type))
    (min_indices max_indices : list (string * Z)) : Z :=
  foldl (fun msz (dim : string * index_type) =>
           match dim.2 with
           | MISC_INDEX =>
               match tuple_lookup min_indices dim.1, tuple_lookup max_indices dim.1 with
               | Some minp, Some maxp =>
                   let sz := to_int (maxp - minp + 1) in
                   to_int (msz * sz)
               | _, _ => msz
               end
           | _ => msz
           end)
        1 _vdims.

(** The product of the observed ranges of the misc dims in unbounded
    integers, starting from [msz]: what [get_misc_space_size] is meant to
    return. *)
Definition misc_space_product (msz : Z) (_vdims : list (string * index_type))
    (min_indices max_indices : list (string * Z)) : Z :=
  foldl (fun msz (dim : string * index_type) =>
           match dim.2 with
           | MISC_INDEX =>
               match tuple_lookup min_indices dim.1, tuple_lookup max_indices dim.1 with
               | Some minp, Some maxp => msz * (maxp - minp + 1)
               | _, _ => msz
               end
           | _ => msz
           end)
        msz _vdims.

(** The state of the constant indices is in order: a dim has a minimum
    exactly when it has a maximum, and the minimum is not above it. *)
Definition const_indices_ok (st : list (string * Z) * list (string * Z)) : Prop :=
  forall dname,
    match tuple_lookup st.1 dname, tuple_lookup st.2 dname with
    | Some minp, Some maxp => minp <= maxp
    | None, None => True
    | _, _ => False
    end.

(** ** The compiler's [Var]: halos taken over from another var (Var.cpp) *)

(** Body of the innermost loop of [Var::update_halo(other)] for the dim
    [dim] of the tuple [other._halos[stname][left][step]]; the state is
    [(_halos, changed)]. *)
Definition take_halo_dim (stname : string) (left : bool) (step : Z)
    (st : halo_map * bool) (dim : string * Z) : halo_map * bool :=
  let '(h, changed) := st in
  let '(dname, val) := dim in
  (* Any existing value in this var? *)
  let halos := halos_ref h stname left step in
  let h := halos_assign h stname left step halos in
  match tuple_lookup halos dname with
  | None =>
      (* If not, add this one. *)
      (halos_assign h stname left step (add_dim_back halos dname val), true)
  | Some p =>
      (* Keep larger value. *)
      if p <? val
      then (halos_assign h stname left step (tuple_store halos dname val), true)
      else (h, changed)
  end.

(** The loop over the step offsets of one side and, in it, over the dims of
    the tuple at each step offset. *)
Definition take_halo_steps (stname : string) (left : bool) (st : halo_map * bool)
    (m1 : gmap Z (list (string * Z))) : halo_map * bool :=
  foldl (fun st (i1 : Z * list (string * Z)) =>
           foldl (take_halo_dim stname left i1.1) st i1.2)
        st (ofs_items m1).

(** The loop over the sides of one stage: a [std::map<bool, ...>] is visited
    with [false] before [true]. *)
Definition take_halo_sides (stname : string) (st : halo_map * bool)
    (h2 : gmap bool (gmap Z (list (string * Z)))) : halo_map * bool :=
  foldl (fun st (left : bool) =>
           match h2 !! left with
           | Some m1 => take_halo_steps stname left st m1
           | None => st
           end)
        st [false; true].

(** [Var::update_halo(const Var& other)], on a var [other] that is not the
    var itself: the updated var and the returned [changed] flag.  The
    stages are visited in the order of [map_to_list]; the visits of
    different stages touch different entries of [_halos]. *)
Definition update_halo_other (v other : Var) : Var * bool :=
  let '(h, changed) :=
    foldl (fun st (hi : string * gmap bool (gmap Z (list (string * Z)))) =>
             take_halo_sides hi.1 st hi.2)
          (_halos v, false) (map_to_list (_halos other)) in
  ({| var_step_dim := var_step_dim v;
      _halos := h;
      _l1_dist := update_l1_dist v (_l1_dist other);
      _write_points := _write_points v;
      _step_alloc := _step_alloc v;
      settings_step_alloc := settings_step_alloc v |},
   changed).

(** The larger of two halo values, either of which may be missing. *)
Definition halo_max (a b : option Z) : option Z :=
  match a, b with
  | Some x, Some y => Some (Z.max x y)
  | Some x, None => Some x
  | None, _ => b
  end.

(** The tuples of a var's halos have distinct dim names. *)
Definition halo_tuples_ok (v : Var) : Prop :=
  forall s h2 l h3 sv t,
    _halos v !! s = Some h2 -> h2 !! l = Some h3 -> h3 !! sv = Some t -> NoDup t.*1.

(** Two vars over [x] and [y] with halos for stage "s0". *)
Definition var_halo_example (hx hy : Z) : Var :=
  {| var_step_dim := Some "t"%string;
     _halos := {[ "s0"%string := {[ true := {[ 0 := [("x"%string, hx); ("y"%string, hy)] ]} ]} ]};
     _l1_dist := 1; _write_points := ∅;
     _step_alloc := 0; settings_step_alloc := 0 |}.

(** ** Kernel vars: storage layout (yk_var_apis.cpp) *)

(** What [is_storage_layout_identical] reads of a var: the number of bytes
    of its storage, the names of its dims ([get_num_dims()] is their
    number) and, per dim, the fold length, the domain size and the actual
    pads held by the var's core. *)
Record VarLayout := {
  vl_num_storage_bytes : Z;
  vl_dim_names : list string;
  _var_vec_lens : list Z;
  _domains : list Z;
  _actl_left_pads : list Z;
  _actl_right_pads : list Z
}.

(** [get_dim_name(i)]. *)
Definition get_dim_name (v : VarLayout) (i : nat) : string :=
  default ""%string (vl_dim_names v !! i).

(** Body of the loop of [is_storage_layout_identical] for dim [i]: [false]
    is "return false". *)
Definition layout_dim_identical (v op : VarLayout) (check_sizes : bool) (i : nat) : bool :=
  (* Same dims? *)
  if negb (bool_decide (get_dim_name v i = get_dim_name op i)) then false
  (* Same folding? *)
  else if negb (at_ (_var_vec_lens v) i =? at_ (_var_vec_lens op) i) then false
  (* Same dim sizes? *)
  else if check_sizes then
    if negb (at_ (_domains v) i =? at_ (_domains op) i) then false
    else if negb (at_ (_actl_left_pads v) i =? at_ (_actl_left_pads op) i) then false
    else if negb (at_ (_actl_right_pads v) i =? at_ (_actl_right_pads op) i) then false
    else true
  else true.

(** [YkVarImpl::is_storage_layout_identical(op, check_sizes)]. *)
Definition is_storage_layout_identical (v op : VarLayout) (check_sizes : bool) : bool :=
  (* Same size? *)
  if check_sizes && negb (vl_num_storage_bytes v =? vl_num_storage_bytes op) then false
  (* Same num dims? *)
  else if negb (length (vl_dim_names v) =? length (vl_dim_names op))%nat then false
  else forallb (layout_dim_identical v op check_sizes) (seq 0 (length (vl_dim_names v))).

(** * Properties *)

(** ** Index tuples, rounding and the domain-dim loop *)

Lemma at_set_at_eq v i x : (i < length v)%nat -> at_ (set_at v i x) i = x.
Proof.
  intros H. unfold at_, set_at.
  apply list_lookup_total_correct. by apply list_lookup_insert_eq.
Qed.

Lemma at_set_at_ne v i k x : i <> k -> at_ (set_at v i x) k = at_ v k.
Proof.
  intros H. unfold at_, set_at.
  by rewrite list_lookup_total_insert_ne.
Qed.

Lemma length_set_at v i x : length (set_at v i x) = length v.
Proof. apply length_insert. Qed.

Lemma CEIL_DIV_spec n d : 0 <= n -> 0 < d -> CEIL_DIV n d = ceil_div_spec n d.
Proof.
  intros Hn Hd. unfold CEIL_DIV, ceil_div_spec.
  apply Z.quot_div_nonneg; lia.
Qed.

Lemma ROUND_UP_spec n m : 0 <= n -> 0 < m -> ROUND_UP n m = round_up_spec n m.
Proof.
  intros Hn Hm. unfold ROUND_UP, round_up_spec. by rewrite CEIL_DIV_spec.
Qed.

(** [round_up_spec n m] is the least multiple of [m] that is at least [n]. *)
Lemma round_up_spec_ge n m : 0 < m -> n <= round_up_spec n m.
Proof.
  intros Hm. unfold round_up_spec, ceil_div_spec.
  pose proof (Z.div_mod (n + m - 1) m ltac:(lia)) as E.
  pose proof (Z.mod_pos_bound (n + m - 1) m Hm) as B.
  nia.
Qed.

Lemma round_up_spec_least n m k : 0 < m -> n <= k * m -> round_up_spec n m <= k * m.
Proof.
  intros Hm Hk. unfold round_up_spec, ceil_div_spec.
  apply Z.mul_le_mono_nonneg_r; [lia |].
  apply Z.lt_succ_r. apply Z.div_lt_upper_bound; [lia |]. nia.
Qed.

Lemma round_up_spec_add_mult n m k :
  0 < m -> round_up_spec (n + k * m) m = round_up_spec n m + k * m.
Proof.
  intros Hm. unfold round_up_spec, ceil_div_spec.
  replace (n + k * m + m - 1) with (n + m - 1 + k * m) by lia.
  rewrite Z.div_add by lia. lia.
Qed.

Lemma stencil_posn_inj sp j k : stencil_posn sp j = stencil_posn sp k -> j = k.
Proof.
  unfold stencil_posn.
  destruct (Nat.ltb_spec j sp), (Nat.ltb_spec k sp); lia.
Qed.

Lemma stencil_posn_bound sp j n : (j < n)%nat -> (stencil_posn sp j < S n)%nat.
Proof. unfold stencil_posn. destruct (Nat.ltb_spec j sp); lia. Qed.

Lemma stencil_posn_ne_step sp j : stencil_posn sp j <> sp.
Proof. unfold stencil_posn. destruct (Nat.ltb_spec j sp); lia. Qed.

Lemma domain_var_loop_S {S : Type} n (body : nat -> S -> S) s :
  domain_var_loop (Datatypes.S n) body s = body n (domain_var_loop n body s).
Proof.
  unfold domain_var_loop. rewrite seq_S, foldl_app. reflexivity.
Qed.

(** Invariant rule for the loop. *)
Lemma domain_var_loop_ind {S : Type} (P : nat -> S -> Prop) n (body : nat -> S -> S) s :
  P 0%nat s ->
  (forall j st, (j < n)%nat -> P j st -> P (Datatypes.S j) (body j st)) ->
  P n (domain_var_loop n body s).
Proof.
  intros H0 Hstep.
  assert (forall m, (m <= n)%nat -> P m (domain_var_loop m body s)) as G.
  { induction m as [|m IH]; intros Hm; [exact H0 |].
    rewrite domain_var_loop_S. apply Hstep; [lia |]. apply IH. lia. }
  apply G. lia.
Qed.

(** ** Region shifting *)

Section ShiftRegion.
Variable ctx : StencilContext.
Variables base_start base_stop : Indices.
Variable shift_num : Z.
Variable bp : option BundlePack.

Local Abbreviation body := (shift_region_dim ctx base_start base_stop shift_num bp).
Local Abbreviation posn := (stencil_posn (step_posn ctx)).

Lemma shift_region_dim_begin j ok idxs :
  (posn j < length (si_begin idxs))%nat ->
  at_ (si_begin (snd (body j (ok, idxs)))) (posn j)
  = region_start_spec ctx base_start shift_num bp j.
Proof.
  intros Hlen. unfold shift_region_dim, region_start_spec. cbn.
  rewrite at_set_at_eq by exact Hlen.
      rewrite (Z.mul_comm (at_ (wf_angles ctx) j) shift_num).
  destruct bp as [p|]; case_decide as Hd;
    repeat match goal with
           | |- context [(?a <? ?b)] => destruct (Z.ltb_spec a b)
           | |- context [(?a =? ?b)] => destruct (Z.eqb_spec a b)
           end; cbn; try reflexivity; lia.
Qed.

Lemma shift_region_dim_end j ok idxs :
  (posn j < length (si_end idxs))%nat ->
  at_ (si_end (snd (body j (ok, idxs)))) (posn j)
  = region_stop_spec ctx base_stop shift_num bp j.
Proof.
  intros Hlen. unfold shift_region_dim, region_stop_spec. cbn.
  rewrite at_set_at_eq by exact Hlen.
      rewrite (Z.mul_comm (at_ (wf_angles ctx) j) shift_num).
  destruct bp as [p|]; case_decide as Hd;
    repeat match goal with
           | |- context [(?a <? ?b)] => destruct (Z.ltb_spec a b)
           | |- context [(?a =? ?b)] => destruct (Z.eqb_spec a b)
           end; cbn; try reflexivity; lia.
Qed.

Lemma shift_region_dim_other j k ok idxs :
  k <> posn j ->
  at_ (si_begin (snd (body j (ok, idxs)))) k = at_ (si_begin idxs) k /\
  at_ (si_end (snd (body j (ok, idxs)))) k = at_ (si_end idxs) k.
Proof.
  intros Hk. unfold shift_region_dim. cbn.
  split; apply at_set_at_ne; congruence.
Qed.

Lemma shift_region_dim_length j ok idxs :
  length (si_begin (snd (body j (ok, idxs)))) = length (si_begin idxs) /\
  length (si_end (snd (body j (ok, idxs)))) = length (si_end idxs).
Proof. unfold shift_region_dim. cbn. by rewrite !length_set_at. Qed.

Lemma shift_region_dim_ok j ok idxs :
  (posn j < length (si_begin idxs))%nat ->
  (posn j < length (si_end idxs))%nat ->
  fst (body j (ok, idxs))
  = ok && negb (region_stop_spec ctx base_stop shift_num bp j
                <=? region_start_spec ctx base_start shift_num bp j).
Proof.
  intros Hb He.
  pose proof (shift_region_dim_begin j ok idxs Hb) as Eb.
  pose proof (shift_region_dim_end j ok idxs He) as Ee.
  rewrite <- Eb, <- Ee. clear Eb Ee.
  unfold shift_region_dim. cbn.
  rewrite !at_set_at_eq by assumption.
  match goal with |- context [(?a <=? ?b)] => destruct (a <=? b) end;
    cbn; by rewrite ?andb_false_r, ?andb_true_r.
Qed.

Lemma shift_region_invariant idxs :
  (num_domain_dims ctx < length (si_begin idxs))%nat ->
  (num_domain_dims ctx < length (si_end idxs))%nat ->
  shift_region_inv ctx base_start base_stop shift_num bp idxs (num_domain_dims ctx)
    (shift_region ctx base_start base_stop shift_num bp idxs).
Proof.
  intros Hb He. unfold shift_region.
  apply (domain_var_loop_ind (shift_region_inv ctx base_start base_stop shift_num bp idxs)).
  - repeat split; cbn; try lia; try (intros [j [? ?]]; lia).
  - intros j [ok st] Hj (Lb & Le & Hval & Hok). cbn in Lb, Le, Hval, Hok.
    assert (posn j < length (si_begin st))%nat as Pb
      by (rewrite Lb; pose proof (stencil_posn_bound (step_posn ctx) j _ Hj); lia).
    assert (posn j < length (si_end st))%nat as Pe
      by (rewrite Le; pose proof (stencil_posn_bound (step_posn ctx) j _ Hj); lia).
    destruct (shift_region_dim_length j ok st) as [Lb' Le'].
    split; [congruence | split; [congruence | split]].
    + intros k Hk. destruct (decide (k = j)) as [->|Hne].
      * split; [by apply shift_region_dim_begin | by apply shift_region_dim_end].
      * assert (posn k <> posn j) as Hp
          by (intros E; apply Hne; eapply stencil_posn_inj; exact E).
        destruct (shift_region_dim_other j (posn k) ok st Hp) as [-> ->].
        apply Hval. lia.
    + rewrite shift_region_dim_ok by assumption.
      rewrite andb_false_iff, negb_false_iff, Z.leb_le. split.
      * intros [Hf | Hle].
        -- apply Hok in Hf as (k & Hk & Hle). exists k. split; [lia | exact Hle].
        -- exists j. split; [lia | exact Hle].
      * intros (k & Hk & Hle). destruct (decide (k = j)) as [->|Hne].
        -- by right.
        -- left. apply Hok. exists k. split; [lia | exact Hle].
Qed.
End ShiftRegion.

(** C3. For every shift count and every domain dim [j], [shift_region]
    stores in [idxs] the start [base_start - s*angle] and the stop
    [base_stop - s*angle], clamped to the pack's bounding box when a pack is
    given, the start then raised inside the left wave-front extension to at
    least [domain_begin - left_wf_ext + s*angle] and the stop lowered inside
    the right extension to at most [domain_end + right_wf_ext - s*angle];
    and it returns [false] exactly when [stop <= start] in some domain dim. *)
Theorem shift_region_bounds (ctx : StencilContext) (base_start base_stop : Indices)
    (s : Z) (bp : option BundlePack) (idxs : ScanIndices) :
  length (si_begin idxs) = S (num_domain_dims ctx) ->
  length (si_end idxs) = S (num_domain_dims ctx) ->
  let r := shift_region ctx base_start base_stop s bp idxs in
  (forall j, (j < num_domain_dims ctx)%nat ->
     at_ (si_begin (snd r)) (stencil_posn (step_posn ctx) j)
     = region_start_spec ctx base_start s bp j /\
     at_ (si_end (snd r)) (stencil_posn (step_posn ctx) j)
     = region_stop_spec ctx base_stop s bp j) /\
  (fst r = false <->
     exists j, (j < num_domain_dims ctx)%nat /\
       region_stop_spec ctx base_stop s bp j <= region_start_spec ctx base_start s bp j).
Proof.
  intros Hb He r.
  destruct (shift_region_invariant ctx base_start base_stop s bp idxs)
    as (_ & _ & Hval & Hok); [lia | lia |].
  split; [exact Hval | exact Hok].
Qed.

Lemma shift_region_bounds_witness :
  let idxs := {| si_begin := [0; 0; 0]; si_end := [0; 0; 0] |} in
  let bp := Some {| getBB := {| bb_begin := [-2; 0]; bb_end := [64; 68] |} |} in
  length (si_begin idxs) = S (num_domain_dims ctx_wf_example) /\
  length (si_end idxs) = S (num_domain_dims ctx_wf_example) /\
  shift_region ctx_wf_example [0; 0; 32] [1; 32; 64] 1 bp idxs
  = (true, {| si_begin := [0; 0; 28]; si_end := [0; 30; 60] |}) /\
  ~ (exists j, (j < 2)%nat /\
       region_stop_spec ctx_wf_example [1; 32; 64] 1 bp j
       <= region_start_spec ctx_wf_example [0; 0; 32] 1 bp j).
Proof.
  intros idxs bp.
  split; [reflexivity | split; [reflexivity | split; [reflexivity |]]].
  intros Hex.
  apply (shift_region_bounds ctx_wf_example [0; 0; 32] [1; 32; 64] 1 bp idxs
           eq_refl eq_refl) in Hex.
  discriminate Hex.
Defined.

(** ** Temporal-block widths *)

Lemma length_setValsSame t v : length (setValsSame t v) = length t.
Proof. unfold setValsSame. apply length_replicate. Qed.

Lemma at_setValsSame t v j : (j < length t)%nat -> at_ (setValsSame t v) j = v.
Proof.
  intros H. unfold at_, setValsSame.
  apply list_lookup_total_correct. by apply lookup_replicate_2.
Qed.

Section TbLoops.
Variable ctx : StencilContext.
Local Abbreviation posn := (stencil_posn (step_posn ctx)).
Local Abbreviation blk j := (at_ (_block_sizes (_opts ctx)) (posn j)).
Local Abbreviation fpts j := (at_ (fold_pts ctx) j).

(** What the last loop of [update_tb_info] leaves in dim [j]. *)
Lemma tb_widths_loop (N : Z) (A ws ts : list Z) (n : nat) :
  let r := domain_var_loop n (tb_widths_dim ctx N A) (ws, ts) in
  length (fst r) = length ws /\ length (snd r) = length ts /\
  forall j, (j < n)%nat -> (j < length ws)%nat -> (j < length ts)%nat ->
    0 < N -> 0 < at_ A j ->
    at_ (fst r) j
    = Z.max (ROUND_UP (CEIL_DIV (blk j) 2 + N * at_ A j) (fpts j))
            (fpts j + 2 * (N * at_ A j)) /\
    at_ (snd r) j = Z.max (at_ (fst r) j - 2 * (N * at_ A j)) 0.
Proof.
  cbv zeta.
  apply (domain_var_loop_ind (fun m (r : list Z * list Z) =>
    length (fst r) = length ws /\ length (snd r) = length ts /\
    forall j, (j < m)%nat -> (j < length ws)%nat -> (j < length ts)%nat ->
      0 < N -> 0 < at_ A j ->
      at_ (fst r) j
      = Z.max (ROUND_UP (CEIL_DIV (blk j) 2 + N * at_ A j) (fpts j))
              (fpts j + 2 * (N * at_ A j)) /\
      at_ (snd r) j = Z.max (at_ (fst r) j - 2 * (N * at_ A j)) 0)).
  - cbn. repeat split; intros; lia.
  - intros j [ws' ts'] Hj (Lw & Lt & Hval). cbn in Lw, Lt, Hval.
    unfold tb_widths_dim.
    destruct ((0 <? N) && (0 <? at_ A j)) eqn:Hact; cbn;
      rewrite ?length_set_at; (split; [exact Lw | split; [exact Lt |]]).
    + intros k Hk Hkw Hkt HN HA.
      destruct (decide (k = j)) as [->|Hne].
      * rewrite !at_set_at_eq by (rewrite ?length_set_at; lia). done.
      * rewrite !at_set_at_ne by congruence. apply Hval; (lia || assumption).
    + intros k Hk Hkw Hkt HN HA.
      destruct (decide (k = j)) as [->|Hne].
      * apply andb_false_iff in Hact as [H | H]; apply Z.ltb_ge in H; lia.
      * rewrite !at_set_at_ne by congruence. apply Hval; (lia || assumption).
Qed.

(** What the first loop of [update_tb_info] leaves in [tb_angles]. *)
Lemma tb_angles_loop (mb tb : list Z) (ms : Z) (n : nat) :
  let r := domain_var_loop n (tb_angles_dim ctx) (mb, tb, ms) in
  length (snd (fst r)) = length tb /\
  forall j, (j < n)%nat -> (j < length tb)%nat ->
    at_ (snd (fst r)) j = 0 \/
    at_ (snd (fst r)) j = ROUND_UP (at_ (max_halos ctx) j) (fpts j).
Proof.
  cbv zeta.
  apply (domain_var_loop_ind (fun m (r : list Z * list Z * Z) =>
    length (snd (fst r)) = length tb /\
    forall j, (j < m)%nat -> (j < length tb)%nat ->
      at_ (snd (fst r)) j = 0 \/
      at_ (snd (fst r)) j = ROUND_UP (at_ (max_halos ctx) j) (fpts j))).
  - cbn. split; [reflexivity | intros; lia].
  - intros j [[mb' tb'] ms'] Hj (Lt & Hval). cbn in Lt, Hval.
    unfold tb_angles_dim. cbn. rewrite length_set_at. split; [exact Lt |].
    intros k Hk Hkt. destruct (decide (k = j)) as [->|Hne].
    + rewrite at_set_at_eq by lia.
      destruct (_ <? _); [by right | by left].
    + rewrite at_set_at_ne by congruence. apply Hval; lia.
Qed.
End TbLoops.

(** The widths and tops stored by [update_tb_info] are those that its last
    loop computes from the shift count and angles it stores. *)
Lemma update_tb_info_widths ctx :
  let ctx' := update_tb_info ctx in
  (tb_widths ctx', tb_tops ctx')
  = domain_var_loop (num_domain_dims ctx)
      (tb_widths_dim ctx (num_tb_shifts ctx') (tb_angles ctx'))
      (setValsSame (tb_widths ctx) 0, setValsSame (tb_tops ctx) 0).
Proof.
  cbv zeta. unfold update_tb_info.
  repeat match goal with
         | |- context [let '(_, _) := ?e in _] => destruct e eqn:?
         end.
  cbn. congruence.
Qed.

(** Every angle stored by [update_tb_info] is zero or the halo rounded up
    to the fold length. *)
Lemma update_tb_info_angles ctx j :
  (j < num_domain_dims ctx)%nat -> (j < length (tb_angles ctx))%nat ->
  let ctx' := update_tb_info ctx in
  at_ (tb_angles ctx') j = 0 \/
  at_ (tb_angles ctx') j = ROUND_UP (at_ (max_halos ctx) j) (at_ (fold_pts ctx) j).
Proof.
  intros Hj Hl. cbv zeta. unfold update_tb_info.
  destruct (0 <? at_ (_block_sizes (_opts ctx)) (step_posn ctx)) eqn:Hs.
  - pose proof (tb_angles_loop ctx (setValsSame (mb_angles ctx) 0)
                  (setValsSame (tb_angles ctx) 0)
                  (Z.min (at_ (_block_sizes (_opts ctx)) (step_posn ctx)) (wf_steps ctx))
                  (num_domain_dims ctx)) as [_ H].
    cbv zeta in H. specialize (H j Hj). rewrite length_setValsSame in H.
    specialize (H Hl).
    destruct (domain_var_loop _ _ _) as [[mb tb] ms]. cbn in H.
    destruct (domain_var_loop _ _ _) as [w t]. cbn. exact H.
  - destruct (domain_var_loop _ _ _) as [w t]. cbn. left.
    by apply at_setValsSame.
Qed.

(** The claim as worded: mini-block shifting would take its phase-0 width
    from the formula of [update_tb_info] with the same shift count.  It
    fails on [ctx_tb_example]: [update_tb_info] stores a base width of 12
    for one shift of angle 4, while [shift_mini_block] computes a width of
    20 and so lets phase 0 of the block [16, 32) stop at 32, not at 28. *)
Lemma tb_width_shared_counterexample :
  let ctx' := update_tb_info ctx_tb_example in
  num_tb_shifts ctx' = 1 /\ at_ (tb_angles ctx') 0 = 4 /\
  at_ (tb_widths ctx') 0 = 12 /\
  smb_blk_width ctx' 0 16 32 = 20 /\
  smb_phase0_stop ctx' 0 2 false 16 32 <> Z.min (16 + at_ (tb_widths ctx') 0) 32 /\
  shift_mini_block ctx' mb_args_example None {| si_begin := [0; 0]; si_end := [0; 0] |}
  = (true, {| si_begin := [0; 16]; si_end := [0; 32] |}).
Proof. vm_compute. repeat split; congruence. Qed.

(** C4 (amended).  When temporal blocking is active in dim [j]
    ([num_tb_shifts > 0] and [tb_angle[j] > 0]), [update_tb_info] stores the
    base width [round_up(ceil(block[j]/2) + num_tb_shifts*tb_angle[j], vlen[j])]
    clamped below by [vlen[j] + 2*num_tb_shifts*tb_angle[j]] and the top
    width [max(base - 2*num_tb_shifts*tb_angle[j], 0)].  Mini-block shifting
    computes its phase-0 width from the same formula with the shift count
    [num_tb_shifts + 1] and the extent of the block at hand; for a block of
    the full block size this exceeds the stored base width by at least one
    and at most two angles. *)
Theorem tb_trapezoid_widths (ctx : StencilContext) (j : nat) :
  let ctx' := update_tb_info ctx in
  let blk := at_ (_block_sizes (_opts ctx)) (stencil_posn (step_posn ctx) j) in
  let vlen := at_ (fold_pts ctx) j in
  let n := num_tb_shifts ctx' in
  let a := at_ (tb_angles ctx') j in
  (j < num_domain_dims ctx)%nat ->
  (j < length (tb_angles ctx))%nat ->
  (j < length (tb_widths ctx))%nat ->
  (j < length (tb_tops ctx))%nat ->
  0 < vlen -> 0 <= blk ->
  0 < n -> 0 < a ->
  at_ (tb_widths ctx') j
  = Z.max (round_up_spec (ceil_div_spec blk 2 + n * a) vlen) (vlen + 2 * n * a) /\
  at_ (tb_tops ctx') j = Z.max (at_ (tb_widths ctx') j - 2 * n * a) 0 /\
  (forall start stop, start <= stop ->
     smb_blk_width ctx' j start stop
     = Z.max (round_up_spec (ceil_div_spec (stop - start) 2 + (n + 1) * a) vlen)
             (vlen + 2 * (n + 1) * a)) /\
  (forall start,
     at_ (tb_widths ctx') j + a <= smb_blk_width ctx' j start (start + blk)
     <= at_ (tb_widths ctx') j + 2 * a).
Proof.
  intros ctx' blk vlen n a Hj La Lw Lt Hv Hb Hn Ha.
  pose proof (update_tb_info_widths ctx) as E. cbv zeta in E. fold ctx' in E.
  pose proof (tb_widths_loop ctx (num_tb_shifts ctx') (tb_angles ctx')
                (setValsSame (tb_widths ctx) 0) (setValsSame (tb_tops ctx) 0)
                (num_domain_dims ctx)) as L.
  cbv zeta in L. rewrite <- E in L. cbn [fst snd] in L.
  destruct L as (_ & _ & L).
  specialize (L j Hj). rewrite !length_setValsSame in L.
  specialize (L Lw Lt Hn Ha) as [W T].
  fold blk vlen n a in W, T.
  assert (0 <= ceil_div_spec blk 2) as Hc
    by (unfold ceil_div_spec; apply Z.div_pos; lia).
  assert (forall e, 0 <= e -> 0 <= ceil_div_spec e 2) as Hce
    by (intros e He; unfold ceil_div_spec; apply Z.div_pos; lia).
  assert (W' : at_ (tb_widths ctx') j
               = Z.max (round_up_spec (ceil_div_spec blk 2 + n * a) vlen)
                       (vlen + 2 * n * a)).
  { rewrite W. rewrite CEIL_DIV_spec by lia. rewrite ROUND_UP_spec by nia.
    f_equal. lia. }
  assert (S : forall start stop, start <= stop ->
     smb_blk_width ctx' j start stop
     = Z.max (round_up_spec (ceil_div_spec (stop - start) 2 + (n + 1) * a) vlen)
             (vlen + 2 * (n + 1) * a)).
  { intros start stop Hle. unfold smb_blk_width.
    assert (same_fold : fold_pts ctx' = fold_pts ctx).
    { unfold ctx', update_tb_info.
      repeat match goal with
             | |- context [let '(_, _) := ?e in _] => destruct e
             end. reflexivity. }
    rewrite same_fold. fold vlen n a.
    rewrite CEIL_DIV_spec by lia.
    specialize (Hce (stop - start) ltac:(lia)).
    rewrite ROUND_UP_spec by nia.
    f_equal. lia. }
  repeat split; [exact W' | rewrite T; f_equal; lia | exact S | |].
  - (* the mini-block width is at least one angle larger *)
    rewrite S by lia. replace (start + blk - start) with blk by lia.
    pose proof (update_tb_info_angles ctx j Hj La) as Ang.
    cbv zeta in Ang. fold ctx' in Ang. fold a in Ang.
    destruct Ang as [Z0 | Ang]; [lia |].
    unfold ROUND_UP in Ang. fold vlen in Ang.
    set (q := CEIL_DIV (at_ (max_halos ctx) j) vlen) in Ang.
    replace (ceil_div_spec blk 2 + (n + 1) * a)
      with (ceil_div_spec blk 2 + n * a + q * vlen) by lia.
    rewrite round_up_spec_add_mult by lia.
    rewrite W'. lia.
  - rewrite S by lia. replace (start + blk - start) with blk by lia.
    pose proof (update_tb_info_angles ctx j Hj La) as Ang.
    cbv zeta in Ang. fold ctx' in Ang. fold a in Ang.
    destruct Ang as [Z0 | Ang]; [lia |].
    unfold ROUND_UP in Ang. fold vlen in Ang.
    set (q := CEIL_DIV (at_ (max_halos ctx) j) vlen) in Ang.
    replace (ceil_div_spec blk 2 + (n + 1) * a)
      with (ceil_div_spec blk 2 + n * a + q * vlen) by lia.
    rewrite round_up_spec_add_mult by lia.
    rewrite W'. lia.
Qed.

Lemma tb_trapezoid_widths_witness :
  let ctx' := update_tb_info ctx_tb_example in
  at_ (tb_widths ctx') 0 = 12 /\ at_ (tb_tops ctx') 0 = 4 /\
  12 + 4 <= smb_blk_width ctx' 0 16 (16 + 16) <= 12 + 2 * 4.
Proof.
  intros ctx'.
  pose proof (tb_trapezoid_widths ctx_tb_example 0
                ltac:(cbn; lia) ltac:(cbn; lia) ltac:(cbn; lia) ltac:(cbn; lia)
                ltac:(by vm_compute) ltac:(by vm_compute)
                ltac:(by vm_compute) ltac:(by vm_compute)) as (W & T & _ & B).
  specialize (B 16).
  split; [exact W | split; [exact T | exact B]].
Defined.

(** ** Halo tracking *)

Lemma tuple_lookup_add_dim_back t d v d' :
  tuple_lookup t d = None ->
  tuple_lookup (add_dim_back t d v) d'
  = if decide (d = d') then Some v else tuple_lookup t d'.
Proof.
  unfold add_dim_back. induction t as [|[n x] t IH]; intros Hn; cbn in *.
  - reflexivity.
  - destruct (decide (n = d)) as [->|Hnd]; [discriminate |].
    destruct (decide (n = d')) as [->|Hnd'].
    + by rewrite decide_False by congruence.
    + by apply IH.
Qed.

Lemma tuple_lookup_store t d v d' :
  is_Some (tuple_lookup t d) ->
  tuple_lookup (tuple_store t d v) d'
  = if decide (d = d') then Some v else tuple_lookup t d'.
Proof.
  induction t as [|[n x] t IH]; intros [o Ho]; cbn in *; [discriminate |].
  destruct (decide (n = d)) as [->|Hnd]; cbn.
  - destruct (decide (d = d')); reflexivity.
  - destruct (decide (n = d')) as [->|Hnd'].
    + by rewrite decide_False by congruence.
    + apply IH. by exists o.
Qed.

Lemma halo_value_ref (h : gmap string (gmap bool (gmap Z (list (string * Z))))) s l sv d :
  halo_value h s l sv d = tuple_lookup (halos_ref h s l sv) d.
Proof.
  unfold halo_value, halos_ref.
  destruct (h !! s) as [h2|]; cbn; [|by rewrite !lookup_empty].
  destruct (h2 !! l) as [h3|]; cbn; [|by rewrite lookup_empty].
  by destruct (h3 !! sv).
Qed.

Lemma halo_value_assign (h : gmap string (gmap bool (gmap Z (list (string * Z)))))
    s l sv t s' l' sv' d :
  halo_value (halos_assign h s l sv t) s' l' sv' d
  = if decide (s = s' /\ l = l' /\ sv = sv') then tuple_lookup t d
    else halo_value h s' l' sv' d.
Proof.
  unfold halos_assign.
  destruct (decide (s = s')) as [<-|Hs].
  - unfold halo_value at 1. rewrite lookup_insert_eq. cbn.
    destruct (decide (l = l')) as [<-|Hl].
    + rewrite lookup_insert_eq. cbn.
      destruct (decide (sv = sv')) as [<-|Hsv].
      * rewrite lookup_insert_eq. cbn. by rewrite decide_True.
      * rewrite lookup_insert_ne by done. rewrite decide_False by tauto.
        unfold halo_value.
        destruct (h !! s) as [h2|]; cbn; [|by rewrite !lookup_empty].
        destruct (h2 !! l) as [h3|]; cbn; [done | by rewrite lookup_empty].
    + rewrite lookup_insert_ne by done. rewrite decide_False by tauto.
      unfold halo_value.
      destruct (h !! s) as [h2|]; cbn; [done | by rewrite lookup_empty].
  - unfold halo_value at 1. rewrite lookup_insert_ne by done.
    rewrite decide_False by tauto. reflexivity.
Qed.

(** Taking the reference [_halos[s][l][sv]] creates no halo value. *)
Lemma halo_value_touch (h : gmap string (gmap bool (gmap Z (list (string * Z)))))
    s l sv s' l' sv' d :
  halo_value (halos_assign h s l sv (halos_ref h s l sv)) s' l' sv' d
  = halo_value h s' l' sv' d.
Proof.
  rewrite halo_value_assign. case_decide as H; [|done].
  destruct H as (<- & <- & <-). by rewrite halo_value_ref.
Qed.

Lemma halo_grew_irrefl o : ~ halo_grew o o.
Proof. destruct o; cbn; lia. Qed.

Lemma halo_kept_refl o : halo_kept o o.
Proof. destruct o; cbn; eauto with lia. Qed.

Lemma halo_kept_trans a b c : halo_kept a b -> halo_kept b c -> halo_kept a c.
Proof.
  destruct a as [x|]; cbn; [|done].
  intros (y & -> & Hxy). cbn. intros (z & -> & Hyz). exists z. split; [done | lia].
Qed.

Section UpdateHaloDim.
Variable step_dim : option string.
Variable stage_name : string.
Variable step_val : Z.
Local Abbreviation step := (update_halo_dim step_dim stage_name step_val).

(** One iteration changes at most the entry of its own dim, which ends up
    holding [halo_after]; [changed] is set exactly when that entry grew. *)
Lemma update_halo_dim_effect h l1 c dname val :
  let r := step (h, l1, c) (dname, val) in
  let h' := r.1.1 in
  (forall s l sv d,
     ~ (step_dim <> Some dname /\ s = stage_name /\ l = (val <=? 0) /\
        sv = step_val /\ d = dname) ->
     halo_value h' s l sv d = halo_value h s l sv d) /\
  (step_dim <> Some dname ->
     halo_value h' stage_name (val <=? 0) step_val dname
     = Some (halo_after (halo_value h stage_name (val <=? 0) step_val dname) val)) /\
  (r.2 = true <->
     c = true \/
     (step_dim <> Some dname /\
      halo_grew (halo_value h stage_name (val <=? 0) step_val dname)
                (halo_value h' stage_name (val <=? 0) step_val dname))).
Proof.
  cbv zeta. unfold update_halo_dim.
  set (left := val <=? 0).
  set (halos := halos_ref h stage_name left step_val).
  set (h1 := halos_assign h stage_name left step_val halos).
  assert (T : forall s l sv d, halo_value h1 s l sv d = halo_value h s l sv d)
    by (intros; apply halo_value_touch).
  assert (R : halo_value h stage_name left step_val dname = tuple_lookup halos dname)
    by apply halo_value_ref.
  destruct (decide (step_dim = Some dname)) as [Hsd|Hsd]; cbn.
  { split; [intros; apply T |]. split; [done |]. split; [by left | by intros [? | [? _]]]. }
  rewrite R.
  destruct (tuple_lookup halos dname) as [p|] eqn:Hp; cbn.
  - destruct (Z.ltb_spec p (Z.abs val)) as [Hlt|Hge]; cbn.
    + split; [|split].
      * intros s l sv d Hne. rewrite halo_value_assign.
        case_decide as Hk; [|apply T].
        destruct Hk as (<- & <- & <-).
        rewrite tuple_lookup_store by (rewrite Hp; by eexists).
        case_decide as Hd; [|symmetry; apply halo_value_ref].
        subst d. exfalso. apply Hne. done.
      * intros _. rewrite halo_value_assign, decide_True by done.
        rewrite tuple_lookup_store by (rewrite Hp; by eexists).
        rewrite decide_True by done. f_equal. lia.
      * split; [|done]. intros _. right. split; [done |].
        rewrite halo_value_assign, decide_True by done.
        rewrite tuple_lookup_store by (rewrite Hp; by eexists).
        rewrite decide_True by done. cbn. exact Hlt.
    + split; [intros; apply T |]. split.
      * intros _. rewrite T, R. f_equal. lia.
      * split; [by left |]. intros [? | [_ G]]; [done |].
        rewrite T, R in G. cbn in G. lia.
  - split; [|split].
    + intros s l sv d Hne. rewrite halo_value_assign.
      case_decide as Hk; [|apply T].
      destruct Hk as (<- & <- & <-).
      rewrite tuple_lookup_add_dim_back by exact Hp.
      case_decide as Hd; [|symmetry; apply halo_value_ref].
      subst d. exfalso. apply Hne. done.
    + intros _. rewrite halo_value_assign, decide_True by done.
      rewrite tuple_lookup_add_dim_back by exact Hp.
      by rewrite decide_True.
    + split; [|done]. intros _. right. split; [done |].
      rewrite halo_value_assign, decide_True by done.
      rewrite tuple_lookup_add_dim_back by exact Hp.
      by rewrite decide_True.
Qed.
End UpdateHaloDim.

Section UpdateHaloLoop.
Variable step_dim : option string.
Variable stage_name : string.
Variable step_val : Z.
Local Abbreviation step := (update_halo_dim step_dim stage_name step_val).

Lemma halo_kept_after o val : halo_kept o (Some (halo_after o val)).
Proof. destruct o as [o|]; cbn; [|done]. eexists. split; [done | lia]. Qed.

(** No stored halo value is lost or decreased by the loop. *)
Lemma update_halo_loop_kept offsets : forall h0 l0 c0 s l sv d,
  halo_kept (halo_value h0 s l sv d)
            (halo_value (foldl step (h0, l0, c0) offsets).1.1 s l sv d).
Proof.
  induction offsets as [|[d0 v0] rest IH]; intros h0 l0 c0 s l sv d; cbn [foldl].
  - apply halo_kept_refl.
  - destruct (step (h0, l0, c0) (d0, v0)) as [[h1 l1] c1] eqn:E.
    pose proof (update_halo_dim_effect step_dim stage_name step_val h0 l0 c0 d0 v0)
      as (E1 & E2 & _).
    cbv zeta in E1, E2. rewrite E in E1, E2. cbn in E1, E2.
    eapply halo_kept_trans; [|apply IH].
    destruct (decide (step_dim <> Some d0 /\ s = stage_name /\ l = (v0 <=? 0) /\
                      sv = step_val /\ d = d0)) as [(Hsd & -> & -> & -> & ->)|Hne].
    + rewrite E2 by exact Hsd. apply halo_kept_after.
    + rewrite E1 by exact Hne. apply halo_kept_refl.
Qed.

(** The loop over a tuple with distinct dim names. *)
Lemma update_halo_loop offsets : forall h0 l0 c0,
  NoDup offsets.*1 ->
  let r := foldl step (h0, l0, c0) offsets in
  (forall s l sv d,
     ~ (exists val, (d, val) ∈ offsets /\ step_dim <> Some d /\ s = stage_name /\
                    l = (val <=? 0) /\ sv = step_val) ->
     halo_value r.1.1 s l sv d = halo_value h0 s l sv d) /\
  (forall d val, (d, val) ∈ offsets -> step_dim <> Some d ->
     halo_value r.1.1 stage_name (val <=? 0) step_val d
     = Some (halo_after (halo_value h0 stage_name (val <=? 0) step_val d) val)) /\
  (r.2 = true <->
     c0 = true \/
     exists s l sv d, halo_grew (halo_value h0 s l sv d) (halo_value r.1.1 s l sv d)).
Proof.
  induction offsets as [|[d0 v0] rest IH]; intros h0 l0 c0 Hnd; cbn [foldl]; cbv zeta.
  - cbn. split; [done |]. split; [intros d val H; by apply elem_of_nil in H |].
    split; [by left |]. intros [? | (s & l & sv & d & G)]; [done |].
    by apply halo_grew_irrefl in G.
  - cbn in Hnd. apply NoDup_cons in Hnd as [Hd0 Hnd].
    destruct (step (h0, l0, c0) (d0, v0)) as [[h1 l1] c1] eqn:E.
    pose proof (update_halo_dim_effect step_dim stage_name step_val h0 l0 c0 d0 v0)
      as (E1 & E2 & E3).
    cbv zeta in E1, E2, E3. rewrite E in E1, E2, E3. cbn in E1, E2, E3.
    specialize (IH h1 l1 c1 Hnd). cbv zeta in IH.
    destruct IH as (A2 & A1 & B).
    set (r := foldl step (h1, l1, c1) rest) in *.
    assert (Own : forall l sv, halo_value r.1.1 stage_name l sv d0
                               = halo_value h1 stage_name l sv d0).
    { intros l sv. apply A2. intros (val & Hin & _).
      apply Hd0. apply list_elem_of_fmap. by exists (d0, val). }
    split; [|split].
    + intros s l sv d Hno. rewrite A2.
      * apply E1. intros (Hsd & -> & -> & -> & ->). apply Hno.
        exists v0. repeat split; try done. by left.
      * intros (val & Hin & Hrest). apply Hno. exists val.
        split; [by right | exact Hrest].
    + intros d val Hin Hsd. apply elem_of_cons in Hin as [Heq | Hin].
      * injection Heq as -> ->. rewrite Own. by apply E2.
      * rewrite A1 by done. f_equal. f_equal. apply E1.
        intros (_ & _ & _ & _ & ->). apply Hd0.
        apply list_elem_of_fmap. by exists (d0, val).
    + rewrite B, E3. split.
      * intros [[Hc | (Hsd & G)] | (s & l & sv & d & G)].
        -- by left.
        -- right. exists stage_name, (v0 <=? 0), step_val, d0. by rewrite Own.
        -- right. exists s, l, sv, d.
           destruct (decide (step_dim <> Some d0 /\ s = stage_name /\ l = (v0 <=? 0) /\
                             sv = step_val /\ d = d0)) as [(Hsd & -> & -> & -> & ->)|Hne].
           ++ rewrite Own in G. by apply halo_grew_irrefl in G.
           ++ by rewrite <- (E1 s l sv d Hne).
      * intros [Hc | (s & l & sv & d & G)]; [by left; left |].
        destruct (decide (step_dim <> Some d0 /\ s = stage_name /\ l = (v0 <=? 0) /\
                          sv = step_val /\ d = d0)) as [(Hsd & -> & -> & -> & ->)|Hne].
        -- left. right. split; [done |]. by rewrite <- Own.
        -- right. exists s, l, sv, d. by rewrite (E1 s l sv d Hne).
Qed.
End UpdateHaloLoop.

(** C7. For every call [update_halo(stage, offsets)]: each offset of a dim
    other than the step dim is recorded as its absolute value under the key
    (stage, side, step offset), the side being left exactly when the offset
    is [<= 0], and the stored value is the maximum of the old value and that
    absolute value; no stored halo value decreases; and the call returns
    [true] exactly when some halo entry was added or increased. *)
Theorem update_halo_records (v : Var) (stage_name : string) (offsets : list (string * Z)) :
  NoDup offsets.*1 ->
  let r := update_halo v stage_name offsets in
  let step_val := offsets_step_val v offsets in
  (forall dname val, (dname, val) ∈ offsets -> var_step_dim v <> Some dname ->
     halo_value (_halos r.1) stage_name (val <=? 0) step_val dname
     = Some (halo_after (halo_value (_halos v) stage_name (val <=? 0) step_val dname) val)) /\
  (forall s l sv d,
     halo_kept (halo_value (_halos v) s l sv d) (halo_value (_halos r.1) s l sv d)) /\
  (r.2 = true <->
     exists s l sv d,
       halo_grew (halo_value (_halos v) s l sv d) (halo_value (_halos r.1) s l sv d)).
Proof.
  intros Hnd. cbv zeta. unfold update_halo. fold (offsets_step_val v offsets).
  pose proof (update_halo_loop (var_step_dim v) stage_name (offsets_step_val v offsets)
                offsets (_halos v) 0 false Hnd) as (_ & A1 & B).
  pose proof (update_halo_loop_kept (var_step_dim v) stage_name
                (offsets_step_val v offsets) offsets (_halos v) 0 false) as K.
  cbv zeta in A1, B.
  destruct (foldl _ _ offsets) as [[h l1] c]. cbn in *.
  split; [exact A1 | split; [exact K |]].
  rewrite B. split; [intros [? | ?]; done | by right].
Qed.

Lemma update_halo_records_witness :
  let v := {| var_step_dim := Some "t"%string;
              _halos := {[ "s0"%string := {[ true := {[ 0 := [("x"%string, 2)] ]} ]} ]};
              _l1_dist := 1; _write_points := ∅;
              _step_alloc := 0; settings_step_alloc := 0 |} in
  let offsets := [("t"%string, 0); ("x"%string, -3); ("y"%string, 1)] in
  NoDup offsets.*1 /\
  halo_value (_halos (update_halo v "s0" offsets).1) "s0" true 0 "x" = Some 3 /\
  halo_value (_halos (update_halo v "s0" offsets).1) "s0" false 0 "y" = Some 1 /\
  (update_halo v "s0" offsets).2 = true.
Proof.
  intros v offsets.
  assert (Hnd : NoDup offsets.*1) by compute_done.
  pose proof (update_halo_records v "s0" offsets Hnd) as (A & _ & C).
  split; [exact Hnd |]. split; [|split].
  - apply (A "x"%string (-3)); [compute_done | done].
  - apply (A "y"%string 1); [compute_done | done].
  - apply C. exists "s0"%string, false, 0, "y"%string. vm_compute. done.
Defined.

(** ** Step-dim allocation *)

(** C9. [get_step_dim_info] always returns the size computed from the
    stages (or the default of a var without step dim or halos): the values
    taken from the var's [_step_alloc] and from the command-line setting
    are overwritten by the final assignment, so no override, positive or
    not, changes the result. *)
Theorem step_alloc_override_ignored (v : Var) (api_alloc cmd_alloc : Z) :
  get_step_dim_info (with_step_alloc v api_alloc cmd_alloc) = get_step_dim_info v /\
  step_dim_size (get_step_dim_info v)
  = match var_step_dim v with
    | None => 1
    | Some _ => if decide (size (_halos v) = 0%nat) then 1 else (step_info_stages v).1
    end.
Proof.
  split.
  - unfold get_step_dim_info, with_step_alloc. cbn.
    destruct (var_step_dim v); [|reflexivity].
    case_decide; [reflexivity |].
    change (step_info_stages _) with (step_info_stages v).
    by destruct (step_info_stages v).
  - unfold get_step_dim_info.
    destruct (var_step_dim v); [|reflexivity].
    case_decide; [reflexivity |].
    by destruct (step_info_stages v).
Qed.

(** A positive override on a var that needs three steps is dropped. *)
Example step_alloc_override_example :
  let v := {| var_step_dim := Some "t"%string;
              _halos := {[ "s0"%string :=
                           {[ true := {[ -1 := [("x"%string, 1)];
                                         0 := [("x"%string, 1)] ]};
                              false := {[ 1 := [("x"%string, 1)] ]} ]} ]};
              _l1_dist := 1; _write_points := ∅;
              _step_alloc := 0; settings_step_alloc := 0 |} in
  step_dim_size (get_step_dim_info v) = 3 /\
  step_dim_size (get_step_dim_info (with_step_alloc v 8 16)) = 3.
Proof. vm_compute. done. Qed.

(** C2 (the code departs from the claim).  On [var_mid_write], a var read at
    [t-1], [t], [t+1] with zero halos and written at the middle offset [t],
    the claim allocates [1 - (-1) + 1 = 3] steps, since the stage does not
    write at an extreme offset; [get_step_dim_info] returns 2 and records
    no write-back offset: [is_written] is set by a write at any offset of
    the halo map, the size is decremented before the write offset is
    compared with the extremes, and the [assert] on a string literal in the
    final [else] cannot fail. *)
Theorem step_dim_size_middle_write :
  step_dim_size (get_step_dim_info var_mid_write) = 2 /\
  writeback_ofs (get_step_dim_info var_mid_write) = ∅ /\
  step_dim_size_spec var_mid_write = 3.
Proof. vm_compute. done. Qed.

(** *** When the allocation is the one of the specification *)

Lemma scan_items_inv (wp : option Z) (items : list (Z * list (string * Z))) :
  Forall (fun j => j.1 <> unset) items ->
  forall w f l r, scan_rel (f, l) r ->
    exists w' f' l',
      foldl (scan_ofs wp) (w, f, l) items = (w', f', l') /\
      scan_rel (f', l') (foldl range_add r (omap halo_ofs items)) /\
      w' = w || existsb (fun j => bool_decide (wp = Some j.1)) items.
Proof.
  induction 1 as [|[ofs halo] items Hj _ IH]; intros w f l r R.
  - exists w, f, l. cbn. by rewrite orb_false_r.
  - cbn [foldl scan_ofs omap list_omap fst snd existsb].
    unfold halo_ofs at 1. cbn [fst snd] in Hj |- *.
    set (w1 := if decide (wp = Some ofs) then true else w).
    assert (W : w1 = w || bool_decide (wp = Some ofs)).
    { subst w1. case_decide; case_bool_decide; try done; by destruct w. }
    destruct (0 <? length halo)%nat eqn:Eh.
    + cbn [foldl range_add].
      destruct r as [[lo hi]|]; cbn [scan_rel] in R.
      * destruct R as (E & Hlo & Hhi & Hle). injection E as -> ->.
        destruct (Z.eqb_spec lo unset) as [?|_]; [done |].
        destruct (IH w1 (Z.min lo ofs) (Z.max hi ofs) (Some (Z.min lo ofs, Z.max hi ofs)))
          as (w' & f' & l' & E & R' & W').
        { cbn. repeat split; lia. }
        exists w', f', l'. repeat split; [exact E | exact R' |].
        rewrite W', W. by rewrite orb_assoc.
      * injection R as -> ->. rewrite Z.eqb_refl.
        destruct (IH w1 ofs ofs (Some (ofs, ofs))) as (w' & f' & l' & E & R' & W').
        { cbn. repeat split; (done || lia). }
        exists w', f', l'. repeat split; [exact E | exact R' |].
        rewrite W', W. by rewrite orb_assoc.
    + destruct (IH w1 f l r R) as (w' & f' & l' & E & R' & W').
      exists w', f', l'. repeat split; [exact E | exact R' |].
      rewrite W', W. by rewrite orb_assoc.
Qed.

Lemma scan_sides_inv (wp : option Z) (hs : list (gmap Z (list (string * Z)))) :
  Forall (fun h3 => Forall (fun j => j.1 <> unset) (ofs_items h3)) hs ->
  forall w f l r, scan_rel (f, l) r ->
    exists w' f' l',
      foldl (fun st h3 => foldl (scan_ofs wp) st (ofs_items h3)) (w, f, l) hs
      = (w', f', l') /\
      scan_rel (f', l')
        (foldl range_add r (flat_map (fun h3 => omap halo_ofs (ofs_items h3)) hs)) /\
      w' = w || existsb (fun h3 =>
                  existsb (fun j => bool_decide (wp = Some j.1)) (ofs_items h3)) hs.
Proof.
  induction 1 as [|h3 hs Hh _ IH]; intros w f l r R.
  - exists w, f, l. cbn. by rewrite orb_false_r.
  - cbn [foldl flat_map existsb]. rewrite foldl_app.
    destruct (scan_items_inv wp _ Hh w f l r R) as (w1 & f1 & l1 & E1 & R1 & W1).
    rewrite E1.
    destruct (IH w1 f1 l1 _ R1) as (w' & f' & l' & E & R' & W').
    exists w', f', l'. repeat split; [exact E | exact R' |].
    rewrite W', W1. by rewrite orb_assoc.
Qed.

Lemma elem_of_ofs_items h3 ofs halo :
  (ofs, halo) ∈ ofs_items h3 <-> h3 !! ofs = Some halo.
Proof.
  unfold ofs_items. rewrite merge_sort_Permutation. apply elem_of_map_to_list.
Qed.

(** The scan of a stage finds the range of the offsets with a halo entry,
    and [is_written] says that the write point is a key of a side map. *)
Lemma scan_stage_range (wp : option Z) h2 :
  (forall h3 ofs, h3 ∈ side_maps h2 -> is_Some (h3 !! ofs) -> ofs <> unset) ->
  exists w f l,
    scan_stage wp h2 = (w, f, l) /\
    scan_rel (f, l) (stage_range h2) /\
    (w = true <->
     exists x h3, wp = Some x /\ h3 ∈ side_maps h2 /\ is_Some (h3 !! x)).
Proof.
  intros Hu. unfold scan_stage, stage_range, stage_offsets.
  destruct (scan_sides_inv wp (side_maps h2)) with (w := false) (f := unset) (l := unset)
    (r := @None (Z * Z)) as (w & f & l & E & R & W).
  { apply Forall_forall. intros h3 Hh. apply Forall_forall. intros [ofs halo] Hj.
    apply elem_of_ofs_items in Hj. cbn. eapply Hu; [exact Hh | by eexists]. }
  { reflexivity. }
  exists w, f, l. split; [exact E |]. split; [exact R |].
  rewrite W, orb_false_l. rewrite existsb_exists. split.
  - intros (h3 & Hh & Hx). apply existsb_exists in Hx as ([ofs halo] & Hj & Hx).
    apply list_elem_of_In in Hh, Hj.
    apply bool_decide_eq_true in Hx. cbn in Hx.
    exists ofs, h3. split; [exact Hx |]. split; [exact Hh |].
    apply elem_of_ofs_items in Hj. by eexists.
  - intros (x & h3 & -> & Hh & [halo Hx]). exists h3.
    split; [by apply list_elem_of_In |].
    apply existsb_exists. exists (x, halo).
    split; [by apply list_elem_of_In, elem_of_ofs_items |]. by apply bool_decide_eq_true.
Qed.

Lemma range_ends_in (os : list Z) : forall r lo hi,
  foldl range_add r os = Some (lo, hi) ->
  (lo ∈ os \/ exists b, r = Some (lo, b)) /\ (hi ∈ os \/ exists a, r = Some (a, hi)).
Proof.
  induction os as [|o os IH]; intros r lo hi E; cbn [foldl] in E.
  - subst r. split; right; by eexists.
  - apply IH in E as [[L|[b L]] [H|[a H]]].
    + split; left; by right.
    + split; [left; by right |].
      destruct r as [[a0 b0]|]; cbn in H; injection H as <- <-.
      * destruct (Z.max_spec b0 o) as [[_ ->]|[_ ->]]; [left; by left | right; by eexists].
      * left; by left.
    + split; [| left; by right].
      destruct r as [[a0 b0]|]; cbn in L; injection L as <- <-.
      * destruct (Z.min_spec a0 o) as [[_ ->]|[_ ->]]; [right; by eexists | left; by left].
      * left; by left.
    + destruct r as [[a0 b0]|]; cbn in L, H; injection L as <- <-; injection H as <- <-.
      * split.
        -- destruct (Z.min_spec a0 o) as [[_ ->]|[_ ->]]; [right; by eexists | left; by left].
        -- destruct (Z.max_spec b0 o) as [[_ ->]|[_ ->]]; [left; by left | right; by eexists].
      * split; left; by left.
Qed.

Lemma stage_offsets_keys h2 x :
  x ∈ stage_offsets h2 -> exists h3, h3 ∈ side_maps h2 /\ is_Some (h3 !! x).
Proof.
  unfold stage_offsets. rewrite list_elem_of_In, in_flat_map.
  intros (h3 & Hh & Hx). apply list_elem_of_In in Hh, Hx.
  apply list_elem_of_omap in Hx as ([ofs halo] & Hj & Hs).
  unfold halo_ofs in Hs. cbn [fst snd] in Hs.
  destruct (0 <? length halo)%nat; [|discriminate Hs].
  injection Hs as ->. apply elem_of_ofs_items in Hj.
  exists h3. split; [exact Hh | by eexists].
Qed.

Lemma stage_range_keys h2 lo hi x :
  stage_range h2 = Some (lo, hi) -> x = lo \/ x = hi ->
  exists h3, h3 ∈ side_maps h2 /\ is_Some (h3 !! x).
Proof.
  intros Er Hx. apply stage_offsets_keys.
  apply range_ends_in in Er as [[L|[? L]] [H|[? H]]]; try done.
  by destruct Hx as [-> | ->].
Qed.

(** One stage: the running maximum is updated with the size that the
    specification gives for the stage. *)
Lemma step_info_stage_size v name h2 (m : Z) (wb : gmap string Z) :
  1 <= m ->
  (forall h3 ofs, h3 ∈ side_maps h2 -> is_Some (h3 !! ofs) -> ofs <> unset) ->
  (forall w lo hi, _write_points v !! name = Some w ->
     (exists h3, h3 ∈ side_maps h2 /\ is_Some (h3 !! w)) ->
     stage_range h2 = Some (lo, hi) -> w = lo \/ w = hi) ->
  (step_info_stage v (m, wb) (name, h2)).1
  = match stage_size_spec (_write_points v !! name) h2 with
    | Some sz => Z.max m sz
    | None => m
    end.
Proof.
  intros Hm Hu Hw. unfold step_info_stage, stage_size_spec.
  destruct (scan_stage_range (_write_points v !! name) h2 Hu) as (w & f & l & E & R & W).
  rewrite E. destruct (stage_range h2) as [[lo hi]|] eqn:Er; cbn [scan_rel] in R.
  - destruct R as (Efl & Hlo & Hhi & Hle). injection Efl as -> ->.
    destruct (Z.eqb_spec hi unset) as [?|_]; [done |].
    destruct (Z.eqb_spec lo unset) as [?|_]; [done |].
    cbn [negb andb]. unfold writeback_spec.
    destruct (Z.eqb_spec hi lo) as [->|Hne].
    + cbn [negb fst]. rewrite bool_decide_eq_false_2 by (intros ?; done).
      cbn [andb]. lia.
    + cbn [negb]. rewrite (bool_decide_eq_true_2 (lo <> hi)) by (intros ?; lia).
      cbn [andb].
      destruct (Z.ltb_spec 1 (hi - lo + 1)) as [_|?]; [|lia]. cbn [andb].
      destruct w.
      * destruct (proj1 W eq_refl) as (x & h3 & Ex & Hh & Hx).
        destruct (Hw x lo hi Ex ltac:(by exists h3) eq_refl) as [->| ->];
          (rewrite bool_decide_eq_true_2 by (rewrite Ex; tauto));
          rewrite andb_true_r;
          destruct (max_halo_at h2 lo =? 0), (max_halo_at h2 hi =? 0);
          cbn [andb fst]; lia.
      * rewrite bool_decide_eq_false_2; [rewrite andb_false_r; cbn [fst]; lia |].
        intros Hx.
        assert (exists x, _write_points v !! name = Some x /\ (x = lo \/ x = hi))
          as (x & Ex & Hxx) by (destruct Hx as [Hx|Hx]; eauto).
        enough (false = true) by done. apply W.
        destruct (stage_range_keys h2 lo hi x Er Hxx) as (h3 & Hh & Hk).
        by exists x, h3.
  - injection R as -> ->. rewrite Z.eqb_refl. reflexivity.
Qed.

Lemma step_info_stages_size v (stages : list (string * gmap bool (gmap Z (list (string * Z))))) :
  (forall name h2, (name, h2) ∈ stages ->
     (forall h3 ofs, h3 ∈ side_maps h2 -> is_Some (h3 !! ofs) -> ofs <> unset) /\
     (forall w lo hi, _write_points v !! name = Some w ->
        (exists h3, h3 ∈ side_maps h2 /\ is_Some (h3 !! w)) ->
        stage_range h2 = Some (lo, hi) -> w = lo \/ w = hi)) ->
  forall m wb, 1 <= m ->
    (foldl (step_info_stage v) (m, wb) stages).1
    = foldl (fun m (hi : string * gmap bool (gmap Z (list (string * Z)))) =>
               match stage_size_spec (_write_points v !! hi.1) hi.2 with
               | Some sz => Z.max m sz
               | None => m
               end) m stages.
Proof.
  induction stages as [|[name h2] stages IH]; intros H m wb Hm; [reflexivity |].
  cbn [foldl fst snd].
  destruct (H name h2 ltac:(by left)) as [Hu Hw].
  pose proof (step_info_stage_size v name h2 m wb Hm Hu Hw) as S1.
  destruct (step_info_stage v (m, wb) (name, h2)) as [m1 wb1]. cbn [fst] in S1.
  rewrite IH.
  - by rewrite S1.
  - intros n h Hin. apply H. by right.
  - rewrite S1. destruct (stage_size_spec _ _); lia.
Qed.

(** On a var that uses the step dim and is regular (no step offset is the
    sentinel, and a write at an offset of the halo map is a write at an
    extreme one) the allocation computed is the one the specification
    describes: the maximum over the stages of the range of the offsets with
    a halo entry, less one under the write-back condition, and 1 without
    halos. *)
Lemma step_dim_size_regular (v : Var) :
  is_Some (var_step_dim v) ->
  step_offsets_regular v ->
  step_dim_size (get_step_dim_info v) = step_dim_size_spec v.
Proof.
  intros [sd Hsd] Hr. unfold get_step_dim_info, step_dim_size_spec. rewrite Hsd.
  case_decide as Hz.
  - apply map_size_empty_iff in Hz. rewrite Hz, map_to_list_empty. reflexivity.
  - pose proof (step_info_stages_size v (map_to_list (_halos v))) as S.
    unfold step_info_stages.
    destruct (foldl (step_info_stage v) (1, ∅) (map_to_list (_halos v))) as [m wb] eqn:E.
    cbn [step_dim_size]. specialize (S ltac:(intros name h2 Hin; apply Hr;
      by apply elem_of_map_to_list) 1 ∅ ltac:(lia)).
    rewrite E in S. exact S.
Qed.

(** The forward step is regular: one step is allocated, and the write
    goes to the slot of the lowest read. *)
Example step_dim_size_forward_write :
  step_offsets_regular var_fwd_write /\
  step_dim_size (get_step_dim_info var_fwd_write) = step_dim_size_spec var_fwd_write /\
  step_dim_size (get_step_dim_info var_fwd_write) = 1 /\
  writeback_ofs (get_step_dim_info var_fwd_write) !! "stage0"%string = Some 0.
Proof.
  assert (R : step_offsets_regular var_fwd_write).
  { intros name h2 Hl. cbn [_halos var_fwd_write] in Hl.
    apply lookup_singleton_Some in Hl as [<- <-].
    change (side_maps _) with [({[ 0 := [("x"%string, 0)]; 1 := [("x"%string, 0)] ]}
                                : gmap Z (list (string * Z)))].
    split.
    - intros h3 ofs Hh%list_elem_of_singleton [halo Hk] ->. subst h3.
      by vm_compute in Hk.
    - intros w lo hi Hp _ Er. vm_compute in Hp, Er.
      injection Hp as <-. injection Er as <- <-. by right. }
  split; [exact R |].
  split; [apply step_dim_size_regular; [by eexists | exact R] |].
  by vm_compute.
Qed.

(** The var of the middle write is not regular. *)
Lemma var_mid_write_irregular : ~ step_offsets_regular var_mid_write.
Proof.
  intros H.
  destruct (H "stage0"%string _ eq_refl) as [_ Hw].
  destruct (Hw 0 (-1) 1 eq_refl) as [?|?]; try done.
  exists {[ -1 := [("x"%string, 0)]; 0 := [("x"%string, 0)]; 1 := [("x"%string, 0)] ]}.
  split; [compute_done | by eexists].
Qed.

(** ** Rank set-up *)

Lemma at_fmap_seq (f : nat -> Z) n i :
  (i < n)%nat -> at_ (f <$> seq 0 n) i = f i.
Proof.
  intros H. unfold at_. apply list_lookup_total_correct.
  rewrite list_lookup_fmap, lookup_seq_lt by exact H. reflexivity.
Qed.

Lemma length_rank_deltas coords mine rn n : length (rank_deltas coords mine rn n) = n.
Proof. unfold rank_deltas. by rewrite length_fmap, length_seq. Qed.

Lemma at_rank_deltas coords mine rn n di :
  (di < n)%nat ->
  at_ (rank_deltas coords mine rn n) di = at2 coords rn di - at_ mine di.
Proof. intros H. unfold rank_deltas. by rewrite at_fmap_seq. Qed.

Lemma forallb_seq_ext (f g : nat -> bool) n :
  (forall i, (i < n)%nat -> f i = g i) -> forallb f (seq 0 n) = forallb g (seq 0 n).
Proof.
  intros H. induction n as [|n IH]; [reflexivity |].
  rewrite seq_S, !forallb_app. cbn. rewrite IH by (intros; apply H; lia).
  rewrite H by lia. reflexivity.
Qed.

(** The in-line test of the code is the one of the specification. *)
Lemma is_inline_in_line (w : list RankSettings) me rn di :
  (me < length w)%nat ->
  is_inline (rank_deltas (coords_table w) (_rank_indices (w !!! me)) rn
               (length (_rank_indices (w !!! me)))) di
  = in_line w me rn di.
Proof.
  intros Hme. unfold is_inline, in_line. rewrite length_rank_deltas.
  apply forallb_seq_ext. intros dj Hdj.
  rewrite at_rank_deltas by exact Hdj.
  assert (at_ (_rank_indices (w !!! me)) dj = at2 (coords_table w) me dj) as ->.
  { unfold at2, coords_table. f_equal. symmetry.
    apply list_lookup_total_correct. rewrite list_lookup_fmap.
    by rewrite (list_lookup_lookup_total_lt w me Hme). }
  destruct (Nat.eqb_spec di dj); cbn; [reflexivity |].
  rewrite negb_involutive.
  destruct (Z.eqb_spec (at2 (coords_table w) rn dj - at2 (coords_table w) me dj) 0),
           (Z.eqb_spec (at2 (coords_table w) rn dj) (at2 (coords_table w) me dj));
    (reflexivity || lia).
Qed.

(** A loop that may throw and whose body at [i] touches only entry [i] of
    two tuples. *)
Lemma for_each_pointwise {E : Type} (body : nat -> list Z * list Z -> result E (list Z * list Z))
    (F G : nat -> Z -> Z) (l : list nat) :
  (forall i a b a' b', i ∈ l -> body i (a, b) = Ok (a', b') ->
     length a' = length a /\ length b' = length b /\
     (forall k, k <> i -> at_ a' k = at_ a k /\ at_ b' k = at_ b k) /\
     ((i < length a)%nat -> at_ a' i = F i (at_ a i)) /\
     ((i < length b)%nat -> at_ b' i = G i (at_ b i))) ->
  NoDup l ->
  forall a b a' b', for_each l body (a, b) = Ok (a', b') ->
    length a' = length a /\ length b' = length b /\
    (forall k, k ∉ l -> at_ a' k = at_ a k /\ at_ b' k = at_ b k) /\
    (forall k, k ∈ l -> (k < length a)%nat -> at_ a' k = F k (at_ a k)) /\
    (forall k, k ∈ l -> (k < length b)%nat -> at_ b' k = G k (at_ b k)).
Proof.
  induction l as [|i l IH]; intros Hbody Hnd a b a' b' Hrun; cbn in Hrun.
  - injection Hrun as <- <-. repeat split; try done; intros k Hk; by apply elem_of_nil in Hk.
  - apply NoDup_cons in Hnd as [Hi Hnd].
    destruct (body i (a, b)) as [[a1 b1]|e] eqn:Eb; cbn in Hrun; [|discriminate].
    destruct (Hbody _ _ _ _ _ ltac:(by left) Eb) as (La & Lb & Ho & Ha & Hb).
    destruct (IH ltac:(intros; eapply Hbody; [by right | eassumption]) Hnd _ _ _ _ Hrun)
      as (La' & Lb' & Ho' & Ha' & Hb').
    split; [congruence | split; [congruence | split; [|split]]].
    + intros k Hk. apply not_elem_of_cons in Hk as [Hki Hkl].
      destruct (Ho' k Hkl) as [-> ->]. by apply Ho.
    + intros k Hk Hlen. apply elem_of_cons in Hk as [-> | Hk].
      * destruct (Ho' i Hi) as [-> _]. by apply Ha.
      * rewrite Ha' by (done || lia).
        assert (k <> i) as Hne by (intros ->; done).
        by destruct (Ho k Hne) as [-> _].
    + intros k Hk Hlen. apply elem_of_cons in Hk as [-> | Hk].
      * destruct (Ho' i Hi) as [_ ->]. by apply Hb.
      * rewrite Hb' by (done || lia).
        assert (k <> i) as Hne by (intros ->; done).
        by destruct (Ho k Hne) as [_ ->].
Qed.

Lemma sum_ranks_cons x l f : sum_ranks (x :: l) f = f x + sum_ranks l f.
Proof. reflexivity. Qed.

(** The initial sizes: my own size in every domain dim. *)
Lemma init_overall_sizes (f : nat -> Z) (o : list Z) n :
  length (foldl (fun o di => set_at o di (f di)) o (seq 0 n)) = length o /\
  forall di, (di < n)%nat -> (di < length o)%nat ->
    at_ (foldl (fun o di => set_at o di (f di)) o (seq 0 n)) di = f di.
Proof.
  induction n as [|n [L IH]]; [split; [done | intros; lia] |].
  rewrite seq_S, foldl_app. cbn [foldl Nat.add]. rewrite length_set_at.
  split; [exact L |].
  intros di Hdi Hl. destruct (decide (di = n)) as [->|Hne].
  - apply at_set_at_eq. lia.
  - rewrite at_set_at_ne by congruence. apply IH; lia.
Qed.
Section SetupRankLoops.
Variable w : list RankSettings.
Variable fold_pts : list Z.
Variable me : nat.
Hypothesis me_valid : (me < length w)%nat.

Local Abbreviation opts := (w !!! me).
Local Abbreviation num_ddims := (length (_rank_indices opts)).
Local Abbreviation coords := (coords_table w).
Local Abbreviation rsizes := (rsizes_table w).

Lemma my_coords di : at_ (_rank_indices opts) di = at2 coords me di.
Proof.
  unfold at2, coords_table. f_equal. symmetry.
  apply list_lookup_total_correct. rewrite list_lookup_fmap.
  by rewrite (list_lookup_lookup_total_lt w me me_valid).
Qed.

Lemma my_sizes di : at_ (_rank_sizes opts) di = at2 rsizes me di.
Proof.
  unfold at2, rsizes_table. f_equal. symmetry.
  apply list_lookup_total_correct. rewrite list_lookup_fmap.
  by rewrite (list_lookup_lookup_total_lt w me me_valid).
Qed.

(** One pass over the domain dims for rank [rn]. *)
Lemma setup_rank_dims_effect rn ov ofs ov' ofs' :
  for_each (seq 0 num_ddims)
    (setup_rank_dim rsizes (rank_deltas coords (_rank_indices opts) rn num_ddims)
                    me rn num_ddims) (ov, ofs) = Ok (ov', ofs') ->
  length ov' = length ov /\ length ofs' = length ofs /\
  (forall di, (di < num_ddims)%nat -> (di < length ov)%nat ->
     at_ ov' di = at_ ov di + overall_contrib w me rn di) /\
  (forall di, (di < num_ddims)%nat -> (di < length ofs)%nat ->
     at_ ofs' di = at_ ofs di + offset_contrib w me rn di).
Proof.
  intros Hrun.
  pose proof (for_each_pointwise
    (setup_rank_dim rsizes (rank_deltas coords (_rank_indices opts) rn num_ddims)
                    me rn num_ddims)
    (fun di x => x + overall_contrib w me rn di)
    (fun di x => x + offset_contrib w me rn di)
    (seq 0 num_ddims)) as P.
  destruct (P) with (a := ov) (b := ofs) (a' := ov') (b' := ofs')
    as (L1 & L2 & _ & A & B); [| apply NoDup_seq | exact Hrun |].
  - clear P Hrun. intros di a b a' b' Hdi Hb. unfold setup_rank_dim in Hb.
    apply elem_of_seq in Hdi. assert (di < num_ddims)%nat as Hlt by lia. clear Hdi.
    unfold overall_contrib, offset_contrib.
    rewrite is_inline_in_line in Hb by exact me_valid.
    rewrite at_rank_deltas in Hb by exact Hlt. rewrite my_coords in Hb.
    destruct (in_line w me rn di); cbn in Hb.
    + destruct (check_aligned _ _ _ _ _); cbn in Hb; [|discriminate].
      injection Hb as <- <-.
      assert ((at2 coords rn di - at2 coords me di <? 0)
              = (at2 coords rn di <? at2 coords me di)) as ->
        by (destruct (Z.ltb_spec (at2 coords rn di - at2 coords me di) 0),
                     (Z.ltb_spec (at2 coords rn di) (at2 coords me di));
            (reflexivity || lia)).
      destruct (negb (rn =? me)%nat), (at2 coords rn di <? at2 coords me di);
        rewrite ?length_set_at; (split; [done | split; [done | split; [|split]]]);
        try (intros k Hk; rewrite ?at_set_at_ne by congruence; done);
        try (intros Hl; rewrite ?at_set_at_eq by exact Hl; cbn [andb]; lia).
    + injection Hb as <- <-.
      repeat split; try done; intros; cbn [andb]; lia.
  - split; [exact L1 | split; [exact L2 | split]].
    + intros di Hdi Hl. apply A; [|exact Hl]. apply elem_of_seq. lia.
    + intros di Hdi Hl. apply B; [|exact Hl]. apply elem_of_seq. lia.
Qed.

(** One iteration of the loop over the ranks. *)
Lemma setup_rank_rn_effect rn st st' :
  setup_rank_rn coords rsizes (_rank_indices opts) fold_pts me num_ddims rn st = Ok st' ->
  length (overall_domain_sizes st') = length (overall_domain_sizes st) /\
  length (rank_domain_offsets st') = length (rank_domain_offsets st) /\
  (forall di, (di < num_ddims)%nat -> (di < length (overall_domain_sizes st))%nat ->
     at_ (overall_domain_sizes st') di
     = at_ (overall_domain_sizes st) di + overall_contrib w me rn di) /\
  (forall di, (di < num_ddims)%nat -> (di < length (rank_domain_offsets st))%nat ->
     at_ (rank_domain_offsets st') di
     = at_ (rank_domain_offsets st) di + offset_contrib w me rn di).
Proof.
  unfold setup_rank_rn. intros Hrun.
  destruct (if (rn =? me)%nat then _ else _) as [[]|e]; cbn in Hrun; [|discriminate].
  destruct (for_each _ _ _) as [[ov ofs]|e] eqn:Edims; cbn in Hrun; [|discriminate].
  apply setup_rank_dims_effect in Edims.
  destruct (max_dist _ <=? 1); injection Hrun as <-; cbn; exact Edims.
Qed.

(** The loop over the ranks in [l] adds up their contributions. *)
Lemma setup_rank_loop l : forall st st',
  for_each l (setup_rank_rn coords rsizes (_rank_indices opts) fold_pts me num_ddims) st
  = Ok st' ->
  length (overall_domain_sizes st') = length (overall_domain_sizes st) /\
  length (rank_domain_offsets st') = length (rank_domain_offsets st) /\
  (forall di, (di < num_ddims)%nat -> (di < length (overall_domain_sizes st))%nat ->
     at_ (overall_domain_sizes st') di
     = at_ (overall_domain_sizes st) di
       + sum_ranks l (fun rn => overall_contrib w me rn di)) /\
  (forall di, (di < num_ddims)%nat -> (di < length (rank_domain_offsets st))%nat ->
     at_ (rank_domain_offsets st') di
     = at_ (rank_domain_offsets st) di
       + sum_ranks l (fun rn => offset_contrib w me rn di)).
Proof.
  induction l as [|rn l IH]; intros st st' Hrun; cbn in Hrun.
  - injection Hrun as <-. cbn. repeat split; intros; lia.
  - destruct (setup_rank_rn _ _ _ _ _ _ rn st) as [st1|e] eqn:E1; cbn in Hrun;
      [|discriminate].
    apply setup_rank_rn_effect in E1 as (L1 & L2 & A1 & B1).
    apply IH in Hrun as (L1' & L2' & A' & B').
    split; [congruence | split; [congruence | split]].
    + intros di Hdi Hl. rewrite A' by (done || lia). rewrite A1 by done.
      rewrite sum_ranks_cons. lia.
    + intros di Hdi Hl. rewrite B' by (done || lia). rewrite B1 by done.
      rewrite sum_ranks_cons. lia.
Qed.

Lemma in_line_self di : in_line w me me di = true.
Proof.
  unfold in_line. apply forallb_forall. intros dj _.
  rewrite Z.eqb_refl. apply orb_true_r.
Qed.

(** My own size plus the sizes of the other in-line ranks is the sum over
    all in-line ranks. *)
Lemma overall_sum_with_self di l :
  NoDup l -> me ∈ l ->
  at2 rsizes me di + sum_ranks l (fun rn => overall_contrib w me rn di)
  = sum_ranks l (fun rn => if in_line w me rn di then at2 rsizes rn di else 0).
Proof.
  assert (Hout : forall l', me ∉ l' ->
            sum_ranks l' (fun rn => overall_contrib w me rn di)
            = sum_ranks l' (fun rn => if in_line w me rn di then at2 rsizes rn di else 0)).
  { induction l' as [|x l' IH]; intros Hn; [reflexivity |].
    rewrite !sum_ranks_cons.
    apply not_elem_of_cons in Hn as [Hx Hn]. rewrite IH by exact Hn.
    unfold overall_contrib. destruct (Nat.eqb_spec x me); [congruence |].
    by rewrite andb_true_r. }
  induction l as [|x l IH]; intros Hnd Hin; [by apply elem_of_nil in Hin |].
  apply NoDup_cons in Hnd as [Hx Hnd]. rewrite !sum_ranks_cons.
  destruct (decide (x = me)) as [->|Hne].
  - rewrite Hout by exact Hx. unfold overall_contrib at 1.
    rewrite Nat.eqb_refl, andb_false_r, in_line_self. lia.
  - apply elem_of_cons in Hin as [Heq | Hin]; [congruence |].
    rewrite <- IH by assumption.
    assert (overall_contrib w me x di
            = if in_line w me x di then at2 rsizes x di else 0) as ->.
    { unfold overall_contrib. destruct (Nat.eqb_spec x me); [congruence |].
      by rewrite andb_true_r. }
    lia.
Qed.

End SetupRankLoops.

(** C5. After [setupRank] succeeds on rank [me], in every domain dim [d]
    [overall_domain_sizes[d]] is the sum of the sizes in [d] of all ranks,
    [me] included, whose coordinates agree with those of [me] in every dim
    other than [d], and [rank_domain_offsets[d]] is the sum of the sizes in
    [d] of those in-line ranks whose coordinate in [d] is strictly smaller
    than that of [me]. *)
Theorem setupRank_domain_sums (w : list RankSettings) (fold_pts : list Z) (me : nat)
    (st st' : RankState) :
  (me < length w)%nat ->
  length (overall_domain_sizes st) = length (_rank_indices (w !!! me)) ->
  length (rank_domain_offsets st) = length (_rank_indices (w !!! me)) ->
  setupRank w fold_pts me st = Ok st' ->
  forall d, (d < length (_rank_indices (w !!! me)))%nat ->
    at_ (overall_domain_sizes st') d = overall_domain_spec w me d /\
    at_ (rank_domain_offsets st') d = rank_offset_spec w me d.
Proof.
  intros Hme Lo Lf Hrun d Hd. unfold setupRank in Hrun.
  destruct (negb _); [discriminate |].
  apply (setup_rank_loop w fold_pts me Hme) in Hrun as (_ & _ & A & B).
  cbn [overall_domain_sizes rank_domain_offsets] in A, B.
  destruct (init_overall_sizes (fun di => at_ (_rank_sizes (w !!! me)) di)
              (setValsSame (overall_domain_sizes st) 0)
              (length (_rank_indices (w !!! me)))) as [L0 V0].
  rewrite length_setValsSame in L0, V0.
  split.
  - rewrite A by (done || lia). rewrite V0 by (done || lia).
    rewrite (my_sizes w me Hme).
    apply (overall_sum_with_self w me Hme); [apply NoDup_seq |].
    apply elem_of_seq. lia.
  - rewrite B by (rewrite ?length_setValsSame; done || lia).
    rewrite at_setValsSame by lia. unfold rank_offset_spec. cbn. reflexivity.
Qed.

Lemma setupRank_domain_sums_witness :
  exists st',
    setupRank ranks_2x2 [4; 4] 3 (rank_state_init 2) = Ok st' /\
    overall_domain_sizes st' = [80; 80] /\
    rank_domain_offsets st' = [64; 32] /\
    at_ (overall_domain_sizes st') 0 = overall_domain_spec ranks_2x2 3 0 /\
    at_ (rank_domain_offsets st') 1 = rank_offset_spec ranks_2x2 3 1.
Proof.
  destruct (setupRank ranks_2x2 [4; 4] 3 (rank_state_init 2)) as [st'|e] eqn:E;
    [|vm_compute in E; discriminate E].
  exists st'.
  pose proof (setupRank_domain_sums ranks_2x2 [4; 4] 3 (rank_state_init 2) st'
                ltac:(cbn; lia) eq_refl eq_refl E) as H.
  split; [reflexivity |].
  split; [vm_compute in E; injection E as <-; reflexivity |].
  split; [vm_compute in E; injection E as <-; reflexivity |].
  split; [apply (H 0%nat); cbn; lia | apply (H 1%nat); cbn; lia].
Defined.

(** The 32-bit running sum is the Manhattan distance as long as that fits. *)
Lemma to_int_small z : - 2^31 <= z < 2^31 -> to_int z = z.
Proof. intros H. unfold to_int. rewrite Z.mod_small; lia. Qed.

Lemma man_dist_exact (l : list Z) : forall acc,
  0 <= acc -> acc + foldr (fun d a => Z.abs d + a) 0 l < 2^31 ->
  foldl (fun mandist d => to_int (mandist + Z.abs d)) acc l
  = acc + foldr (fun d a => Z.abs d + a) 0 l.
Proof.
  induction l as [|d l IH]; intros acc Hacc Hb; cbn in *; [lia |].
  assert (0 <= foldr (fun d a => Z.abs d + a) 0 l) as Hpos
    by (clear; induction l; cbn; lia).
  rewrite to_int_small by lia. rewrite IH by lia. lia.
Qed.

Lemma foldr_fmap_seq (f : nat -> Z) n :
  foldr (fun d a => Z.abs d + a) 0 (f <$> seq 0 n)
  = foldr (fun di acc => Z.abs (f di) + acc) 0 (seq 0 n).
Proof. induction (seq 0 n) as [|x l IH]; cbn; [done | by rewrite IH]. Qed.

Lemma coord_dist_self w r : coord_dist w r r = 0.
Proof.
  unfold coord_dist. generalize (seq 0 (length (_rank_indices (w !!! r)))).
  intros l. induction l as [|x l IH]; cbn [foldr]; [reflexivity |].
  rewrite IH, Z.sub_diag. reflexivity.
Qed.

Section SetupRankChecks.
Variable w : list RankSettings.
Variable fold_pts : list Z.
Variable me : nat.
Hypothesis me_valid : (me < length w)%nat.

Local Abbreviation opts := (w !!! me).
Local Abbreviation num_ddims := (length (_rank_indices opts)).
Local Abbreviation coords := (coords_table w).
Local Abbreviation rsizes := (rsizes_table w).
Local Abbreviation body :=
  (setup_rank_rn coords rsizes (_rank_indices opts) fold_pts me num_ddims).

Lemma man_dist_coord_dist rn :
  coord_dist w rn me < 2^31 ->
  man_dist (rank_deltas coords (_rank_indices opts) rn num_ddims) = coord_dist w rn me.
Proof.
  intros Hb. unfold man_dist, rank_deltas, coord_dist in *.
  assert (E : foldr (fun d a => Z.abs d + a) 0
                ((fun di => at2 coords rn di - at_ (_rank_indices opts) di)
                   <$> seq 0 num_ddims)
              = foldr (fun di acc => Z.abs (at2 coords rn di - at2 coords me di) + acc)
                  0 (seq 0 num_ddims)).
  { rewrite foldr_fmap_seq. apply foldr_ext; [|done|done].
    intros di acc. by rewrite (my_coords w me me_valid). }
  rewrite man_dist_exact; [rewrite E; lia | lia | rewrite E; lia].
Qed.

(** Every exception of the per-dim loop is a misalignment. *)
Lemma setup_rank_dims_errors rdeltas rn l : forall s e,
  for_each l (setup_rank_dim rsizes rdeltas me rn num_ddims) s = Err e ->
  exists di dj, e = Unaligned rn me di dj.
Proof.
  assert (A : forall di l' e, for_each l'
                (fun dj _ =>
                   if negb (di =? dj)%nat && negb (at2 rsizes me dj =? at2 rsizes rn dj)
                   then Err (Unaligned rn me di dj) else Ok tt) tt = Err e ->
              exists dj, e = Unaligned rn me di dj).
  { intros di l'. induction l' as [|dj l' IH]; intros e He; cbn in He; [discriminate |].
    destruct (negb _ && negb _); cbn in He; [|by apply IH].
    injection He as <-. by eexists. }
  induction l as [|di l IH]; intros [ov ofs] e He; cbn in He; [discriminate |].
  unfold setup_rank_dim at 1 in He.
  destruct (is_inline rdeltas di).
  - destruct (check_aligned rsizes me rn di num_ddims) as [[]|e'] eqn:Ec; cbn in He.
    + by apply IH in He.
    + injection He as <-. apply A in Ec as [dj ->]. by eexists _, _.
  - cbn in He. by apply IH in He.
Qed.

(** The distance of my own coordinates from themselves, as the loop sums
    it. *)
Lemma man_dist_self :
  man_dist (rank_deltas coords (_rank_indices opts) me num_ddims) = 0.
Proof.
  rewrite man_dist_coord_dist; rewrite coord_dist_self; [reflexivity | lia].
Qed.

(** A rank other than me whose distance is summed to 0 stops the loop with
    an exception. *)
Lemma setup_rank_loop_collision rn l : forall st,
  rn ∈ l -> rn <> me ->
  man_dist (rank_deltas coords (_rank_indices opts) rn num_ddims) = 0 ->
  exists e, for_each l body st = Err e.
Proof.
  intros st Hin Hne Hz. revert st.
  induction l as [|x l IH]; intros st; [by apply elem_of_nil in Hin |].
  cbn. destruct (body x st) as [st1|e] eqn:Eb; cbn; [|by eexists].
  apply elem_of_cons in Hin as [<- | Hin]; [|by apply IH].
  exfalso. unfold setup_rank_rn in Eb. rewrite Hz in Eb.
  destruct (Nat.eqb_spec rn me); [congruence |]. cbn in Eb. discriminate.
Qed.

(** The exceptions of the loop over the ranks: the one for a rank other
    than me whose distance is summed to 0, and the one for misaligned
    domains. *)
Lemma setup_rank_loop_errors l : forall st e,
  for_each l body st = Err e ->
  (exists rn, rn ∈ l /\ rn <> me /\
     man_dist (rank_deltas coords (_rank_indices opts) rn num_ddims) = 0 /\
     e = SameCoords me rn) \/
  (exists rn di dj, e = Unaligned rn me di dj).
Proof.
  induction l as [|x l IH]; intros st e He; cbn in He; [discriminate |].
  destruct (body x st) as [st1|e1] eqn:Eb; cbn in He.
  - apply IH in He as [(rn & Hin & H)|H]; [left | by right].
    exists rn. split; [by right | exact H].
  - injection He as <-. unfold setup_rank_rn in Eb.
    destruct (Nat.eqb_spec x me) as [->|Hne].
    + rewrite man_dist_self in Eb. cbn in Eb.
      destruct (for_each _ _ _) as [[ov ofs]|e2] eqn:Ed; cbn in Eb.
      * by destruct (max_dist _ <=? 1).
      * injection Eb as <-. apply setup_rank_dims_errors in Ed as (di & dj & ->).
        right. by eexists _, _, _.
    + destruct (Z.eqb_spec
                  (man_dist (rank_deltas coords (_rank_indices opts) x num_ddims)) 0)
        as [Hz|Hnz]; cbn in Eb.
      * injection Eb as <-. left. exists x.
        split; [by left | split; [exact Hne | split; [exact Hz | reflexivity]]].
      * destruct (for_each _ _ _) as [[ov ofs]|e2] eqn:Ed; cbn in Eb.
        -- by destruct (max_dist _ <=? 1).
        -- injection Eb as <-. apply setup_rank_dims_errors in Ed as (di & dj & ->).
           right. by eexists _, _, _.
Qed.
End SetupRankChecks.




(** ** Element access *)

Section ElementApis.
Context {real_t double : Type}.
Context (to_real_t : double -> real_t).
Context (real_add : real_t -> real_t -> real_t).
Context (check_indices :
           YkVarBase real_t -> Indices -> string -> bool -> bool -> bool ->
           result var_exception bool).

(** C10. Without storage, [set_element] and [add_to_element] throw only if
    [strict_indices] is true, and otherwise return 0 and leave the var and
    its dirty flags as they are.  With storage and a passing index check
    they write exactly one element (the given value, or the old value plus
    the given one), set the dirty flag of the slot of the step index, and
    return 1. *)
Theorem element_update_effects (v : YkVarBase real_t) (val : double)
    (indices : Indices) (strict_indices : bool) :
  (storage v = None ->
     set_element to_real_t check_indices v val indices strict_indices
     = (if strict_indices then Err (NoStorage "set_element") else Ok (v, 0)) /\
     add_to_element to_real_t real_add check_indices v val indices strict_indices
     = (if strict_indices then Err (NoStorage "add_to_element") else Ok (v, 0))) /\
  (forall s, storage v = Some s ->
     let asi := get_alloc_step_index v indices in
     let key := elem_key v indices asi in
     (check_indices v indices "set_element" strict_indices false false = Ok true ->
        exists v',
          set_element to_real_t check_indices v val indices strict_indices
          = Ok (v', 1) /\
          storage v' = Some (<[key := to_real_t val]> s) /\
          _dirty_steps v' = <[asi := true]> (_dirty_steps v) /\
          _dirty_steps v' asi = true) /\
     (check_indices v indices "add_to_element" strict_indices true false = Ok true ->
        exists v',
          add_to_element to_real_t real_add check_indices v val indices strict_indices
          = Ok (v', 1) /\
          storage v' = Some (<[key := real_add (s key) (to_real_t val)]> s) /\
          _dirty_steps v' = <[asi := true]> (_dirty_steps v) /\
          _dirty_steps v' asi = true)).
Proof.
  split.
  - intros Hs. unfold set_element, add_to_element.
    rewrite Hs. rewrite !bool_decide_eq_false_2 by (intros [? ?]; discriminate).
    cbn. by destruct strict_indices.
  - intros s Hs asi key. split; intros Hc.
    + eexists. unfold set_element.
      rewrite Hs. rewrite !bool_decide_eq_true_2 by (by eexists).
      cbn [negb andb]. rewrite Hc. cbn.
      split; [reflexivity |].
      unfold set_dirty_using_alloc_index, write_elem, add_to_elem. cbn.
      rewrite Hs. cbn.
      split; [reflexivity |]. split; [reflexivity |]. apply fn_lookup_insert.
    + eexists. unfold add_to_element.
      rewrite Hs. rewrite !bool_decide_eq_true_2 by (by eexists).
      cbn [negb andb]. rewrite Hc. cbn.
      split; [reflexivity |].
      unfold set_dirty_using_alloc_index, write_elem, add_to_elem. cbn.
      rewrite Hs. cbn.
      split; [reflexivity |]. split; [reflexivity |]. apply fn_lookup_insert.
Qed.
End ElementApis.

Lemma element_update_effects_witness :
  set_element id check_indices_example (var_example false) 5 [3; 4] true
  = Err (NoStorage "set_element") /\
  add_to_element id Z.add check_indices_example (var_example false) 5 [3; 4] false
  = Ok (var_example false, 0) /\
  (exists v', set_element id check_indices_example (var_example true) 5 [3; 4] true
              = Ok (v', 1) /\
              _dirty_steps v' 1 = true /\
              (forall s', storage v' = Some s' -> s' [1; 4] = 5)) /\
  (exists v', add_to_element id Z.add check_indices_example (var_example true) 5 [3; 4] true
              = Ok (v', 1) /\
              _dirty_steps v' 1 = true /\
              (forall s', storage v' = Some s' -> s' [1; 4] = 0 + 5)).
Proof.
  pose proof (element_update_effects id Z.add check_indices_example
                (var_example false) 5 [3; 4] true) as [Hnone1 _].
  pose proof (element_update_effects id Z.add check_indices_example
                (var_example false) 5 [3; 4] false) as [Hnone2 _].
  pose proof (element_update_effects id Z.add check_indices_example
                (var_example true) 5 [3; 4] true) as [_ Hsome].
  specialize (Hsome (fun _ => 0) eq_refl). cbv zeta in Hsome.
  destruct Hsome as [Hset Hadd].
  split; [apply Hnone1; reflexivity |].
  split; [apply Hnone2; reflexivity |].
  split.
  - destruct (Hset eq_refl) as (v' & E & S & _ & D).
    exists v'. split; [exact E |]. split; [exact D |].
    intros s' Hs'. rewrite S in Hs'. injection Hs' as <-. reflexivity.
  - destruct (Hadd eq_refl) as (v' & E & S & _ & D).
    exists v'. split; [exact E |]. split; [exact D |].
    intros s' Hs'. rewrite S in Hs'. injection Hs' as <-. reflexivity.
Defined.

(** ** Slices *)

Lemma elem_of_idx_range first last x : x ∈ idx_range first last <-> first <= x <= last.
Proof. unfold idx_range. rewrite elem_of_seqZ. lia. Qed.

Lemma NoDup_idx_range first last : NoDup (idx_range first last).
Proof. apply NoDup_seqZ. Qed.

(** The points of a slice: one index per dim, each within its bounds. *)
Lemma slice_points_bounds (first : Indices) : forall (last pt : Indices),
  length first = length last ->
  pt ∈ slice_points first last ->
  length pt = length first /\
  forall i, (i < length first)%nat -> at_ first i <= at_ pt i <= at_ last i.
Proof.
  induction first as [|f fs IH]; intros [|l ls] pt Hlen Hin; cbn in Hlen; try lia.
  - cbn in Hin. apply list_elem_of_singleton in Hin as ->. split; [done |].
    intros i Hi. cbn in Hi. lia.
  - cbn [slice_points] in Hin.
    apply list_elem_of_bind in Hin as (x & Hpt & Hx).
    apply list_elem_of_fmap in Hpt as (pt' & -> & Hpt').
    apply elem_of_idx_range in Hx.
    destruct (IH ls pt' ltac:(lia) Hpt') as [L B].
    split; [cbn; lia |].
    intros [|i] Hi; [unfold at_; cbn; lia |].
    cbn in Hi. specialize (B i ltac:(lia)). unfold at_ in *. cbn. exact B.
Qed.

Lemma NoDup_slice_points (first : Indices) : forall last : Indices,
  NoDup (slice_points first last).
Proof.
  induction first as [|f fs IH]; intros [|l ls]; cbn [slice_points];
    try (apply NoDup_singleton).
  apply NoDup_bind.
  - intros x1 x2 pt _ _ H1 H2.
    apply list_elem_of_fmap in H1 as (p1 & -> & _).
    apply list_elem_of_fmap in H2 as (p2 & E & _). congruence.
  - intros x _. apply NoDup_fmap_2; [|apply IH]. intros a b E. congruence.
  - apply NoDup_idx_range.
Qed.

Section SliceRoundTrip.
Context {real_t : Type}.
Implicit Types (v : YkVarBase real_t) (s : list Z -> real_t) (buf : list real_t).

(** The place in the store of each point of a slice. *)
Local Abbreviation key_of v := (fun pt : list Z => elem_key v pt (get_alloc_step_index v pt)).

Lemma same_meta_refl v : same_meta v v.
Proof. by repeat split. Qed.

Lemma same_meta_key v v' pt :
  same_meta v v' -> key_of v' pt = key_of v pt.
Proof.
  intros (_ & _ & H1 & H2 & H3 & _).
  unfold elem_key, get_alloc_step_index, _wrap_step. by rewrite H1, H2, H3.
Qed.

(** Writing a buffer into a slice stores each value at the place of its
    point and leaves the metadata, the dirty flags and the buffer alone. *)
Lemma visit_points_set (pts : list Indices) : forall v s buf pofs,
  storage v = Some s ->
  let r := visit_points SetElem_visit v buf pofs pts in
  r.2 = buf /\ same_meta v r.1 /\ _dirty_steps r.1 = _dirty_steps v /\
  storage r.1 = Some (store_all s (zip (key_of v <$> pts) (drop pofs buf))).
Proof.
  induction pts as [|pt pts IH]; intros v s buf pofs Hs; cbn zeta.
  - cbn. split; [done |]. split; [apply same_meta_refl |]. by split.
  - cbn [visit_points].
    destruct (SetElem_visit v buf pofs pt (get_alloc_step_index v pt))
      as [v1 p1] eqn:Ev.
    unfold SetElem_visit in Ev.
    destruct (buf !! pofs) as [val|] eqn:Hb; injection Ev as <- <-.
    + set (v1 := write_elem v val pt (get_alloc_step_index v pt)).
      assert (storage v1 = Some (<[key_of v pt := val]> s)) as Hs1
        by (unfold v1, write_elem; cbn; by rewrite Hs).
      assert (same_meta v v1) as Hm by (by repeat split).
      destruct (IH v1 _ buf (S pofs) Hs1) as (B & M & D & S1). cbv zeta in *.
      split; [exact B |]. split.
      { destruct M as (?&?&?&?&?&?&?). destruct Hm as (?&?&?&?&?&?&?).
        repeat split; congruence. }
      split; [by rewrite D |].
      rewrite S1. f_equal.
      rewrite (drop_S buf val pofs Hb). cbn [fmap list_fmap zip zip_with].
      unfold store_all. cbn [foldl fst snd].
      assert (key_of v1 <$> pts = key_of v <$> pts) as ->; [|reflexivity].
      apply list_fmap_ext. intros i p _. by apply same_meta_key.
    + rewrite drop_ge by (by apply lookup_ge_None).
      destruct (IH v s buf (S pofs) Hs) as (B & M & D & S1). cbv zeta in *.
      rewrite drop_ge in S1 by (apply lookup_ge_None in Hb; lia).
      rewrite zip_with_nil_r in *. done.
Qed.

(** Reading a slice into a buffer stores the element of each point at its
    offset and leaves the var alone. *)
Lemma visit_points_get (pts : list Indices) : forall v s buf pofs,
  storage v = Some s ->
  visit_points GetElem_visit v buf pofs pts
  = (v, foldl (fun b iv => <[iv.1 := iv.2]> b) buf
              (zip (seq pofs (length pts)) (s ∘ key_of v <$> pts))).
Proof.
  induction pts as [|pt pts IH]; intros v s buf pofs Hs; [reflexivity |].
  cbn [visit_points]. unfold GetElem_visit at 1, read_elem. rewrite Hs. cbn.
  by rewrite (IH v s _ (S pofs) Hs).
Qed.

Lemma store_all_cons s k (x : real_t) kvs :
  store_all s ((k, x) :: kvs) = store_all (<[k := x]> s) kvs.
Proof. reflexivity. Qed.

Lemma store_all_notin s (kvs : list (list Z * real_t)) k :
  k ∉ kvs.*1 -> store_all s kvs k = s k.
Proof.
  revert s. induction kvs as [|[k' x] kvs IH]; intros s Hk; [reflexivity |].
  cbn in Hk. apply not_elem_of_cons in Hk as [Hne Hk].
  rewrite store_all_cons, IH by exact Hk.
  by apply fn_lookup_insert_ne.
Qed.

(** Values stored under distinct keys are read back unchanged. *)
Lemma store_all_read (keys : list (list Z)) : forall s buf,
  NoDup keys -> length keys = length buf ->
  store_all s (zip keys buf) <$> keys = buf.
Proof.
  induction keys as [|k keys IH]; intros s [|x buf] Hnd Hlen; cbn in Hlen; try lia;
    [reflexivity |].
  apply NoDup_cons in Hnd as [Hk Hnd].
  cbn [zip zip_with fmap list_fmap].
  change (zip_with pair keys buf) with (zip keys buf).
  rewrite store_all_cons. f_equal.
  - rewrite store_all_notin; [apply fn_lookup_insert |].
    rewrite fst_zip by lia. exact Hk.
  - apply IH; [exact Hnd | lia].
Qed.

(** Inserting values at consecutive offsets overwrites a buffer. *)
Lemma inserts_overwrite (vals : list real_t) : forall pre buf,
  length buf = length vals ->
  foldl (fun b iv => <[iv.1 := iv.2]> b) (pre ++ buf)
        (zip (seq (length pre) (length vals)) vals)
  = pre ++ vals.
Proof.
  induction vals as [|x vals IH]; intros pre [|y buf] Hlen; cbn in Hlen; try lia;
    [reflexivity |].
  cbn [length seq zip zip_with foldl]. cbn [fst snd].
  replace (<[length pre := x]> (pre ++ y :: buf)) with ((pre ++ [x]) ++ buf).
  - replace (S (length pre)) with (length (pre ++ [x]))
      by (rewrite length_app; cbn; lia).
    rewrite IH by lia. by rewrite <- app_assoc.
  - rewrite <- app_assoc. cbn [app].
    rewrite insert_app_r_alt by lia. by rewrite Nat.sub_diag.
Qed.

(** Distinct points of an in-range slice are stored at distinct places. *)
Lemma slice_keys_NoDup v (first last : Indices) :
  slice_in_range v first last ->
  NoDup (key_of v <$> slice_points first last).
Proof.
  intros [Hlen Hstep].
  apply NoDup_fmap_2_strong; [|apply NoDup_slice_points].
  intros p q Hp Hq Hk.
  unfold elem_key, get_alloc_step_index in Hk.
  destruct (_has_step_dim v) eqn:Hsd; [|exact Hk].
  destruct (Hstep eq_refl) as (Hsp & Hpos & Hwin).
  destruct (slice_points_bounds first last p Hlen Hp) as [Lp Bp].
  destruct (slice_points_bounds first last q Hlen Hq) as [Lq Bq].
  set (sp := var_step_posn v) in *.
  assert (at_ p sp = at_ q sp) as Hsame.
  { assert (at_ (set_at p sp (_wrap_step v (at_ p sp))) sp
            = at_ (set_at q sp (_wrap_step v (at_ q sp))) sp) as E by (by rewrite Hk).
    rewrite !at_set_at_eq in E by lia. unfold _wrap_step in E.
    specialize (Bp sp Hsp). specialize (Bq sp Hsp).
    set (a := step_alloc_size v) in *.
    pose proof (Z.div_mod (at_ p sp) a ltac:(lia)) as Dp.
    pose proof (Z.div_mod (at_ q sp) a ltac:(lia)) as Dq.
    pose proof (Z.mod_pos_bound (at_ p sp) a Hpos) as Mp.
    assert (at_ p sp `div` a = at_ q sp `div` a) by nia. nia. }
  apply list_eq. intros i.
  destruct (decide (i = sp)) as [->|Hne].
  - unfold at_ in Hsame.
    rewrite !list_lookup_total_alt in Hsame.
    destruct (p !! sp) eqn:E1, (q !! sp) eqn:E2; cbn in Hsame;
      try (apply lookup_ge_None in E1; lia);
      try (apply lookup_ge_None in E2; lia).
    by subst.
  - assert (set_at p sp (_wrap_step v (at_ p sp)) !! i
            = set_at q sp (_wrap_step v (at_ q sp)) !! i) as E by (by rewrite Hk).
    unfold set_at in E. by rewrite !list_lookup_insert_ne in E by done.
Qed.

Lemma set_dirty_keeps v dirty t :
  same_meta v (set_dirty v dirty t) /\ storage (set_dirty v dirty t) = storage v.
Proof. by repeat split. Qed.

Lemma same_meta_trans v1 v2 v3 : same_meta v1 v2 -> same_meta v2 v3 -> same_meta v1 v3.
Proof.
  intros (?&?&?&?&?&?&?) (?&?&?&?&?&?&?). repeat split; congruence.
Qed.

(** Marking the slots of a slice dirty touches neither metadata nor
    elements. *)
Lemma set_dirty_in_slice_keeps v (first last : Indices) :
  same_meta v (set_dirty_in_slice v first last) /\
  storage (set_dirty_in_slice v first last) = storage v.
Proof.
  unfold set_dirty_in_slice. destruct (_has_step_dim v); [|apply set_dirty_keeps].
  generalize (idx_range (at_ first (var_step_posn v)) (at_ last (var_step_posn v))).
  intros l. revert v. induction l as [|t l IH]; intros v; cbn [foldl].
  - split; [apply same_meta_refl | reflexivity].
  - destruct (IH (set_dirty v true t)) as [M S].
    destruct (set_dirty_keeps v true t) as [M0 S0].
    split; [by eapply same_meta_trans | congruence].
Qed.

(** C8. For a var with storage, an in-range axis-aligned slice and a buffer
    of exactly the size of the slice, [set_elements_in_slice] followed by
    [get_elements_in_slice] on the same slice returns the buffer element
    for element: both visit the points of the slice in the same order. *)
Theorem slice_round_trip v s (first last : Indices) buf (out : list real_t) :
  storage v = Some s ->
  slice_in_range v first last ->
  length buf = length (slice_points first last) ->
  length out = length buf ->
  exists v1 n,
    set_elements_in_slice v buf first last = Ok (v1, n) /\
    get_elements_in_slice v1 out first last = Ok (buf, n).
Proof.
  intros Hs Hr Lb Lo.
  set (pts := slice_points first last) in *.
  destruct (visit_points_set pts v s buf 0 Hs) as (B & M & _ & S1). cbv zeta in *.
  rewrite drop_0 in S1.
  destruct (visit_points SetElem_visit v buf 0 pts) as [v' buf'] eqn:Ev.
  cbn [fst snd] in *. subst buf'.
  destruct (set_dirty_in_slice_keeps v' first last) as [M' S'].
  exists (set_dirty_in_slice v' first last), (Z.of_nat (length pts)).
  split.
  - unfold set_elements_in_slice, _visit_elements_in_slice. rewrite Hs.
    fold pts. rewrite Ev. reflexivity.
  - unfold get_elements_in_slice, _visit_elements_in_slice.
    rewrite S', S1. fold pts.
    rewrite (visit_points_get pts _ _ out 0 ltac:(by rewrite S', S1)). cbn.
    do 2 f_equal.
    assert (K : store_all s (zip (key_of v <$> pts) buf)
                  ∘ key_of (set_dirty_in_slice v' first last) <$> pts = buf).
    { rewrite list_fmap_compose.
      assert (key_of (set_dirty_in_slice v' first last) <$> pts = key_of v <$> pts) as ->.
      { apply list_fmap_ext. intros i p _. apply same_meta_key.
        by eapply same_meta_trans. }
      apply store_all_read; [by apply slice_keys_NoDup |].
      rewrite length_fmap. lia. }
    rewrite K.
    pose proof (inserts_overwrite buf [] out Lo) as I. cbn in I.
    rewrite <- Lb. exact I.
Qed.
End SliceRoundTrip.

Lemma slice_round_trip_witness :
  exists v1 n,
    set_elements_in_slice (var_example true) [10; 11; 12; 13] [3; 1] [4; 2] = Ok (v1, n) /\
    get_elements_in_slice v1 [0; 0; 0; 0] [3; 1] [4; 2] = Ok ([10; 11; 12; 13], n).
Proof.
  apply (slice_round_trip (var_example true) (fun _ => 0) [3; 1] [4; 2]
           [10; 11; 12; 13] [0; 0; 0; 0] eq_refl).
  - split; [reflexivity |]. intros _. cbn. repeat split; lia.
  - reflexivity.
  - reflexivity.
Defined.

(** ** Halo exchange: selection *)

Lemma foldl_bind {A B C : Type} (f : C -> B -> C) (g : A -> list B) (l : list A) : forall c,
  foldl f c (l ≫= g) = foldl (fun c x => foldl f c (g x)) c l.
Proof.
  induction l as [|x l IH]; intros c; [reflexivity |].
  rewrite bind_cons, foldl_app. cbn [foldl]. apply IH.
Qed.

Lemma foldl_ext_fun {A B : Type} (f g : A -> B -> A) (l : list B) :
  (forall a x, f a x = g a x) -> forall a, foldl f a l = foldl g a l.
Proof.
  intros H. induction l as [|x l IH]; intros a; [reflexivity |].
  cbn [foldl]. by rewrite H, IH.
Qed.

Lemma elem_of_vector_set_insert items val x :
  x ∈ vector_set_insert items val <-> x ∈ items \/ x = val.
Proof.
  unfold vector_set_insert. case_bool_decide as H.
  - split; [by left | intros [? | ->]; done].
  - rewrite elem_of_app, list_elem_of_singleton. tauto.
Qed.

Lemma length_vector_set_insert items val :
  (length items <= length (vector_set_insert items val))%nat.
Proof.
  unfold vector_set_insert. case_bool_decide; [lia |]. rewrite length_app. lia.
Qed.

Section Selection.
Context {real_t : Type}.
Implicit Types (ctx : @HaloContext real_t) (g : YkVarBase real_t) (sel : SwapSel).

(** The selection loops are one loop over the candidates. *)
Lemma select_swaps_flat ctx :
  select_swaps ctx
  = foldl (select_grid ctx)
          {| gridsToSwap := ∅; stepsToSwap := ∅; num_swaps := 0; max_steps := 0 |}
          (swap_candidates ctx).
Proof.
  unfold select_swaps, swap_candidates.
  rewrite foldl_bind. apply foldl_ext_fun. intros sel bp.
  rewrite foldl_bind. apply foldl_ext_fun. intros sel' sg.
  by rewrite foldl_bind.
Qed.

Lemma select_step_effect gp g sel t :
  let sel' := select_step gp g sel t in
  (forall gname x, x ∈ steps_of sel' gname <->
     x ∈ steps_of sel gname \/ (gname = get_name g /\ x = t /\ is_dirty g t = true)) /\
  (forall gname gp', gridsToSwap sel' !! gname = Some gp' ->
     gridsToSwap sel !! gname = Some gp' \/
     (gname = get_name g /\ gp' = gp /\ is_dirty g t = true)) /\
  (sel_closed sel -> sel_closed sel').
Proof.
  cbv zeta. unfold select_step. destruct (is_dirty g t) eqn:Hd; cbn [negb].
  - split; [|split].
    + intros gname x. unfold steps_of at 1. cbn [stepsToSwap].
      destruct (decide (gname = get_name g)) as [->|Hne].
      * rewrite lookup_insert_eq. cbn. rewrite elem_of_vector_set_insert.
        unfold steps_of. tauto.
      * rewrite lookup_insert_ne by done. fold (steps_of sel gname). tauto.
    + intros gname gp'. cbn [gridsToSwap].
      destruct (decide (gname = get_name g)) as [->|Hne].
      * rewrite lookup_insert_eq. intros [= <-]. by right.
      * rewrite lookup_insert_ne by done. by left.
    + intros [C1 C2]. split.
      * intros gname. unfold steps_of. cbn [stepsToSwap gridsToSwap].
        destruct (decide (gname = get_name g)) as [->|Hne].
        -- rewrite !lookup_insert_eq. by eexists.
        -- rewrite !lookup_insert_ne by done. apply C1.
      * intros gname. unfold steps_of. cbn [stepsToSwap max_steps].
        destruct (decide (gname = get_name g)) as [->|Hne].
        -- rewrite lookup_insert_eq. cbn. lia.
        -- rewrite lookup_insert_ne by done. specialize (C2 gname).
           unfold steps_of in C2. lia.
  - split; [|split; [by left | done]].
    intros gname x. split; [by left | intros [? | (_ & _ & ?)]; done].
Qed.

Lemma select_steps_effect gp g (ts : list Z) : forall sel,
  let sel' := foldl (select_step gp g) sel ts in
  (forall gname x, x ∈ steps_of sel' gname <->
     x ∈ steps_of sel gname \/ (gname = get_name g /\ x ∈ ts /\ is_dirty g x = true)) /\
  (forall gname gp', gridsToSwap sel' !! gname = Some gp' ->
     gridsToSwap sel !! gname = Some gp' \/ (gname = get_name g /\ gp' = gp)) /\
  (sel_closed sel -> sel_closed sel').
Proof.
  induction ts as [|t ts IH]; intros sel; cbn [foldl]; cbv zeta.
  - split; [|split; [by left | done]].
    intros gname x. split; [by left |].
    intros [? | (_ & H & _)]; [done | by apply elem_of_nil in H].
  - destruct (select_step_effect gp g sel t) as (S1 & S2 & S3).
    destruct (IH (select_step gp g sel t)) as (T1 & T2 & T3). cbv zeta in *.
    split; [|split].
    + intros gname x. rewrite T1, S1, elem_of_cons. split.
      * intros [[? | (? & -> & ?)] | (? & ? & ?)]; auto.
      * intros [? | (? & [-> | ?] & ?)]; auto.
    + intros gname gp' H. apply T2 in H as [H | H]; [|by right].
      apply S2 in H as [H | (? & ? & _)]; auto.
    + auto.
Qed.

Lemma select_grid_effect ctx sel gp :
  let sel' := select_grid ctx sel gp in
  (forall gname x, x ∈ steps_of sel' gname <->
     x ∈ steps_of sel gname \/
     exists g, gridPtrs ctx !! gp = Some g /\ get_name g = gname /\
               is_scratch g = false /\ is_Some (mpiData ctx !! gname) /\
               x ∈ steps_checked g /\ is_dirty g x = true) /\
  (forall gname gp', gridsToSwap sel' !! gname = Some gp' ->
     gridsToSwap sel !! gname = Some gp' \/
     (gp' = gp /\ exists g, gridPtrs ctx !! gp = Some g /\ get_name g = gname /\
                            is_scratch g = false /\ is_Some (mpiData ctx !! gname))) /\
  (sel_closed sel -> sel_closed sel').
Proof.
  cbv zeta. unfold select_grid.
  destruct (gridPtrs ctx !! gp) as [g|] eqn:Hg.
  2:{ split; [|split; [by left | done]]. intros gname x.
      split; [by left | intros [? | (g & ? & _)]; done]. }
  destruct (is_scratch g) eqn:Hsc.
  { split; [|split; [by left | done]]. intros gname x.
    split; [by left | intros [? | (g' & [= <-] & _ & ? & _)]; congruence]. }
  case_bool_decide as Hm.
  { split; [|split; [by left | done]]. intros gname x.
    split; [by left |]. intros [? | (g' & [= <-] & <- & _ & [? Hs] & _)]; [done |].
    congruence. }
  destruct (select_steps_effect gp g (steps_checked g) sel) as (T1 & T2 & T3).
  cbv zeta in *.
  assert (is_Some (mpiData ctx !! get_name g)) as Hsome
    by (destruct (mpiData ctx !! get_name g); [by eexists | done]).
  split; [|split; [|exact T3]].
  - intros gname x. rewrite T1. split.
    + intros [? | (-> & ? & ?)]; [by left |]. right. by exists g.
    + intros [? | (g' & [= <-] & <- & _ & _ & ? & ?)]; [by left | by right].
  - intros gname gp' H. apply T2 in H as [H | [-> ->]]; [by left |].
    right. split; [done |]. by exists g.
Qed.

(** The selection over a list of candidates. *)
Lemma select_grids_effect ctx (gps : list nat) : forall sel,
  let sel' := foldl (select_grid ctx) sel gps in
  (forall gname x, x ∈ steps_of sel' gname <->
     x ∈ steps_of sel gname \/
     exists gp g, gp ∈ gps /\ gridPtrs ctx !! gp = Some g /\ get_name g = gname /\
                  is_scratch g = false /\ is_Some (mpiData ctx !! gname) /\
                  x ∈ steps_checked g /\ is_dirty g x = true) /\
  (forall gname gp', gridsToSwap sel' !! gname = Some gp' ->
     gridsToSwap sel !! gname = Some gp' \/
     (gp' ∈ gps /\ exists g, gridPtrs ctx !! gp' = Some g /\ get_name g = gname /\
                             is_scratch g = false /\ is_Some (mpiData ctx !! gname))) /\
  (sel_closed sel -> sel_closed sel').
Proof.
  induction gps as [|gp gps IH]; intros sel; cbn [foldl]; cbv zeta.
  - split; [|split; [by left | done]]. intros gname x.
    split; [by left |]. intros [? | (gp & g & H & _)]; [done | by apply elem_of_nil in H].
  - destruct (select_grid_effect ctx sel gp) as (S1 & S2 & S3).
    destruct (IH (select_grid ctx sel gp)) as (T1 & T2 & T3). cbv zeta in *.
    split; [|split].
    + intros gname x. rewrite T1, S1. split.
      * intros [[? | (g & ?)] | (gp' & g & ? & ?)]; [by left | right | right].
        -- exists gp, g. split; [by left | done].
        -- exists gp', g. split; [by right | done].
      * intros [? | (gp' & g & [-> | ?]%elem_of_cons & ?)].
        -- by left; left.
        -- left; right. by exists g.
        -- right. by exists gp', g.
    + intros gname gp' H. apply T2 in H as [H | [? ?]].
      * apply S2 in H as [H | [-> ?]]; [by left |]. right. split; [by left | done].
      * right. split; [by right | done].
    + auto.
Qed.
End Selection.

(** ** Halo exchange: the phases *)

Section Exchange.
Context {real_t : Type}.
Context (network : string -> nat -> list real_t).
Implicit Types (ctx : @HaloContext real_t) (g : YkVarBase real_t) (sel : SwapSel).
Implicit Types (bufs : @MPIBufs real_t).

Lemma same_meta_sym g g' : same_meta g g' -> same_meta g' g.
Proof. intros (?&?&?&?&?&?&?). by repeat split. Qed.

Lemma same_meta_slot g g' t : same_meta g g' -> slot_of g' t = slot_of g t.
Proof.
  intros (_ & _ & H1 & _ & H3 & _). unfold slot_of, _wrap_step. by rewrite H1, H3.
Qed.

Lemma flags_agree_off_refl slot (d : Z -> bool) : flags_agree_off slot d d.
Proof. by intros k _. Qed.

Lemma flags_agree_off_trans slot (d1 d2 d3 : Z -> bool) :
  flags_agree_off slot d1 d2 -> flags_agree_off slot d2 d3 -> flags_agree_off slot d1 d3.
Proof. intros H1 H2 k Hk. by rewrite H2, H1. Qed.

Lemma idx_range_single t : idx_range t t = [t].
Proof. unfold idx_range. by replace (t - t + 1) with 1 by lia. Qed.

(** Unpacking into a slice at step index [si] keeps metadata and storage
    and touches at most the dirty flag of the slot of [si]. *)
Lemma set_elements_in_slice_flags g (b : @MPIBuf real_t) elems si :
  is_Some (storage g) ->
  (_has_step_dim g = true ->
     (var_step_posn g < length (begin_pt b))%nat /\
     (var_step_posn g < length (last_pt b))%nat) ->
  exists g' n,
    set_elements_in_slice g elems (buf_range g b si).1 (buf_range g b si).2 = Ok (g', n) /\
    same_meta g g' /\ is_Some (storage g') /\
    flags_agree_off (slot_of g si) (_dirty_steps g) (_dirty_steps g').
Proof.
  intros [s Hs] Hwf.
  set (first := (buf_range g b si).1). set (last := (buf_range g b si).2).
  destruct (visit_points_set (slice_points first last) g s elems 0 Hs)
    as (_ & M & D & S1). cbv zeta in *.
  destruct (visit_points SetElem_visit g elems 0 (slice_points first last))
    as [v' p'] eqn:Ev. cbn [fst snd] in *.
  destruct (set_dirty_in_slice_keeps v' first last) as [M' S'].
  exists (set_dirty_in_slice v' first last), (Z.of_nat (length (slice_points first last))).
  split; [|split; [by eapply same_meta_trans | split]].
  - unfold set_elements_in_slice, _visit_elements_in_slice. rewrite Hs, Ev. reflexivity.
  - rewrite S', S1. by eexists.
  - destruct M as (_ & _ & M1 & M2 & M3 & _).
    unfold set_dirty_in_slice, slot_of. rewrite M1.
    destruct (_has_step_dim g) eqn:Hsd.
    + destruct (Hwf eq_refl) as [L1 L2].
      subst first last. unfold buf_range. rewrite Hsd, M2. cbn [fst snd].
      rewrite !at_set_at_eq by assumption. rewrite idx_range_single. cbn [foldl].
      unfold set_dirty, set_dirty_using_alloc_index. cbn.
      rewrite M1, D. unfold _wrap_step. rewrite M3.
      intros k Hk. by apply fn_lookup_insert_ne.
    + unfold set_dirty, set_dirty_using_alloc_index. cbn. rewrite M1, D.
      intros k Hk. by apply fn_lookup_insert_ne.
Qed.

Lemma get_elements_in_slice_ok g elems (first last : Indices) :
  is_Some (storage g) -> exists r, get_elements_in_slice g elems first last = Ok r.
Proof.
  intros [s Hs]. unfold get_elements_in_slice, _visit_elements_in_slice. rewrite Hs.
  destruct (visit_points _ _ _ _ _) as [v' p']. cbn. by eexists.
Qed.

(** One call of the visitor. *)
Lemma halo_visit_effect ctx halo_step gname si ni g bufs :
  is_Some (storage g) -> recv_buf_wf g bufs ->
  exists g' bufs',
    halo_visit network ctx halo_step gname si ni (g, bufs) = Ok (g', bufs') /\
    same_meta g g' /\ is_Some (storage g') /\ recv_buf_wf g bufs' /\
    step_rel halo_step (slot_of g si) (_dirty_steps g) (_dirty_steps g').
Proof.
  intros Hs Hwf. unfold halo_visit. destruct halo_step.
  - (* halo_irecv *)
    destruct (negb _); eexists _, _; (split; [reflexivity |]);
      (split; [apply same_meta_refl |]); (split; [exact Hs |]); by split.
  - (* halo_pack_isend *)
    destruct (negb _).
    + destruct (buf_range g (bufSend bufs) si) as [first last].
      assert (exists r,
                (if allow_vec_exchange ctx && vec_copy_ok (bufSend bufs)
                 then get_vecs_in_slice g (_elems (bufSend bufs)) first last
                 else get_elements_in_slice g (_elems (bufSend bufs)) first last)
                = Ok r) as [r Hr]
        by (destruct (_ && _); by apply get_elements_in_slice_ok).
      rewrite Hr. cbn. eexists _, _. split; [reflexivity |].
      split; [apply same_meta_refl |]. split; [exact Hs |]. by split.
    + eexists _, _. split; [reflexivity |].
      split; [apply same_meta_refl |]. split; [exact Hs |]. by split.
  - (* halo_unpack *)
    destruct (negb _).
    + set (rb := if recv_req bufs then _ else _).
      assert (begin_pt rb = begin_pt (bufRecv bufs) /\
              last_pt rb = last_pt (bufRecv bufs)) as [Eb El]
        by (unfold rb; by destruct (recv_req bufs)).
      destruct (set_elements_in_slice_flags g rb (_elems rb) si Hs)
        as (g' & n & E & M & S & F).
      { intros Hsd. rewrite Eb, El. by apply Hwf. }
      destruct (buf_range g rb si) as [first last]. cbn [fst snd] in E.
      assert ((if allow_vec_exchange ctx && vec_copy_ok rb
               then set_vecs_in_slice g (_elems rb) first last
               else set_elements_in_slice g (_elems rb) first last)
              = Ok (g', n)) as ->
        by (by destruct (_ && _)).
      cbn. eexists _, _. split; [reflexivity |].
      split; [exact M |]. split; [exact S |]. split; [|exact F].
      intros Hsd. cbn. rewrite Eb, El. by apply Hwf.
    + eexists _, _. split; [reflexivity |].
      split; [apply same_meta_refl |]. split; [exact Hs |].
      split; [done | apply flags_agree_off_refl].
  - (* halo_final *)
    eexists _, _. split; [reflexivity |].
    destruct (is_dirty g si) eqn:Hd.
    + split; [by repeat split |]. split; [exact Hs |].
      split; [by destruct (_ && _) |].
      cbn. split.
      * intros k Hk. by apply fn_lookup_insert_ne.
      * apply fn_lookup_insert.
    + split; [apply same_meta_refl |]. split; [exact Hs |].
      split; [by destruct (_ && _) |].
      split; [apply flags_agree_off_refl | exact Hd].
Qed.
End Exchange.

Section ExchangeLoops.
Context {real_t : Type}.
Context (network : string -> nat -> list real_t).
Implicit Types (ctx : @HaloContext real_t) (g : YkVarBase real_t) (sel : SwapSel).
Implicit Types (bufs : @MPIBufs real_t).
Implicit Types (st : gmap nat (YkVarBase real_t) * gmap string (list (@MPIBufs real_t))).

Lemma recv_buf_wf_meta g g' bufs : same_meta g g' -> recv_buf_wf g bufs -> recv_buf_wf g' bufs.
Proof.
  intros (_ & _ & H1 & H2 & _) Hwf Hsd. rewrite H2. apply Hwf. congruence.
Qed.

(** The visits of all neighbors of a grid in one phase. *)
Lemma visitNeighbors_effect ctx halo_step gname si (nbs : list MPIBufs) : forall ni g,
  is_Some (storage g) -> Forall (recv_buf_wf g) nbs ->
  exists g' nbs',
    visitNeighbors (halo_visit network ctx halo_step gname si) ni g nbs = Ok (g', nbs') /\
    same_meta g g' /\ is_Some (storage g') /\ Forall (recv_buf_wf g) nbs' /\
    length nbs' = length nbs /\
    visit_rel halo_step (slot_of g si) (nbs <> []) (_dirty_steps g) (_dirty_steps g').
Proof.
  induction nbs as [|bufs nbs IH]; intros ni g Hs Hwf.
  - exists g, []. cbn. split; [reflexivity |]. split; [apply same_meta_refl |].
    split; [exact Hs |]. split; [constructor |]. split; [reflexivity |].
    split; [done |]. split; [apply flags_agree_off_refl |].
    intros _ [H | H]; [done | exact H].
  - apply Forall_cons in Hwf as [Hb Hwf].
    destruct (halo_visit_effect network ctx halo_step gname si ni g bufs Hs Hb)
      as (g1 & bufs1 & E1 & M1 & S1 & W1 & R1).
    destruct (IH (S ni) g1 S1) as (g2 & nbs2 & E2 & M2 & S2 & W2 & L2 & R2).
    { eapply Forall_impl; [exact Hwf |]. intros b. by apply recv_buf_wf_meta. }
    exists g2, (bufs1 :: nbs2). cbn [visitNeighbors]. rewrite E1. cbn. rewrite E2. cbn.
    split; [reflexivity |]. split; [by eapply same_meta_trans |].
    split; [exact S2 |]. split.
    { constructor; [exact W1 |]. eapply Forall_impl; [exact W2 |].
      intros b. apply recv_buf_wf_meta. by apply same_meta_sym. }
    split; [cbn; lia |].
    rewrite (same_meta_slot g g1 si M1) in R2.
    destruct R2 as (Q1 & Q2 & Q3).
    destruct halo_step; cbn in R1.
    + split; [intros _; rewrite Q1 by auto; exact R1 |].
      split; [|discriminate]. rewrite Q1 by auto. rewrite R1. apply flags_agree_off_refl.
    + split; [intros _; rewrite Q1 by auto; exact R1 |].
      split; [|discriminate]. rewrite Q1 by auto. rewrite R1. apply flags_agree_off_refl.
    + split; [intros [? | ?]; discriminate |].
      split; [by eapply flags_agree_off_trans | discriminate].
    + destruct R1 as [R1 R1'].
      split; [intros [? | ?]; discriminate |].
      split; [by eapply flags_agree_off_trans |].
      intros _ _. apply Q3; [reflexivity | by right].
Qed.

(** One grid in one phase. *)
Lemma exchange_grid_effect ctx sel svi halo_step gname gp st :
  exchange_inv ctx sel st -> gridsToSwap sel !! gname = Some gp ->
  exists st' g g',
    exchange_grid network ctx sel svi halo_step (gname, gp) st = Ok st' /\
    exchange_inv ctx sel st' /\
    (forall gp2, gp2 <> gp -> st'.1 !! gp2 = st.1 !! gp2) /\
    st.1 !! gp = Some g /\ st'.1 !! gp = Some g' /\ same_meta g g' /\
    grid_rel sel halo_step svi gname g (_dirty_steps g) (_dirty_steps g').
Proof.
  intros Hinv Hsw. destruct st as [grids mpi].
  destruct (Hinv gname gp Hsw) as (g0 & g & nbs & H0 & Hn & Hg & M & S & Hm & Hne & Hwf).
  cbn [fst snd] in *.
  unfold exchange_grid, grid_rel. fold (steps_of sel gname).
  destruct (steps_of sel gname !! svi) as [si|] eqn:Hsi.
  2:{ exists (grids, mpi), g, g. split; [reflexivity |]. split; [exact Hinv |].
      split; [done |]. split; [exact Hg |]. split; [exact Hg |].
      split; [apply same_meta_refl | reflexivity]. }
  rewrite Hg, Hm. cbn [default from_option id].
  destruct (visitNeighbors_effect ctx halo_step gname si nbs 0%nat g S)
    as (g' & nbs' & E & M' & S' & W' & L' & R).
  { eapply Forall_impl; [exact Hwf |]. intros b. by apply recv_buf_wf_meta. }
  rewrite E. cbn.
  exists (<[gp := g']> grids, <[gname := nbs']> mpi), g, g'.
  split; [reflexivity |]. split; [|split; [|split; [|split; [|split]]]].
  - intros gname2 gp2 Hsw2.
    destruct (Hinv gname2 gp2 Hsw2)
      as (g02 & g2 & nbs2 & H02 & Hn2 & Hg2 & M2 & S2 & Hm2 & Hne2 & Hwf2).
    cbn [fst snd] in *.
    destruct (decide (gname2 = gname)) as [->|Hneq].
    + assert (gp2 = gp) as -> by congruence.
      exists g0, g', nbs'. rewrite !lookup_insert_eq.
      split; [done |]. split; [done |]. split; [done |].
      split; [by eapply same_meta_trans |]. split; [exact S' |].
      split; [done |]. split; [intros ->; destruct nbs; cbn in L'; [done | lia] |].
      eapply Forall_impl; [exact W' |]. intros b. apply recv_buf_wf_meta.
      by apply same_meta_sym.
    + assert (gp2 <> gp) as Hgp by (intros ->; congruence).
      exists g02, g2, nbs2. cbn [fst snd].
      rewrite !lookup_insert_ne by congruence.
      repeat (split; [assumption |]); assumption.
  - intros gp2 Hgp2. cbn. rewrite lookup_insert_ne by congruence. reflexivity.
  - reflexivity.
  - cbn. by rewrite lookup_insert_eq.
  - exact M'.
  - destruct R as (R1 & R2 & R3). split; [exact R1 |]. split; [exact R2 |].
    intros Hf _. apply R3; [exact Hf | by left].
Qed.

(** Two grids to swap under different names are different grids. *)
Lemma exchange_inv_distinct ctx sel st gname1 gp1 gname2 gp2 :
  exchange_inv ctx sel st ->
  gridsToSwap sel !! gname1 = Some gp1 -> gridsToSwap sel !! gname2 = Some gp2 ->
  gname1 <> gname2 -> gp1 <> gp2.
Proof.
  intros Hinv H1 H2 Hne ->.
  destruct (Hinv _ _ H1) as (g1 & _ & _ & G1 & N1 & _).
  destruct (Hinv _ _ H2) as (g2 & _ & _ & G2 & N2 & _).
  congruence.
Qed.

Lemma grid_rel_flags sel halo_step svi gname g (d d1 d2 : Z -> bool) :
  d2 = d1 -> grid_rel sel halo_step svi gname g d d1 ->
  grid_rel sel halo_step svi gname g d d2.
Proof. by intros ->. Qed.

(** One phase over a list of grids to swap. *)
Lemma exchange_phase_effect ctx sel svi halo_step (l : list (string * nat)) : forall st,
  NoDup l.*1 ->
  (forall gname gp, (gname, gp) ∈ l -> gridsToSwap sel !! gname = Some gp) ->
  exchange_inv ctx sel st ->
  exists st',
    for_each l (exchange_grid network ctx sel svi halo_step) st = Ok st' /\
    exchange_inv ctx sel st' /\
    forall gname gp, gridsToSwap sel !! gname = Some gp ->
      exists g g',
        st.1 !! gp = Some g /\ st'.1 !! gp = Some g' /\ same_meta g g' /\
        ((gname, gp) ∈ l ->
           grid_rel sel halo_step svi gname g (_dirty_steps g) (_dirty_steps g')) /\
        ((gname, gp) ∉ l -> _dirty_steps g' = _dirty_steps g).
Proof.
  induction l as [|[gname1 gp1] l IH]; intros st Hnd Hl Hinv.
  - exists st. split; [reflexivity |]. split; [exact Hinv |].
    intros gname gp Hsw.
    destruct (Hinv gname gp Hsw) as (_ & g & _ & _ & _ & Hg & _).
    exists g, g. split; [exact Hg |]. split; [exact Hg |].
    split; [apply same_meta_refl |]. split; [|done].
    intros H. by apply elem_of_nil in H.
  - cbn in Hnd. apply NoDup_cons in Hnd as [Hfresh Hnd].
    assert (Hsw1 : gridsToSwap sel !! gname1 = Some gp1) by (apply Hl; by left).
    destruct (exchange_grid_effect ctx sel svi halo_step gname1 gp1 st Hinv Hsw1)
      as (st1 & g1 & g1' & E1 & Hinv1 & Hframe & G1 & G1' & M1 & R1).
    destruct (IH st1 Hnd ltac:(intros; apply Hl; by right) Hinv1)
      as (st' & E' & Hinv' & Hall).
    exists st'. cbn [for_each]. rewrite E1. cbn. split; [exact E' |].
    split; [exact Hinv' |].
    intros gname gp Hsw.
    destruct (Hall gname gp Hsw) as (ga & gb & Ga & Gb & Mab & Rin & Rout).
    destruct (decide (gname = gname1)) as [->|Hne].
    + assert (gp = gp1) as -> by congruence.
      assert (ga = g1') as -> by congruence.
      assert ((gname1, gp1) ∉ l) as Hnotin.
      { intros Hin. apply Hfresh. apply list_elem_of_fmap. by exists (gname1, gp1). }
      exists g1, gb. split; [exact G1 |]. split; [exact Gb |].
      split; [by eapply same_meta_trans |]. split.
      * intros _. eapply grid_rel_flags; [by apply Rout | exact R1].
      * intros Hn. exfalso. apply Hn. by left.
    + assert (gp <> gp1) as Hgp
        by (eapply (exchange_inv_distinct ctx sel st gname gp gname1 gp1); eauto).
      rewrite (Hframe gp Hgp) in Ga.
      exists ga, gb. split; [exact Ga |]. split; [exact Gb |]. split; [exact Mab |].
      split.
      * intros [Heq | Hin]%elem_of_cons; [congruence | by apply Rin].
      * intros Hn. apply Rout. intros Hin. apply Hn. by right.
Qed.

(** One phase over all grids to swap. *)
Lemma exchange_phase_all ctx sel svi halo_step st :
  exchange_inv ctx sel st ->
  exists st',
    for_each (map_to_list (gridsToSwap sel))
      (exchange_grid network ctx sel svi halo_step) st = Ok st' /\
    exchange_inv ctx sel st' /\
    forall gname gp, gridsToSwap sel !! gname = Some gp ->
      exists g g',
        st.1 !! gp = Some g /\ st'.1 !! gp = Some g' /\ same_meta g g' /\
        grid_rel sel halo_step svi gname g (_dirty_steps g) (_dirty_steps g').
Proof.
  intros Hinv.
  destruct (exchange_phase_effect ctx sel svi halo_step
              (map_to_list (gridsToSwap sel)) st) as (st' & E & Hinv' & Hall).
  - apply NoDup_fst_map_to_list.
  - intros gname gp. apply elem_of_map_to_list.
  - exact Hinv.
  - exists st'. split; [exact E |]. split; [exact Hinv' |].
    intros gname gp Hsw. destruct (Hall gname gp Hsw) as (g & g' & G & G' & M & Rin & _).
    exists g, g'. repeat (split; [assumption |]).
    apply Rin. by apply elem_of_map_to_list.
Qed.

Lemma for_each_app {E S A : Type} (l1 l2 : list A) (body : A -> S -> result E S) s :
  for_each (l1 ++ l2) body s = for_each l1 body s ≫= for_each l2 body.
Proof.
  revert s. induction l1 as [|x l1 IH]; intros s; [reflexivity |].
  cbn [app for_each]. destruct (body x s) as [s1|e]; [|reflexivity]. cbn. apply IH.
Qed.

(** The exterior phases (posting receives, packing and sending) leave all
    dirty flags alone. *)
Lemma exchange_exterior_phases ctx sel svi (ps : list halo_steps) : forall st,
  Forall (fun p => p = halo_irecv \/ p = halo_pack_isend) ps ->
  exchange_inv ctx sel st ->
  exists st',
    for_each ps
      (fun halo_step st =>
         for_each (map_to_list (gridsToSwap sel))
           (exchange_grid network ctx sel svi halo_step) st) st = Ok st' /\
    exchange_inv ctx sel st' /\
    forall gname gp, gridsToSwap sel !! gname = Some gp ->
      exists g g',
        st.1 !! gp = Some g /\ st'.1 !! gp = Some g' /\ same_meta g g' /\
        _dirty_steps g' = _dirty_steps g.
Proof.
  induction ps as [|p ps IH]; intros st Hps Hinv.
  - exists st. split; [reflexivity |]. split; [exact Hinv |].
    intros gname gp Hsw.
    destruct (Hinv gname gp Hsw) as (_ & g & _ & _ & _ & Hg & _).
    exists g, g. by repeat (split; [done || apply same_meta_refl |]).
  - apply Forall_cons in Hps as [Hp Hps].
    destruct (exchange_phase_all ctx sel svi p st Hinv) as (st1 & E1 & Hinv1 & H1).
    destruct (IH st1 Hps Hinv1) as (st' & E' & Hinv' & H').
    exists st'. cbn [for_each]. rewrite E1. cbn. split; [exact E' |].
    split; [exact Hinv' |].
    intros gname gp Hsw.
    destruct (H1 gname gp Hsw) as (g & g1 & G & G1 & M1 & R1).
    destruct (H' gname gp Hsw) as (g1' & g' & G1' & G' & M' & R').
    assert (g1' = g1) as -> by congruence.
    exists g, g'. split; [exact G |]. split; [exact G' |].
    split; [by eapply same_meta_trans |].
    rewrite R'. unfold grid_rel in R1.
    destruct (steps_of sel gname !! svi); [|exact R1].
    destruct R1 as (R1 & _). by apply R1.
Qed.

(** The interior phases (unpacking, then the final waits) clear the dirty
    flag of the slot exchanged and leave the others alone. *)
Lemma exchange_interior_phases ctx sel svi st :
  exchange_inv ctx sel st ->
  exists st',
    for_each [halo_unpack; halo_final]
      (fun halo_step st =>
         for_each (map_to_list (gridsToSwap sel))
           (exchange_grid network ctx sel svi halo_step) st) st = Ok st' /\
    exchange_inv ctx sel st' /\
    forall gname gp, gridsToSwap sel !! gname = Some gp ->
      exists g g',
        st.1 !! gp = Some g /\ st'.1 !! gp = Some g' /\ same_meta g g' /\
        round_rel sel svi gname g (_dirty_steps g) (_dirty_steps g').
Proof.
  intros Hinv.
  destruct (exchange_phase_all ctx sel svi halo_unpack st Hinv) as (st1 & E1 & Hinv1 & H1).
  destruct (exchange_phase_all ctx sel svi halo_final st1 Hinv1) as (st2 & E2 & Hinv2 & H2).
  exists st2. cbn [for_each]. rewrite E1. cbn. rewrite E2. cbn.
  split; [reflexivity |]. split; [exact Hinv2 |].
  intros gname gp Hsw.
  destruct (H1 gname gp Hsw) as (g & g1 & G & G1 & M1 & R1).
  destruct (H2 gname gp Hsw) as (g1' & g2 & G1' & G2 & M2 & R2).
  assert (g1' = g1) as -> by congruence.
  exists g, g2. split; [exact G |]. split; [exact G2 |].
  split; [by eapply same_meta_trans |].
  unfold grid_rel, round_rel in *.
  destruct (steps_of sel gname !! svi) as [si|]; [|congruence].
  rewrite (same_meta_slot g g1 si M1) in R2.
  destruct R1 as (_ & A1 & _). destruct R2 as (_ & A2 & F2).
  split; [by eapply flags_agree_off_trans |]. apply F2; [reflexivity | by left].
Qed.

(** One round: all phases at one step-vector index. *)
Lemma exchange_round_effect ctx sel svi st :
  do_mpi_interior ctx = true ->
  exchange_inv ctx sel st ->
  exists st',
    for_each (steps_to_do ctx)
      (fun halo_step st =>
         for_each (map_to_list (gridsToSwap sel))
           (exchange_grid network ctx sel svi halo_step) st) st = Ok st' /\
    exchange_inv ctx sel st' /\
    forall gname gp, gridsToSwap sel !! gname = Some gp ->
      exists g g',
        st.1 !! gp = Some g /\ st'.1 !! gp = Some g' /\ same_meta g g' /\
        round_rel sel svi gname g (_dirty_steps g) (_dirty_steps g').
Proof.
  intros Hint Hinv. unfold steps_to_do. rewrite Hint, for_each_app.
  destruct (exchange_exterior_phases ctx sel svi
              (if do_mpi_exterior ctx then [halo_irecv; halo_pack_isend] else []) st)
    as (st1 & E1 & Hinv1 & H1); [|exact Hinv |].
  { destruct (do_mpi_exterior ctx); [|constructor].
    apply Forall_cons. split; [by left |].
    apply Forall_cons. split; [by right | constructor]. }
  destruct (exchange_interior_phases ctx sel svi st1 Hinv1) as (st2 & E2 & Hinv2 & H2).
  exists st2. rewrite E1. cbn. split; [exact E2 |]. split; [exact Hinv2 |].
  intros gname gp Hsw.
  destruct (H1 gname gp Hsw) as (g & g1 & G & G1 & M1 & R1).
  destruct (H2 gname gp Hsw) as (g1' & g2 & G1' & G2 & M2 & R2).
  assert (g1' = g1) as -> by congruence.
  exists g, g2. split; [exact G |]. split; [exact G2 |].
  split; [by eapply same_meta_trans |].
  unfold round_rel in *. destruct (steps_of sel gname !! svi) as [si|]; [|congruence].
  rewrite (same_meta_slot g g1 si M1), R1 in R2. exact R2.
Qed.

(** All rounds: the flags of the slots of the first [n] selected steps of
    every grid to swap are clear. *)
Lemma exchange_rounds_effect ctx sel (n : nat) st :
  do_mpi_interior ctx = true ->
  exchange_inv ctx sel st ->
  exists st',
    for_each (seq 0 n)
      (fun svi st =>
         for_each (steps_to_do ctx)
           (fun halo_step st =>
              for_each (map_to_list (gridsToSwap sel))
                (exchange_grid network ctx sel svi halo_step) st) st) st = Ok st' /\
    exchange_inv ctx sel st' /\
    forall gname gp, gridsToSwap sel !! gname = Some gp ->
      exists g g',
        st.1 !! gp = Some g /\ st'.1 !! gp = Some g' /\ same_meta g g' /\
        forall j si, (j < n)%nat -> steps_of sel gname !! j = Some si ->
          _dirty_steps g' (slot_of g si) = false.
Proof.
  intros Hint Hinv. induction n as [|n (st1 & E1 & Hinv1 & H1)].
  - exists st. split; [reflexivity |]. split; [exact Hinv |].
    intros gname gp Hsw.
    destruct (Hinv gname gp Hsw) as (_ & g & _ & _ & _ & Hg & _).
    exists g, g. split; [exact Hg |]. split; [exact Hg |].
    split; [apply same_meta_refl |]. intros; lia.
  - destruct (exchange_round_effect ctx sel n st1 Hint Hinv1) as (st2 & E2 & Hinv2 & H2).
    exists st2. rewrite seq_S, for_each_app, E1. cbn [mbind result_bind bind Nat.add].
    cbn [for_each]. rewrite E2. cbn. split; [reflexivity |]. split; [exact Hinv2 |].
    intros gname gp Hsw.
    destruct (H1 gname gp Hsw) as (g & g1 & G & G1 & M1 & R1).
    destruct (H2 gname gp Hsw) as (g1' & g2 & G1' & G2 & M2 & R2).
    assert (g1' = g1) as -> by congruence.
    exists g, g2. split; [exact G |]. split; [exact G2 |].
    split; [by eapply same_meta_trans |].
    intros j si Hj Hsi. unfold round_rel in R2.
    destruct (decide (j = n)) as [->|Hne].
    + rewrite Hsi in R2. rewrite (same_meta_slot g g1 si M1) in R2. apply R2.
    + specialize (R1 j si ltac:(lia) Hsi).
      destruct (steps_of sel gname !! n) as [sn|]; [|by rewrite R2].
      destruct R2 as [A F]. rewrite (same_meta_slot g g1 sn M1) in A, F.
      destruct (decide (slot_of g si = slot_of g sn)) as [->|Hslot]; [exact F |].
      by rewrite (A _ Hslot).
Qed.
End ExchangeLoops.

(** ** Halo exchange: the dirty-flag discipline *)

Section DirtyDiscipline.
Context {real_t : Type}.
Context (network : string -> nat -> list real_t).
Implicit Types (ctx : @HaloContext real_t) (g : YkVarBase real_t).

(** What [select_swaps] selects. *)
Lemma select_swaps_spec ctx :
  let sel := select_swaps ctx in
  (forall gname t, t ∈ steps_of sel gname <->
     exists gp g, exchangeable ctx gp g /\ get_name g = gname /\
                  t ∈ steps_checked g /\ is_dirty g t = true) /\
  (forall gname gp, gridsToSwap sel !! gname = Some gp ->
     exists g, exchangeable ctx gp g /\ get_name g = gname) /\
  sel_closed sel.
Proof.
  cbv zeta. rewrite select_swaps_flat.
  destruct (select_grids_effect ctx (swap_candidates ctx)
              {| gridsToSwap := ∅; stepsToSwap := ∅; num_swaps := 0; max_steps := 0 |})
    as (S1 & S2 & S3). cbv zeta in *.
  split; [|split].
  - intros gname t. rewrite S1. unfold steps_of at 1. cbn [stepsToSwap].
    rewrite lookup_empty. cbn. split.
    + intros [H | (gp & g & Hin & Hg & Hn & Hsc & Hm & Ht & Hd)];
        [by apply elem_of_nil in H |].
      exists gp, g. subst gname. by repeat split.
    + intros (gp & g & (Hin & Hg & Hsc & Hm) & Hn & Ht & Hd).
      right. exists gp, g. subst gname. by repeat split.
  - intros gname gp H. apply S2 in H as [H | (Hin & g & Hg & Hn & Hsc & Hm)].
    + cbn in H. by rewrite lookup_empty in H.
    + exists g. subst gname. by repeat split.
  - apply S3. split.
    + intros gname. unfold steps_of. cbn. by rewrite lookup_empty.
    + intros gname. unfold steps_of. cbn. rewrite lookup_empty. cbn. lia.
Qed.

(** A context that is ready for an exchange starts the rounds in a sound
    state. *)
Lemma exchange_inv_init ctx :
  exchange_ready ctx ->
  exchange_inv ctx (select_swaps ctx) (gridPtrs ctx, mpiData ctx).
Proof.
  intros [_ Hready] gname gp Hsw.
  destruct (select_swaps_spec ctx) as (_ & S2 & _). cbv zeta in S2.
  destruct (S2 gname gp Hsw) as (g & (_ & Hg & _ & [nbs Hm]) & Hn).
  destruct (Hready gp g nbs Hg Hm) as (Hs & Hne & Hwf).
  exists g, g, nbs. cbn [fst snd]. subst gname.
  repeat (split; [done || apply same_meta_refl |]). exact Hwf.
Qed.

(** C1 (amended).  With more than one rank active and halo exchange
    enabled, a non-test call of [exchange_halos] selects a step index of a
    var for exchange exactly when the var is a non-scratch input var of a
    bundle needed by some pack, has MPI buffers, the step index is one of
    its allocated ones, and its dirty flag is set for that index; and when
    the call runs the interior phases (through the final waits), it returns
    and the dirty flag of every slot selected is clear. *)
Theorem exchange_halos_dirty_discipline ctx :
  enable_halo_exchange ctx = true ->
  2 <= env_num_ranks ctx ->
  (forall gname t, t ∈ steps_of (select_swaps ctx) gname <->
     exists gp g, exchangeable ctx gp g /\ get_name g = gname /\
                  t ∈ steps_checked g /\ is_dirty g t = true) /\
  (exchange_ready ctx -> do_mpi_interior ctx = true ->
   exists grids' mpi',
     exchange_halos network ctx false = Ok (grids', mpi') /\
     forall gp g t, exchangeable ctx gp g -> t ∈ steps_checked g ->
       is_dirty g t = true ->
       exists g', grids' !! gp = Some g' /\ is_dirty g' t = false).
Proof.
  intros Hen Hranks.
  destruct (select_swaps_spec ctx) as (S1 & S2 & [C1 C2]). cbv zeta in *.
  split; [exact S1 |].
  intros Hready Hint.
  destruct (exchange_rounds_effect network ctx (select_swaps ctx)
              (max_steps (select_swaps ctx)) (gridPtrs ctx, mpiData ctx) Hint
              (exchange_inv_init ctx Hready)) as ([grids' mpi'] & E & _ & Hall).
  exists grids', mpi'. split.
  - unfold exchange_halos. rewrite Hen.
    destruct (Z.ltb_spec (env_num_ranks ctx) 2); [lia |]. exact E.
  - intros gp g t Hex Ht Hd.
    assert (Hsel : t ∈ steps_of (select_swaps ctx) (get_name g))
      by (apply S1; by exists gp, g).
    destruct (C1 (get_name g)) as [gp' Hsw]; [by intros Hnil; rewrite Hnil in Hsel;
      apply elem_of_nil in Hsel |].
    destruct (S2 _ _ Hsw) as (g2 & (_ & Hg2 & _) & Hn2).
    destruct Hex as (_ & Hg & _).
    destruct Hready as [Huniq _].
    assert (gp' = gp) as -> by (eapply Huniq; eauto).
    destruct (Hall _ _ Hsw) as (g0 & g' & G0 & G' & M & Hclear). cbn [fst snd] in *.
    assert (g0 = g) as -> by congruence.
    exists g'. split; [exact G' |].
    apply list_elem_of_lookup in Hsel as [j Hj].
    assert (j < max_steps (select_swaps ctx))%nat as Hjn.
    { apply lookup_lt_Some in Hj. specialize (C2 (get_name g)). lia. }
    specialize (Hclear j t Hjn Hj).
    unfold is_dirty. fold (slot_of g' t). by rewrite (same_meta_slot g g' t M).
Qed.
End DirtyDiscipline.

(** The claim as worded, that a (var, step index) pair is selected exactly
    when the dirty flag is set, fails on [ctx_halo_example]: two ranks are
    active and the exchange is enabled, the var "out" is dirty at step
    index 0, but it is an input of no bundle, so it is not selected. *)
Lemma dirty_not_selected_counterexample :
  enable_halo_exchange ctx_halo_example = true /\
  2 <= env_num_ranks ctx_halo_example /\
  ~ (forall gp g t,
       gridPtrs ctx_halo_example !! gp = Some g -> t ∈ steps_checked g ->
       (t ∈ steps_of (select_swaps ctx_halo_example) (get_name g)
        <-> is_dirty g t = true)).
Proof.
  split; [reflexivity |]. split; [by vm_compute |].
  intros H.
  specialize (H 1%nat grid_out 0 eq_refl ltac:(compute_done)) as [_ H].
  specialize (H eq_refl).
  vm_compute in H. by apply elem_of_nil in H.
Qed.

Lemma exchange_ready_example : exchange_ready ctx_halo_example.
Proof.
  split.
  - intros a b ga gb Ha Hb Hn. cbn [gridPtrs ctx_halo_example] in Ha, Hb.
    apply lookup_insert_Some in Ha as [[<- <-] | [? Ha]];
      [|apply lookup_singleton_Some in Ha as [<- <-]];
      (apply lookup_insert_Some in Hb as [[<- <-] | [? Hb]];
       [|apply lookup_singleton_Some in Hb as [<- <-]]);
      (reflexivity || discriminate Hn).
  - intros gp g nbs Hg Hm. cbn [gridPtrs mpiData ctx_halo_example] in Hg, Hm.
    apply lookup_insert_Some in Hg as [[<- <-] | [? Hg]];
      [|apply lookup_singleton_Some in Hg as [<- <-]];
      vm_compute in Hm; injection Hm as <-;
      (split; [by eexists |]); (split; [discriminate |]);
      (constructor; [|constructor]); intros _; cbn; lia.
Qed.

Lemma exchange_halos_dirty_discipline_witness :
  is_dirty grid_u 1 = true /\
  1 ∈ steps_of (select_swaps ctx_halo_example) "u" /\
  exists grids' mpi' g',
    exchange_halos network_example ctx_halo_example false = Ok (grids', mpi') /\
    grids' !! 0%nat = Some g' /\ is_dirty g' 1 = false.
Proof.
  destruct (exchange_halos_dirty_discipline network_example ctx_halo_example
              eq_refl ltac:(by vm_compute)) as [Hsel Hclear].
  assert (Hex : exchangeable ctx_halo_example 0 grid_u).
  { split; [compute_done |]. split; [reflexivity |]. split; [reflexivity |].
    by eexists. }
  split; [reflexivity |]. split.
  - apply Hsel. exists 0%nat, grid_u.
    split; [exact Hex |]. split; [reflexivity |]. split; [compute_done | reflexivity].
  - destruct (Hclear exchange_ready_example eq_refl) as (grids' & mpi' & E & H).
    destruct (H 0%nat grid_u 1 Hex ltac:(compute_done) eq_refl) as (g' & G & D).
    by exists grids', mpi', g'.
Defined.

(** ** Common utilities *)

Lemma quot_rem_nonneg n d :
  0 <= n -> 0 < d -> Z.quot n d = n / d /\ Z.rem n d = n mod d.
Proof.
  intros. split; [apply Z.quot_div_nonneg | apply Z.rem_mod_nonneg]; lia.
Qed.

Lemma ROUND_DOWN_floor n d : 0 <= n -> 0 < d -> ROUND_DOWN n d = n / d * d.
Proof. intros. unfold ROUND_DOWN. by rewrite (proj1 (quot_rem_nonneg n d ltac:(lia) ltac:(lia))). Qed.

Lemma ROUND_UP_floor n d : 0 <= n -> 0 < d -> ROUND_UP n d = (n + d - 1) / d * d.
Proof.
  intros. unfold ROUND_UP, CEIL_DIV.
  by rewrite (proj1 (quot_rem_nonneg (n + d - 1) d ltac:(lia) ltac:(lia))).
Qed.

Lemma rem_mult_0 k d : 0 <= k -> 0 < d -> Z.rem (k * d) d = 0.
Proof. intros. rewrite Z.rem_mod_nonneg by nia. apply Z.mod_mul. lia. Qed.

(** X1 (rounding macros).  On a non-negative [n] and a positive [mult],
    [ROUND_DOWN] and [ROUND_UP] give the nearest multiples of [mult] below
    and above [n]: both are multiples of [mult], [ROUND_DOWN] is at most
    [n] and less than [mult] below it, [ROUND_UP] is at least [n] and less
    than [mult] above it, the two agree exactly when [n] is a multiple, and
    rounding twice changes nothing.  On a negative [n] the division
    truncates, so [ROUND_DOWN] rounds up, toward zero. *)
Theorem rounding_macros_bracket (n mult : Z) :
  0 < mult ->
  (0 <= n ->
     ROUND_DOWN n mult <= n < ROUND_DOWN n mult + mult /\
     n <= ROUND_UP n mult < n + mult /\
     Z.rem (ROUND_DOWN n mult) mult = 0 /\
     Z.rem (ROUND_UP n mult) mult = 0 /\
     (ROUND_UP n mult = ROUND_DOWN n mult <-> Z.rem n mult = 0) /\
     ROUND_DOWN (ROUND_DOWN n mult) mult = ROUND_DOWN n mult /\
     ROUND_UP (ROUND_UP n mult) mult = ROUND_UP n mult) /\
  (n < 0 -> n <= ROUND_DOWN n mult <= 0 /\ ROUND_DOWN n mult < n + mult).
Proof.
  intros Hm. split.
  - intros Hn.
    rewrite (ROUND_DOWN_floor n mult), (ROUND_UP_floor n mult) by lia.
    pose proof (Z.div_mod n mult ltac:(lia)) as D.
    pose proof (Z.mod_pos_bound n mult Hm) as B.
    pose proof (Z.div_mod (n + mult - 1) mult ltac:(lia)) as D'.
    pose proof (Z.mod_pos_bound (n + mult - 1) mult Hm) as B'.
    assert (Q : 0 <= n / mult) by (apply Z.div_pos; lia).
    assert (Q' : 0 <= (n + mult - 1) / mult) by (apply Z.div_pos; lia).
    assert (U : (n + mult - 1) / mult = n / mult + (if decide (n mod mult = 0) then 0 else 1)).
    { case_decide as Hz.
      - symmetry. apply (Z.div_unique _ _ _ (mult - 1)); lia.
      - symmetry. apply (Z.div_unique _ _ _ (n mod mult - 1)); lia. }
    repeat split; try nia.
    + apply rem_mult_0; lia.
    + apply rem_mult_0; lia.
    + intros E. rewrite Z.rem_mod_nonneg by lia. case_decide; [done | nia].
    + rewrite Z.rem_mod_nonneg by lia. intros E. case_decide; [nia | done].
    + rewrite ROUND_DOWN_floor by nia. rewrite Z.div_mul by lia. done.
    + rewrite ROUND_UP_floor by nia.
      replace ((n + mult - 1) / mult * mult + mult - 1)
        with (mult - 1 + (n + mult - 1) / mult * mult) by lia.
      rewrite Z.div_add by lia. rewrite Z.div_small by lia. lia.
  - intros Hn. unfold ROUND_DOWN.
    assert (E : Z.quot n mult = - ((- n) / mult)).
    { replace n with (- - n) at 1 by lia. rewrite Z.quot_opp_l by lia.
      by rewrite Z.quot_div_nonneg by lia. }
    rewrite E.
    pose proof (Z.div_mod (- n) mult ltac:(lia)) as D.
    pose proof (Z.mod_pos_bound (- n) mult Hm) as B.
    assert (0 <= (- n) / mult) by (apply Z.div_pos; lia).
    nia.
Qed.

Lemma rounding_macros_bracket_witness :
  ROUND_DOWN 10 4 = 8 /\ ROUND_UP 10 4 = 12 /\ ROUND_DOWN (-1) 4 = 0 /\
  (8 <= 10 < 8 + 4) /\ (-1 <= ROUND_DOWN (-1) 4 <= 0).
Proof.
  destruct (rounding_macros_bracket 10 4 ltac:(lia)) as [P _].
  destruct (rounding_macros_bracket (-1) 4 ltac:(lia)) as [_ N].
  specialize (P ltac:(lia)). specialize (N ltac:(lia)).
  change (ROUND_DOWN 10 4) with 8 in P. change (ROUND_UP 10 4) with 12 in P.
  repeat split; try reflexivity; lia.
Defined.

(** *** Dividing a range into equal parts *)

Lemma sum_list_app l1 l2 : sum_list (l1 ++ l2) = sum_list l1 + sum_list l2.
Proof. unfold sum_list. induction l1 as [|x l1 IH]; cbn; [reflexivity | rewrite IH; lia]. Qed.

Lemma sum_list_replicate k x : sum_list (replicate k x) = Z.of_nat k * x.
Proof. unfold sum_list. induction k as [|k IH]; cbn [replicate foldr]; [lia | rewrite IH; lia]. Qed.

(** The increments of [div_equally_all_sizes] turn the first [k] entries
    into [q + 1]. *)
Lemma all_sizes_loop (q : Z) (N k : nat) :
  (k <= N)%nat ->
  foldl (fun p i => set_at p (Z.to_nat i) (at_ p (Z.to_nat i) + 1))
        (replicate N q) (seqZ 0 (Z.of_nat k))
  = replicate k (q + 1) ++ replicate (N - k) q.
Proof.
  induction k as [|k IH]; intros Hk.
  - cbn. by rewrite Nat.sub_0_r.
  - rewrite seqZ_S, foldl_app, IH by lia. cbn [foldl].
    replace (Z.to_nat (0 + Z.of_nat k)) with k by lia.
    unfold set_at, at_.
    replace (N - k)%nat with (S (N - S k)) by lia. cbn [replicate].
    rewrite (list_lookup_total_middle (replicate k (q + 1)) _ _ k)
      by (by rewrite length_replicate).
    rewrite insert_app_r_alt by (rewrite length_replicate; lia).
    rewrite length_replicate, Nat.sub_diag. cbn [insert list_insert].
    change (q + 1 :: replicate k (q + 1)) with (replicate (S k) (q + 1)).
    rewrite replicate_S_end, <- app_assoc. reflexivity.
Qed.

Lemma div_equally_all_sizes_shape num nparts :
  0 <= num -> 0 < nparts ->
  div_equally_all_sizes num nparts
  = replicate (Z.to_nat (num mod nparts)) (num / nparts + 1)
    ++ replicate (Z.to_nat nparts - Z.to_nat (num mod nparts)) (num / nparts).
Proof.
  intros Hn Hp. unfold div_equally_all_sizes.
  destruct (quot_rem_nonneg num nparts Hn Hp) as [-> ->].
  pose proof (Z.mod_pos_bound num nparts Hp) as B.
  rewrite <- (Z2Nat.id (num mod nparts)) at 1 by lia.
  apply all_sizes_loop. lia.
Qed.

(** X2 (division into parts).  For [num >= 0] and [nparts > 0],
    [div_equally_all_sizes] returns [nparts] sizes, entry [n] being
    [div_equally_size_n(num, nparts, n)]; every size is the quotient or one
    more, a later part is never larger than an earlier one, and the sizes
    add up to [num]. *)
Theorem div_equally_all_sizes_sum (num nparts : Z) :
  0 <= num -> 0 < nparts ->
  length (div_equally_all_sizes num nparts) = Z.to_nat nparts /\
  (forall n, 0 <= n < nparts ->
     at_ (div_equally_all_sizes num nparts) (Z.to_nat n)
     = div_equally_size_n num nparts n /\
     Z.quot num nparts <= div_equally_size_n num nparts n <= Z.quot num nparts + 1) /\
  (forall n m, n <= m ->
     div_equally_size_n num nparts m <= div_equally_size_n num nparts n) /\
  sum_list (div_equally_all_sizes num nparts) = num.
Proof.
  intros Hn Hp. rewrite div_equally_all_sizes_shape by assumption.
  pose proof (Z.mod_pos_bound num nparts Hp) as B.
  pose proof (Z.div_mod num nparts ltac:(lia)) as D.
  destruct (quot_rem_nonneg num nparts Hn Hp) as [Eq Er].
  split; [|split; [|split]].
  - rewrite length_app, !length_replicate. lia.
  - intros n Hr. unfold div_equally_size_n. rewrite Eq, Er. split.
    + unfold at_. destruct (Z.ltb_spec n (num mod nparts)).
      * rewrite lookup_total_app_l by (rewrite length_replicate; lia).
        apply list_lookup_total_correct, lookup_replicate_2. lia.
      * rewrite lookup_total_app_r by (rewrite length_replicate; lia).
        rewrite length_replicate.
        etrans; [apply list_lookup_total_correct, lookup_replicate_2; lia | lia].
    + destruct (n <? num mod nparts); lia.
  - intros n m Hle. unfold div_equally_size_n.
    destruct (Z.ltb_spec n (Z.rem num nparts)), (Z.ltb_spec m (Z.rem num nparts)); lia.
  - rewrite sum_list_app, !sum_list_replicate. nia.
Qed.

Lemma div_equally_all_sizes_sum_witness :
  div_equally_all_sizes 6 4 = [2; 2; 1; 1] /\
  sum_list (div_equally_all_sizes 6 4) = 6.
Proof.
  split; [reflexivity |].
  apply (div_equally_all_sizes_sum 6 4); lia.
Defined.

(** X3 (cumulative sizes).  [div_equally_cumu_size_n(num, nparts, n)] is 0
    for a negative [n], the sum of the sizes of parts 0 to [n] for
    [0 <= n < nparts], and [num] for the last part: the parts
    [cumu(n-1), cumu(n)) tile [0, num). *)
Theorem div_equally_cumu_prefix (num nparts n : Z) :
  0 <= num -> 0 < nparts ->
  (n < 0 -> div_equally_cumu_size_n num nparts n = 0) /\
  (0 <= n < nparts ->
     div_equally_cumu_size_n num nparts n
     = sum_list (take (Z.to_nat (n + 1)) (div_equally_all_sizes num nparts)) /\
     div_equally_cumu_size_n num nparts n
     = div_equally_cumu_size_n num nparts (n - 1) + div_equally_size_n num nparts n) /\
  div_equally_cumu_size_n num nparts (nparts - 1) = num.
Proof.
  intros Hn Hp.
  pose proof (Z.mod_pos_bound num nparts Hp) as B.
  pose proof (Z.div_mod num nparts ltac:(lia)) as D.
  destruct (quot_rem_nonneg num nparts Hn Hp) as [Eq Er].
  split; [|split].
  - intros Hneg. unfold div_equally_cumu_size_n.
    destruct (Z.ltb_spec n 0); [reflexivity | lia].
  - intros Hr. split.
    + rewrite div_equally_all_sizes_shape by assumption.
      unfold div_equally_cumu_size_n. rewrite Eq, Er.
      destruct (Z.ltb_spec n 0); [lia |].
      rewrite take_app, !take_replicate, length_replicate.
      rewrite sum_list_app, !sum_list_replicate.
      destruct (Z.ltb_spec n (num mod nparts)); nia.
    + unfold div_equally_cumu_size_n, div_equally_size_n. rewrite Eq, Er.
      destruct (Z.ltb_spec n 0); [lia |].
      destruct (Z.ltb_spec (n - 1) 0), (Z.ltb_spec n (num mod nparts)),
               (Z.ltb_spec (n - 1) (num mod nparts)); nia.
  - unfold div_equally_cumu_size_n. rewrite Eq, Er.
    destruct (Z.ltb_spec (nparts - 1) 0); [lia |].
    destruct (Z.ltb_spec (nparts - 1) (num mod nparts)); nia.
Qed.

Lemma div_equally_cumu_prefix_witness :
  div_equally_cumu_size_n 6 4 (-1) = 0 /\
  div_equally_cumu_size_n 6 4 2 = 5 /\
  div_equally_cumu_size_n 6 4 3 = 6.
Proof.
  destruct (div_equally_cumu_prefix 6 4 (-1) ltac:(lia) ltac:(lia)) as (N & _ & L).
  split; [apply N; lia |]. split; [reflexivity | exact L].
Defined.

(** *** Strided loops *)

Lemma stride_chunks_nil begin end_ stride :
  0 < stride -> end_ <= begin -> stride_chunks begin end_ stride = [].
Proof.
  intros Hs Hle. unfold stride_chunks. rewrite seqZ_nil; [reflexivity |].
  unfold CEIL_DIV.
  destruct (Z.le_gt_cases 0 (end_ - begin + stride - 1)).
  - rewrite Z.quot_small by lia. lia.
  - replace (end_ - begin + stride - 1) with (- - (end_ - begin + stride - 1)) by lia.
    rewrite Z.quot_opp_l by lia.
    pose proof (Z.quot_pos (- (end_ - begin + stride - 1)) stride ltac:(lia) Hs). lia.
Qed.

Lemma stride_chunks_cons begin end_ stride :
  0 < stride -> begin < end_ ->
  stride_chunks begin end_ stride
  = (begin, Z.min (begin + stride) end_) :: stride_chunks (begin + stride) end_ stride.
Proof.
  intros Hs Hlt. unfold stride_chunks.
  assert (E : CEIL_DIV (end_ - begin) stride
              = 1 + Z.max 0 (CEIL_DIV (end_ - (begin + stride)) stride)).
  { rewrite (CEIL_DIV_spec (end_ - begin)) by lia. unfold ceil_div_spec.
    replace (end_ - begin + stride - 1) with (end_ - (begin + stride) + stride - 1 + 1 * stride)
      by lia.
    rewrite Z.div_add by lia.
    destruct (Z.le_gt_cases 0 (end_ - (begin + stride))).
    - rewrite (CEIL_DIV_spec (end_ - (begin + stride))) by lia. unfold ceil_div_spec.
      assert (0 <= (end_ - (begin + stride) + stride - 1) / stride)
        by (apply Z.div_pos; lia). lia.
    - pose proof (stride_chunks_nil (begin + stride) end_ stride Hs ltac:(lia)) as N.
      rewrite Z.div_small by lia.
      assert (CEIL_DIV (end_ - (begin + stride)) stride <= 0).
      { unfold CEIL_DIV. rewrite Z.quot_small by lia. lia. }
      lia. }
  rewrite E.
  assert (M : seqZ 0 (CEIL_DIV (end_ - (begin + stride)) stride)
              = seqZ 0 (Z.max 0 (CEIL_DIV (end_ - (begin + stride)) stride))).
  { destruct (Z.le_gt_cases 0 (CEIL_DIV (end_ - (begin + stride)) stride)).
    - by rewrite Z.max_r by lia.
    - rewrite Z.max_l by lia. by rewrite !seqZ_nil by lia. }
  rewrite M.
  set (n := Z.max 0 _). assert (0 <= n) by lia.
  rewrite seqZ_cons by lia. cbn [fmap list_fmap].
  f_equal; [f_equal; lia |].
  replace (Z.pred (1 + n)) with n by lia.
  change (Z.succ 0) with (1 + 0).
  rewrite <- (fmap_add_seqZ 1 0 n).
  rewrite <- list_fmap_compose. apply list_fmap_ext. intros _ k _. cbn.
  f_equal; [lia | f_equal; lia].
Qed.

Lemma yask_for_loop_chunks {S : Type} (visitor : Z -> Z -> Z -> S -> S)
    (end_ stride tn : Z) :
  0 < stride ->
  forall fuel i s, (Z.to_nat (end_ - i) <= fuel)%nat ->
    yask_for_loop fuel i end_ stride tn visitor s
    = Some (foldl (fun s (c : Z * Z) => visitor c.1 c.2 tn s) s
                  (stride_chunks i end_ stride)).
Proof.
  intros Hs. induction fuel as [|fuel IH]; intros i s Hf.
  - cbn. destruct (Z.ltb_spec i end_); [lia |].
    by rewrite stride_chunks_nil by lia.
  - cbn [yask_for_loop]. destruct (Z.ltb_spec i end_).
    + rewrite IH by lia. by rewrite (stride_chunks_cons i) by lia.
    + by rewrite stride_chunks_nil by lia.
Qed.

(** The chunks cover [begin, end) index by index, in order. *)
Lemma stride_chunks_tile stride end_ :
  0 < stride ->
  forall (m : nat) begin, Z.to_nat (end_ - begin) = m ->
    (c ← stride_chunks begin end_ stride; seqZ c.1 (c.2 - c.1))
    = seqZ begin (end_ - begin).
Proof.
  intros Hs. induction m as [m IH] using lt_wf_ind. intros begin Hm.
  destruct (Z.le_gt_cases end_ begin).
  - rewrite stride_chunks_nil by lia. by rewrite seqZ_nil by lia.
  - rewrite stride_chunks_cons by lia. rewrite bind_cons. cbn [fst snd].
    rewrite (IH (Z.to_nat (end_ - (begin + stride)))) by lia.
    destruct (Z.le_gt_cases end_ (begin + stride)).
    + rewrite Z.min_r by lia. rewrite (seqZ_nil (begin + stride)) by lia.
      by rewrite app_nil_r.
    + rewrite Z.min_l by lia.
      replace (end_ - begin) with (stride + (end_ - (begin + stride))) by lia.
      rewrite seqZ_app by lia. do 2 f_equal; lia.
Qed.

(** X4 (strided loops).  For a positive stride and enough fuel, [yask_for]
    returns, and has called the visitor once per chunk, in order, on the
    chunks [begin + k * stride, min(begin + (k+1) * stride, end)) for
    [k < CEIL_DIV(end - begin, stride)]; [yask_parallel_for] built without
    OpenMP does the same with thread number 0.  Every chunk is non-empty
    and at most [stride] long, and together the chunks cover [begin, end)
    index by index, each index once; for [end <= begin] there is no call. *)
Theorem yask_for_tiles {S : Type} (visitor : Z -> Z -> Z -> S -> S) (s : S)
    (fuel : nat) (begin end_ stride tn : Z) :
  0 < stride -> (Z.to_nat (end_ - begin) <= fuel)%nat ->
  yask_for fuel begin end_ stride tn visitor s
  = Some (foldl (fun s (c : Z * Z) => visitor c.1 c.2 tn s) s
                (stride_chunks begin end_ stride)) /\
  yask_parallel_for fuel begin end_ stride visitor s
  = yask_for fuel begin end_ stride 0 visitor s /\
  (forall c, c ∈ stride_chunks begin end_ stride -> c.1 < c.2 <= c.1 + stride) /\
  (c ← stride_chunks begin end_ stride; seqZ c.1 (c.2 - c.1))
  = seqZ begin (end_ - begin) /\
  (end_ <= begin -> stride_chunks begin end_ stride = []).
Proof.
  intros Hs Hf.
  assert (Y : forall tn, yask_for fuel begin end_ stride tn visitor s
              = Some (foldl (fun s (c : Z * Z) => visitor c.1 c.2 tn s) s
                        (stride_chunks begin end_ stride))).
  { intros tn'. unfold yask_for. destruct (Z.leb_spec end_ begin).
    - by rewrite stride_chunks_nil by lia.
    - by apply yask_for_loop_chunks. }
  split; [apply Y |]. split; [|split; [|split]].
  - rewrite Y. unfold yask_parallel_for. destruct (Z.leb_spec end_ begin).
    + by rewrite stride_chunks_nil by lia.
    + destruct (Z.eqb_spec (CEIL_DIV (end_ - begin) stride) 1) as [E|E].
      * unfold stride_chunks. rewrite E. change (seqZ 0 1) with [0].
        cbn [fmap list_fmap foldl fst snd].
        rewrite (CEIL_DIV_spec (end_ - begin)) in E by lia. unfold ceil_div_spec in E.
        assert (end_ - begin + stride - 1 < 2 * stride).
        { pose proof (Z.div_mod (end_ - begin + stride - 1) stride ltac:(lia)).
          pose proof (Z.mod_pos_bound (end_ - begin + stride - 1) stride Hs). nia. }
        replace (begin + 0 * stride) with begin by lia.
        replace (Z.min (begin + (0 + 1) * stride) end_) with end_ by lia. reflexivity.
      * by apply yask_for_loop_chunks.
  - intros c Hc. unfold stride_chunks in Hc.
    apply list_elem_of_fmap in Hc as (k & -> & Hk). apply elem_of_seqZ in Hk.
    cbn [fst snd].
    destruct (Z.le_gt_cases end_ begin) as [Hle|Hlt].
    { pose proof (stride_chunks_nil begin end_ stride Hs Hle) as N.
      unfold stride_chunks in N. apply fmap_nil_inv in N.
      apply (f_equal length) in N. rewrite length_seqZ in N. cbn in N. lia. }
    rewrite (CEIL_DIV_spec (end_ - begin)) in Hk by lia. unfold ceil_div_spec in Hk.
    pose proof (Z.div_mod (end_ - begin + stride - 1) stride ltac:(lia)).
    pose proof (Z.mod_pos_bound (end_ - begin + stride - 1) stride Hs).
    assert (begin + k * stride < end_) by nia.
    lia.
  - by apply (stride_chunks_tile stride end_ Hs (Z.to_nat (end_ - begin))).
  - intros Hle. by apply stride_chunks_nil.
Qed.

Lemma yask_for_tiles_witness :
  yask_for 10 0 10 4 0 (fun start stop tn calls => calls ++ [(start, stop)]) []
  = Some [(0, 4); (4, 8); (8, 10)].
Proof.
  destruct (yask_for_tiles (fun start stop tn calls => calls ++ [(start, stop)]) []
              10 0 10 4 0 ltac:(lia) ltac:(lia)) as (Y & _).
  rewrite Y. reflexivity.
Defined.


(** *** [vector_set] *)

Section VectorSetProps.
Context {T : Type} `{Countable T}.
Implicit Types s : vector_set T.

Lemma vs_wf_lookup_lt s i x :
  vs_wf s -> vs_posn s !! x = Some i -> (i < length (vs_items s))%nat.
Proof. intros W Hp. apply W in Hp. by eapply lookup_lt_Some. Qed.

Lemma vs_wf_NoDup s : vs_wf s -> NoDup (vs_items s).
Proof.
  intros W. apply NoDup_alt. intros i j x Hi Hj.
  apply W in Hi, Hj. congruence.
Qed.

Lemma vs_wf_count s x :
  vs_wf s -> vs_count s x = (if decide (x ∈ vs_items s) then 1 else 0)%nat.
Proof.
  intros W. unfold vs_count. case_decide as Hc; case_decide as Hi; try reflexivity.
  - destruct Hc as [i Hp]. apply W in Hp. exfalso. apply Hi.
    by eapply list_elem_of_lookup_2.
  - apply list_elem_of_lookup in Hi as [i Hi]. apply W in Hi.
    exfalso. apply Hc. by eexists.
Qed.

Lemma vs_empty_wf : vs_wf (vs_empty (T := T)).
Proof. intros i x. cbn. by rewrite lookup_nil, lookup_empty. Qed.

Lemma vs_insert_wf s (val : T) : vs_wf s -> vs_wf (vs_insert s val).
Proof.
  intros W.
  unfold vs_insert. case_decide as Hc; [|exact W].
  unfold vs_count in Hc. case_decide as Hs; [done |].
  assert (Hn : vs_posn s !! val = None)
    by (destruct (vs_posn s !! val) eqn:E; [exfalso; apply Hs; by eexists | done]).
  intros i x. cbn [vs_items vs_posn]. rewrite length_app. cbn [length].
  replace (length (vs_items s) + 1 - 1)%nat with (length (vs_items s)) by lia.
  destruct (decide (x = val)) as [->|Hne].
  - rewrite lookup_insert_eq. split.
    + intros Hi. apply lookup_app_Some in Hi as [Hi | [Hge Hi]].
      * apply W in Hi. congruence.
      * apply list_lookup_singleton_Some in Hi as [Hi _]. f_equal. lia.
    + intros [= <-]. rewrite lookup_app_r by lia. by rewrite Nat.sub_diag.
  - rewrite lookup_insert_ne by done. rewrite <- (W i x). split.
    + intros Hi. apply lookup_app_Some in Hi as [Hi | [Hge Hi]]; [exact Hi |].
      apply list_lookup_singleton_Some in Hi as [_ Hi]. congruence.
    + intros Hi. apply lookup_app_Some. by left.
Qed.

(** X5 (vector_set insert).  On a set that satisfies the relationship
    [_posn[_items[i]] = i], [insert(val)] keeps the relationship, appends
    [val] to the items exactly when it is not there yet (the items stay
    free of duplicates and keep their order of insertion), makes
    [count(val)] 1 without changing the count of any other value, and is
    idempotent. *)
Theorem vs_insert_keeps_order s (val : T) :
  vs_wf s ->
  vs_wf (vs_insert s val) /\
  NoDup (vs_items (vs_insert s val)) /\
  vs_items (vs_insert s val)
  = (if decide (val ∈ vs_items s) then vs_items s else vs_items s ++ [val]) /\
  (forall x, vs_count (vs_insert s val) x
             = if decide (x = val) then 1%nat else vs_count s x) /\
  vs_insert (vs_insert s val) val = vs_insert s val.
Proof.
  intros W.
  pose proof (vs_insert_wf s val W) as W'.
  split; [exact W' |]. split; [by apply vs_wf_NoDup |].
  assert (I : vs_items (vs_insert s val)
              = if decide (val ∈ vs_items s) then vs_items s else vs_items s ++ [val]).
  { unfold vs_insert. rewrite (vs_wf_count s val W).
    destruct (decide (val ∈ vs_items s)); [by rewrite decide_False by done |].
    by rewrite decide_True by done. }
  split; [exact I |]. split.
  - intros x. rewrite (vs_wf_count _ x W'), (vs_wf_count s x W), I.
    destruct (decide (val ∈ vs_items s)) as [Hv|Hv].
    + destruct (decide (x = val)) as [->|]; [|done].
      by rewrite decide_True by done.
    + destruct (decide (x = val)) as [->|Hne].
      * rewrite decide_True; [done |]. apply elem_of_app. right. by left.
      * destruct (decide (x ∈ vs_items s)) as [Hx|Hx].
        -- rewrite decide_True; [done |]. apply elem_of_app. by left.
        -- rewrite decide_False; [done |].
           rewrite elem_of_app, list_elem_of_singleton. tauto.
  - unfold vs_insert at 1. rewrite (vs_wf_count _ val W').
    destruct (decide (val ∈ vs_items (vs_insert s val))) as [|Hn];
      [by rewrite decide_False by done |].
    exfalso. apply Hn. rewrite I.
    destruct (decide (val ∈ vs_items s)); [done |].
    apply elem_of_app. right. by left.
Qed.

Lemma vs_erase_loop_const (op : nat) (m : gmap T nat) (l : list (T * nat)) :
  foldl (fun posn (pi : T * nat) =>
           let p := pi.2 in
           let p := if (op <? p)%nat then (p - 1)%nat else p in
           let pi := (pi.1, p) in
           posn) m l = m.
Proof. induction l as [|x l IH]; [reflexivity | exact IH]. Qed.

(** [erase] of a value that is present. *)
Lemma vs_erase_present s (val : T) op :
  vs_wf s -> vs_posn s !! val = Some op ->
  exists s', vs_erase s val = Some s' /\
    vs_items s' = delete op (vs_items s) /\
    vs_posn s' = delete val (vs_posn s).
Proof.
  intros W Hp.
  pose proof (vs_wf_lookup_lt s op val W Hp) as Hlt.
  eexists. unfold vs_erase. rewrite Hp, decide_True by exact Hlt.
  rewrite (vs_erase_loop_const op).
  split; [reflexivity |]. cbn [vs_items vs_posn].
  split; reflexivity.
Qed.

(** X6 (vector_set erase).  On a set that satisfies the relationship,
    [erase(val)] of an element at position [op] removes it from the items
    (the others keep their order) and from [_posn], so [count] stays right
    for every value; but the loop that should repair the positions works on
    copies, and every item behind the erased one keeps its old position,
    one more than its index.  The relationship survives exactly when [val]
    was the last item.  Erasing a value that is not in the set changes
    nothing. *)
Theorem vs_erase_stale_positions s (val : T) :
  vs_wf s ->
  (vs_posn s !! val = None -> vs_erase s val = Some s) /\
  (forall op, vs_posn s !! val = Some op ->
     exists s', vs_erase s val = Some s' /\
       vs_items s' = delete op (vs_items s) /\
       vs_posn s' = delete val (vs_posn s) /\
       (forall x, vs_count s' x
                  = if decide (x = val) then 0%nat else vs_count s x) /\
       (forall i x, vs_items s' !! i = Some x ->
          vs_posn s' !! x = Some (if decide (i < op)%nat then i else S i)) /\
       (vs_wf s' <-> S op = length (vs_items s))).
Proof.
  intros W. split.
  - intros Hn. unfold vs_erase. by rewrite Hn.
  - intros op Hp.
    pose proof (vs_wf_lookup_lt s op val W Hp) as Hlt.
    eexists. unfold vs_erase. rewrite Hp, decide_True by exact Hlt.
    rewrite (vs_erase_loop_const op).
    split; [reflexivity |]. cbn [vs_items vs_posn].
    split; [reflexivity |]. split; [reflexivity |].
    assert (St : forall i x, delete op (vs_items s) !! i = Some x ->
                 delete val (vs_posn s) !! x
                 = Some (if decide (i < op)%nat then i else S i)).
    { intros i x Hi. case_decide as Hio.
      - rewrite list_lookup_delete_lt in Hi by exact Hio. apply W in Hi.
        rewrite lookup_delete_ne; [exact Hi |]. intros <-. rewrite Hp in Hi.
        injection Hi as ->. lia.
      - rewrite list_lookup_delete_ge in Hi by lia. apply W in Hi.
        rewrite lookup_delete_ne; [exact Hi |]. intros <-. rewrite Hp in Hi.
        injection Hi as ->. lia. }
    split; [|split; [exact St |]].
    + intros x. unfold vs_count. cbn [vs_posn].
      destruct (decide (x = val)) as [->|Hne].
      * rewrite lookup_delete_eq. case_decide as Hs; [by destruct Hs | done].
      * by rewrite lookup_delete_ne by done.
    + split.
      * intros W'. destruct (decide (S op = length (vs_items s))) as [|Hne]; [done |].
        exfalso.
        destruct (lookup_lt_is_Some_2 (vs_items s) (S op) ltac:(lia)) as [x Hx].
        assert (Hd : delete op (vs_items s) !! op = Some x)
          by (by rewrite list_lookup_delete_ge by lia).
        pose proof (St op x Hd) as Hs. rewrite decide_False in Hs by lia.
        apply (W' op x) in Hd. cbn [vs_posn] in Hd. rewrite Hd in Hs.
        injection Hs. lia.
      * intros Hl i x. cbn [vs_items vs_posn]. split.
        -- intros Hi. pose proof (lookup_lt_Some _ _ _ Hi) as Hli.
           rewrite length_delete in Hli by (by apply lookup_lt_is_Some_2).
           rewrite (St i x Hi). by rewrite decide_True by lia.
        -- intros Hx. destruct (decide (x = val)) as [->|Hne];
             [by rewrite lookup_delete_eq in Hx |].
           rewrite lookup_delete_ne in Hx by done.
           pose proof (vs_wf_lookup_lt s i x W Hx).
           assert (i <> op) by (intros ->; apply W in Hx, Hp; congruence).
           rewrite list_lookup_delete_lt by lia. by apply W.
Qed.

(** X7 (vector_set erase twice).  After the erase of an item [a], the erase
    of the item [b] that followed it removes the item [c] behind [b]
    instead: [b] stays in the items although [count(b)] is 0, and [c] is
    gone from the items although [count(c)] is still 1. *)
Theorem vs_erase_twice_wrong_item s (l1 l2 : list T) (a b c : T) :
  vs_wf s -> vs_items s = l1 ++ a :: b :: c :: l2 ->
  exists s1 s2,
    vs_erase s a = Some s1 /\ vs_erase s1 b = Some s2 /\
    vs_items s2 = l1 ++ b :: l2 /\
    vs_count s2 b = 0%nat /\ b ∈ vs_items s2 /\
    vs_count s2 c = 1%nat /\ c ∉ vs_items s2.
Proof.
  intros W Hi.
  pose proof (vs_wf_NoDup s W) as ND. rewrite Hi in ND.
  assert (Ha : vs_posn s !! a = Some (length l1)).
  { apply W. rewrite Hi. by rewrite list_lookup_middle. }
  assert (Hb : vs_posn s !! b = Some (S (length l1))).
  { apply W. rewrite Hi. rewrite lookup_app_r by lia.
    by replace (S (length l1) - length l1)%nat with 1%nat by lia. }
  assert (Hc : vs_posn s !! c = Some (S (S (length l1)))).
  { apply W. rewrite Hi. rewrite lookup_app_r by lia.
    by replace (S (S (length l1)) - length l1)%nat with 2%nat by lia. }
  apply NoDup_app in ND as (ND1 & ND2 & ND3).
  apply NoDup_cons in ND3 as [Na ND3]. apply NoDup_cons in ND3 as [Nb ND3].
  apply NoDup_cons in ND3 as [Nc ND3].
  assert (a <> b) by (intros ->; apply Na; by left).
  assert (a <> c) by (intros ->; apply Na; right; by left).
  assert (b <> c) by (intros ->; apply Nb; by left).
  destruct (vs_erase_present s a _ W Ha) as (s1 & E1 & I1 & P1).
  exists s1.
  assert (I1' : vs_items s1 = l1 ++ b :: c :: l2).
  { rewrite I1, Hi. rewrite delete_middle. reflexivity. }
  assert (Hb1 : vs_posn s1 !! b = Some (S (length l1)))
    by (rewrite P1; by rewrite lookup_delete_ne by done).
  unfold vs_erase at 2. rewrite Hb1.
  rewrite decide_True
    by (rewrite I1', length_app; cbn [length]; lia).
  rewrite (vs_erase_loop_const (S (length l1))).
  eexists. split; [exact E1 |]. split; [reflexivity |].
  cbn [vs_items vs_posn]. rewrite I1'.
  assert (D : delete (S (length l1)) (l1 ++ b :: c :: l2) = l1 ++ b :: l2).
  { change (l1 ++ b :: c :: l2) with (l1 ++ [b] ++ c :: l2).
    rewrite app_assoc.
    replace (S (length l1)) with (length (l1 ++ [b]))
      by (rewrite length_app; cbn; lia).
    rewrite delete_middle. by rewrite <- app_assoc. }
  rewrite D. split; [reflexivity |].
  split; [|split; [|split]].
  - unfold vs_count. cbn [vs_posn]. rewrite lookup_delete_eq.
    case_decide as Hs; [by destruct Hs | done].
  - apply elem_of_app. right. by left.
  - unfold vs_count. cbn [vs_posn]. rewrite lookup_delete_ne by done.
    rewrite P1, lookup_delete_ne, Hc by done.
    by rewrite decide_True by (by eexists).
  - intros Hx. apply elem_of_app in Hx as [Hx|Hx].
    + apply (ND2 c Hx). right. right. by left.
    + apply elem_of_cons in Hx as [->|Hx]; [done |]. done.
Qed.

(** X8 (vector_set swap).  On a set that satisfies the relationship,
    [swap(i, j)] of two indices in range exchanges the two items, leaves
    the others in place, keeps the relationship, and undoes itself when
    repeated. *)
Theorem vs_swap_involutive s (i j : nat) :
  vs_wf s -> (i < vs_size s)%nat -> (j < vs_size s)%nat ->
  exists s',
    vs_swap s i j = Some s' /\ vs_wf s' /\
    vs_items s' !! i = vs_items s !! j /\
    vs_items s' !! j = vs_items s !! i /\
    (forall k, k <> i -> k <> j -> vs_items s' !! k = vs_items s !! k) /\
    vs_swap s' i j = Some s.
Proof.
  intros W Hi Hj. unfold vs_size in Hi, Hj.
  destruct (lookup_lt_is_Some_2 _ _ Hi) as [a Ha].
  destruct (lookup_lt_is_Some_2 _ _ Hj) as [b Hb].
  destruct (decide (i = j)) as [->|Hne].
  { assert (E : vs_swap s j j = Some s).
    { unfold vs_swap. rewrite Ha. cbn. by rewrite decide_True by done. }
    exists s. by repeat (split; [done |]). }
  assert (Hab : a <> b) by (intros ->; apply W in Ha, Hb; congruence).
  pose proof (proj1 (W i a) Ha) as Pa. pose proof (proj1 (W j b) Hb) as Pb.
  set (items' := <[j := a]> (<[i := b]> (vs_items s))).
  assert (Li : items' !! i = Some b).
  { unfold items'. rewrite list_lookup_insert_ne by done.
    apply list_lookup_insert_eq. exact Hi. }
  assert (Lj : items' !! j = Some a).
  { unfold items'. apply list_lookup_insert_eq. by rewrite length_insert. }
  assert (Lk : forall k, k <> i -> k <> j -> items' !! k = vs_items s !! k).
  { intros k ? ?. unfold items'. by rewrite !list_lookup_insert_ne by done. }
  set (s' := {| vs_items := items'; vs_posn := <[a := j]> (<[b := i]> (vs_posn s)) |}).
  assert (E : vs_swap s i j = Some s').
  { unfold vs_swap. rewrite Ha, Hb. cbn. rewrite decide_False by done.
    fold items'. rewrite Li. cbn. rewrite Lj. cbn. reflexivity. }
  exists s'. split; [exact E |].
  assert (W' : vs_wf s').
  { intros k x. cbn [vs_items vs_posn s'].
    destruct (decide (x = a)) as [->|Hxa].
    - rewrite lookup_insert_eq. split.
      + intros Hk. destruct (decide (k = j)) as [->|Hkj]; [done |].
        destruct (decide (k = i)) as [->|Hki]; [congruence |].
        rewrite Lk in Hk by done. apply W in Hk. congruence.
      + by intros [= <-].
    - rewrite lookup_insert_ne by done.
      destruct (decide (x = b)) as [->|Hxb].
      + rewrite lookup_insert_eq. split.
        * intros Hk. destruct (decide (k = i)) as [->|Hki]; [done |].
          destruct (decide (k = j)) as [->|Hkj]; [congruence |].
          rewrite Lk in Hk by done. apply W in Hk. congruence.
        * by intros [= <-].
      + rewrite lookup_insert_ne by done. rewrite <- (W k x).
        destruct (decide (k = i)) as [->|Hki]; [split; congruence |].
        destruct (decide (k = j)) as [->|Hkj]; [split; congruence |].
        by rewrite Lk by done. }
  split; [exact W' |]. split; [by rewrite Hb |]. split; [by rewrite Ha |].
  split; [exact Lk |].
  unfold vs_swap. cbn [vs_items vs_posn s']. rewrite Li, Lj. cbn.
  rewrite decide_False by done.
  assert (Back : <[j := b]> (<[i := a]> items') = vs_items s).
  { apply list_eq. intros k.
    destruct (decide (k = j)) as [->|Hkj].
    - rewrite list_lookup_insert_eq; [by rewrite Hb |].
      rewrite length_insert. unfold items'. by rewrite !length_insert.
    - rewrite list_lookup_insert_ne by done.
      destruct (decide (k = i)) as [->|Hki].
      + rewrite list_lookup_insert_eq; [by rewrite Ha |].
        unfold items'. by rewrite !length_insert.
      + rewrite list_lookup_insert_ne by done. by apply Lk. }
  rewrite Back, Ha, Hb. cbn.
  destruct s as [items posn]. cbn [vs_items vs_posn] in *. do 2 f_equal.
  apply map_eq. intros x.
  destruct (decide (x = b)) as [->|Hxb]; [by rewrite lookup_insert_eq |].
  rewrite lookup_insert_ne by done.
  destruct (decide (x = a)) as [->|Hxa]; [by rewrite lookup_insert_eq |].
  by rewrite !lookup_insert_ne by done.
Qed.

End VectorSetProps.

(** The items of the class are those of the list-only [vector_set_insert]. *)
Lemma vs_insert_items_list (s : vector_set Z) (val : Z) :
  vs_wf s -> vs_items (vs_insert s val) = vector_set_insert (vs_items s) val.
Proof.
  intros W. unfold vs_insert, vector_set_insert. rewrite (vs_wf_count s val W).
  destruct (decide (val ∈ vs_items s)); case_bool_decide; done.
Qed.

Lemma vs_insert_keeps_order_witness :
  vs_items (vs_insert (vs_insert (vs_insert vs_empty 5) 7) 5) = [5; 7].
Proof.
  pose proof (vs_insert_keeps_order (vs_empty (T := Z)) 5 vs_empty_wf) as (W1 & _).
  pose proof (vs_insert_keeps_order _ 7 W1) as (W2 & _).
  pose proof (vs_insert_keeps_order _ 5 W2) as (_ & _ & I & _).
  rewrite I. reflexivity.
Defined.

Lemma vs_example_wf : vs_wf vs_example.
Proof. unfold vs_example. repeat apply vs_insert_wf. apply vs_empty_wf. Qed.

Lemma vs_erase_stale_positions_witness :
  exists s', vs_erase vs_example 2 = Some s' /\ vs_items s' = [1; 3; 4] /\
             vs_posn s' !! 3 = Some 2%nat /\ ~ vs_wf s'.
Proof.
  destruct (vs_erase_stale_positions vs_example 2 vs_example_wf) as [_ E].
  destruct (E 1%nat eq_refl) as (s' & E' & I & P & _ & St & Wf).
  exists s'. split; [exact E' |]. split; [by rewrite I |].
  split.
  - rewrite (St 1%nat 3); [reflexivity |]. by rewrite I.
  - intros W'. apply Wf in W'. vm_compute in W'. discriminate W'.
Defined.

Lemma vs_erase_twice_wrong_item_witness :
  exists s1 s2,
    vs_erase vs_example 2 = Some s1 /\ vs_erase s1 3 = Some s2 /\
    vs_items s2 = [1; 3] /\ vs_count s2 3 = 0%nat /\ vs_count s2 4 = 1%nat.
Proof.
  destruct (vs_erase_twice_wrong_item vs_example [1] [] 2 3 4 vs_example_wf eq_refl)
    as (s1 & s2 & E1 & E2 & I & C3 & _ & C4 & _).
  by exists s1, s2.
Defined.

Lemma vs_swap_involutive_witness :
  exists s', vs_swap vs_example 0 2 = Some s' /\ vs_items s' = [3; 2; 1; 4] /\
             vs_swap s' 0 2 = Some vs_example.
Proof.
  destruct (vs_swap_involutive vs_example 0 2 vs_example_wf ltac:(vm_compute; lia) ltac:(vm_compute; lia))
    as (s' & E & _ & _ & _ & _ & B).
  exists s'. split; [exact E |]. split; [|exact B].
  vm_compute in E. injection E as <-. reflexivity.
Defined.


(** ** The loops over steps *)

Lemma step_chunks_forward begin_t end_t step_t :
  0 < step_t -> begin_t <= end_t ->
  (fun c : Z * Z * Z => (c.1.2, c.2)) <$> step_chunks begin_t end_t step_t
  = stride_chunks begin_t end_t step_t.
Proof.
  intros Hs Hle. unfold step_chunks, stride_chunks.
  rewrite <- list_fmap_compose.
  rewrite (Z.abs_eq step_t), (Z.abs_eq (end_t - begin_t)) by lia.
  apply list_fmap_ext. intros _ k _. cbn.
  destruct (Z.ltb_spec 0 step_t); [|lia]. f_equal. f_equal. lia.
Qed.

Lemma step_chunks_backward begin_t end_t step_t :
  step_t < 0 -> end_t <= begin_t ->
  (fun c : Z * Z * Z => (- c.1.2, - c.2)) <$> step_chunks begin_t end_t step_t
  = stride_chunks (- begin_t) (- end_t) (- step_t).
Proof.
  intros Hs Hle. unfold step_chunks, stride_chunks.
  rewrite <- list_fmap_compose.
  rewrite (Z.abs_neq step_t), (Z.abs_neq (end_t - begin_t)) by lia.
  replace (- (end_t - begin_t)) with (- end_t - - begin_t) by lia.
  apply list_fmap_ext. intros _ k _. cbn.
  destruct (Z.ltb_spec 0 step_t); [lia |]. f_equal; lia.
Qed.

Lemma step_range_forward start stop :
  start <= stop -> step_range start stop = seqZ start (stop - start).
Proof. intros. unfold step_range. by destruct (Z.leb_spec start stop); [|lia]. Qed.

Lemma step_range_backward start stop :
  stop <= start -> step_range start stop = Z.opp <$> seqZ (- start) (- stop - - start).
Proof.
  intros Hle. unfold step_range. destruct (Z.leb_spec start stop).
  - assert (start = stop) as -> by lia. by rewrite !seqZ_nil by lia.
  - replace (- stop - - start) with (start - stop) by lia.
    assert (E : seqZ (- start) (start - stop) = Z.add (- start) <$> seqZ 0 (start - stop))
      by (rewrite fmap_add_seqZ; f_equal; lia).
    rewrite E, <- list_fmap_compose.
    apply list_fmap_ext. intros _ k _. cbn. lia.
Qed.

Lemma seqZ_shift m n : seqZ m n = Z.add m <$> seqZ 0 n.
Proof. rewrite fmap_add_seqZ. f_equal. lia. Qed.

Lemma length_step_range start stop :
  Z.of_nat (length (step_range start stop)) = Z.abs (stop - start).
Proof.
  unfold step_range. destruct (Z.leb_spec start stop).
  - rewrite length_seqZ. lia.
  - rewrite length_fmap, length_seqZ. lia.
Qed.

Lemma bind_fmap_list {A B C : Type} (f : A -> B) (g : B -> list C) (l : list A) :
  (f <$> l) ≫= g = l ≫= (g ∘ f).
Proof.
  induction l as [|x l IH]; [reflexivity |].
  cbn [fmap list_fmap]. rewrite !bind_cons. by rewrite <- IH.
Qed.

Lemma bind_ext_in {A B : Type} (f g : A -> list B) (l : list A) :
  (forall x, x ∈ l -> f x = g x) -> l ≫= f = l ≫= g.
Proof.
  induction l as [|x l IH]; intros E; [reflexivity |].
  rewrite !bind_cons. rewrite E by (by left). rewrite IH; [reflexivity |].
  intros y Hy. apply E. by right.
Qed.

Lemma fmap_bind_list {A B C : Type} (f : B -> C) (g : A -> list B) (l : list A) :
  f <$> (l ≫= g) = l ≫= (fun x => f <$> g x).
Proof.
  induction l as [|x l IH]; [reflexivity |].
  rewrite !bind_cons, fmap_app. by rewrite IH.
Qed.

Lemma stride_chunks_bounds begin end_ stride (c : Z * Z) :
  0 < stride -> c ∈ stride_chunks begin end_ stride ->
  begin <= c.1 /\ c.1 < c.2 <= c.1 + stride /\ c.2 <= end_.
Proof.
  intros Hs Hc. unfold stride_chunks in Hc.
  apply list_elem_of_fmap in Hc as (k & -> & Hk). apply elem_of_seqZ in Hk.
  cbn [fst snd].
  destruct (Z.le_gt_cases end_ begin) as [Hle|Hlt].
  { pose proof (stride_chunks_nil begin end_ stride Hs Hle) as N.
    unfold stride_chunks in N. apply fmap_nil_inv in N.
    apply (f_equal length) in N. rewrite length_seqZ in N. cbn in N. lia. }
  rewrite (CEIL_DIV_spec (end_ - begin)) in Hk by lia. unfold ceil_div_spec in Hk.
  pose proof (Z.div_mod (end_ - begin + stride - 1) stride ltac:(lia)).
  pose proof (Z.mod_pos_bound (end_ - begin + stride - 1) stride Hs).
  assert (begin + k * stride < end_) by nia.
  nia.
Qed.

(** The chunks of a step loop run in the direction of the step, are not
    empty and at most [|step_t|] steps long, and together they go through
    the steps from [begin_t] to [end_t], each once and in order. *)
Lemma step_chunks_tile begin_t end_t step_t :
  (0 < step_t /\ begin_t <= end_t) \/ (step_t < 0 /\ end_t <= begin_t) ->
  (c ← step_chunks begin_t end_t step_t; step_range c.1.2 c.2)
  = step_range begin_t end_t /\
  (forall c, c ∈ step_chunks begin_t end_t step_t ->
     0 < Z.abs (c.2 - c.1.2) <= Z.abs step_t /\
     (0 < step_t -> begin_t <= c.1.2 < c.2 /\ c.2 <= end_t) /\
     (step_t < 0 -> end_t <= c.2 /\ c.2 < c.1.2 <= begin_t)).
Proof.
  intros [[Hs Hle]|[Hs Hle]].
  - pose proof (step_chunks_forward begin_t end_t step_t Hs Hle) as F.
    assert (B : forall c, c ∈ step_chunks begin_t end_t step_t ->
                begin_t <= c.1.2 /\ c.1.2 < c.2 <= c.1.2 + step_t /\ c.2 <= end_t).
    { intros c Hc.
      apply (stride_chunks_bounds begin_t end_t step_t (c.1.2, c.2) Hs).
      rewrite <- F. apply list_elem_of_fmap. by exists c. }
    split.
    + rewrite step_range_forward by lia.
      rewrite <- (stride_chunks_tile step_t end_t Hs _ begin_t eq_refl).
      rewrite <- F, bind_fmap_list. apply bind_ext_in. intros c Hc. cbn.
      apply step_range_forward. specialize (B c Hc). lia.
    + intros c Hc. specialize (B c Hc). lia.
  - pose proof (step_chunks_backward begin_t end_t step_t Hs Hle) as F.
    assert (B : forall c, c ∈ step_chunks begin_t end_t step_t ->
                - begin_t <= - c.1.2 /\ - c.1.2 < - c.2 <= - c.1.2 + - step_t
                /\ - c.2 <= - end_t).
    { intros c Hc.
      apply (stride_chunks_bounds (- begin_t) (- end_t) (- step_t) (- c.1.2, - c.2)
               ltac:(lia)).
      rewrite <- F. apply list_elem_of_fmap. by exists c. }
    split.
    + rewrite (step_range_backward begin_t end_t) by lia.
      rewrite <- (stride_chunks_tile (- step_t) (- end_t) ltac:(lia) _ (- begin_t) eq_refl).
      rewrite <- F, bind_fmap_list, fmap_bind_list. apply bind_ext_in.
      intros c Hc. cbn. apply step_range_backward. specialize (B c Hc). lia.
    + intros c Hc. specialize (B c Hc). lia.
Qed.

Lemma length_bind_sum {A B : Type} (f : A -> list B) (l : list A) (n : Z) :
  foldl (fun n x => n + Z.of_nat (length (f x))) n l
  = n + Z.of_nat (length (l ≫= f)).
Proof.
  revert n. induction l as [|x l IH]; intros n; [cbn; lia |].
  cbn [foldl]. rewrite IH, bind_cons, length_app. lia.
Qed.

(** The state and the step count that a step loop leaves. *)
Lemma step_loop_fold {S : Type} (body : Z -> Z -> Z -> S -> S) (l : list (Z * Z * Z)) :
  forall (s : S) (n : Z),
    foldl (fun (st : S * Z) (c : Z * Z * Z) =>
             let '(index_t, start_t, stop_t) := c in
             let this_num_t := Z.abs (stop_t - start_t) in
             (body index_t start_t stop_t st.1, st.2 + this_num_t))
          (s, n) l
    = (foldl (fun s (c : Z * Z * Z) => body c.1.1 c.1.2 c.2 s) s l,
       n + Z.of_nat (length (c ← l; step_range c.1.2 c.2))).
Proof.
  induction l as [|[[k a] b] l IH]; intros s n.
  - cbn. f_equal. lia.
  - cbn [foldl fst snd]. rewrite IH, bind_cons, length_app. cbn [fst snd].
    f_equal. rewrite Nat2Z.inj_add, length_step_range. lia.
Qed.

(** X9 (run_solution steps).  [run_solution] throws when the solution has
    not been prepared and does nothing when the extended bounding box is
    empty.  Otherwise it runs the body once per chunk of at most
    [max(wf_steps, 1)] steps; the chunks go through the steps from
    [first_step_index] to [last_step_index] in order, forward or backward,
    each step once, and [steps_done] grows by the number of steps,
    [|last - first| + 1]. *)
Theorem run_solution_covers_steps {S : Type} (rank_bb_valid : bool)
    (ext_bb_size wf_steps first last : Z)
    (prologue : S -> S) (body : Z -> Z -> Z -> S -> S) (steps_done : Z) (s : S) :
  let dir := if first <=? last then 1 else -1 in
  let chunks := step_chunks first (last + dir) (Z.max wf_steps 1 * dir) in
  (rank_bb_valid = false ->
     run_solution rank_bb_valid ext_bb_size wf_steps first last prologue body steps_done s
     = Err NotPrepared) /\
  (rank_bb_valid = true -> ext_bb_size < 1 ->
     run_solution rank_bb_valid ext_bb_size wf_steps first last prologue body steps_done s
     = Ok (s, steps_done)) /\
  (rank_bb_valid = true -> 1 <= ext_bb_size ->
     run_solution rank_bb_valid ext_bb_size wf_steps first last prologue body steps_done s
     = Ok (foldl (fun s (c : Z * Z * Z) => body c.1.1 c.1.2 c.2 s) (prologue s) chunks,
           steps_done + Z.abs (last - first) + 1)) /\
  (c ← chunks; step_range c.1.2 c.2) = step_range first (last + dir) /\
  (forall c, c ∈ chunks -> 0 < Z.abs (c.2 - c.1.2) <= Z.max wf_steps 1).
Proof.
  intros dir chunks.
  assert (D : (0 < Z.max wf_steps 1 * dir /\ first <= last + dir) \/
              (Z.max wf_steps 1 * dir < 0 /\ last + dir <= first)).
  { unfold dir. destruct (Z.leb_spec first last); [left | right]; nia. }
  destruct (step_chunks_tile first (last + dir) (Z.max wf_steps 1 * dir) D) as [T B].
  fold chunks in T, B.
  split; [|split; [|split; [|split]]].
  - intros ->. reflexivity.
  - intros -> He. unfold run_solution. cbn [negb].
    by destruct (Z.ltb_spec ext_bb_size 1); [|lia].
  - intros -> He. unfold run_solution. cbn [negb].
    destruct (Z.ltb_spec ext_bb_size 1); [lia |].
    fold dir. fold chunks. rewrite step_loop_fold, T. do 2 f_equal.
    rewrite length_step_range. unfold dir. destruct (Z.leb_spec first last); lia.
  - exact T.
  - intros c Hc. destruct (B c Hc) as [Bc _].
    replace (Z.abs (Z.max wf_steps 1 * dir)) with (Z.max wf_steps 1) in Bc; [exact Bc |].
    unfold dir. destruct (first <=? last); lia.
Qed.

Lemma run_solution_covers_steps_witness :
  run_solution true 100 2 7 3 (fun calls => calls)
    (fun index_t start_t stop_t calls => calls ++ [(start_t, stop_t)]) 0 []
  = Ok ([(7, 5); (5, 3); (3, 2)], 5).
Proof.
  destruct (run_solution_covers_steps true 100 2 7 3 (fun calls => calls)
              (fun index_t start_t stop_t calls => calls ++ [(start_t, stop_t)]) 0 [])
    as (_ & _ & R & _).
  rewrite (R eq_refl ltac:(lia)). reflexivity.
Defined.

(** X10 (run_ref steps).  Forward ([first <= last]) the step loop of
    [run_ref] evaluates the steps [first], [first + 1], ..., [last], one
    per iteration.  Backward ([last < first]) the bounds are replaced by
    [begin_t = last - 2] and [end_t = -1]: the loop does not depend on
    [first_step_index], makes [|1 - last|] iterations, and every step that
    it evaluates lies below [last], so none of the steps asked for is
    evaluated. *)
Theorem run_ref_steps_directions (first last : Z) :
  (first <= last ->
     (fun c : Z * Z * Z => c.1.2) <$> run_ref_steps first last
     = seqZ first (last - first + 1) /\
     forall c, c ∈ run_ref_steps first last -> c.2 = c.1.2 + 1) /\
  (last < first ->
     run_ref_steps first last = run_ref_steps (last + 1) last /\
     Z.of_nat (length (run_ref_steps first last)) = Z.abs (1 - last) /\
     forall c, c ∈ run_ref_steps first last -> c.1.2 < last).
Proof.
  split.
  - intros Hle. unfold run_ref_steps. destruct (Z.leb_spec first last); [|lia].
    cbn [Z.ltb]. change (1 <? 0) with false. cbv iota beta.
    replace (Z.abs (last + 1 - first)) with (last - first + 1) by lia.
    split.
    + rewrite <- list_fmap_compose. rewrite (seqZ_shift first).
      apply list_fmap_ext. intros _ k _. cbn. lia.
    + intros c Hc. apply list_elem_of_fmap in Hc as (k & -> & Hk).
      apply elem_of_seqZ in Hk. cbn. lia.
  - intros Hlt. unfold run_ref_steps.
    destruct (Z.leb_spec first last); [lia |].
    destruct (Z.leb_spec (last + 1) last); [lia |].
    change (-1 <? 0) with true. cbv iota beta.
    split; [reflexivity |]. split.
    + rewrite length_fmap, length_seqZ. lia.
    + intros c Hc. apply list_elem_of_fmap in Hc as (k & -> & Hk).
      apply elem_of_seqZ in Hk. cbn. lia.
Qed.

Lemma run_ref_steps_directions_witness :
  (fun c : Z * Z * Z => c.1.2) <$> run_ref_steps 2 5 = [2; 3; 4; 5] /\
  (fun c : Z * Z * Z => c.1.2) <$> run_ref_steps 5 2 = [0].
Proof.
  destruct (run_ref_steps_directions 2 5) as [F _].
  destruct (run_ref_steps_directions 5 2) as [_ B].
  destruct (F ltac:(lia)) as [F' _]. destruct (B ltac:(lia)) as [_ [_ B']].
  split; [rewrite F'; reflexivity | reflexivity].
Defined.

(** X11 (nested time loops).  For every chunk [start_t, stop_t) that the
    time loop of [calc_region] hands down, [calc_block] computes
    [num_t = 1], as it asserts; without temporal blocking the chunk is a
    single step; and the time loop of [calc_mini_block] goes through the
    steps of the chunk one by one, each iteration covering exactly one
    step, as it asserts. *)
Theorem time_loops_nest (tb_steps begin_t end_t : Z) (c : Z * Z * Z) :
  c ∈ calc_region_steps tb_steps begin_t end_t ->
  calc_block_num_t tb_steps c.1.2 c.2 = 1 /\
  (tb_steps <= 0 -> Z.abs (c.2 - c.1.2) = 1) /\
  (fun m : Z * Z * Z => m.1.2) <$> calc_mini_block_steps c.1.2 c.2
  = step_range c.1.2 c.2 /\
  (forall m, m ∈ calc_mini_block_steps c.1.2 c.2 -> Z.abs (m.2 - m.1.2) = 1).
Proof.
  intros Hc. unfold calc_region_steps in Hc.
  set (dir := if begin_t <=? end_t then 1 else -1) in Hc.
  assert (D : (0 < Z.max tb_steps 1 * dir /\ begin_t <= end_t) \/
              (Z.max tb_steps 1 * dir < 0 /\ end_t <= begin_t)).
  { unfold dir. destruct (Z.leb_spec begin_t end_t); [left | right]; nia. }
  destruct (step_chunks_tile _ _ _ D) as [_ B].
  destruct (B c Hc) as (Bs & Bf & Bb). clear B.
  set (T := Z.max tb_steps 1) in *.
  assert (HT : 1 <= T) by (unfold T; lia).
  assert (Ha : Z.abs (T * dir) = T) by (unfold dir; destruct (begin_t <=? end_t); lia).
  rewrite Ha in Bs.
  assert (Dc : (c.1.2 < c.2 /\ dir = 1) \/ (c.2 < c.1.2 /\ dir = -1)).
  { unfold dir in *. destruct (Z.leb_spec begin_t end_t).
    - left. split; [|done]. apply Bf. lia.
    - right. split; [|done]. apply Bb. lia. }
  split; [|split; [|split]].
  - unfold calc_block_num_t. fold T.
    replace (Z.abs (T * (if c.1.2 <=? c.2 then 1 else -1))) with T
      by (destruct (c.1.2 <=? c.2); lia).
    rewrite CEIL_DIV_spec by lia. unfold ceil_div_spec.
    symmetry. apply (Z.div_unique _ _ _ (Z.abs (c.2 - c.1.2) - 1)); lia.
  - intros Hz. unfold T in *. lia.
  - unfold calc_mini_block_steps.
    destruct Dc as [[Hlt _]|[Hlt _]].
    + destruct (Z.leb_spec c.1.2 c.2); [|lia].
      unfold step_chunks. rewrite <- list_fmap_compose.
      rewrite step_range_forward by lia.
      replace (CEIL_DIV (Z.abs (c.2 - c.1.2)) (Z.abs (1 * 1))) with (c.2 - c.1.2).
      2:{ change (Z.abs (1 * 1)) with 1. rewrite CEIL_DIV_spec by lia.
          unfold ceil_div_spec. rewrite Z.div_1_r. lia. }
      rewrite (seqZ_shift c.1.2).
      apply list_fmap_ext. intros _ k _. cbn. lia.
    + destruct (Z.leb_spec c.1.2 c.2); [lia |].
      unfold step_chunks. rewrite <- list_fmap_compose.
      unfold step_range. destruct (Z.leb_spec c.1.2 c.2); [lia |].
      replace (CEIL_DIV (Z.abs (c.2 - c.1.2)) (Z.abs (1 * -1))) with (c.1.2 - c.2).
      2:{ change (Z.abs (1 * -1)) with 1. rewrite CEIL_DIV_spec by lia.
          unfold ceil_div_spec. rewrite Z.div_1_r. lia. }
      apply list_fmap_ext. intros _ k _. cbn. lia.
  - intros m Hm. unfold calc_mini_block_steps in Hm.
    set (d := if c.1.2 <=? c.2 then 1 else -1) in Hm.
    assert (D' : (0 < 1 * d /\ c.1.2 <= c.2) \/ (1 * d < 0 /\ c.2 <= c.1.2)).
    { unfold d. destruct (Z.leb_spec c.1.2 c.2); [left | right]; lia. }
    destruct (step_chunks_tile _ _ _ D') as [_ B'].
    destruct (B' m Hm) as (Bm & _).
    replace (Z.abs (1 * d)) with 1 in Bm by (unfold d; destruct (c.1.2 <=? c.2); lia).
    lia.
Qed.

Lemma time_loops_nest_witness :
  calc_region_steps 2 0 5 = [(0, 0, 2); (1, 2, 4); (2, 4, 5)] /\
  calc_block_num_t 2 4 5 = 1 /\
  (fun m : Z * Z * Z => m.1.2) <$> calc_mini_block_steps 0 2 = [0; 1].
Proof.
  split; [reflexivity |].
  destruct (time_loops_nest 2 0 5 (2, 4, 5) ltac:(compute_done)) as (N & _).
  split; [exact N | reflexivity].
Defined.

(** ** Blocks inside and outside the MPI interior *)

Lemma block_inside_loop_spec step_posn mpi_interior start stop (js : list nat) :
  block_inside_loop step_posn mpi_interior start stop js = true <->
  forall j, j ∈ js ->
    at_ (bb_begin mpi_interior) j <= at_ start (stencil_posn step_posn j) /\
    at_ stop (stencil_posn step_posn j) <= at_ (bb_end mpi_interior) j.
Proof.
  induction js as [|j js IH]; cbn [block_inside_loop].
  - split; [|done]. intros _ j Hj. by apply elem_of_nil in Hj.
  - destruct (Z.ltb_spec (at_ start (stencil_posn step_posn j))
                         (at_ (bb_begin mpi_interior) j)).
    { split; [done |]. intros Hall. specialize (Hall j ltac:(by left)). lia. }
    destruct (Z.ltb_spec (at_ (bb_end mpi_interior) j)
                         (at_ stop (stencil_posn step_posn j))).
    { split; [done |]. intros Hall. specialize (Hall j ltac:(by left)). lia. }
    rewrite IH. split.
    + intros Hall k Hk. apply elem_of_cons in Hk as [->|Hk]; [lia | by apply Hall].
    + intros Hall k Hk. apply Hall. by right.
Qed.

(** X12 (interior and exterior passes).  [calc_block] takes a block as
    inside when, in every domain dim, it starts at or after the beginning
    and stops at or before the end of the MPI interior.  In the pass that
    calculates the exterior only it goes on exactly for the blocks that are
    not inside, in the pass for the interior only exactly for those that
    are: every block is calculated in one of the two passes and in one
    only.  With both flags set every block is calculated. *)
Theorem calc_block_one_pass (step_posn num_domain_dims : nat)
    (mpi_interior : BoundingBox) (start stop : Indices) :
  let inside :=
    forall j, (j < num_domain_dims)%nat ->
      at_ (bb_begin mpi_interior) j <= at_ start (stencil_posn step_posn j) /\
      at_ stop (stencil_posn step_posn j) <= at_ (bb_end mpi_interior) j in
  (calc_block_proceeds step_posn num_domain_dims true false mpi_interior start stop = true
   <-> inside) /\
  (calc_block_proceeds step_posn num_domain_dims false true mpi_interior start stop = true
   <-> ~ inside) /\
  calc_block_proceeds step_posn num_domain_dims false true mpi_interior start stop
  = negb (calc_block_proceeds step_posn num_domain_dims true false mpi_interior start stop) /\
  calc_block_proceeds step_posn num_domain_dims true true mpi_interior start stop = true.
Proof.
  intros inside.
  pose proof (block_inside_loop_spec step_posn mpi_interior start stop
                (seq 0 num_domain_dims)) as L.
  assert (I : block_inside_loop step_posn mpi_interior start stop (seq 0 num_domain_dims)
              = true <-> inside).
  { rewrite L. unfold inside. split; intros Hall j Hj; apply Hall.
    - apply elem_of_seq. lia.
    - apply elem_of_seq in Hj. lia. }
  unfold calc_block_proceeds. cbn [negb orb andb].
  destruct (block_inside_loop _ _ _ _ _); cbn [negb andb].
  - split; [tauto |]. split; [|done]. split; [done |]. intros Hn. exfalso. apply Hn.
    by apply I.
  - split; [|split; [|done]].
    + split; [done |]. intros Hi. apply I in Hi. done.
    + split; [|done]. intros _ Hi. apply I in Hi. done.
Qed.

(** ** Registering grids *)

Section AddGridProps.
Context {G : Type} (grid_name : G -> string).

Lemma map_of_grids_add (m : gmap string G) (l : list G) (gp : G) :
  map_of_grids grid_name m l -> m !! grid_name gp = None ->
  map_of_grids grid_name (<[grid_name gp := gp]> m) (l ++ [gp]).
Proof.
  intros M Hn gname g. destruct (decide (gname = grid_name gp)) as [->|Hne].
  - rewrite lookup_insert_eq. split.
    + intros [= <-]. split; [|done]. apply elem_of_app. right. by left.
    + intros [Hin Hg]. apply elem_of_app in Hin as [Hin|Hin].
      * assert (m !! grid_name gp = Some g) as Hs by (by apply M). congruence.
      * apply list_elem_of_singleton in Hin. by subst.
  - rewrite lookup_insert_ne by done. rewrite (M gname g). split.
    + intros [Hin Hg]. split; [|done]. apply elem_of_app. by left.
    + intros [Hin Hg]. split; [|done]. apply elem_of_app in Hin as [Hin|Hin]; [done |].
      apply list_elem_of_singleton in Hin. subst. done.
Qed.

(** X13 (addGrid).  On consistent containers (distinct grid names, each map
    holding the grids of its list, output grids among the grids),
    [addGrid] throws exactly when a grid of the same name is registered,
    and then changes nothing; otherwise it appends the grid to the list of
    grids, and to the list of output grids exactly when [is_output] is
    set, the grid is found under its name afterwards, and the containers
    stay consistent. *)
Theorem addGrid_keeps_consistency (c : GridContainers G) (gp : G) (is_output : bool) :
  containers_wf grid_name c ->
  ((exists g, g ∈ gc_gridPtrs c /\ grid_name g = grid_name gp) ->
     addGrid grid_name c gp is_output = Err (GridExists (grid_name gp))) /\
  ((forall g, g ∈ gc_gridPtrs c -> grid_name g <> grid_name gp) ->
     exists c',
       addGrid grid_name c gp is_output = Ok c' /\
       containers_wf grid_name c' /\
       gc_gridPtrs c' = gc_gridPtrs c ++ [gp] /\
       gc_outputGridPtrs c'
       = (if is_output then gc_outputGridPtrs c ++ [gp] else gc_outputGridPtrs c) /\
       gc_gridMap c' !! grid_name gp = Some gp /\
       (forall gname, gname <> grid_name gp ->
          gc_gridMap c' !! gname = gc_gridMap c !! gname)).
Proof.
  intros (ND & M & MO & Sub). split.
  - intros (g & Hin & Hg). unfold addGrid.
    rewrite decide_True; [done |]. exists g. by apply M.
  - intros Hfresh.
    assert (Hn : gc_gridMap c !! grid_name gp = None).
    { destruct (gc_gridMap c !! grid_name gp) as [g|] eqn:E; [|done].
      apply M in E as [Hin Hg]. by destruct (Hfresh g Hin). }
    assert (Hno : gc_outputGridMap c !! grid_name gp = None).
    { destruct (gc_outputGridMap c !! grid_name gp) as [g|] eqn:E; [|done].
      apply MO in E as [Hin Hg]. destruct (Hfresh g); [|done].
      eapply elem_of_sublist; eassumption. }
    assert (ND' : NoDup (grid_name <$> gc_gridPtrs c ++ [gp])).
    { rewrite fmap_app. apply NoDup_app. split; [exact ND |]. split.
      - intros n Hn1 Hn2. apply list_elem_of_singleton in Hn2. subst n.
        apply list_elem_of_fmap in Hn1 as (g & Hg & Hin). by destruct (Hfresh g Hin).
      - apply NoDup_singleton. }
    unfold addGrid. rewrite decide_False by (rewrite Hn; by intros [? ?]).
    destruct is_output; eexists; (split; [reflexivity |]); cbn.
    + split.
      * split; [exact ND' |]. split; [by apply map_of_grids_add |].
        split; [by apply map_of_grids_add |]. by apply sublist_app.
      * split; [done |]. split; [done |]. split; [by rewrite lookup_insert_eq |].
        intros gname Hne. by rewrite lookup_insert_ne by done.
    + split.
      * split; [exact ND' |]. split; [by apply map_of_grids_add |].
        split; [exact MO |]. by apply sublist_inserts_r.
      * split; [done |]. split; [done |]. split; [by rewrite lookup_insert_eq |].
        intros gname Hne. by rewrite lookup_insert_ne by done.
Qed.

Lemma containers_empty_wf : containers_wf grid_name containers_empty.
Proof.
  split; [apply NoDup_nil_2 |]. split; [|split; [|apply sublist_nil]].
  - intros gname g. cbn. rewrite lookup_empty. split; [done |].
    intros [Hin _]. by apply elem_of_nil in Hin.
  - intros gname g. cbn. rewrite lookup_empty. split; [done |].
    intros [Hin _]. by apply elem_of_nil in Hin.
Qed.

End AddGridProps.

Lemma addGrid_keeps_consistency_witness :
  exists c1 c2,
    addGrid (fun g : string * Z => g.1) containers_empty ("u"%string, 0) true = Ok c1 /\
    addGrid (fun g : string * Z => g.1) c1 ("v"%string, 1) false = Ok c2 /\
    gc_gridPtrs c2 = [("u"%string, 0); ("v"%string, 1)] /\
    gc_outputGridPtrs c2 = [("u"%string, 0)] /\
    addGrid (fun g : string * Z => g.1) c2 ("u"%string, 7) true = Err (GridExists "u").
Proof.
  set (nm := fun g : string * Z => g.1).
  destruct (addGrid_keeps_consistency nm containers_empty ("u"%string, 0) true
              (containers_empty_wf nm)) as [_ A1].
  destruct A1 as (c1 & E1 & W1 & L1 & O1 & _).
  { intros g Hg. by apply elem_of_nil in Hg. }
  destruct (addGrid_keeps_consistency nm c1 ("v"%string, 1) false W1) as [_ A2].
  destruct A2 as (c2 & E2 & W2 & L2 & O2 & _).
  { intros g Hg. rewrite L1 in Hg. apply list_elem_of_singleton in Hg. by subst g. }
  destruct (addGrid_keeps_consistency nm c2 ("u"%string, 7) true W2) as [A3 _].
  exists c1, c2. split; [exact E1 |]. split; [exact E2 |].
  split; [by rewrite L2, L1 |]. split; [by rewrite O2, O1 |].
  apply A3. exists ("u"%string, 0). split; [|done].
  rewrite L2, L1. by left.
Defined.


(** ** Marking written grids *)

Section MarkGridsDirtyProps.
Context {G : Type} `{Countable G}.

Lemma mark_bundle_pairs t st (sb : DirtyBundle G) :
  mark_bundle t st sb = foldl mark_pair st (bundle_pairs t sb).
Proof.
  unfold mark_bundle, bundle_pairs.
  destruct (get_output_step_index sb t); [|reflexivity].
  by rewrite foldl_fmap.
Qed.

Lemma mark_grids_dirty_flat (stPacks : list (list (DirtyBundle G))) sel_bp start stop :
  mark_grids_dirty stPacks sel_bp start stop
  = (foldl mark_pair (∅, []) (dirty_pairs stPacks sel_bp start stop)).2.
Proof.
  unfold mark_grids_dirty, dirty_pairs. f_equal. rewrite foldl_bind.
  apply foldl_ext_fun. intros st [i bp]. cbn [fst snd].
  case_bool_decide; [reflexivity |].
  rewrite foldl_bind. apply foldl_ext_fun. intros st' t.
  rewrite foldl_bind. apply foldl_ext_fun. intros st'' sb.
  apply mark_bundle_pairs.
Qed.

(** Marking a list of pairs: the calls made are free of duplicates and are
    the pairs of the list that were not done before. *)
Lemma mark_pairs_inv (l : list (G * Z)) :
  forall (done : gset (G * Z)) (calls : list (G * Z)),
    NoDup calls -> (forall c, c ∈ done <-> c ∈ calls) ->
    let st := foldl mark_pair (done, calls) l in
    NoDup st.2 /\ (forall c, c ∈ st.1 <-> c ∈ st.2) /\
    (forall c, c ∈ st.2 <-> c ∈ calls \/ c ∈ l).
Proof.
  induction l as [|x l IH]; intros done calls ND D; cbn zeta.
  - cbn. split; [done |]. split; [done |]. intros c. split; [by left |].
    intros [?|Hn]; [done | by apply elem_of_nil in Hn].
  - cbn [foldl]. destruct x as [gp t_out].
    destruct (decide ((gp, t_out) ∈ done)) as [Hd|Hd].
    + assert (Em : mark_pair (done, calls) (gp, t_out) = (done, calls))
        by (unfold mark_pair, mark_grid; cbn [fst snd]; by rewrite decide_True).
      rewrite Em.
      destruct (IH done calls ND D) as (N & E & M). cbn zeta in N, E, M.
      split; [exact N |]. split; [exact E |]. intros c. rewrite M.
      rewrite elem_of_cons. split; [tauto |]. intros [?|[->|?]]; try tauto.
      left. by apply D.
    + assert (Em : mark_pair (done, calls) (gp, t_out)
                   = ({[ (gp, t_out) ]} ∪ done, calls ++ [(gp, t_out)]))
        by (unfold mark_pair, mark_grid; cbn [fst snd]; by rewrite decide_False).
      rewrite Em.
      destruct (IH ({[ (gp, t_out) ]} ∪ done) (calls ++ [(gp, t_out)])) as (N & E & M).
      * apply NoDup_app. split; [exact ND |]. split; [|apply NoDup_singleton].
        intros c Hc Hs. apply list_elem_of_singleton in Hs. subst c.
        apply Hd. by apply D.
      * intros c. rewrite elem_of_union, elem_of_singleton, elem_of_app,
          list_elem_of_singleton, D. tauto.
      * cbn zeta in N, E, M. split; [exact N |]. split; [exact E |].
        intros c. rewrite M, elem_of_app, list_elem_of_singleton, elem_of_cons. tauto.
Qed.

(** X14 (mark_grids_dirty).  [mark_grids_dirty(sel_bp, start, stop)] calls
    [set_dirty(true, t_out)] on a grid exactly for the pairs that are due:
    the grid is an output grid of a bundle of a selected pack (every pack
    when [sel_bp] is null), and [t_out] is the output step of that bundle
    for an input step from [start] up or down to, but not including,
    [stop].  No pair is marked twice. *)
Theorem mark_grids_dirty_calls (stPacks : list (list (DirtyBundle G)))
    (sel_bp : option nat) (start stop : Z) :
  NoDup (mark_grids_dirty stPacks sel_bp start stop) /\
  forall c, c ∈ mark_grids_dirty stPacks sel_bp start stop
            <-> dirty_due stPacks sel_bp start stop c.
Proof.
  rewrite mark_grids_dirty_flat.
  destruct (mark_pairs_inv (dirty_pairs stPacks sel_bp start stop) ∅ [])
    as (N & _ & M).
  { apply NoDup_nil_2. }
  { intros c. split; [by intros ?%elem_of_empty | by intros ?%elem_of_nil]. }
  cbn zeta in N, M. split; [exact N |].
  intros c. rewrite M. unfold dirty_due. split.
  - intros [Hn|Hc]; [by apply elem_of_nil in Hn |].
    unfold dirty_pairs in Hc.
    apply list_elem_of_bind in Hc as ([i bp] & Hc & Hib).
    apply elem_of_lookup_imap in Hib as (i' & bp' & [= -> ->] & Hl).
    cbn [fst snd] in Hc. case_bool_decide as Hsel; [by apply elem_of_nil in Hc |].
    apply list_elem_of_bind in Hc as (t & Hc & Ht).
    apply list_elem_of_bind in Hc as (sb & Hc & Hsb).
    unfold bundle_pairs in Hc.
    destruct (get_output_step_index sb t) as [t_out|] eqn:Eo;
      [|by apply elem_of_nil in Hc].
    apply list_elem_of_fmap in Hc as (gp & -> & Hgp).
    exists i', bp', t, sb. cbn [fst snd].
    repeat split; try done.
    destruct sel_bp as [k|]; [|by left]. right.
    destruct (decide (k = i')) as [->|Hne]; [done |].
    exfalso. apply Hsel. split; [by eexists | congruence].
  - intros (i & bp & t & sb & Hl & Hsel & Ht & Hsb & Eo & Hgp). right.
    unfold dirty_pairs.
    apply list_elem_of_bind. exists (i, bp). split.
    + cbn [fst snd]. rewrite bool_decide_eq_false_2.
      * apply list_elem_of_bind. exists t. split; [|exact Ht].
        apply list_elem_of_bind. exists sb. split; [|exact Hsb].
        unfold bundle_pairs. rewrite Eo.
        apply list_elem_of_fmap. exists c.1. split; [|exact Hgp].
        by destruct c.
      * intros [Hs Hne]. destruct Hsel as [->| ->]; [by destruct Hs | done].
    + by apply elem_of_lookup_imap_2.
Qed.

End MarkGridsDirtyProps.


(** ** Mini-block shifting stays inside the region *)

Lemma shift_region_dim_shape ctx base_start base_stop shift_num bp j ok idxs :
  exists ok' x y,
    shift_region_dim ctx base_start base_stop shift_num bp j (ok, idxs)
    = (ok', {| si_begin := set_at (si_begin idxs) (stencil_posn (step_posn ctx) j) x;
               si_end := set_at (si_end idxs) (stencil_posn (step_posn ctx) j) y |}).
Proof. unfold shift_region_dim. cbv zeta. by eexists _, _, _. Qed.

(** Neither shifting function writes the step-dim entries of [idxs]. *)
Lemma shift_region_step_dim ctx base_start base_stop shift_num bp idxs :
  let r := shift_region ctx base_start base_stop shift_num bp idxs in
  at_ (si_begin r.2) (step_posn ctx) = at_ (si_begin idxs) (step_posn ctx) /\
  at_ (si_end r.2) (step_posn ctx) = at_ (si_end idxs) (step_posn ctx) /\
  length (si_begin r.2) = length (si_begin idxs) /\
  length (si_end r.2) = length (si_end idxs).
Proof.
  cbv zeta. unfold shift_region.
  apply (domain_var_loop_ind
           (fun _ st =>
              at_ (si_begin st.2) (step_posn ctx) = at_ (si_begin idxs) (step_posn ctx) /\
              at_ (si_end st.2) (step_posn ctx) = at_ (si_end idxs) (step_posn ctx) /\
              length (si_begin st.2) = length (si_begin idxs) /\
              length (si_end st.2) = length (si_end idxs))).
  - done.
  - intros j [ok st] Hj (B & E & Lb & Le). cbn [snd] in *.
    destruct (shift_region_dim_shape ctx base_start base_stop shift_num bp j ok st)
      as (ok' & x & y & ->).
    cbn [snd si_begin si_end].
    rewrite !at_set_at_ne by apply stencil_posn_ne_step.
    by rewrite !length_set_at.
Qed.

Lemma shift_mini_block_dim_shape ctx a j ok idxs :
  let i := stencil_posn (step_posn ctx) j in
  (shift_mini_block_dim ctx a j (ok, idxs) = (false, idxs)) \/
  (exists x y,
     ok = true /\
     shift_mini_block_dim ctx a j (ok, idxs)
     = (negb (y <=? x),
        {| si_begin := set_at (si_begin idxs) i x;
           si_end := set_at (si_end idxs) i y |}) /\
     at_ (si_begin idxs) i <= x /\ y <= at_ (si_end idxs) i).
Proof.
  cbv zeta. unfold shift_mini_block_dim. cbv zeta.
  match goal with
  | |- context [if (if ?c then false else ok) then _ else _] => destruct c
  end.
  - by left.
  - destruct ok; [|by left]. right. eexists _, _. split; [reflexivity |].
    split.
    + unfold negb. reflexivity.
    + lia.
Qed.

(** X15 (mini-block span).  The span that [shift_mini_block] writes for a
    mini-block lies, in every domain dim, inside the span that
    [shift_region] gives for the region; it returns [true] only if the
    region is not empty and the span written is not empty in any domain
    dim; and the step-dim entries of [idxs] are not touched. *)
Theorem shift_mini_block_within_region (ctx : StencilContext) (a : MiniBlockArgs)
    (bp : option BundlePack) (idxs : ScanIndices) :
  length (si_begin idxs) = S (num_domain_dims ctx) ->
  length (si_end idxs) = S (num_domain_dims ctx) ->
  let r := shift_region ctx (region_base_start a) (region_base_stop a)
             (region_shift_num a) bp idxs in
  let m := shift_mini_block ctx a bp idxs in
  (forall j, (j < num_domain_dims ctx)%nat ->
     let i := stencil_posn (step_posn ctx) j in
     at_ (si_begin r.2) i <= at_ (si_begin m.2) i /\
     at_ (si_end m.2) i <= at_ (si_end r.2) i) /\
  (m.1 = true ->
     r.1 = true /\
     forall j, (j < num_domain_dims ctx)%nat ->
       let i := stencil_posn (step_posn ctx) j in
       at_ (si_begin m.2) i < at_ (si_end m.2) i) /\
  at_ (si_begin m.2) (step_posn ctx) = at_ (si_begin idxs) (step_posn ctx) /\
  at_ (si_end m.2) (step_posn ctx) = at_ (si_end idxs) (step_posn ctx).
Proof.
  intros Lb Le r m.
  destruct (shift_region_step_dim ctx (region_base_start a) (region_base_stop a)
              (region_shift_num a) bp idxs) as (Sb & Se & Lrb & Lre).
  fold r in Sb, Se, Lrb, Lre.
  set (n := num_domain_dims ctx) in *. set (sp := step_posn ctx) in *.
  assert (P : forall k, (k <= n)%nat ->
            let st := domain_var_loop k (shift_mini_block_dim ctx a) r in
            length (si_begin st.2) = S n /\ length (si_end st.2) = S n /\
            at_ (si_begin st.2) sp = at_ (si_begin r.2) sp /\
            at_ (si_end st.2) sp = at_ (si_end r.2) sp /\
            (forall j, at_ (si_begin r.2) (stencil_posn sp j)
                       <= at_ (si_begin st.2) (stencil_posn sp j) /\
                       at_ (si_end st.2) (stencil_posn sp j)
                       <= at_ (si_end r.2) (stencil_posn sp j)) /\
            (forall j, (k <= j)%nat ->
                       at_ (si_begin st.2) (stencil_posn sp j)
                       = at_ (si_begin r.2) (stencil_posn sp j) /\
                       at_ (si_end st.2) (stencil_posn sp j)
                       = at_ (si_end r.2) (stencil_posn sp j)) /\
            (st.1 = true ->
               r.1 = true /\
               forall j, (j < k)%nat ->
                 at_ (si_begin st.2) (stencil_posn sp j)
                 < at_ (si_end st.2) (stencil_posn sp j))).
  { induction k as [|k IH]; intros Hk; cbv zeta.
    - cbn. rewrite Lrb, Lre. repeat split; try done; try lia.
    - rewrite domain_var_loop_S.
      destruct (IH ltac:(lia)) as (L1 & L2 & S1 & S2 & In & Un & Ok). cbv zeta in *.
      destruct (domain_var_loop k (shift_mini_block_dim ctx a) r) as [ok st].
      cbn [fst snd] in *.
      destruct (shift_mini_block_dim_shape ctx a k ok st) as [E|(x & y & -> & E & Hx & Hy)].
      + cbv zeta in *. rewrite E. cbn [fst snd si_begin si_end].
        repeat split; try done; try apply In.
        * apply Un. lia.
        * apply Un. lia.
      + cbv zeta in *. fold sp in E, Hx, Hy. rewrite E. cbn [fst snd si_begin si_end].
        pose proof (stencil_posn_bound sp k n ltac:(lia)) as Hb.
        destruct (Un k ltac:(lia)) as [Ub Ue]. rewrite Ub in Hx. rewrite Ue in Hy.
        rewrite !length_set_at.
        rewrite !(at_set_at_ne _ (stencil_posn sp k) sp)
          by apply stencil_posn_ne_step.
        split; [done |]. split; [done |]. split; [done |]. split; [done |].
        split; [|split].
        * intros j. destruct (decide (j = k)) as [->|Hne].
          -- rewrite !at_set_at_eq by lia. lia.
          -- rewrite !at_set_at_ne by (intros Heq; apply stencil_posn_inj in Heq; lia).
             apply In.
        * intros j Hj.
          rewrite !at_set_at_ne by (intros Heq; apply stencil_posn_inj in Heq; lia).
          apply Un. lia.
        * intros Hok. destruct (Ok eq_refl) as [Rok Ne]. split; [exact Rok |].
          intros j Hj. destruct (decide (j = k)) as [->|Hne].
          -- rewrite !at_set_at_eq by lia.
             destruct (Z.leb_spec y x); [done | lia].
          -- rewrite !at_set_at_ne by (intros Heq; apply stencil_posn_inj in Heq; lia).
             apply Ne. lia. }
  destruct (P n ltac:(lia)) as (_ & _ & S1 & S2 & In & _ & Ok). cbv zeta in *.
  change (domain_var_loop n (shift_mini_block_dim ctx a) r) with m in *.
  split; [intros j _; apply In |]. split; [exact Ok |].
  split; congruence.
Qed.

Lemma shift_mini_block_within_region_witness :
  let ctx := update_tb_info ctx_tb_example in
  let idxs := {| si_begin := [0; 0]; si_end := [1; 0] |} in
  let m := shift_mini_block ctx mb_args_example None idxs in
  m.1 = true /\ 0 <= at_ (si_begin m.2) 1 < at_ (si_end m.2) 1 /\
  at_ (si_end m.2) 1 <= 64 /\ at_ (si_end m.2) 0 = 1.
Proof.
  intros ctx idxs m.
  destruct (shift_mini_block_within_region ctx mb_args_example None idxs
              eq_refl eq_refl) as (In & Ok & _ & Se).
  fold m in Ok, In, Se.
  assert (Hm : m.1 = true) by reflexivity.
  split; [exact Hm |].
  destruct (Ok Hm) as [_ Ne]. specialize (Ne 0%nat ltac:(vm_compute; lia)).
  specialize (In 0%nat ltac:(vm_compute; lia)). cbv zeta in Ne, In.
  change (stencil_posn (step_posn ctx) 0) with 1%nat in Ne, In.
  change (step_posn ctx) with 0%nat in Se.
  change (at_ (si_begin
           (shift_region ctx (region_base_start mb_args_example)
              (region_base_stop mb_args_example)
              (region_shift_num mb_args_example) None idxs).2) 1) with 0 in In.
  change (at_ (si_end
           (shift_region ctx (region_base_start mb_args_example)
              (region_base_stop mb_args_example)
              (region_shift_num mb_args_example) None idxs).2) 1) with 64 in In.
  split; [lia |]. split; [lia | exact Se].
Defined.


(** ** Allocating the grids' storage *)

Section AllocGridDataProps.
Context (CACHELINE_BYTES _data_buf_pad : Z).
Hypothesis cacheline_pos : 0 < CACHELINE_BYTES.
Hypothesis pad_nonneg : 0 <= _data_buf_pad.

Local Abbreviation step := (alloc_grid_step CACHELINE_BYTES _data_buf_pad).
Local Abbreviation padded := (padded_bytes CACHELINE_BYTES _data_buf_pad).
Local Abbreviation nbytes_of := (numa_bytes CACHELINE_BYTES _data_buf_pad).

(** All grids have a size that is not negative ([size_t]). *)
Local Abbreviation sizes_ok :=
  (fun l : list (option GridAlloc) =>
     forall gp, Some gp ∈ l -> 0 <= get_num_storage_bytes gp).

Lemma padded_bytes_bounds gp :
  0 <= get_num_storage_bytes gp ->
  get_num_storage_bytes gp + _data_buf_pad <= padded gp /\
  (CACHELINE_BYTES | padded gp).
Proof.
  intros Hn. unfold padded_bytes. split.
  - rewrite ROUND_UP_spec by lia. apply round_up_spec_ge. lia.
  - unfold ROUND_UP. apply Z.divide_factor_r.
Qed.

Lemma numa_bytes_nil numa : nbytes_of numa [] = 0.
Proof. reflexivity. Qed.

Lemma numa_bytes_app numa l1 l2 :
  nbytes_of numa (l1 ++ l2) = nbytes_of numa l1 + nbytes_of numa l2.
Proof. unfold numa_bytes. by rewrite fmap_app, sum_list_app. Qed.

Lemma numa_bytes_cons numa ogp l :
  nbytes_of numa (ogp :: l) = nbytes_of numa [ogp] + nbytes_of numa l.
Proof. apply (numa_bytes_app numa [ogp] l). Qed.

Lemma numa_bytes_one numa gp :
  nbytes_of numa [Some gp]
  = if negb (is_storage_allocated gp) && (get_numa_preferred gp =? numa)
    then padded gp else 0.
Proof. unfold numa_bytes. cbn. destruct (_ && _); lia. Qed.

Lemma numa_bytes_bounds numa l :
  sizes_ok l -> 0 <= nbytes_of numa l /\ (CACHELINE_BYTES | nbytes_of numa l).
Proof.
  induction l as [|ogp l IH]; intros Hs.
  - rewrite numa_bytes_nil. split; [lia | apply Z.divide_0_r].
  - rewrite numa_bytes_cons.
    destruct IH as [IH1 IH2]; [intros gp Hg; apply Hs; by right |].
    destruct ogp as [gp|]; [|cbn; split; [lia | by rewrite Z.add_0_l]].
    rewrite numa_bytes_one.
    pose proof (Hs gp ltac:(by left)) as Hg.
    destruct (padded_bytes_bounds gp Hg) as [B1 B2].
    destruct (_ && _).
    + split; [lia | by apply Z.divide_add_r].
    + split; [lia | by rewrite Z.add_0_l].
Qed.

(** What a grid looks like after pass [pass] when the bytes counted so far
    for its NUMA key are [off]. *)
Local Abbreviation placed :=
  (fun (pass off : Z) (ogp : option GridAlloc) =>
     match ogp with
     | Some gp =>
         if negb (is_storage_allocated gp) && (pass =? 2)
         then Some (set_storage gp (get_numa_preferred gp) off)
         else Some gp
     | None => None
     end).

Lemma map_at_insert (m : gmap Z Z) k v k' :
  map_at (<[k := v]> m) k' = if decide (k = k') then v else map_at m k'.
Proof.
  unfold map_at. case_decide as E.
  - subst. by rewrite lookup_insert_eq.
  - by rewrite lookup_insert_ne by done.
Qed.

(** One pass over the grids. *)
Lemma alloc_pass (pass : Z) (l : list (option GridAlloc)) :
  forall np ng vis,
    dom np = dom ng ->
    exists np' ng' vis',
      foldl (step pass) (np, ng, vis) l = (np', ng', vis') /\
      dom np' = dom ng' /\
      (forall numa, map_at np' numa = map_at np numa + nbytes_of numa l) /\
      (forall numa, numa ∈ dom np' <->
         numa ∈ dom np \/
         exists gp, Some gp ∈ l /\ is_storage_allocated gp = false /\
                    get_numa_preferred gp = numa) /\
      length vis' = (length vis + length l)%nat /\
      (forall i, (i < length vis)%nat -> vis' !! i = vis !! i) /\
      (forall i ogp, l !! i = Some ogp ->
         vis' !! (length vis + i)%nat
         = Some (placed pass
                   (map_at np (default 0 (get_numa_preferred <$> ogp))
                    + nbytes_of (default 0 (get_numa_preferred <$> ogp)) (take i l))
                   ogp)).
Proof.
  induction l as [|ogp l IH]; intros np ng vis Hd.
  - exists np, ng, vis. cbn [foldl]. split; [done |]. split; [done |].
    split; [intros; rewrite numa_bytes_nil; lia |].
    split; [intros numa; split; [tauto |];
            intros [?|(gp & Hin & _)]; [done | by apply elem_of_nil in Hin] |].
    split; [cbn; lia |]. split; [done |]. intros i o Hi. by rewrite lookup_nil in Hi.
  - cbn [foldl].
    set (st1 := step pass (np, ng, vis) ogp).
    assert (S1 : exists np1 ng1,
               st1 = (np1, ng1, vis ++ [placed pass
                                          (map_at np (default 0 (get_numa_preferred <$> ogp)))
                                          ogp]) /\
               dom np1 = dom ng1 /\
               (forall numa, map_at np1 numa = map_at np numa + nbytes_of numa [ogp]) /\
               (forall numa, numa ∈ dom np1 <->
                  numa ∈ dom np \/
                  exists gp, ogp = Some gp /\ is_storage_allocated gp = false /\
                             get_numa_preferred gp = numa)).
    { subst st1. unfold alloc_grid_step. destruct ogp as [gp|].
      - destruct (is_storage_allocated gp) eqn:Ea; cbn [negb andb].
        + exists np, ng. split; [done |]. split; [done |]. split.
          * intros numa. rewrite numa_bytes_one, Ea. cbn. lia.
          * intros numa. split; [tauto |]. intros [?|(g & [= <-] & Hf & _)]; [done |].
            congruence.
        + assert (Eg : get_num_storage_bytes
                         (if pass =? 2
                          then set_storage gp (get_numa_preferred gp)
                                 (map_at np (get_numa_preferred gp))
                          else gp) = get_num_storage_bytes gp)
            by (by destruct (pass =? 2)).
          rewrite Eg.
          exists (<[get_numa_preferred gp :=
                     map_at np (get_numa_preferred gp)
                     + ROUND_UP (get_num_storage_bytes gp + _data_buf_pad)
                         CACHELINE_BYTES]> np),
                 (<[get_numa_preferred gp := map_at ng (get_numa_preferred gp) + 1]> ng).
          split.
          { cbn [fmap option_fmap option_map default]. by destruct (pass =? 2). }
          split; [by rewrite !dom_insert_L, Hd |]. split.
          * intros numa. rewrite map_at_insert, numa_bytes_one, Ea. cbn [negb andb].
            unfold padded_bytes.
            case_decide as E.
            -- subst numa. rewrite Z.eqb_refl. lia.
            -- destruct (Z.eqb_spec (get_numa_preferred gp) numa); [done | lia].
          * intros numa. rewrite dom_insert_L, elem_of_union, elem_of_singleton.
            split.
            -- intros [->|?]; [right; by exists gp | by left].
            -- intros [?|(g & [= <-] & _ & <-)]; [by right | by left].
      - exists np, ng. split; [done |]. split; [done |]. split.
        + intros numa. cbn. lia.
        + intros numa. split; [tauto |]. intros [?|(g & ? & _)]; done. }
    destruct S1 as (np1 & ng1 & -> & Hd1 & M1 & D1).
    destruct (IH np1 ng1 (vis ++ [placed pass
                                    (map_at np (default 0 (get_numa_preferred <$> ogp)))
                                    ogp]) Hd1)
      as (np' & ng' & vis' & E & Hd' & M & D & L & Old & New).
    exists np', ng', vis'. split; [exact E |]. split; [exact Hd' |].
    split; [|split; [|split; [|split]]].
    + intros numa. rewrite M, M1, (numa_bytes_cons numa ogp l). lia.
    + intros numa. rewrite D, D1. split.
      * intros [[?|(gp & -> & Hf & Hn)]|(gp & Hin & Hf & Hn)].
        -- by left.
        -- right. exists gp. split; [by left | done].
        -- right. exists gp. split; [by right | done].
      * intros [?|(gp & Hin & Hf & Hn)]; [by left; left |].
        apply elem_of_cons in Hin as [<-|Hin].
        -- left. right. by exists gp.
        -- right. by exists gp.
    + rewrite L, length_app. cbn. lia.
    + intros i Hi. rewrite Old by (rewrite length_app; lia).
      by rewrite lookup_app_l by lia.
    + intros i o Hi. destruct i as [|i].
      * cbn in Hi. injection Hi as ->. rewrite Nat.add_0_r.
        rewrite Old by (rewrite length_app; cbn; lia).
        rewrite lookup_app_r by lia. rewrite Nat.sub_diag. cbn [lookup list_lookup].
        cbn [take]. rewrite numa_bytes_nil. by rewrite Z.add_0_r.
      * cbn in Hi. specialize (New i o Hi).
        rewrite length_app in New. cbn [length] in New.
        replace (length vis + S i)%nat with (length vis + 1 + i)%nat by lia.
        rewrite New. cbn [take]. rewrite M1, (numa_bytes_cons _ ogp (take i l)).
        by rewrite Z.add_assoc.
Qed.

(** A pass from the empty counters. *)
Lemma alloc_pass_start (pass : Z) (l : list (option GridAlloc)) :
  exists np' ng' vis',
    foldl (step pass) (∅, ∅, []) l = (np', ng', vis') /\
    dom np' = dom ng' /\
    (forall numa, map_at np' numa = nbytes_of numa l) /\
    (forall numa, numa ∈ dom np' <->
       exists gp, Some gp ∈ l /\ is_storage_allocated gp = false /\
                  get_numa_preferred gp = numa) /\
    length vis' = length l /\
    (forall i ogp, l !! i = Some ogp ->
       vis' !! i
       = Some (placed pass
                 (nbytes_of (default 0 (get_numa_preferred <$> ogp)) (take i l)) ogp)).
Proof.
  destruct (alloc_pass pass l ∅ ∅ [] eq_refl)
    as (np' & ng' & vis' & E & Hd & M & D & L & _ & New).
  exists np', ng', vis'. split; [exact E |]. split; [exact Hd |].
  split; [|split; [|split]].
  - intros numa. rewrite M. unfold map_at at 1. by rewrite lookup_empty.
  - intros numa. rewrite D. rewrite dom_empty_L. split.
    + intros [Hx|?]; [by apply elem_of_empty in Hx | done].
    + by right.
  - exact L.
  - intros i ogp Hi. specialize (New i ogp Hi). cbn [length Nat.add] in New.
    rewrite New. unfold map_at. by rewrite lookup_empty.
Qed.

(** A pass other than pass 2 returns the grids as they are. *)
Lemma alloc_pass_same (pass : Z) (l : list (option GridAlloc)) np' ng' vis' :
  pass <> 2 ->
  foldl (step pass) (∅, ∅, []) l = (np', ng', vis') -> vis' = l.
Proof.
  intros Hp E.
  destruct (alloc_pass_start pass l) as (np2 & ng2 & vis2 & E2 & _ & _ & _ & L & New).
  rewrite E in E2. injection E2 as <- <- <-.
  apply list_eq. intros i. destruct (l !! i) as [ogp|] eqn:Ei.
  - rewrite (New i ogp Ei). f_equal. destruct ogp as [gp|]; [|done].
    destruct (Z.eqb_spec pass 2); [done |]. by rewrite andb_false_r.
  - apply lookup_ge_None. apply lookup_ge_None in Ei. lia.
Qed.

Lemma take_lookup_split {A : Type} (l : list A) i j x :
  (i < j)%nat -> l !! i = Some x -> exists m, take j l = take i l ++ x :: m.
Proof.
  intros Hij Hi. exists (drop (S i) (take j l)).
  pose proof (take_drop_middle (take j l) i x) as E.
  rewrite take_take, Nat.min_l in E by lia.
  symmetry. apply E. by rewrite lookup_take_lt by lia.
Qed.


End AllocGridDataProps.


(** ** Temporal-block set-up: step cap and trapezoid size *)

Section TbStepCap.
Variable ctx : StencilContext.
Local Abbreviation posn := (stencil_posn (step_posn ctx)).
Local Abbreviation blk j := (at_ (_block_sizes (_opts ctx)) (posn j)).
Local Abbreviation rgn j := (at_ (_region_sizes (_opts ctx)) (posn j)).
Local Abbreviation fpts j := (at_ (fold_pts ctx) j).

(** The first loop of [update_tb_info] only lowers [max_steps], and in every
    dim with a positive angle it lowers it to the step count of that dim. *)
Lemma tb_angles_loop_cap (mb tb : list Z) (ms : Z) (n : nat) :
  let r := domain_var_loop n (tb_angles_dim ctx) (mb, tb, ms) in
  length (snd (fst r)) = length tb /\
  snd r <= ms /\
  forall j, (j < n)%nat -> (j < length tb)%nat ->
    0 < at_ (snd (fst r)) j ->
    snd r <= Z.quot (blk j - fpts j + at_ (snd (fst r)) j * 2)
                    (at_ (snd (fst r)) j * 2 * num_packs ctx).
Proof.
  cbv zeta.
  apply (domain_var_loop_ind (fun m (r : list Z * list Z * Z) =>
    length (snd (fst r)) = length tb /\
    snd r <= ms /\
    forall j, (j < m)%nat -> (j < length tb)%nat ->
      0 < at_ (snd (fst r)) j ->
      snd r <= Z.quot (blk j - fpts j + at_ (snd (fst r)) j * 2)
                      (at_ (snd (fst r)) j * 2 * num_packs ctx))).
  - cbn. split; [reflexivity | split; [lia | intros; lia]].
  - intros j [[mb' tb'] ms'] Hj (Lt & Hms & Hval). cbn in Lt, Hms, Hval.
    unfold tb_angles_dim. cbn [fst snd]. rewrite length_set_at.
    split; [exact Lt | split].
    + destruct (0 <? _); lia.
    + intros k Hk Hkt. destruct (decide (k = j)) as [->|Hne].
      * rewrite at_set_at_eq by lia. intros Hpos.
        destruct (Z.ltb_spec 0 (if blk j <? rgn j
                                then ROUND_UP (at_ (max_halos ctx) j) (fpts j)
                                else 0)); lia.
      * rewrite at_set_at_ne by congruence. intros Hpos.
        specialize (Hval k ltac:(lia) Hkt Hpos).
        destruct (0 <? _); lia.
Qed.

(** The last loop of [update_tb_info] in a dim without shifts or without an
    angle: the base and the top are the whole block. *)
Lemma tb_widths_loop_off (N : Z) (A ws ts : list Z) (n : nat) :
  let r := domain_var_loop n (tb_widths_dim ctx N A) (ws, ts) in
  forall j, (j < n)%nat -> (j < length ws)%nat -> (j < length ts)%nat ->
    N <= 0 \/ at_ A j <= 0 ->
    at_ (fst r) j = blk j /\ at_ (snd r) j = blk j.
Proof.
  cbv zeta.
  apply (domain_var_loop_ind (fun m (r : list Z * list Z) =>
    length (fst r) = length ws /\ length (snd r) = length ts /\
    forall j, (j < m)%nat -> (j < length ws)%nat -> (j < length ts)%nat ->
      N <= 0 \/ at_ A j <= 0 ->
      at_ (fst r) j = blk j /\ at_ (snd r) j = blk j)).
  - cbn. repeat split; intros; lia.
  - intros j [ws' ts'] Hj (Lw & Lt & Hval). cbn in Lw, Lt, Hval.
    unfold tb_widths_dim.
    destruct ((0 <? N) && (0 <? at_ A j)) eqn:Hact; cbn [fst snd];
      rewrite ?length_set_at; (split; [exact Lw | split; [exact Lt |]]).
    + intros k Hk Hkw Hkt Hoff.
      destruct (decide (k = j)) as [->|Hne].
      * apply andb_true_iff in Hact as [H1 H2].
        apply Z.ltb_lt in H1, H2. lia.
      * rewrite !at_set_at_ne by congruence. apply Hval; (lia || assumption).
    + intros k Hk Hkw Hkt Hoff.
      destruct (decide (k = j)) as [->|Hne].
      * rewrite !at_set_at_eq by (rewrite ?length_set_at; lia). done.
      * rewrite !at_set_at_ne by congruence. apply Hval; (lia || assumption).
Qed.
End TbStepCap.

(** The step count and the shift count that [update_tb_info] stores. *)
Lemma update_tb_info_steps ctx :
  let ctx' := update_tb_info ctx in
  let req := at_ (_block_sizes (_opts ctx)) (step_posn ctx) in
  tb_steps ctx' <= req /\
  (0 < req -> tb_steps ctx' <= wf_steps ctx) /\
  (num_tb_shifts ctx'
   = if 0 <? tb_steps ctx'
     then (if 0 <? num_packs ctx * tb_steps ctx'
           then num_packs ctx * tb_steps ctx' - 1
           else num_packs ctx * tb_steps ctx')
     else 0) /\
  forall j, (j < num_domain_dims ctx)%nat -> (j < length (tb_angles ctx))%nat ->
    0 < req -> 0 < at_ (tb_angles ctx') j ->
    tb_steps ctx'
    <= Z.quot (at_ (_block_sizes (_opts ctx)) (stencil_posn (step_posn ctx) j)
               - at_ (fold_pts ctx) j + at_ (tb_angles ctx') j * 2)
              (at_ (tb_angles ctx') j * 2 * num_packs ctx).
Proof.
  cbv zeta. unfold update_tb_info.
  destruct (0 <? at_ (_block_sizes (_opts ctx)) (step_posn ctx)) eqn:Hs.
  - pose proof (tb_angles_loop_cap ctx (setValsSame (mb_angles ctx) 0)
                  (setValsSame (tb_angles ctx) 0)
                  (Z.min (at_ (_block_sizes (_opts ctx)) (step_posn ctx)) (wf_steps ctx))
                  (num_domain_dims ctx)) as (_ & Hms & H).
    cbv zeta in H, Hms.
    destruct (domain_var_loop _ (tb_angles_dim ctx) _) as [[mb tb] ms]. cbn [fst snd] in H, Hms.
    destruct (domain_var_loop _ _ _) as [w t]. cbn.
    rewrite length_setValsSame in H.
    split; [lia | split; [lia | split; [reflexivity |]]].
    intros j Hj Hl _ Hpos. specialize (H j Hj Hl Hpos). lia.
  - destruct (domain_var_loop _ _ _) as [w t]. cbn. rewrite Hs.
    apply Z.ltb_ge in Hs.
    split; [lia | split; [lia | split; [reflexivity |]]]. intros; lia.
Qed.

(** X17 (temporal-block set-up).  [update_tb_info] never stores more steps
    than were requested nor, when some were requested, more than the
    wave-front has.  With a positive fold length and at least one pack, in
    every dim with a positive angle in which temporal blocking stays on the
    step cap leaves room for the trapezoid: one fold length plus twice the
    total shift fits in the block, so the top is the base less twice the
    total shift and at least one fold length (the clamp to zero never
    acts), and the base is less than one fold length above a non-negative
    block size, and within it when the block size is a multiple of the fold
    length.  In a dim without shifts or without an angle the base and the
    top are the whole block. *)
Theorem update_tb_info_trapezoid_fits (ctx : StencilContext) (j : nat) :
  let ctx' := update_tb_info ctx in
  let req := at_ (_block_sizes (_opts ctx)) (step_posn ctx) in
  let blk := at_ (_block_sizes (_opts ctx)) (stencil_posn (step_posn ctx) j) in
  let vlen := at_ (fold_pts ctx) j in
  let n := num_tb_shifts ctx' in
  let a := at_ (tb_angles ctx') j in
  (j < num_domain_dims ctx)%nat ->
  (j < length (tb_angles ctx))%nat ->
  (j < length (tb_widths ctx))%nat ->
  (j < length (tb_tops ctx))%nat ->
  0 < vlen -> 0 < num_packs ctx ->
  tb_steps ctx' <= req /\
  (0 < req -> tb_steps ctx' <= wf_steps ctx) /\
  (0 < tb_steps ctx' -> 0 < a ->
     n = num_packs ctx * tb_steps ctx' - 1 /\
     vlen + 2 * n * a <= blk /\
     at_ (tb_tops ctx') j = at_ (tb_widths ctx') j - 2 * n * a /\
     vlen <= at_ (tb_tops ctx') j /\
     at_ (tb_widths ctx') j < blk + vlen /\
     (Z.rem blk vlen = 0 -> at_ (tb_widths ctx') j <= blk)) /\
  (n <= 0 \/ a <= 0 ->
     at_ (tb_widths ctx') j = blk /\ at_ (tb_tops ctx') j = blk).
Proof.
  cbv zeta. intros Hj La Lw Lt Hv Hnp.
  pose proof (update_tb_info_steps ctx) as (S1 & S2 & S3 & S4). cbv zeta in S1, S2, S3, S4.
  pose proof (update_tb_info_widths ctx) as W. cbv zeta in W.
  split; [exact S1 | split; [exact S2 | split]].
  - intros Hst Ha.
    assert (Hreq : 0 < at_ (_block_sizes (_opts ctx)) (step_posn ctx)) by lia.
    specialize (S4 j Hj La Hreq Ha).
    set (a := at_ (tb_angles (update_tb_info ctx)) j) in *.
    set (blk := at_ (_block_sizes (_opts ctx)) (stencil_posn (step_posn ctx) j)) in *.
    set (vlen := at_ (fold_pts ctx) j) in *.
    set (np := num_packs ctx) in *.
    set (ts := tb_steps (update_tb_info ctx)) in *.
    set (n := num_tb_shifts (update_tb_info ctx)) in *.
    assert (Hn : n = np * ts - 1).
    { rewrite S3. destruct (Z.ltb_spec 0 ts); [|lia].
      destruct (Z.ltb_spec 0 (np * ts)); [reflexivity | nia]. }
    assert (Hfit : vlen + 2 * n * a <= blk).
    { assert (Hd : 0 < a * 2 * np) by nia.
      assert (Hnum : 0 <= blk - vlen + a * 2).
      { destruct (Z.le_gt_cases 0 (blk - vlen + a * 2)) as [|Hneg]; [done |].
        pose proof (Z.quot_opp_l (- (blk - vlen + a * 2)) (a * 2 * np) ltac:(lia)) as Q.
        rewrite Z.opp_involutive in Q.
        assert (0 <= Z.quot (- (blk - vlen + a * 2)) (a * 2 * np))
          by (apply Z.quot_pos; lia).
        lia. }
      rewrite Z.quot_div_nonneg in S4 by lia.
      pose proof (Z.mul_div_le (blk - vlen + a * 2) (a * 2 * np) Hd) as M.
      nia. }
    split; [exact Hn | split; [exact Hfit |]].
    destruct (Z.le_gt_cases n 0) as [Hn0 | Hn1].
    + (* a single pack and a single step: no shift *)
      pose proof (tb_widths_loop_off ctx n (tb_angles (update_tb_info ctx))
                    (setValsSame (tb_widths ctx) 0) (setValsSame (tb_tops ctx) 0)
                    (num_domain_dims ctx)) as Off.
      cbv zeta in Off. fold n in W. rewrite <- W in Off. cbn [fst snd] in Off.
      rewrite !length_setValsSame in Off.
      destruct (Off j Hj Lw Lt (or_introl Hn0)) as [-> ->].
      fold blk. assert (n = 0) by nia. subst n. nia.
    + pose proof (tb_widths_loop ctx n (tb_angles (update_tb_info ctx))
                    (setValsSame (tb_widths ctx) 0) (setValsSame (tb_tops ctx) 0)
                    (num_domain_dims ctx)) as (_ & _ & On).
      fold n in W. rewrite <- W in On. cbn [fst snd] in On.
      rewrite !length_setValsSame in On.
      destruct (On j Hj Lw Lt Hn1 Ha) as [Ew Et]. fold a blk vlen in Ew, Et.
      assert (Hblk : 0 <= blk) by nia.
      assert (Hx : 0 <= CEIL_DIV blk 2 + n * a <= blk).
      { unfold CEIL_DIV. rewrite Z.quot_div_nonneg by lia.
        pose proof (Z.div_mod (blk + 2 - 1) 2 ltac:(lia)) as D.
        pose proof (Z.mod_pos_bound (blk + 2 - 1) 2 ltac:(lia)) as B.
        nia. }
      set (x := CEIL_DIV blk 2 + n * a) in *.
      rewrite (ROUND_UP_floor x vlen) in Ew by lia.
      pose proof (Z.div_mod (x + vlen - 1) vlen ltac:(lia)) as D.
      pose proof (Z.mod_pos_bound (x + vlen - 1) vlen Hv) as B.
      rewrite Et, Ew.
      split; [lia | split; [lia | split; [lia |]]].
      intros Hrem. rewrite Z.rem_mod_nonneg in Hrem by lia.
      apply Z.mod_divide in Hrem as [k Hk]; [|lia].
      assert ((x + vlen - 1) / vlen < k + 1); [|nia].
      apply Z.div_lt_upper_bound; [lia |]. nia.
  - intros Hoff.
    pose proof (tb_widths_loop_off ctx (num_tb_shifts (update_tb_info ctx))
                  (tb_angles (update_tb_info ctx))
                  (setValsSame (tb_widths ctx) 0) (setValsSame (tb_tops ctx) 0)
                  (num_domain_dims ctx)) as Off.
    cbv zeta in Off. rewrite <- W in Off. cbn [fst snd] in Off.
    rewrite !length_setValsSame in Off.
    exact (Off j Hj Lw Lt Hoff).
Qed.

Lemma update_tb_info_trapezoid_fits_witness :
  let ctx' := update_tb_info ctx_tb_example in
  tb_steps ctx' <= 2 /\
  num_tb_shifts ctx' = 1 * tb_steps ctx' - 1 /\
  4 + 2 * num_tb_shifts ctx' * at_ (tb_angles ctx') 0 <= 16 /\
  4 <= at_ (tb_tops ctx') 0 /\
  at_ (tb_widths ctx') 0 <= 16.
Proof.
  intros ctx'.
  pose proof (update_tb_info_trapezoid_fits ctx_tb_example 0
                ltac:(cbn; lia) ltac:(cbn; lia) ltac:(cbn; lia) ltac:(cbn; lia)
                ltac:(by vm_compute) ltac:(by vm_compute)) as (S & _ & F & _).
  destruct (F ltac:(by vm_compute) ltac:(by vm_compute)) as (N & Fit & _ & T & _ & W).
  split; [exact S | split; [exact N | split; [exact Fit | split; [exact T |]]]].
  apply W. by vm_compute.
Defined.

(** ** Rank set-up: position in the overall domain and the neighbor table *)

Lemma sum_ranks_le l (f g : nat -> Z) :
  (forall rn, rn ∈ l -> f rn <= g rn) -> sum_ranks l f <= sum_ranks l g.
Proof.
  induction l as [|x l IH]; intros H; [reflexivity |].
  rewrite !sum_ranks_cons.
  pose proof (H x ltac:(by left)).
  pose proof (IH ltac:(intros; apply H; by right)). lia.
Qed.

Lemma sum_ranks_zero l (f : nat -> Z) :
  (forall rn, rn ∈ l -> f rn = 0) -> sum_ranks l f = 0.
Proof.
  induction l as [|x l IH]; intros H; [reflexivity |].
  rewrite sum_ranks_cons, (H x) by (by left).
  rewrite IH by (intros; apply H; by right). reflexivity.
Qed.

Lemma fmap_const_replicate {A B : Type} (c : B) (l : list A) :
  (fun _ => c) <$> l = replicate (length l) c.
Proof. induction l as [|x l IH]; [reflexivity | cbn; by rewrite IH]. Qed.

Lemma max_dist_zeros n : max_dist (replicate n 0) = 0.
Proof.
  unfold max_dist.
  assert (G : forall acc, foldl (fun maxdist d => Z.max maxdist (Z.abs (to_int d)))
                            acc (replicate n 0) = if decide (n = 0%nat) then acc else Z.max acc 0).
  { induction n as [|n IH]; intros acc; [reflexivity |].
    cbn [replicate foldl]. rewrite IH.
    change (Z.abs (to_int 0)) with 0.
    repeat case_decide; lia. }
  rewrite G. case_decide; reflexivity.
Qed.

Lemma man_dist_zeros n : man_dist (replicate n 0) = 0.
Proof.
  unfold man_dist. induction n as [|n IH]; [reflexivity |].
  cbn [replicate foldl]. exact IH.
Qed.

Lemma seq_split_at n rn :
  (rn < n)%nat -> seq 0 n = seq 0 rn ++ rn :: seq (S rn) (n - S rn).
Proof.
  intros H. replace n with (rn + S (n - S rn))%nat at 1 by lia.
  rewrite seq_app. reflexivity.
Qed.

Section SetupNeighbors.
Variable w : list RankSettings.
Variable fold_pts : list Z.
Variable me : nat.
Hypothesis me_valid : (me < length w)%nat.

Local Abbreviation opts := (w !!! me).
Local Abbreviation nd := (length (_rank_indices opts)).
Local Abbreviation coords := (coords_table w).
Local Abbreviation rsizes := (rsizes_table w).
Local Abbreviation deltas rn := (rank_deltas coords (_rank_indices opts) rn nd).
Local Abbreviation near rn := (max_dist (deltas rn) <=? 1).
Local Abbreviation key rn := ((fun d => d + 1) <$> deltas rn).
Local Abbreviation entry rn :=
  {| nb_rank := rn; nb_man_dist := man_dist (deltas rn);
     nb_has_all_vlen_mults := vlen_mults rsizes fold_pts rn nd |}.
Local Abbreviation record m rn :=
  (if near rn then <[key rn := entry rn]> m else m).
Local Abbreviation counted rn := (near rn && negb (rn =? me)%nat).

Lemma my_deltas : deltas me = replicate nd 0.
Proof.
  unfold rank_deltas.
  transitivity ((fun _ : nat => 0) <$> seq 0 nd);
    [|by rewrite fmap_const_replicate, length_seq].
  apply list_fmap_ext. intros i di _.
  rewrite (my_coords w me me_valid). lia.
Qed.

Lemma key_inj rn rn' : key rn = key rn' -> deltas rn = deltas rn'.
Proof.
  intros H.
  assert (I : Inj eq eq (fun d : Z => d + 1)) by (intros x y; lia).
  by apply (inj (fmap (fun d : Z => d + 1))) in H.
Qed.

(** One iteration of the loop over the ranks, as far as the neighbor table
    is concerned. *)
Lemma setup_rank_rn_neighbors rn st st' :
  setup_rank_rn coords rsizes (_rank_indices opts) fold_pts me nd rn st = Ok st' ->
  (rn <> me -> man_dist (deltas rn) <> 0) /\
  my_neighbors st' = record (my_neighbors st) rn /\
  num_neighbors st' = num_neighbors st + (if counted rn then 1 else 0).
Proof.
  unfold setup_rank_rn. intros Hrun.
  destruct (Nat.eqb_spec rn me) as [->|Hne].
  - destruct (Z.eqb_spec (man_dist (deltas me)) 0) as [Hz|Hnz]; cbn in Hrun;
      [|discriminate].
    destruct (for_each _ _ _) as [[ov ofs]|e]; cbn in Hrun; [|discriminate].
    destruct (_ <=? 1); injection Hrun as <-; cbn;
      (split; [done | split; [reflexivity | lia]]).
  - destruct (Z.eqb_spec (man_dist (deltas rn)) 0) as [Hz|Hnz]; cbn in Hrun;
      [discriminate |].
    destruct (for_each _ _ _) as [[ov ofs]|e]; cbn in Hrun; [|discriminate].
    destruct (_ <=? 1); injection Hrun as <-; cbn;
      (split; [done | split; [reflexivity | lia]]).
Qed.

(** The loop over the ranks in [l]. *)
Lemma setup_rank_loop_neighbors l : forall st st',
  for_each l (setup_rank_rn coords rsizes (_rank_indices opts) fold_pts me nd) st
  = Ok st' ->
  (forall rn, rn ∈ l -> rn <> me -> man_dist (deltas rn) <> 0) /\
  my_neighbors st' = foldl (fun m rn => record m rn) (my_neighbors st) l /\
  num_neighbors st'
  = num_neighbors st + Z.of_nat (length (List.filter (fun rn => counted rn) l)).
Proof.
  induction l as [|rn l IH]; intros st st' Hrun; cbn [for_each] in Hrun.
  - injection Hrun as <-. cbn. split; [|split; [reflexivity | lia]].
    intros rn Hin. by apply elem_of_nil in Hin.
  - destruct (setup_rank_rn _ _ _ _ _ _ rn st) as [st1|e] eqn:E1; cbn in Hrun;
      [|discriminate].
    apply setup_rank_rn_neighbors in E1 as (D1 & N1 & C1).
    apply IH in Hrun as (D & N & C).
    split; [|split].
    + intros rn' Hin. apply elem_of_cons in Hin as [->|Hin]; [exact D1 | by apply D].
    + rewrite N, N1. reflexivity.
    + rewrite C, C1. cbn [List.filter].
      destruct (counted rn); cbn [length]; lia.
Qed.

(** A key that no recorded rank of [l] has keeps its entry. *)
Lemma record_lookup_other (l : list nat) : forall (m : gmap (list Z) Neighbor) k,
  (forall rn, rn ∈ l -> near rn = true -> key rn <> k) ->
  foldl (fun m rn => record m rn) m l !! k = m !! k.
Proof.
  induction l as [|rn l IH]; intros m k H; [reflexivity |].
  cbn [foldl]. rewrite IH by (intros; apply H; [by right | done]).
  destruct (near rn) eqn:En; [|reflexivity].
  apply lookup_insert_ne. apply H; [by left | exact En].
Qed.

(** The last rank of the list with given offsets is the one in the table. *)
Lemma record_lookup_last (l1 : list nat) (rn : nat) (l2 : list nat)
    (m : gmap (list Z) Neighbor) :
  near rn = true ->
  (forall rn', rn' ∈ l2 -> near rn' = true -> key rn' <> key rn) ->
  foldl (fun m rn => record m rn) m (l1 ++ rn :: l2) !! key rn = Some (entry rn).
Proof.
  intros En H. rewrite foldl_app. cbn [foldl].
  rewrite record_lookup_other by exact H.
  rewrite En. apply lookup_insert_eq.
Qed.

End SetupNeighbors.

(** X18 (rank position).  After [setupRank] succeeds on rank [me] of ranks
    whose domain sizes are all non-negative, the domain of [me] lies inside
    the overall domain in every domain dim: its offset is not negative and
    its offset plus its own size is at most the overall size.  The offset
    is zero when no in-line rank has a smaller coordinate in that dim. *)
Theorem setupRank_rank_inside_overall (w : list RankSettings) (fold_pts : list Z)
    (me : nat) (st st' : RankState) :
  (me < length w)%nat ->
  length (overall_domain_sizes st) = length (_rank_indices (w !!! me)) ->
  length (rank_domain_offsets st) = length (_rank_indices (w !!! me)) ->
  (forall rn d, (rn < length w)%nat -> 0 <= at2 (rsizes_table w) rn d) ->
  setupRank w fold_pts me st = Ok st' ->
  forall d, (d < length (_rank_indices (w !!! me)))%nat ->
    0 <= at_ (rank_domain_offsets st') d /\
    at_ (rank_domain_offsets st') d + at2 (rsizes_table w) me d
    <= at_ (overall_domain_sizes st') d /\
    ((forall rn, (rn < length w)%nat -> in_line w me rn d = true ->
        at2 (coords_table w) me d <= at2 (coords_table w) rn d) ->
     at_ (rank_domain_offsets st') d = 0).
Proof.
  intros Hme Lo Lf Hpos Hrun d Hd. unfold setupRank in Hrun.
  destruct (negb _); [discriminate |].
  apply (setup_rank_loop w fold_pts me Hme) in Hrun as (_ & _ & A & B).
  cbn [overall_domain_sizes rank_domain_offsets] in A, B.
  destruct (init_overall_sizes (fun di => at_ (_rank_sizes (w !!! me)) di)
              (setValsSame (overall_domain_sizes st) 0)
              (length (_rank_indices (w !!! me)))) as [L0 V0].
  rewrite length_setValsSame in L0, V0.
  rewrite A by (done || lia). rewrite V0 by (done || lia).
  rewrite B by (rewrite ?length_setValsSame; done || lia).
  rewrite at_setValsSame by lia.
  rewrite (my_sizes w me Hme).
  assert (P : forall rn, rn ∈ seq 0 (length w) ->
            0 <= offset_contrib w me rn d <= overall_contrib w me rn d).
  { intros rn Hin. apply elem_of_seq in Hin.
    pose proof (Hpos rn d ltac:(lia)) as Hs.
    unfold offset_contrib, overall_contrib.
    destruct (in_line w me rn d); cbn [andb]; [|lia].
    destruct (Nat.eqb_spec rn me) as [->|Hne]; cbn [negb].
    - rewrite Z.ltb_irrefl. lia.
    - destruct (_ <? _); lia. }
  pose proof (sum_ranks_le (seq 0 (length w)) (fun _ => 0)
                (fun rn => offset_contrib w me rn d) ltac:(intros; by apply P)) as L1.
  rewrite (sum_ranks_zero _ (fun _ => 0)) in L1 by done.
  pose proof (sum_ranks_le (seq 0 (length w)) (fun rn => offset_contrib w me rn d)
                (fun rn => overall_contrib w me rn d) ltac:(intros; by apply P)) as L2.
  split; [lia | split; [lia |]].
  intros Hfirst. rewrite Z.add_0_l. apply sum_ranks_zero.
  intros rn Hin. apply elem_of_seq in Hin. unfold offset_contrib.
  destruct (in_line w me rn d) eqn:Ei; cbn [andb]; [|reflexivity].
  specialize (Hfirst rn ltac:(lia) Ei).
  destruct (Z.ltb_spec (at2 (coords_table w) rn d) (at2 (coords_table w) me d));
    [lia | reflexivity].
Qed.

Lemma setupRank_rank_inside_overall_witness :
  exists st',
    setupRank ranks_2x2 [4; 4] 3 (rank_state_init 2) = Ok st' /\
    0 <= at_ (rank_domain_offsets st') 0 /\
    at_ (rank_domain_offsets st') 0 + 16 <= at_ (overall_domain_sizes st') 0.
Proof.
  destruct (setupRank ranks_2x2 [4; 4] 3 (rank_state_init 2)) as [st'|e] eqn:E;
    [|vm_compute in E; discriminate E].
  exists st'.
  assert (Hpos : forall rn d, (rn < length ranks_2x2)%nat ->
                   0 <= at2 (rsizes_table ranks_2x2) rn d).
  { intros rn d Hrn.
    destruct rn as [|[|[|[|rn]]]]; [| | | |cbn in Hrn; lia];
      (destruct d as [|[|d]]; vm_compute; discriminate). }
  pose proof (setupRank_rank_inside_overall ranks_2x2 [4; 4] 3 (rank_state_init 2) st'
                ltac:(cbn; lia) eq_refl eq_refl Hpos E 0%nat ltac:(cbn; lia))
    as (H1 & H2 & _).
  split; [reflexivity | split; [exact H1 | exact H2]].
Defined.



(** ** Bounding boxes *)

Lemma at_zip_with (f : Z -> Z -> Z) a b j :
  (j < length a)%nat -> (j < length b)%nat ->
  at_ (zip_with f a b) j = f (at_ a j) (at_ b j).
Proof.
  intros Ha Hb. unfold at_.
  destruct (lookup_lt_is_Some_2 a j Ha) as [x Hx].
  destruct (lookup_lt_is_Some_2 b j Hb) as [y Hy].
  rewrite (list_lookup_total_correct _ _ _ Hx), (list_lookup_total_correct _ _ _ Hy).
  apply list_lookup_total_correct. rewrite lookup_zip_with, Hx. cbn. by rewrite Hy.
Qed.

Lemma length_zip_with_same (f : Z -> Z -> Z) a b n :
  length a = n -> length b = n -> length (zip_with f a b) = n.
Proof. intros Ha Hb. rewrite length_zip_with. lia. Qed.

Lemma list_eq_at (a b : list Z) :
  length a = length b -> (forall j, (j < length a)%nat -> at_ a j = at_ b j) -> a = b.
Proof.
  intros L H. apply list_eq_same_length with (length a); [by symmetry | reflexivity |].
  intros i x y Hi Hx Hy. specialize (H i Hi). unfold at_ in H.
  rewrite (list_lookup_total_correct _ _ _ Hx), (list_lookup_total_correct _ _ _ Hy) in H.
  exact H.
Qed.

Lemma foldl_mul_start l : forall a, foldl Z.mul a l = a * product l.
Proof.
  unfold product. induction l as [|y l IH]; intros a; cbn [foldl]; [lia |].
  rewrite (IH (a * y)), (IH (1 * y)). lia.
Qed.

Lemma product_cons x l : product (x :: l) = x * product l.
Proof. unfold product at 1. cbn [foldl]. rewrite foldl_mul_start. lia. Qed.

Lemma product_nil : product [] = 1.
Proof. reflexivity. Qed.

(** A product is zero only if a factor is. *)
Lemma product_zero l : product l = 0 -> exists i, (i < length l)%nat /\ at_ l i = 0.
Proof.
  induction l as [|x l IH]; [rewrite product_nil; lia |].
  rewrite product_cons. intros H. apply Z.mul_eq_0 in H as [-> | H].
  - exists 0%nat. cbn. split; [lia | reflexivity].
  - destruct (IH H) as (i & Hi & Hz). exists (S i). cbn. split; [lia | exact Hz].
Qed.

(** The corners and the derived values after [update_bb]. *)
Lemma update_bb_fields c force_full b :
  let b' := update_bb c force_full b in
  bb_box b' = bb_box b /\
  bb_len b' = subElements (bb_end (bb_box b)) (bb_begin (bb_box b)) /\
  bb_size b' = product (bb_len b') /\
  bb_num_points b' = (if force_full then bb_size b' else bb_num_points b) /\
  bb_is_full b' = (bb_num_points b' =? bb_size b') /\
  bb_valid b' = true.
Proof. cbv zeta. unfold update_bb. cbn. repeat split. Qed.

Section PackHull.
Variable ext_bb : BBInfo.
Variable n : nat.

(** The loop over the bundles of a pack only grows the pack's box, and the
    box it leaves holds the box of every bundle. *)
Lemma expand_pack_bb_fold (sbs : list BundleBB) : forall spbb,
  length (bb_begin (bb_box spbb)) = n -> length (bb_end (bb_box spbb)) = n ->
  Forall (fun sb => length (bb_begin (bb_box (bundle_bb ext_bb sb))) = n /\
                    length (bb_end (bb_box (bundle_bb ext_bb sb))) = n) sbs ->
  let r := foldl (expand_pack_bb ext_bb) spbb sbs in
  length (bb_begin (bb_box r)) = n /\ length (bb_end (bb_box r)) = n /\
  bb_num_points r = bb_num_points spbb /\
  (forall j, (j < n)%nat ->
     at_ (bb_begin (bb_box r)) j <= at_ (bb_begin (bb_box spbb)) j /\
     at_ (bb_end (bb_box spbb)) j <= at_ (bb_end (bb_box r)) j) /\
  (forall sb, sb ∈ sbs -> forall j, (j < n)%nat ->
     at_ (bb_begin (bb_box r)) j <= at_ (bb_begin (bb_box (bundle_bb ext_bb sb))) j /\
     at_ (bb_end (bb_box (bundle_bb ext_bb sb))) j <= at_ (bb_end (bb_box r)) j).
Proof.
  induction sbs as [|sb sbs IH]; intros spbb Lb Le Hall; cbv zeta.
  - cbn. split; [exact Lb | split; [exact Le | split; [reflexivity | split]]].
    + intros; lia.
    + intros sb Hin. by apply elem_of_nil in Hin.
  - apply Forall_cons in Hall as [[Sb Se] Hall]. cbn [foldl].
    set (s1 := expand_pack_bb ext_bb spbb sb).
    assert (L1b : length (bb_begin (bb_box s1)) = n)
      by (apply length_zip_with_same; assumption).
    assert (L1e : length (bb_end (bb_box s1)) = n)
      by (apply length_zip_with_same; assumption).
    assert (S1 : forall j, (j < n)%nat ->
              at_ (bb_begin (bb_box s1)) j
              = Z.min (at_ (bb_begin (bb_box spbb)) j)
                      (at_ (bb_begin (bb_box (bundle_bb ext_bb sb))) j) /\
              at_ (bb_end (bb_box s1)) j
              = Z.max (at_ (bb_end (bb_box spbb)) j)
                      (at_ (bb_end (bb_box (bundle_bb ext_bb sb))) j)).
    { intros j Hj. unfold s1, expand_pack_bb, with_corners, minElements, maxElements.
      cbn [bb_box bb_begin bb_end]. rewrite !at_zip_with by lia. done. }
    destruct (IH s1 L1b L1e Hall) as (Rb & Re & Rn & Rg & Rs).
    split; [exact Rb | split; [exact Re | split; [exact Rn | split]]].
    + intros j Hj. destruct (Rg j Hj), (S1 j Hj). lia.
    + intros sb' Hin j Hj. apply elem_of_cons in Hin as [-> | Hin].
      * destruct (Rg j Hj), (S1 j Hj). lia.
      * by apply Rs.
Qed.
End PackHull.

(** X20 (bounding boxes).  In a context whose tuples all have one entry per
    domain dim, [find_bounding_boxes] makes the rank box the solid box from
    the rank's offsets to its offsets plus its sizes, which is always marked
    full and aligned; with wave-front extensions that are not negative the
    extended box holds the rank box, and the MPI interior starts as the
    extended box.  The box of every pack holds the box of each of its
    bundles, and also the values of [_dims->_domain_dims], with which the
    pack's corners are seeded; its point count is not recomputed. *)
Theorem find_bounding_boxes_nesting (c : BBContext) (rank_bb0 ext_bb0 : BBInfo)
    (stPacks : list (BBInfo * list BundleBB)) :
  let n := length (bbc_domain_dims c) in
  let r := find_bounding_boxes c rank_bb0 ext_bb0 stPacks in
  length (bbc_rank_domain_offsets c) = n ->
  length (bbc_rank_sizes c) = n ->
  length (bbc_left_wf_exts c) = n ->
  length (bbc_right_wf_exts c) = n ->
  Forall (fun sp => Forall (fun sb =>
            match sb with
            | NoSubDomain => True
            | SubDomain s => length (bb_begin (bb_box s)) = n /\
                             length (bb_end (bb_box s)) = n
            end) (snd sp)) stPacks ->
  (bb_begin (bb_box (res_rank_bb r)) = bbc_rank_domain_offsets c /\
   bb_len (res_rank_bb r) = bbc_rank_sizes c /\
   bb_size (res_rank_bb r) = product (bbc_rank_sizes c) /\
   bb_num_points (res_rank_bb r) = product (bbc_rank_sizes c) /\
   bb_is_full (res_rank_bb r) = true /\
   bb_is_aligned (res_rank_bb r) = true) /\
  (res_mpi_interior r = res_ext_bb r /\
   bb_is_full (res_ext_bb r) = true /\
   forall j, (j < n)%nat ->
     0 <= at_ (bbc_left_wf_exts c) j -> 0 <= at_ (bbc_right_wf_exts c) j ->
     at_ (bb_begin (bb_box (res_ext_bb r))) j
     <= at_ (bb_begin (bb_box (res_rank_bb r))) j /\
     at_ (bb_end (bb_box (res_rank_bb r))) j
     <= at_ (bb_end (bb_box (res_ext_bb r))) j) /\
  (length (res_pack_bbs r) = length stPacks /\
   forall k sp pb, stPacks !! k = Some sp -> res_pack_bbs r !! k = Some pb ->
     bb_num_points pb = bb_num_points (fst sp) /\
     forall j, (j < n)%nat ->
       at_ (bb_begin (bb_box pb)) j <= at_ (bbc_domain_dims c) j
       <= at_ (bb_end (bb_box pb)) j /\
       forall sb, sb ∈ snd sp ->
         at_ (bb_begin (bb_box pb)) j
         <= at_ (bb_begin (bb_box (bundle_bb (res_ext_bb r) sb))) j /\
         at_ (bb_end (bb_box (bundle_bb (res_ext_bb r) sb))) j
         <= at_ (bb_end (bb_box pb)) j).
Proof.
  cbv zeta. intros Lo Ls Ll Lr Hpacks.
  set (n := length (bbc_domain_dims c)) in *.
  assert (Lsum : length (addElements (bbc_rank_domain_offsets c) (bbc_rank_sizes c)) = n)
    by (apply length_zip_with_same; assumption).
  assert (Elen : subElements (addElements (bbc_rank_domain_offsets c) (bbc_rank_sizes c))
                   (bbc_rank_domain_offsets c) = bbc_rank_sizes c).
  { apply list_eq_at.
    - unfold subElements. rewrite (length_zip_with_same _ _ _ n); congruence.
    - intros j Hj. unfold subElements in *.
      rewrite (length_zip_with_same _ _ _ n) in Hj by assumption.
      unfold addElements. rewrite !at_zip_with by (rewrite ?length_zip_with; lia). lia. }
  split; [|split].
  - unfold find_bounding_boxes, update_bb, with_corners.
    cbn [res_rank_bb bb_box bb_begin bb_end bb_len bb_size bb_num_points bb_is_full
         bb_is_aligned].
    rewrite Elen, Z.eqb_refl.
    repeat split.
    apply forallb_forall. intros j _. rewrite Z.sub_diag. reflexivity.
  - split; [reflexivity | split].
    + unfold find_bounding_boxes, update_bb.
      cbn [res_ext_bb bb_is_full]. apply Z.eqb_refl.
    + intros j Hj Hl Hr.
      unfold find_bounding_boxes, update_bb, with_corners.
      cbn [res_rank_bb res_ext_bb bb_box bb_begin bb_end].
      unfold subElements at 1. unfold addElements at 2.
      rewrite !at_zip_with by lia. lia.
  - unfold find_bounding_boxes. cbn [res_pack_bbs res_ext_bb].
    set (ext := update_bb c true _).
    split; [by rewrite length_fmap |].
    intros k sp pb Hk Hpb.
    rewrite list_lookup_fmap, Hk in Hpb. cbn in Hpb. injection Hpb as <-.
    assert (Lext : length (bb_begin (bb_box ext)) = n /\ length (bb_end (bb_box ext)) = n).
    { unfold ext, update_bb, with_corners. cbn [bb_box bb_begin bb_end res_rank_bb].
      split; apply length_zip_with_same; assumption. }
    pose proof (expand_pack_bb_fold ext n (snd sp)
                  (with_corners (fst sp) (bbc_domain_dims c) (bbc_domain_dims c))
                  eq_refl eq_refl) as F.
    cbv zeta in F.
    destruct F as (_ & _ & Fn & Fg & Fs).
    { rewrite Forall_forall in Hpacks.
      specialize (Hpacks sp (list_elem_of_lookup_2 _ _ _ Hk)).
      eapply Forall_impl; [exact Hpacks |].
      intros sb Hsb. destruct sb as [|s]; [exact Lext | exact Hsb]. }
    unfold update_bb at 1 2 3. cbn [bb_box bb_num_points].
    split; [exact Fn |].
    intros j Hj. split.
    + exact (Fg j Hj).
    + intros sb Hin. by apply Fs.
Qed.

Lemma find_bounding_boxes_nesting_witness :
  let r := find_bounding_boxes bbc_example (box_of bbc_example [] []) (box_of bbc_example [] [])
             [(box_of bbc_example [] [], [NoSubDomain])] in
  bb_size (res_rank_bb r) = product [32; 16] /\
  bb_is_aligned (res_rank_bb r) = true /\
  at_ (bb_begin (bb_box (res_ext_bb r))) 0 <= at_ (bb_begin (bb_box (res_rank_bb r))) 0 /\
  length (res_pack_bbs r) = 1%nat.
Proof.
  intros r.
  pose proof (find_bounding_boxes_nesting bbc_example
                (box_of bbc_example [] []) (box_of bbc_example [] [])
                [(box_of bbc_example [] [], [NoSubDomain])]
                eq_refl eq_refl eq_refl eq_refl
                ltac:(repeat constructor))
    as ((_ & _ & S & _ & _ & A) & (_ & _ & E) & (L & _)).
  split; [exact S | split; [exact A | split; [|exact L]]].
  apply (E 0%nat); [cbn; lia | by vm_compute | by vm_compute].
Defined.

(** *** Merging sub-boxes *)

Section MergeSubBoxes.
Variable c : BBContext.
Variable nddims : nat.

Lemma can_merge_spec b bbn :
  can_merge nddims b bbn = true ->
  ((0 < nddims)%nat -> at_ (bb_end (bb_box b)) 0 = at_ (bb_begin (bb_box bbn)) 0) /\
  forall i, (i < nddims)%nat -> i <> 0%nat ->
    at_ (bb_begin (bb_box b)) i = at_ (bb_begin (bb_box bbn)) i /\
    at_ (bb_end (bb_box b)) i = at_ (bb_end (bb_box bbn)) i.
Proof.
  unfold can_merge. rewrite forallb_forall. intros H. split.
  - intros Hn. specialize (H 0%nat ltac:(apply in_seq; lia)).
    cbn in H. by apply Z.eqb_eq in H.
  - intros i Hi Hne. specialize (H i ltac:(apply in_seq; lia)).
    unfold odim in H. destruct (Nat.eqb_spec i 0); [lia |].
    rewrite negb_orb, !negb_involutive in H.
    apply andb_true_iff in H as [H1 H2].
    by apply Z.eqb_eq in H1, H2.
Qed.

(** The box that a merge leaves: [b] grown in the outer dim to the end of
    [bbn]. *)
Local Abbreviation grown b bbn :=
  (update_bb c true
     (with_corners b (bb_begin (bb_box b))
        (set_at (bb_end (bb_box b)) odim (at_ (bb_end (bb_box bbn)) odim)))).

Lemma grown_corners b bbn :
  bb_begin (bb_box (grown b bbn)) = bb_begin (bb_box b) /\
  bb_end (bb_box (grown b bbn))
  = set_at (bb_end (bb_box b)) odim (at_ (bb_end (bb_box bbn)) odim).
Proof. split; reflexivity. Qed.

Lemma grown_ok b bbn :
  box_ok nddims b -> box_ok nddims bbn -> can_merge nddims b bbn = true ->
  box_ok nddims (grown b bbn).
Proof.
  intros (Lb & Le & Hle & _) (Lb' & Le' & Hle' & _) Hm.
  destruct (can_merge_spec b bbn Hm) as [M0 Mi].
  destruct (grown_corners b bbn) as [Eb Ee].
  unfold box_ok. rewrite Eb, Ee, length_set_at.
  split; [exact Lb | split; [exact Le | split; [|reflexivity]]].
  intros i Hi. unfold odim. destruct (decide (i = 0%nat)) as [->|Hne].
  - rewrite at_set_at_eq by lia.
    pose proof (Hle 0%nat Hi). pose proof (Hle' 0%nat Hi). specialize (M0 Hi). lia.
  - rewrite at_set_at_ne by congruence. by apply Hle.
Qed.

(** The grown box holds the points of the two boxes and no others. *)
Lemma grown_points b bbn p :
  box_ok nddims b -> box_ok nddims bbn -> can_merge nddims b bbn = true ->
  in_box nddims p (grown b bbn) <-> in_box nddims p b \/ in_box nddims p bbn.
Proof.
  intros (Lb & Le & Hle & _) (Lb' & Le' & Hle' & _) Hm.
  destruct (can_merge_spec b bbn Hm) as [M0 Mi].
  destruct (grown_corners b bbn) as [Eb Ee].
  unfold in_box. rewrite Eb, Ee. unfold odim.
  assert (G0 : (0 < nddims)%nat ->
            at_ (set_at (bb_end (bb_box b)) 0 (at_ (bb_end (bb_box bbn)) 0)) 0
            = at_ (bb_end (bb_box bbn)) 0)
    by (intros; apply at_set_at_eq; lia).
  assert (Gi : forall i, i <> 0%nat ->
            at_ (set_at (bb_end (bb_box b)) 0 (at_ (bb_end (bb_box bbn)) 0)) i
            = at_ (bb_end (bb_box b)) i)
    by (intros; apply at_set_at_ne; congruence).
  split.
  - intros H.
    destruct (decide (0 < nddims)%nat) as [Hn|Hn].
    + pose proof (H 0%nat Hn) as H0. rewrite (G0 Hn) in H0.
      specialize (M0 Hn).
      destruct (Z.lt_ge_cases (at_ p 0) (at_ (bb_end (bb_box b)) 0)) as [Hlt|Hge].
      * left. intros i Hi. destruct (decide (i = 0%nat)) as [->|Hd]; [lia |].
        specialize (H i Hi). rewrite (Gi i Hd) in H. exact H.
      * right. intros i Hi. destruct (decide (i = 0%nat)) as [->|Hd]; [lia |].
        specialize (H i Hi). rewrite (Gi i Hd) in H.
        destruct (Mi i Hi Hd) as [<- <-]. exact H.
    + left. intros i Hi. lia.
  - intros [H|H] i Hi; specialize (H i Hi);
      (destruct (decide (i = 0%nat)) as [->|Hd]; [rewrite (G0 Hi) | rewrite (Gi i Hd)]).
    + pose proof (Hle' 0%nat Hi). specialize (M0 Hi). lia.
    + exact H.
    + pose proof (Hle 0%nat Hi). specialize (M0 Hi). lia.
    + destruct (Mi i Hi Hd) as [-> ->]. exact H.
Qed.

(** The size of the grown box is the sum of the sizes of the two boxes. *)
Lemma grown_size b bbn :
  (0 < nddims)%nat ->
  box_ok nddims b -> box_ok nddims bbn -> can_merge nddims b bbn = true ->
  bb_size (grown b bbn) = bb_size b + bb_size bbn.
Proof.
  intros Hn (Lb & Le & _ & Sb) (Lb' & Le' & _ & Sb') Hm.
  destruct (can_merge_spec b bbn Hm) as [M0 Mi]. specialize (M0 Hn).
  rewrite Sb, Sb'.
  change (bb_size (grown b bbn))
    with (product (subElements
                     (set_at (bb_end (bb_box b)) odim (at_ (bb_end (bb_box bbn)) odim))
                     (bb_begin (bb_box b)))).
  destruct (bb_begin (bb_box b)) as [|b0 bs] eqn:Eb; [cbn in Lb; lia |].
  destruct (bb_end (bb_box b)) as [|e0 es] eqn:Ee; [cbn in Le; lia |].
  destruct (bb_begin (bb_box bbn)) as [|b0' bs'] eqn:Eb'; [cbn in Lb'; lia |].
  destruct (bb_end (bb_box bbn)) as [|e0' es'] eqn:Ee'; [cbn in Le'; lia |].
  assert (bs' = bs /\ es' = es) as [-> ->].
  { split; apply list_eq_at.
    - cbn in Lb, Lb'. lia.
    - intros j Hj. cbn in Lb'.
      destruct (Mi (S j) ltac:(lia) ltac:(lia)) as [M _]. cbn in M.
      unfold at_. cbn in M. unfold at_ in M. cbn in M. symmetry. exact M.
    - cbn in Le, Le'. lia.
    - intros j Hj. cbn in Le'.
      destruct (Mi (S j) ltac:(lia) ltac:(lia)) as [_ M].
      unfold at_ in M. cbn in M. unfold at_. symmetry. exact M. }
  unfold at_ in M0. cbn in M0. subst b0'.
  unfold odim, set_at, at_, subElements, product. cbn.
  rewrite !(foldl_mul_start _ (1 * _)). lia.
Qed.

(** The scan: the list it returns has boxes that are in order, holds the
    points of the old list and, if it merged, those of [bbn], and its sizes
    add up accordingly. *)
Lemma merge_scan_spec (l : list BBInfo) bbn :
  (0 < nddims)%nat ->
  Forall (box_ok nddims) l -> box_ok nddims bbn ->
  let r := merge_scan c nddims l bbn in
  Forall (box_ok nddims) (fst r) /\
  length (fst r) = length l /\
  (forall p, Exists (in_box nddims p) (fst r)
             <-> Exists (in_box nddims p) l \/ (snd r = true /\ in_box nddims p bbn)) /\
  sum_list (bb_size <$> fst r)
  = sum_list (bb_size <$> l) + (if snd r then bb_size bbn else 0).
Proof.
  intros Hn Hl Hbbn. cbv zeta.
  induction l as [|b l IH]; cbn [merge_scan].
  - cbn. split; [constructor | split; [reflexivity | split; [|lia]]].
    intros p. rewrite Exists_nil. split; [tauto | intros [[]|[? _]]; discriminate].
  - apply Forall_cons in Hl as [Hb Hl].
    destruct (can_merge nddims b bbn) eqn:Hm.
    + cbn [fst snd]. split; [|split; [reflexivity | split]].
      * apply Forall_cons. split; [by apply grown_ok | exact Hl].
      * intros p. rewrite !Exists_cons, (grown_points b bbn p Hb Hbbn Hm). tauto.
      * rewrite !fmap_cons. cbn [sum_list foldr].
        rewrite (grown_size b bbn Hn Hb Hbbn Hm). fold (sum_list (bb_size <$> l)). lia.
    + destruct (IH Hl) as (I1 & I2 & I3 & I4).
      destruct (merge_scan c nddims l bbn) as [rest' m]. cbn [fst snd] in *.
      split; [|split; [|split]].
      * apply Forall_cons. split; assumption.
      * cbn. by rewrite I2.
      * intros p. rewrite !Exists_cons, I3. tauto.
      * rewrite !fmap_cons. cbn [sum_list foldr].
        fold (sum_list (bb_size <$> rest')) (sum_list (bb_size <$> l)). lia.
Qed.

(** A box of size zero holds no point. *)
Lemma empty_box_no_point bbn p :
  box_ok nddims bbn -> bb_size bbn = 0 -> ~ in_box nddims p bbn.
Proof.
  intros (Lb & Le & _ & Sz) Hz Hin. rewrite Sz in Hz.
  apply product_zero in Hz as (i & Hi & Hz).
  unfold subElements in Hi, Hz. rewrite (length_zip_with_same _ _ _ nddims) in Hi by assumption.
  rewrite at_zip_with in Hz by lia.
  specialize (Hin i Hi). lia.
Qed.

(** One box of a slice. *)
Lemma merge_bbn_spec (l : list BBInfo) bbn :
  (0 < nddims)%nat ->
  Forall (box_ok nddims) l -> box_ok nddims bbn ->
  let r := merge_bbn c nddims l bbn in
  Forall (box_ok nddims) r /\
  (length r <= S (length l))%nat /\
  (forall p, Exists (in_box nddims p) r
             <-> Exists (in_box nddims p) l \/ in_box nddims p bbn) /\
  sum_list (bb_size <$> r) = sum_list (bb_size <$> l) + bb_size bbn.
Proof.
  intros Hn Hl Hbbn. cbv zeta. unfold merge_bbn.
  destruct (Z.eqb_spec (bb_size bbn) 0) as [Hz|Hnz].
  - split; [exact Hl | split; [lia | split; [|lia]]].
    intros p. pose proof (empty_box_no_point bbn p Hbbn Hz). tauto.
  - pose proof (merge_scan_spec l bbn Hn Hl Hbbn) as (S1 & S2 & S3 & S4).
    cbv zeta in S1, S2, S3, S4.
    destruct (merge_scan c nddims l bbn) as [l' m]. cbn [fst snd] in *.
    destruct m.
    + split; [exact S1 | split; [lia | split; [|exact S4]]].
      intros p. rewrite S3. tauto.
    + split; [|split; [|split]].
      * apply Forall_app. split; [exact S1 | by apply Forall_singleton].
      * rewrite length_app. cbn. lia.
      * intros p. rewrite Exists_app, Exists_cons, Exists_nil, S3.
        split; [intros [[?|[? _]]|[?|[]]]; (discriminate || tauto) | tauto].
      * rewrite fmap_app, sum_list_app. cbn. lia.
Qed.

(** The boxes of one slice. *)
Lemma merge_slice_spec (cur : list BBInfo) : forall (l : list BBInfo),
  (0 < nddims)%nat ->
  Forall (box_ok nddims) l -> Forall (box_ok nddims) cur ->
  let r := foldl (merge_bbn c nddims) l cur in
  Forall (box_ok nddims) r /\
  (length r <= length l + length cur)%nat /\
  (forall p, Exists (in_box nddims p) r
             <-> Exists (in_box nddims p) l \/ Exists (in_box nddims p) cur) /\
  sum_list (bb_size <$> r) = sum_list (bb_size <$> l) + sum_list (bb_size <$> cur).
Proof.
  induction cur as [|bbn cur IH]; intros l Hn Hl Hcur; cbv zeta; cbn [foldl].
  - split; [exact Hl | split; [lia | split; [|cbn; lia]]].
    intros p. rewrite Exists_nil. tauto.
  - apply Forall_cons in Hcur as [Hbbn Hcur].
    destruct (merge_bbn_spec l bbn Hn Hl Hbbn) as (M1 & M2 & M3 & M4).
    destruct (IH _ Hn M1 Hcur) as (I1 & I2 & I3 & I4).
    split; [exact I1 | split; [cbn; lia | split]].
    + intros p. rewrite I3, M3, Exists_cons. tauto.
    + rewrite I4, M4, fmap_cons. cbn [sum_list foldr].
      fold (sum_list (bb_size <$> cur)). lia.
Qed.

End MergeSubBoxes.

(** X21 (merging sub-boxes).  When the boxes found by the threads are merged
    into the final list of a bundle, and every box has [nddims >= 1] dims,
    an end that is not before its begin and an up-to-date size, then no
    point is lost and none is added: a point lies in a box of the final
    list exactly when it lay in a box of the list before or lies in a box
    of a slice.  The sizes of the final boxes add up to the sizes before
    plus the sizes of the boxes of the slices, the final list has at most
    one box more per box of a slice, and its boxes are in order again. *)
Theorem merge_sub_bbs_preserves (c : BBContext) (nddims : nat)
    (_bb_list : list BBInfo) (bb_lists : list (list BBInfo)) :
  (0 < nddims)%nat ->
  Forall (box_ok nddims) _bb_list ->
  Forall (Forall (box_ok nddims)) bb_lists ->
  let r := merge_sub_bbs c nddims _bb_list bb_lists in
  Forall (box_ok nddims) r /\
  (length r <= length _bb_list + length (concat bb_lists))%nat /\
  (forall p, Exists (in_box nddims p) r
             <-> Exists (in_box nddims p) _bb_list
                 \/ Exists (in_box nddims p) (concat bb_lists)) /\
  sum_list (bb_size <$> r)
  = sum_list (bb_size <$> _bb_list) + sum_list (bb_size <$> concat bb_lists).
Proof.
  intros Hn Hl Hall. cbv zeta. revert _bb_list Hl.
  induction bb_lists as [|cur bb_lists IH]; intros l Hl;
    unfold merge_sub_bbs; cbn [foldl concat].
  - split; [exact Hl | split; [cbn; lia | split; [|cbn; lia]]].
    intros p. rewrite Exists_nil. tauto.
  - apply Forall_cons in Hall as [Hcur Hall].
    destruct (merge_slice_spec c nddims cur l Hn Hl Hcur) as (M1 & M2 & M3 & M4).
    destruct (IH Hall _ M1) as (I1 & I2 & I3 & I4).
    unfold merge_sub_bbs in I1, I2, I3, I4.
    split; [exact I1 | split; [rewrite length_app; lia | split]].
    + intros p. rewrite I3, M3, Exists_app. tauto.
    + rewrite I4, M4, fmap_app, sum_list_app. lia.
Qed.

Lemma merge_sub_bbs_preserves_witness :
  let slices := [[box_of bbc_example [64; 0] [72; 16]];
                 [box_of bbc_example [72; 0] [80; 16]]] in
  let r := merge_sub_bbs bbc_example 2 [] slices in
  bb_box <$> r = [{| bb_begin := [64; 0]; bb_end := [80; 16] |}] /\
  sum_list (bb_size <$> r) = 0 + sum_list (bb_size <$> concat slices).
Proof.
  intros slices r.
  assert (Hok : forall b e, length b = 2%nat -> length e = 2%nat ->
            (forall i, (i < 2)%nat -> at_ b i <= at_ e i) ->
            box_ok 2 (box_of bbc_example b e)).
  { intros b e Lb Le Hle. repeat split; assumption. }
  pose proof (merge_sub_bbs_preserves bbc_example 2 [] slices
                ltac:(lia) ltac:(constructor)) as P.
  destruct P as (_ & _ & _ & S).
  { repeat constructor;
      (apply Hok; [reflexivity | reflexivity |];
       intros i Hi; destruct i as [|[|i]]; [by vm_compute | by vm_compute | lia]). }
  split; [reflexivity | exact S].
Defined.

(** ** The compiler's [Var]: dim counts and constant indices *)

Lemma tuple_lookup_is_Some (t : list (string * Z)) d :
  is_Some (tuple_lookup t d) <-> d ∈ t.*1.
Proof.
  induction t as [|[n v] t IH]; cbn.
  - split; [intros [? [=]] | intros H; by apply elem_of_nil in H].
  - destruct (decide (n = d)) as [->|Hne].
    + split; [intros _; by left | by eexists].
    + rewrite IH, elem_of_cons. split; [by right | intros [?|?]; [congruence | done]].
Qed.

Lemma tuple_lookup_elem (t : list (string * Z)) d v :
  tuple_lookup t d = Some v -> (d, v) ∈ t.
Proof.
  induction t as [|[n x] t IH]; cbn; [discriminate |].
  destruct (decide (n = d)) as [->|Hne].
  - intros [= ->]. by left.
  - intros H. right. by apply IH.
Qed.

Lemma filter_length_pos {A : Type} (f : A -> bool) (l : list A) :
  (0 < length (List.filter f l))%nat <-> exists x, x ∈ l /\ f x = true.
Proof.
  induction l as [|a l IH]; cbn [List.filter].
  - cbn. split; [lia | intros (x & Hx & _); by apply elem_of_nil in Hx].
  - destruct (f a) eqn:E.
    + cbn. split; [intros _; exists a; split; [by left | done] | lia].
    + rewrite IH. split.
      * intros (x & Hx & Hf). exists x. split; [by right | done].
      * intros (x & Hx & Hf). apply elem_of_cons in Hx as [->|Hx]; [congruence |].
        by exists x.
Qed.

Section DimCountsProps.
Variable fold_gt1 : list (string * Z).

(** The names of the domain dims of [vdims] that are vec dims. *)
Local Abbreviation foldable vdims :=
  (omap (fun gdim : string * index_type =>
           if decide (gdim.2 = DOMAIN_INDEX /\ gdim.1 ∈ fold_gt1.*1)
           then Some gdim.1 else None) vdims).

Local Abbreviation of_type ty vdims :=
  (List.filter (fun gdim : string * index_type => bool_decide (gdim.2 = ty)) vdims).

Lemma of_type_cons ty n t (vdims : list (string * index_type)) :
  of_type ty ((n, t) :: vdims)
  = if bool_decide (t = ty) then (n, t) :: of_type ty vdims else of_type ty vdims.
Proof. reflexivity. Qed.

Lemma foldable_cons n t (vdims : list (string * index_type)) :
  foldable ((n, t) :: vdims)
  = if decide (t = DOMAIN_INDEX /\ n ∈ fold_gt1.*1)
    then n :: foldable vdims else foldable vdims.
Proof. cbn [omap list_omap fst snd]. by case_decide. Qed.

(** The counters after the loop. *)
Lemma count_dim_fold (vdims : list (string * index_type)) : forall st,
  foldl (count_dim fold_gt1) st vdims
  = (st.1.1.1 + Z.of_nat (length (of_type STEP_INDEX vdims)),
     st.1.1.2 + Z.of_nat (length (of_type DOMAIN_INDEX vdims)),
     st.1.2 + Z.of_nat (length (of_type MISC_INDEX vdims)),
     st.2 + Z.of_nat (length (foldable vdims))).
Proof.
  induction vdims as [|[dname dtype] vdims IH]; intros [[[a b] c] d].
  - cbn. rewrite !pair_equal_spec. lia.
  - cbn [foldl]. rewrite IH, !of_type_cons, foldable_cons. unfold count_dim.
    pose proof (tuple_lookup_is_Some fold_gt1 dname) as L.
    destruct dtype.
    + repeat case_bool_decide; try congruence.
      rewrite decide_False by (intros [[=] _]).
      cbn [fst snd length]. rewrite !pair_equal_spec. lia.
    + repeat case_bool_decide; try congruence.
      destruct (tuple_lookup fold_gt1 dname) as [v|].
      * rewrite decide_True by (split; [done | apply L; by eexists]).
        cbn [fst snd length]. rewrite !pair_equal_spec. lia.
      * rewrite decide_False by (intros [_ Hc]; apply L in Hc; by destruct Hc).
        cbn [fst snd length]. rewrite !pair_equal_spec. lia.
    + repeat case_bool_decide; try congruence.
      rewrite decide_False by (intros [[=] _]).
      cbn [fst snd length]. rewrite !pair_equal_spec. lia.
    + repeat case_bool_decide; try congruence.
      rewrite decide_False by (intros [[=] _]).
      cbn [fst snd length]. rewrite !pair_equal_spec. lia.
Qed.

Lemma foldable_elem (vdims : list (string * index_type)) d :
  d ∈ foldable vdims <-> (d, DOMAIN_INDEX) ∈ vdims /\ d ∈ fold_gt1.*1.
Proof.
  rewrite list_elem_of_omap. split.
  - intros ([n ty] & Hin & Hd). cbn in Hd. case_decide as Hc; [|discriminate].
    injection Hd as <-. destruct Hc as [Hty Hf]. cbn in Hty, Hf. subst ty. done.
  - intros [Hin Hf]. exists (d, DOMAIN_INDEX). split; [exact Hin |].
    cbn. by rewrite decide_True.
Qed.

Lemma foldable_NoDup (vdims : list (string * index_type)) : NoDup vdims.*1 -> NoDup (foldable vdims).
Proof.
  induction vdims as [|[n ty] vdims IH]; cbn; [constructor |].
  intros Hnd. apply NoDup_cons in Hnd as [Hn Hnd].
  case_decide as Hc; [|by apply IH].
  apply NoDup_cons. split; [|by apply IH].
  intros Hin. apply foldable_elem in Hin as [Hin _]. apply Hn.
  apply list_elem_of_fmap. by exists (n, DOMAIN_INDEX).
Qed.

Lemma length_of_type_le ty (vdims : list (string * index_type)) :
  (length (of_type ty vdims) <= length vdims)%nat.
Proof. apply List.filter_length_le. Qed.

End DimCountsProps.

(** X22 (dim counts).  [set_dim_counts] counts the step, domain and misc dims
    of a var, which together are at most the var's dims, and the foldable
    dims, which are among the domain dims.  When the names of the var's
    dims are distinct and so are those of the vec dims, the var is marked
    foldable exactly when it has a domain dim and every vec dim is one of
    its domain dims. *)
Theorem set_dim_counts_foldable (_vdims : list (string * index_type))
    (fold_gt1 : list (string * Z)) :
  NoDup _vdims.*1 -> NoDup fold_gt1.*1 ->
  let r := set_dim_counts _vdims fold_gt1 in
  0 <= _num_step_dims r /\ 0 <= _num_misc_dims r /\
  0 <= _num_foldable_dims r <= _num_domain_dims r /\
  _num_step_dims r + _num_domain_dims r + _num_misc_dims r
  <= Z.of_nat (length _vdims) /\
  ((forall gdim, gdim ∈ _vdims -> gdim.2 <> OTHER_INDEX) ->
   _num_step_dims r + _num_domain_dims r + _num_misc_dims r
   = Z.of_nat (length _vdims)) /\
  (_is_foldable r = true <->
   (exists dname, (dname, DOMAIN_INDEX) ∈ _vdims) /\
   forall dname, dname ∈ fold_gt1.*1 -> (dname, DOMAIN_INDEX) ∈ _vdims).
Proof.
  intros Hv Hf. cbv zeta. unfold set_dim_counts.
  rewrite count_dim_fold. cbn [fst snd _num_step_dims _num_domain_dims _num_misc_dims
                               _num_foldable_dims _is_foldable].
  rewrite !Z.add_0_l.
  set (ft := fun ty => List.filter
                (fun gdim : string * index_type => bool_decide (gdim.2 = ty)) _vdims).
  set (fo := omap _ _vdims).
  assert (Hparts : (length (ft STEP_INDEX) + length (ft DOMAIN_INDEX)
                    + length (ft MISC_INDEX) + length (ft OTHER_INDEX)
                    = length _vdims)%nat).
  { unfold ft. clear. induction _vdims as [|[n ty] l IH]; [reflexivity |].
    cbn [List.filter snd].
    destruct ty; repeat case_bool_decide; try congruence; cbn [length]; lia. }
  assert (Hfo : (length fo <= length (ft DOMAIN_INDEX))%nat).
  { unfold fo, ft. clear. induction _vdims as [|[n ty] l IH]; [cbn; lia |].
    cbn [omap list_omap List.filter fst snd].
    case_decide as Hc.
    - destruct Hc as [Hc _]. cbn in Hc. subst ty.
      rewrite bool_decide_eq_true_2 by done. cbn [length]. lia.
    - case_bool_decide; cbn [length]; lia. }
  assert (Hdom : (0 < length (ft DOMAIN_INDEX))%nat <->
                 exists dname, (dname, DOMAIN_INDEX) ∈ _vdims).
  { unfold ft. rewrite filter_length_pos. split.
    - intros ([n ty] & Hin & Hty). apply bool_decide_eq_true in Hty.
      cbn in Hty. subst ty. by exists n.
    - intros [d Hd]. exists (d, DOMAIN_INDEX).
      split; [exact Hd | by apply bool_decide_eq_true]. }
  assert (Hall : length fo = length fold_gt1 <->
                 forall dname, dname ∈ fold_gt1.*1 -> (dname, DOMAIN_INDEX) ∈ _vdims).
  { assert (Sub : fo ⊆+ fold_gt1.*1).
    { apply NoDup_submseteq; [by apply foldable_NoDup |].
      intros d Hd. by apply foldable_elem in Hd as [_ Hd]. }
    rewrite <- (length_fmap fst fold_gt1). split.
    - intros Hlen d Hd.
      assert (P : fo ≡ₚ fold_gt1.*1)
        by (apply submseteq_length_Permutation; [exact Sub | lia]).
      rewrite <- P in Hd. by apply foldable_elem in Hd as [Hd _].
    - intros Hin.
      assert (Sub' : fold_gt1.*1 ⊆+ fo).
      { apply NoDup_submseteq; [exact Hf |].
        intros d Hd. apply foldable_elem. split; [by apply Hin | exact Hd]. }
      apply submseteq_length in Sub, Sub'. lia. }
  subst ft. cbv beta in Hparts, Hfo, Hdom.
  split; [lia | split; [lia | split; [lia | split; [lia | split]]]].
  - intros Hno.
    assert (Hz : ~ (0 < length (List.filter
              (fun gdim : string * index_type => bool_decide (gdim.2 = OTHER_INDEX))
              _vdims))%nat); [|lia].
    rewrite filter_length_pos. intros (gdim & Hin & Hty).
    apply bool_decide_eq_true in Hty. by destruct (Hno _ Hin).
  - destruct (Z.eqb_spec (Z.of_nat (length (List.filter
                (fun gdim : string * index_type => bool_decide (gdim.2 = DOMAIN_INDEX))
                _vdims))) 0) as [Hz|Hnz].
    + split; [discriminate |]. intros [Hex _]. apply Hdom in Hex. lia.
    + rewrite Z.eqb_eq, Nat2Z.inj_iff, Hall, <- Hdom. split; [|tauto].
      intros H. split; [lia | exact H].
Qed.

Lemma set_dim_counts_foldable_witness :
  _is_foldable (set_dim_counts [("t", STEP_INDEX); ("x", DOMAIN_INDEX); ("y", DOMAIN_INDEX)]
                               [("x", 4)]) = true <->
  (exists dname, (dname, DOMAIN_INDEX)
                 ∈ [("t", STEP_INDEX); ("x", DOMAIN_INDEX); ("y", DOMAIN_INDEX)]) /\
  forall dname, dname ∈ [("x", 4)].*1 ->
    (dname, DOMAIN_INDEX) ∈ [("t", STEP_INDEX); ("x", DOMAIN_INDEX); ("y", DOMAIN_INDEX)].
Proof.
  apply (set_dim_counts_foldable
           [("t", STEP_INDEX); ("x", DOMAIN_INDEX); ("y", DOMAIN_INDEX)] [("x", 4)]).
  - apply (bool_decide_unpack _). by vm_compute.
  - apply (bool_decide_unpack _). by vm_compute.
Defined.

(** One index: the minimum and the maximum of its dim take it in, and the
    other dims stay. *)
Lemma update_const_index_lookup st dname val d :
  let st' := update_const_index st (dname, val) in
  tuple_lookup st'.1 d
  = (if decide (dname = d)
     then Some (from_option (Z.min val) val (tuple_lookup st.1 dname))
     else tuple_lookup st.1 d) /\
  tuple_lookup st'.2 d
  = (if decide (dname = d)
     then Some (from_option (Z.max val) val (tuple_lookup st.2 dname))
     else tuple_lookup st.2 d).
Proof.
  destruct st as [mins maxs]. cbv zeta. unfold update_const_index. cbn [fst snd].
  split.
  - destruct (tuple_lookup mins dname) as [minp|] eqn:E.
    + destruct (Z.ltb_spec val minp).
      * rewrite tuple_lookup_store by (by rewrite E).
        case_decide; [cbn; f_equal; lia | done].
      * case_decide as Hd; [subst d; rewrite E; cbn; f_equal; lia | done].
    + rewrite tuple_lookup_add_dim_back by exact E. by case_decide.
  - destruct (tuple_lookup maxs dname) as [maxp|] eqn:E.
    + destruct (Z.ltb_spec maxp val).
      * rewrite tuple_lookup_store by (by rewrite E).
        case_decide; [cbn; f_equal; lia | done].
      * case_decide as Hd; [subst d; rewrite E; cbn; f_equal; lia | done].
    + rewrite tuple_lookup_add_dim_back by exact E. by case_decide.
Qed.

Lemma update_const_index_ok st dim :
  const_indices_ok st -> const_indices_ok (update_const_index st dim).
Proof.
  destruct dim as [dname val]. intros Hok d.
  destruct (update_const_index_lookup st dname val d) as [-> ->].
  pose proof (Hok d) as Hd. pose proof (Hok dname) as Hn.
  case_decide; [|exact Hd].
  destruct (tuple_lookup st.1 dname), (tuple_lookup st.2 dname); cbn; (lia || done).
Qed.

(** The product of the ranges of constant indices that are in order does
    not fall below its start. *)
Lemma misc_space_product_ge (vdims : list (string * index_type)) st : forall msz,
  const_indices_ok st -> 1 <= msz -> msz <= misc_space_product msz vdims st.1 st.2.
Proof.
  intros msz Hok. revert msz. unfold misc_space_product.
  induction vdims as [|[n ty] vdims IH]; intros msz Hm; cbn [foldl]; [lia |].
  cbn [fst snd]. destruct ty; try (by apply IH).
  pose proof (Hok n) as Hn.
  destruct (tuple_lookup st.1 n) as [lo|], (tuple_lookup st.2 n) as [hi|];
    try (by apply IH).
  etrans; [|apply IH; nia]. nia.
Qed.

(** As long as the product of the ranges fits an [int], the loop of
    [get_misc_space_size] computes it. *)
Lemma get_misc_space_size_exact (vdims : list (string * index_type)) st : forall msz,
  const_indices_ok st -> 1 <= msz ->
  misc_space_product msz vdims st.1 st.2 < 2^31 ->
  foldl (fun msz (dim : string * index_type) =>
           match dim.2 with
           | MISC_INDEX =>
               match tuple_lookup st.1 dim.1, tuple_lookup st.2 dim.1 with
               | Some minp, Some maxp =>
                   let sz := to_int (maxp - minp + 1) in
                   to_int (msz * sz)
               | _, _ => msz
               end
           | _ => msz
           end) msz vdims
  = misc_space_product msz vdims st.1 st.2.
Proof.
  intros msz Hok. revert msz.
  induction vdims as [|[n ty] vdims IH]; intros msz Hm Hlt; [reflexivity |].
  unfold misc_space_product in *. cbn [foldl] in *. cbn [fst snd] in *.
  destruct ty; try (by apply IH).
  pose proof (Hok n) as Hn.
  destruct (tuple_lookup st.1 n) as [lo|], (tuple_lookup st.2 n) as [hi|];
    try (by apply IH).
  pose proof (misc_space_product_ge vdims st (msz * (hi - lo + 1)) Hok ltac:(nia)) as Hge.
  unfold misc_space_product in Hge.
  cbv zeta. rewrite (to_int_small (hi - lo + 1)) by nia.
  rewrite (to_int_small (msz * (hi - lo + 1))) by nia.
  apply IH; [nia | exact Hlt].
Qed.

(** Two misc dims with the indices 0 to 65535 each: the [int] product of
    the two ranges wraps around to 0. *)
Example get_misc_space_size_wraps :
  let st' := update_const_indices ([], [])
               [("m", 0); ("m", 65535); ("n", 0); ("n", 65535)] in
  misc_space_product 1 [("m", MISC_INDEX); ("n", MISC_INDEX)] st'.1 st'.2 = 2^32 /\
  get_misc_space_size [("m", MISC_INDEX); ("n", MISC_INDEX)] st'.1 st'.2 = 0.
Proof. split; reflexivity. Qed.

(** X23 (constant indices).  [update_const_indices] keeps the minimum and the
    maximum stored per dim in order: afterwards every dim still has a
    minimum exactly when it has a maximum, with the minimum not above the
    maximum; each index seen lies between the minimum and the maximum of
    its dim; a range stored before is still covered; and the dims not among
    the indices are left alone.  So the assertion of [get_misc_space_size]
    holds, and as long as the product of the ranges of the misc dims is
    below [2^31], [get_misc_space_size] returns this product, which is at
    least 1.  (A larger product does not fit the [int] it is computed in,
    see [get_misc_space_size_wraps].) *)
Theorem update_const_indices_range (st : list (string * Z) * list (string * Z))
    (indices : list (string * Z)) :
  const_indices_ok st ->
  let st' := update_const_indices st indices in
  const_indices_ok st' /\
  (forall dname val, (dname, val) ∈ indices ->
     exists minp maxp,
       tuple_lookup st'.1 dname = Some minp /\ tuple_lookup st'.2 dname = Some maxp /\
       minp <= val <= maxp) /\
  (forall dname minp maxp,
     tuple_lookup st.1 dname = Some minp -> tuple_lookup st.2 dname = Some maxp ->
     exists minp' maxp',
       tuple_lookup st'.1 dname = Some minp' /\ tuple_lookup st'.2 dname = Some maxp' /\
       minp' <= minp /\ maxp <= maxp') /\
  (forall dname, dname ∉ indices.*1 ->
     tuple_lookup st'.1 dname = tuple_lookup st.1 dname /\
     tuple_lookup st'.2 dname = tuple_lookup st.2 dname) /\
  (forall _vdims,
     misc_space_product 1 _vdims st'.1 st'.2 < 2^31 ->
     get_misc_space_size _vdims st'.1 st'.2 = misc_space_product 1 _vdims st'.1 st'.2 /\
     1 <= get_misc_space_size _vdims st'.1 st'.2).
Proof.
  cbv zeta. unfold update_const_indices.
  assert (M : forall st0 : list (string * Z) * list (string * Z),
            const_indices_ok st0 -> forall _vdims,
            misc_space_product 1 _vdims st0.1 st0.2 < 2^31 ->
            get_misc_space_size _vdims st0.1 st0.2
            = misc_space_product 1 _vdims st0.1 st0.2 /\
            1 <= get_misc_space_size _vdims st0.1 st0.2).
  { intros st0 Hok0 vdims Hlt.
    assert (E : get_misc_space_size vdims st0.1 st0.2
                = misc_space_product 1 vdims st0.1 st0.2)
      by (apply get_misc_space_size_exact; [exact Hok0 | lia | exact Hlt]).
    split; [exact E |]. rewrite E. apply misc_space_product_ge; [exact Hok0 | lia]. }
  revert st.
  induction indices as [|[n v] indices IH]; intros st Hok; cbn [foldl].
  - split; [exact Hok | split; [|split; [|split]]].
    + intros d val Hin. by apply elem_of_nil in Hin.
    + intros d lo hi Hlo Hhi. exists lo, hi. repeat split; (done || lia).
    + done.
    + by apply M.
  - pose proof (update_const_index_ok st (n, v) Hok) as Hok1.
    destruct (IH _ Hok1) as (I1 & I2 & I3 & I4 & I5).
    pose proof (fun d => update_const_index_lookup st n v d) as L. cbv zeta in L.
    split; [exact I1 | split; [|split; [|split; [|exact I5]]]].
    + intros d val Hin. apply elem_of_cons in Hin as [[= -> ->]|Hin]; [|by apply I2].
      destruct (L n) as [L1 L2]. rewrite decide_True in L1, L2 by done.
      destruct (I3 n _ _ L1 L2) as (lo & hi & E1 & E2 & B1 & B2).
      exists lo, hi. split; [exact E1 | split; [exact E2 |]].
      pose proof (Hok n) as Hn.
      destruct (tuple_lookup st.1 n), (tuple_lookup st.2 n); cbn in B1, B2; lia.
    + intros d lo hi Hlo Hhi. destruct (L d) as [L1 L2].
      case_decide as Hd.
      * subst d. rewrite Hlo in L1. rewrite Hhi in L2. cbn in L1, L2.
        destruct (I3 n _ _ L1 L2) as (lo' & hi' & E1 & E2 & B1 & B2).
        exists lo', hi'. repeat split; (done || lia).
      * rewrite Hlo in L1. rewrite Hhi in L2. by apply I3.
    + intros d Hd. rewrite fmap_cons in Hd. cbn in Hd.
      apply not_elem_of_cons in Hd as [Hne Hd].
      destruct (I4 d Hd) as [-> ->]. destruct (L d) as [-> ->].
      by rewrite !decide_False by congruence.
Qed.

Lemma update_const_indices_range_witness :
  let st' := update_const_indices ([], []) [("m", 3); ("n", 0); ("m", -1); ("m", 2)] in
  tuple_lookup st'.1 "m" = Some (-1) /\ tuple_lookup st'.2 "m" = Some 3 /\
  get_misc_space_size [("x", DOMAIN_INDEX); ("m", MISC_INDEX)] st'.1 st'.2 = 5 /\
  1 <= get_misc_space_size [("x", DOMAIN_INDEX); ("m", MISC_INDEX)] st'.1 st'.2.
Proof.
  intros st'.
  pose proof (update_const_indices_range ([], [])
                [("m", 3); ("n", 0); ("m", -1); ("m", 2)] ltac:(intros d; exact I))
    as (_ & _ & _ & _ & S).
  split; [reflexivity | split; [reflexivity |]].
  destruct (S [("x", DOMAIN_INDEX); ("m", MISC_INDEX)] ltac:(by vm_compute)) as [S1 S2].
  split; [etrans; [exact S1 | reflexivity] | exact S2].
Defined.

(** ** Halos taken over from another var *)

Lemma tuple_lookup_NoDup (t : list (string * Z)) d v :
  NoDup t.*1 -> (d, v) ∈ t -> tuple_lookup t d = Some v.
Proof.
  induction t as [|[n x] t IH]; intros Hnd Hin; [by apply elem_of_nil in Hin |].
  cbn in Hnd. apply NoDup_cons in Hnd as [Hn Hnd]. cbn.
  apply elem_of_cons in Hin as [[= -> ->]|Hin].
  - by rewrite decide_True.
  - rewrite decide_False; [by apply IH |].
    intros ->. apply Hn. apply list_elem_of_fmap. by exists (d, v).
Qed.

Lemma halo_max_absorb o v : halo_max (halo_max o (Some v)) (Some v) = halo_max o (Some v).
Proof. destruct o; cbn; f_equal; lia. Qed.

Lemma halo_max_idem a b : halo_max (halo_max a b) b = halo_max a b.
Proof. destruct a, b; cbn; f_equal; lia. Qed.

Lemma halo_kept_max o v : halo_kept o (halo_max o (Some v)).
Proof. destruct o as [o|]; cbn; [|done]. eexists. split; [done | lia]. Qed.

Lemma halo_max_same_or_grew o v :
  halo_max o (Some v) = o \/ halo_grew o (halo_max o (Some v)).
Proof.
  destruct o as [o|]; cbn; [|by right].
  destruct (Z.max_spec o v) as [[? ->]|[? ->]]; [right; lia | by left].
Qed.

Lemma halo_grew_kept a b c : halo_grew a b -> halo_kept b c -> halo_grew a c.
Proof.
  destruct a as [x|], b as [y|]; cbn; try done.
  - intros Hxy (z & -> & Hyz). lia.
  - intros _ (z & -> & _). done.
Qed.

Lemma halo_kept_grew a b c : halo_kept a b -> halo_grew b c -> halo_grew a c.
Proof.
  destruct a as [x|]; cbn.
  - intros (y & -> & Hxy). destruct c as [z|]; cbn; [lia | done].
  - intros _. destruct b, c; cbn; done.
Qed.

(** One dim of a tuple of the other var. *)
Lemma take_halo_dim_effect s0 l0 sv0
    (h : gmap string (gmap bool (gmap Z (list (string * Z))))) c d0 v0 :
  let r := take_halo_dim s0 l0 sv0 (h, c) (d0, v0) in
  (forall s l sv d, ~ (s = s0 /\ l = l0 /\ sv = sv0 /\ d = d0) ->
     halo_value r.1 s l sv d = halo_value h s l sv d) /\
  halo_value r.1 s0 l0 sv0 d0 = halo_max (halo_value h s0 l0 sv0 d0) (Some v0) /\
  (r.2 = true <->
     c = true \/ halo_grew (halo_value h s0 l0 sv0 d0) (halo_value r.1 s0 l0 sv0 d0)).
Proof.
  cbv zeta. unfold take_halo_dim.
  set (halos := halos_ref h s0 l0 sv0).
  set (h1 := halos_assign h s0 l0 sv0 halos).
  assert (T : forall s l sv d, halo_value h1 s l sv d = halo_value h s l sv d)
    by (intros; apply halo_value_touch).
  assert (R : halo_value h s0 l0 sv0 d0 = tuple_lookup halos d0)
    by apply halo_value_ref.
  rewrite R.
  destruct (tuple_lookup halos d0) as [p|] eqn:Hp; cbn [fst snd].
  - destruct (Z.ltb_spec p v0) as [Hlt|Hge]; cbn [fst snd].
    + split; [|split].
      * intros s l sv d Hne. rewrite halo_value_assign.
        case_decide as Hk; [|apply T].
        destruct Hk as (<- & <- & <-).
        rewrite tuple_lookup_store by (rewrite Hp; by eexists).
        case_decide as Hd; [|symmetry; apply halo_value_ref].
        subst d. exfalso. apply Hne. done.
      * rewrite halo_value_assign, decide_True by done.
        rewrite tuple_lookup_store by (rewrite Hp; by eexists).
        rewrite decide_True by done. cbn. f_equal. lia.
      * split; [|done]. intros _. right.
        rewrite halo_value_assign, decide_True by done.
        rewrite tuple_lookup_store by (rewrite Hp; by eexists).
        rewrite decide_True by done. cbn. exact Hlt.
    + split; [intros; apply T |]. split.
      * rewrite T, R. cbn. f_equal. lia.
      * split; [by left |]. intros [? | G]; [done |].
        rewrite T, R in G. cbn in G. lia.
  - split; [|split].
    + intros s l sv d Hne. rewrite halo_value_assign.
      case_decide as Hk; [|apply T].
      destruct Hk as (<- & <- & <-).
      rewrite tuple_lookup_add_dim_back by exact Hp.
      case_decide as Hd; [|symmetry; apply halo_value_ref].
      subst d. exfalso. apply Hne. done.
    + rewrite halo_value_assign, decide_True by done.
      rewrite tuple_lookup_add_dim_back by exact Hp.
      by rewrite decide_True.
    + split; [|done]. intros _. right.
      rewrite halo_value_assign, decide_True by done.
      rewrite tuple_lookup_add_dim_back by exact Hp.
      by rewrite decide_True.
Qed.

(** The halo values of the other var as one list: stage, side, step offset,
    dim and value, in the order in which [update_halo] visits them. *)
Local Abbreviation halo_entry := (string * bool * Z * string * Z)%type.

Local Abbreviation entries_of_side s l m1 :=
  (ofs_items m1 ≫= fun i1 : Z * list (string * Z) =>
     (fun dim : string * Z => (s, l, i1.1, dim.1, dim.2)) <$> i1.2).

Local Abbreviation entries_of_stage s h2 :=
  ([false; true] ≫= fun l : bool =>
     match (h2 : gmap bool (gmap Z (list (string * Z)))) !! l with
     | Some m1 => entries_of_side s l m1
     | None => []
     end).

Local Abbreviation entries_of h :=
  (map_to_list (h : gmap string (gmap bool (gmap Z (list (string * Z))))) ≫=
     fun hi : string * gmap bool (gmap Z (list (string * Z))) =>
       entries_of_stage hi.1 hi.2).

Local Abbreviation take_entry :=
  (fun (st : gmap string (gmap bool (gmap Z (list (string * Z)))) * bool)
       (e : halo_entry) =>
     take_halo_dim e.1.1.1.1 e.1.1.1.2 e.1.1.2 st (e.1.2, e.2)).

(** The nested loops are one loop over the entries. *)
Lemma take_halo_flat (h ho : gmap string (gmap bool (gmap Z (list (string * Z))))) c :
  foldl (fun st (hi : string * gmap bool (gmap Z (list (string * Z)))) =>
           take_halo_sides hi.1 st hi.2) (h, c) (map_to_list ho)
  = foldl take_entry (h, c) (entries_of ho).
Proof.
  rewrite foldl_bind. apply foldl_ext_fun. intros st [s h2]. cbn [fst snd].
  unfold take_halo_sides. rewrite foldl_bind. apply foldl_ext_fun. intros st' l.
  destruct (h2 !! l) as [m1|]; [|reflexivity].
  unfold take_halo_steps. rewrite foldl_bind. apply foldl_ext_fun. intros st'' [sv t].
  cbn [fst snd]. rewrite foldl_fmap. symmetry.
  apply foldl_ext_fun. intros a [d val]. reflexivity.
Qed.

(** The entries are the halo values of the other var. *)
Lemma elem_of_entries (v : Var) s l sv d val :
  halo_tuples_ok v ->
  (s, l, sv, d, val) ∈ entries_of (_halos v)
  <-> halo_value (_halos v) s l sv d = Some val.
Proof.
  intros Hok. unfold halo_value. split.
  - intros Hin. apply list_elem_of_bind in Hin as ([s' h2] & Hin & Hs).
    apply elem_of_map_to_list in Hs. cbn [fst snd] in Hin.
    apply list_elem_of_bind in Hin as (l' & Hin & _).
    destruct (h2 !! l') as [m1|] eqn:El; [|by apply elem_of_nil in Hin].
    apply list_elem_of_bind in Hin as ([sv' t] & Hin & Hsv).
    apply elem_of_ofs_items in Hsv. cbn [fst snd] in Hin.
    apply list_elem_of_fmap in Hin as ([d' val'] & [= -> -> -> -> ->] & Hd).
    rewrite Hs. cbn. rewrite El. cbn. rewrite Hsv. cbn.
    apply tuple_lookup_NoDup; [|exact Hd]. by eapply Hok.
  - intros Hv.
    destruct (_halos v !! s) as [h2|] eqn:Es; cbn in Hv; [|discriminate].
    destruct (h2 !! l) as [m1|] eqn:El; cbn in Hv; [|discriminate].
    destruct (m1 !! sv) as [t|] eqn:Esv; cbn in Hv; [|discriminate].
    apply list_elem_of_bind. exists (s, h2). split; [|by apply elem_of_map_to_list].
    cbn [fst snd]. apply list_elem_of_bind. exists l.
    split; [|destruct l; set_solver].
    rewrite El. apply list_elem_of_bind. exists (sv, t).
    split; [|by apply elem_of_ofs_items].
    cbn [fst snd]. apply list_elem_of_fmap. exists (d, val).
    split; [reflexivity | by apply tuple_lookup_elem].
Qed.

(** The loop over a list of entries: every value is the larger of the old
    value and the values of the entries with its key; no value is lost or
    lowered; and [changed] is set exactly when a value was added or
    raised. *)
Lemma take_entries (es : list halo_entry) :
  forall (h : gmap string (gmap bool (gmap Z (list (string * Z))))) c,
  let r := foldl take_entry (h, c) es in
  (forall s l sv d,
     halo_value r.1 s l sv d
     = foldl (fun o (e : halo_entry) =>
                if decide (e.1 = (s, l, sv, d)) then halo_max o (Some e.2) else o)
             (halo_value h s l sv d) es) /\
  (forall s l sv d, halo_kept (halo_value h s l sv d) (halo_value r.1 s l sv d)) /\
  (r.2 = true <->
     c = true \/
     exists s l sv d, halo_grew (halo_value h s l sv d) (halo_value r.1 s l sv d)).
Proof.
  induction es as [|[[[[s0 l0] sv0] d0] v0] es IH]; intros h c; cbv zeta; cbn [foldl].
  - cbn. split; [done | split; [intros; apply halo_kept_refl |]].
    split; [by left |]. intros [? | (s & l & sv & d & G)]; [done |].
    by apply halo_grew_irrefl in G.
  - cbn [fst snd].
    destruct (take_halo_dim s0 l0 sv0 (h, c) (d0, v0)) as [h1 c1] eqn:E.
    pose proof (take_halo_dim_effect s0 l0 sv0 h c d0 v0) as (E1 & E2 & E3).
    cbv zeta in E1, E2, E3. rewrite E in E1, E2, E3. cbn [fst snd] in E1, E2, E3.
    destruct (IH h1 c1) as (A & K & B). cbv zeta in A, K, B.
    set (r := foldl _ (h1, c1) es) in *.
    assert (K1 : forall s l sv d,
              halo_kept (halo_value h s l sv d) (halo_value h1 s l sv d)).
    { intros s l sv d.
      destruct (decide (s = s0 /\ l = l0 /\ sv = sv0 /\ d = d0))
        as [(-> & -> & -> & ->)|Hne].
      - rewrite E2. apply halo_kept_max.
      - rewrite E1 by exact Hne. apply halo_kept_refl. }
    split; [|split].
    + intros s l sv d. rewrite A. f_equal.
      case_decide as Hk.
      * injection Hk as -> -> -> ->. exact E2.
      * apply E1. intros (-> & -> & -> & ->). by apply Hk.
    + intros s l sv d. eapply halo_kept_trans; [apply K1 | apply K].
    + rewrite B, E3. split.
      * intros [[Hc | G] | (s & l & sv & d & G)].
        -- by left.
        -- right. exists s0, l0, sv0, d0. eapply halo_grew_kept; [exact G | apply K].
        -- right. exists s, l, sv, d. eapply halo_kept_grew; [apply K1 | exact G].
      * intros [Hc | (s & l & sv & d & G)]; [by left; left |].
        destruct (decide (s = s0 /\ l = l0 /\ sv = sv0 /\ d = d0))
          as [(-> & -> & -> & ->)|Hne].
        -- destruct (halo_max_same_or_grew (halo_value h s0 l0 sv0 d0) v0) as [Hs|Hg].
           ++ right. exists s0, l0, sv0, d0. by rewrite E2, Hs.
           ++ left. right. by rewrite E2.
        -- right. exists s, l, sv, d. by rewrite (E1 s l sv d Hne).
Qed.

(** Folding the values of the entries with one key, all of which are [v]. *)
Lemma fold_key_absorb (es : list halo_entry) (k : string * bool * Z * string) v :
  (forall e, e ∈ es -> e.1 = k -> e.2 = v) ->
  forall o,
    foldl (fun o (e : halo_entry) =>
             if decide (e.1 = k) then halo_max o (Some e.2) else o)
          (halo_max o (Some v)) es
    = halo_max o (Some v).
Proof.
  induction es as [|e es IH]; intros Hall o; [reflexivity |].
  cbn [foldl]. case_decide as Hk.
  - rewrite (Hall e ltac:(by left) Hk), halo_max_absorb.
    apply IH. intros; apply Hall; [by right | done].
  - apply IH. intros; apply Hall; [by right | done].
Qed.

Lemma fold_key_some (es : list halo_entry) (k : string * bool * Z * string) v :
  (forall e, e ∈ es -> e.1 = k -> e.2 = v) ->
  (exists e, e ∈ es /\ e.1 = k) ->
  forall o,
    foldl (fun o (e : halo_entry) =>
             if decide (e.1 = k) then halo_max o (Some e.2) else o) o es
    = halo_max o (Some v).
Proof.
  induction es as [|e es IH]; intros Hall (e' & Hin & Hk) o;
    [by apply elem_of_nil in Hin |].
  cbn [foldl]. case_decide as Hk0.
  - rewrite (Hall e ltac:(by left) Hk0).
    apply fold_key_absorb. intros; apply Hall; [by right | done].
  - apply IH; [intros; apply Hall; [by right | done] |].
    apply elem_of_cons in Hin as [-> | Hin]; [done |]. by exists e'.
Qed.

Lemma fold_key_none (es : list halo_entry) (k : string * bool * Z * string) :
  (forall e, e ∈ es -> e.1 <> k) ->
  forall o,
    foldl (fun o (e : halo_entry) =>
             if decide (e.1 = k) then halo_max o (Some e.2) else o) o es
    = o.
Proof.
  induction es as [|e es IH]; intros Hall o; [reflexivity |].
  cbn [foldl]. rewrite decide_False by (apply Hall; by left).
  apply IH. intros; apply Hall; by right.
Qed.

(** The halos and the flag after [update_halo(other)]. *)
Lemma update_halo_other_spec (v other : Var) :
  halo_tuples_ok other ->
  let r := update_halo_other v other in
  (forall s l sv d,
     halo_value (_halos r.1) s l sv d
     = halo_max (halo_value (_halos v) s l sv d) (halo_value (_halos other) s l sv d)) /\
  (r.2 = true <->
     exists s l sv d,
       halo_grew (halo_value (_halos v) s l sv d) (halo_value (_halos r.1) s l sv d)).
Proof.
  intros Hok. cbv zeta. unfold update_halo_other. rewrite take_halo_flat.
  pose proof (take_entries (entries_of (_halos other)) (_halos v) false) as (A & _ & B).
  cbv zeta in A, B.
  destruct (foldl _ _ (entries_of (_halos other))) as [h' c']. cbn [fst snd _halos] in *.
  split.
  - intros s l sv d. rewrite A.
    destruct (halo_value (_halos other) s l sv d) as [ov|] eqn:Eo.
    + apply fold_key_some.
      * intros [k val] Hin Hk. cbn in Hk. subst k. cbn.
        apply (elem_of_entries other) in Hin; [|exact Hok]. congruence.
      * exists (s, l, sv, d, ov). split; [|reflexivity].
        by apply (elem_of_entries other).
    + rewrite fold_key_none; [by destruct (halo_value (_halos v) s l sv d) |].
      intros [k val] Hin Hk. cbn in Hk. subst k.
      apply (elem_of_entries other) in Hin; [|exact Hok]. congruence.
  - rewrite B. split; [intros [? | ?]; done | by right].
Qed.

(** X24 (halos of another var).  [update_halo(other)], on a var [other] whose
    halo tuples have distinct dim names, leaves for every stage, side, step
    offset and dim the larger of the var's own halo value and that of
    [other] (the one that exists if only one does); no value is lost or
    lowered.  It returns [true] exactly when a value was added or raised,
    the L1 distance becomes the larger of the two, and a second call with
    the same [other] returns [false] and changes no halo value. *)
Theorem update_halo_other_max (v other : Var) :
  halo_tuples_ok other ->
  let r := update_halo_other v other in
  (forall s l sv d,
     halo_value (_halos r.1) s l sv d
     = halo_max (halo_value (_halos v) s l sv d) (halo_value (_halos other) s l sv d)) /\
  (forall s l sv d,
     halo_kept (halo_value (_halos v) s l sv d) (halo_value (_halos r.1) s l sv d) /\
     halo_kept (halo_value (_halos other) s l sv d) (halo_value (_halos r.1) s l sv d)) /\
  (r.2 = true <->
     exists s l sv d,
       halo_grew (halo_value (_halos v) s l sv d) (halo_value (_halos r.1) s l sv d)) /\
  _l1_dist r.1 = Z.max (_l1_dist v) (_l1_dist other) /\
  (update_halo_other r.1 other).2 = false /\
  (forall s l sv d,
     halo_value (_halos (update_halo_other r.1 other).1) s l sv d
     = halo_value (_halos r.1) s l sv d).
Proof.
  intros Hok. cbv zeta.
  destruct (update_halo_other_spec v other Hok) as [A B]. cbv zeta in A, B.
  destruct (update_halo_other_spec (update_halo_other v other).1 other Hok) as [A2 B2].
  cbv zeta in A2, B2.
  assert (Same : forall s l sv d,
            halo_value (_halos (update_halo_other (update_halo_other v other).1 other).1)
              s l sv d
            = halo_value (_halos (update_halo_other v other).1) s l sv d).
  { intros s l sv d. rewrite A2, A. apply halo_max_idem. }
  split; [exact A | split; [|split; [exact B | split; [|split; [|exact Same]]]]].
  - intros s l sv d. rewrite A.
    destruct (halo_value (_halos v) s l sv d) as [x|],
             (halo_value (_halos other) s l sv d) as [y|]; cbn;
      (split; try done; eexists; (split; [reflexivity | lia])).
  - unfold update_halo_other.
    destruct (foldl _ _ (map_to_list (_halos other))) as [h c]. reflexivity.
  - destruct (update_halo_other (update_halo_other v other).1 other).2 eqn:E;
      [|reflexivity].
    destruct (proj1 B2 eq_refl) as (s & l & sv & d & G). rewrite Same in G.
    by apply halo_grew_irrefl in G.
Qed.

Lemma update_halo_other_max_witness :
  let r := update_halo_other (var_halo_example 2 5) (var_halo_example 3 1) in
  halo_value (_halos r.1) "s0" true 0 "x" = Some 3 /\
  halo_value (_halos r.1) "s0" true 0 "y" = Some 5 /\
  (update_halo_other r.1 (var_halo_example 3 1)).2 = false.
Proof.
  intros r.
  assert (Hok : halo_tuples_ok (var_halo_example 3 1)).
  { intros s h2 l h3 sv t Hs Hl Hsv. cbn in Hs.
    apply lookup_singleton_Some in Hs as [<- <-].
    apply lookup_singleton_Some in Hl as [<- <-].
    apply lookup_singleton_Some in Hsv as [<- <-].
    apply (bool_decide_unpack _). by vm_compute. }
  pose proof (update_halo_other_max (var_halo_example 2 5) (var_halo_example 3 1) Hok)
    as (A & _ & _ & _ & I & _).
  subst r. split; [|split; [|exact I]].
  - rewrite (A "s0"%string true 0 "x"%string). reflexivity.
  - rewrite (A "s0"%string true 0 "y"%string). reflexivity.
Defined.

(** ** Storage layout of kernel vars *)

(** What the test amounts to. *)
Lemma layout_dim_identical_spec v op check_sizes i :
  layout_dim_identical v op check_sizes i = true <->
  get_dim_name v i = get_dim_name op i /\
  at_ (_var_vec_lens v) i = at_ (_var_vec_lens op) i /\
  (check_sizes = true ->
     at_ (_domains v) i = at_ (_domains op) i /\
     at_ (_actl_left_pads v) i = at_ (_actl_left_pads op) i /\
     at_ (_actl_right_pads v) i = at_ (_actl_right_pads op) i).
Proof.
  unfold layout_dim_identical.
  case_bool_decide as Hn; cbn [negb]; [|split; [discriminate | tauto]].
  destruct (Z.eqb_spec (at_ (_var_vec_lens v) i) (at_ (_var_vec_lens op) i));
    cbn [negb]; [|split; [discriminate | tauto]].
  destruct check_sizes; [|split; [repeat split; (done || discriminate) | done]].
  destruct (Z.eqb_spec (at_ (_domains v) i) (at_ (_domains op) i));
    cbn [negb]; [|split; [discriminate | intros (_ & _ & H); destruct (H eq_refl); tauto]].
  destruct (Z.eqb_spec (at_ (_actl_left_pads v) i) (at_ (_actl_left_pads op) i));
    cbn [negb];
    [|split; [discriminate | intros (_ & _ & H); destruct (H eq_refl) as (_ & ? & _); tauto]].
  destruct (Z.eqb_spec (at_ (_actl_right_pads v) i) (at_ (_actl_right_pads op) i));
    cbn [negb];
    [|split; [discriminate | intros (_ & _ & H); destruct (H eq_refl) as (_ & _ & ?); tauto]].
  split; [|done]. intros _. repeat split; done.
Qed.

Lemma is_storage_layout_identical_spec v op check_sizes :
  is_storage_layout_identical v op check_sizes = true <->
  (check_sizes = true -> vl_num_storage_bytes v = vl_num_storage_bytes op) /\
  length (vl_dim_names v) = length (vl_dim_names op) /\
  forall i, (i < length (vl_dim_names v))%nat ->
    layout_dim_identical v op check_sizes i = true.
Proof.
  unfold is_storage_layout_identical.
  assert (F : forallb (layout_dim_identical v op check_sizes)
                (seq 0 (length (vl_dim_names v))) = true <->
              forall i, (i < length (vl_dim_names v))%nat ->
                layout_dim_identical v op check_sizes i = true).
  { rewrite forallb_forall. split; intros H i Hi; apply H.
    - apply in_seq. lia.
    - apply in_seq in Hi. lia. }
  destruct check_sizes; cbn [andb].
  - destruct (Z.eqb_spec (vl_num_storage_bytes v) (vl_num_storage_bytes op));
      cbn [negb]; [|split; [discriminate | intros [H _]; by destruct (n (H eq_refl))]].
    destruct (Nat.eqb_spec (length (vl_dim_names v)) (length (vl_dim_names op)));
      cbn [negb]; [|split; [discriminate | tauto]].
    rewrite F. tauto.
  - destruct (Nat.eqb_spec (length (vl_dim_names v)) (length (vl_dim_names op)));
      cbn [negb]; [|split; [discriminate | tauto]].
    rewrite F. split; [intros H; repeat split; (done || discriminate) | tauto].
Qed.

(** X25 (storage layout).  For either value of [check_sizes],
    [is_storage_layout_identical] is an equivalence on vars: a var is
    identical to itself, the test does not depend on the order of the two
    vars, and two vars identical to a third are identical to each other.
    The test with [check_sizes] implies the test without it, and vars with
    different numbers of dims are never identical. *)
Theorem is_storage_layout_identical_equiv (check_sizes : bool) :
  (forall v, is_storage_layout_identical v v check_sizes = true) /\
  (forall v op, is_storage_layout_identical op v check_sizes
                = is_storage_layout_identical v op check_sizes) /\
  (forall v op op',
     is_storage_layout_identical v op check_sizes = true ->
     is_storage_layout_identical op op' check_sizes = true ->
     is_storage_layout_identical v op' check_sizes = true) /\
  (forall v op,
     is_storage_layout_identical v op true = true ->
     is_storage_layout_identical v op false = true) /\
  (forall v op,
     length (vl_dim_names v) <> length (vl_dim_names op) ->
     is_storage_layout_identical v op check_sizes = false).
Proof.
  assert (Sym : forall v op, is_storage_layout_identical v op check_sizes = true ->
                  is_storage_layout_identical op v check_sizes = true).
  { intros v op. rewrite !is_storage_layout_identical_spec.
    intros (Hb & Hl & Hd). split; [intros; symmetry; by apply Hb |].
    split; [by symmetry |]. intros i Hi.
    specialize (Hd i ltac:(lia)). rewrite layout_dim_identical_spec in *.
    destruct Hd as (H1 & H2 & H3). split; [by symmetry | split; [by symmetry |]].
    intros Hc. destruct (H3 Hc) as (? & ? & ?). repeat split; by symmetry. }
  split; [|split; [|split; [|split]]].
  - intros v. apply is_storage_layout_identical_spec.
    split; [done | split; [done |]]. intros i _.
    apply layout_dim_identical_spec. repeat split; done.
  - intros v op.
    destruct (is_storage_layout_identical v op check_sizes) eqn:E1.
    + by apply Sym.
    + destruct (is_storage_layout_identical op v check_sizes) eqn:E2; [|reflexivity].
      apply Sym in E2. congruence.
  - intros v op op'. rewrite !is_storage_layout_identical_spec.
    intros (Hb & Hl & Hd) (Hb' & Hl' & Hd').
    split; [intros Hc; rewrite (Hb Hc); by apply Hb' |].
    split; [congruence |]. intros i Hi.
    specialize (Hd i Hi). specialize (Hd' i ltac:(lia)).
    rewrite layout_dim_identical_spec in *.
    destruct Hd as (H1 & H2 & H3), Hd' as (H1' & H2' & H3').
    split; [congruence | split; [congruence |]].
    intros Hc. destruct (H3 Hc) as (? & ? & ?), (H3' Hc) as (? & ? & ?).
    repeat split; congruence.
  - intros v op. rewrite !is_storage_layout_identical_spec.
    intros (_ & Hl & Hd). split; [discriminate | split; [exact Hl |]].
    intros i Hi. specialize (Hd i Hi). rewrite layout_dim_identical_spec in *.
    destruct Hd as (H1 & H2 & _). split; [exact H1 | split; [exact H2 | discriminate]].
  - intros v op Hne.
    destruct (is_storage_layout_identical v op check_sizes) eqn:E; [|reflexivity].
    apply is_storage_layout_identical_spec in E as (_ & Hl & _). contradiction.
Qed.
